(** * cc-profiler: session runtime, verified against its specification

    A shallow embedding of the parts of the profiler that the specification's
    properties talk about:

    - [Schema]      the persisted record types       (src/session/schema.ts)
    - [Tracker]     the interaction / turn tracker   (src/pty/interactionTracker.ts)
    - [Markers]     marker lines and events          (src/session/markers.ts)
    - [JsonlSelect] external-log selection           (src/session/jsonlTracker.ts)
    - [Correlate]   the external-log correlator      (src/session/jsonlCorrelate.ts)
    - [Session]     the runtime's finalize           (src/session/runSession.ts)
    - [Wiring]      the runtime's stream handlers    (src/session/runSession.ts)
    - [Js], [Json], [Stringify]  the JavaScript values and operations these use
    - [TrackerSession]  the tracker over a whole session
    - [CorrelateResult] the correlation over a whole log
    - [JsonlSamples]    selection by content, size samples (src/session/jsonlTracker.ts)
    - [JsonlScan]       the scan for external logs    (src/session/jsonlTracker.ts)
    - [MarkerWatcher]   the marker watcher            (src/session/markerWatcher.ts)
    - [Report]          escaping in the report        (src/report/generate.ts)
    - [SessionRun]      the session up to the written document

    The modules whose names end in [Spec] hold the statements and invariants,
    those whose names end in [Facts] the proofs.

    Conventions.  A TypeScript [number] that carries milliseconds, byte counts,
    indices or identifiers is an integer of [Z].  Optional fields are [option].
    A string is held as the bytes of its UTF-8 form; its length, its slices
    and the order of [sort] are those of its UTF-16 code units, and [trim]
    removes the white space of ECMAScript.  Callbacks ([onTurn],
    [onInteraction]) append to an emission log.  The JavaScript timer queue
    ([setTimeout] / [clearTimeout]) is part of the modelled world, with its
    own clock and with the delays that Node gives its timers.  An
    asynchronous function runs from one [await] to the next when the
    schedule lets it. *)

From Stdlib Require Import ZArith List Bool String Ascii Lia DecimalString Sorted.
From stdpp Require Import base gmap strings list.
Import ListNotations.

Local Open Scope Z_scope.
Set Warnings "-register-all,-clear-no-such-hyp".

(* ===================================================================== *)
(** * Schema: src/session/schema.ts                                       *)
(* ===================================================================== *)

Module Schema.

Inductive TurnDetectionMode := enter | hotkey.
Inductive InteractionKind := keystroke | turn.
Inductive EndReason := burstIdle | timeout | sessionEnd | overlap.

Record TurnEvent := mkTurnEvent {
  index : Z;
  tMs : Z;
  source : TurnDetectionMode }.

Record Interaction := mkInteraction {
  id : Z;
  kind : InteractionKind;
  t0Ms : Z;
  t1Ms : option Z;
  t2Ms : option Z;
  inputBytes : Z;
  outputBytes : Z;
  turnIndex : option Z;
  endReason : EndReason }.

Record MarkerEvent := mkMarkerEvent {
  m_tMs : Z;
  label : option string;
  labelSha256 : option string }.

#[global] Instance TurnDetectionMode_eq_dec : EqDecision TurnDetectionMode.
Proof. solve_decision. Defined.
#[global] Instance InteractionKind_eq_dec : EqDecision InteractionKind.
Proof. solve_decision. Defined.
#[global] Instance EndReason_eq_dec : EqDecision EndReason.
Proof. solve_decision. Defined.

Definition mode_eqb (a b : TurnDetectionMode) : bool :=
  match a, b with
  | enter, enter | hotkey, hotkey => true
  | _, _ => false
  end.

Definition reason_eqb (a b : EndReason) : bool :=
  match a, b with
  | burstIdle, burstIdle | timeout, timeout
  | sessionEnd, sessionEnd | overlap, overlap => true
  | _, _ => false
  end.

End Schema.

(* ===================================================================== *)
(** * The interaction tracker: src/pty/interactionTracker.ts              *)
(* ===================================================================== *)

Module Tracker.
Import Schema.

(** [str.includes("\n") || str.includes("\r")] *)
Fixpoint includes_char (c : ascii) (str : string) : bool :=
  match str with
  | EmptyString => false
  | String x rest => Ascii.eqb x c || includes_char c rest
  end.

Definition bufferContainsEnter (str : string) : bool :=
  includes_char "010"%char str || includes_char "013"%char str.

(** An [ActiveInteraction] object.  Objects live in a store keyed by their
    [id] (fresh at allocation, [this.nextId++]); the tracker's two slots and
    the timer closures hold such keys, so that a closure and a slot that
    hold the same key see the same object. *)
Record ActiveInteraction := mkActive {
  ai_id : Z;
  ai_kind : InteractionKind;
  ai_t0Ms : Z;
  firstOutputAtMs : option Z;
  lastOutputAtMs : option Z;
  ai_inputBytes : Z;
  ai_outputBytes : Z;
  ai_turnIndex : option Z;
  idleTimer : option nat;
  noOutputTimeout : option nat }.

(** What a pending timer will run: the two closures of the source, each
    capturing the interaction object [it]. *)
Inductive TimerAction :=
| NoOutputFire (it : Z)   (* if (it.firstOutputAtMs == null) finalize(it, "timeout") *)
| IdleFire (it : Z).      (* finalize(it, "burstIdle") *)

Record Timer := mkTimer {
  handle : nat;
  deadline : Z;
  action : TimerAction }.

Inductive Emission :=
| OnTurn (t : TurnEvent)
| OnInteraction (i : Interaction).

Record InteractionTrackerOptions := mkOptions {
  burstIdleMs : Z;
  interactionTimeoutMs : Z;
  turnDetection : TurnDetectionMode }.

(** The tracker's private fields, the object store, the host's timer queue
    (pending timers in firing order) with its clock, and the log of callback
    invocations. *)
Record World := mkWorld {
  nextId : Z;
  turnIndex : Z;
  activeKeystroke : option Z;
  activeTurn : option Z;
  heap : gmap Z ActiveInteraction;
  timers : list Timer;
  nextHandle : nat;
  clock : Z;
  emitted : list Emission }.

Definition init : World :=
  {| nextId := 1; turnIndex := 0;
     activeKeystroke := None; activeTurn := None;
     heap := ∅; timers := []; nextHandle := 0%nat; clock := 0;
     emitted := [] |}.

(** ** Field updates *)

Definition set_nextId (v : Z) (w : World) : World :=
  mkWorld v (turnIndex w) (activeKeystroke w) (activeTurn w) (heap w)
          (timers w) (nextHandle w) (clock w) (emitted w).
Definition set_turnIndex (v : Z) (w : World) : World :=
  mkWorld (nextId w) v (activeKeystroke w) (activeTurn w) (heap w)
          (timers w) (nextHandle w) (clock w) (emitted w).
Definition set_activeKeystroke (v : option Z) (w : World) : World :=
  mkWorld (nextId w) (turnIndex w) v (activeTurn w) (heap w)
          (timers w) (nextHandle w) (clock w) (emitted w).
Definition set_activeTurn (v : option Z) (w : World) : World :=
  mkWorld (nextId w) (turnIndex w) (activeKeystroke w) v (heap w)
          (timers w) (nextHandle w) (clock w) (emitted w).
Definition set_heap (v : gmap Z ActiveInteraction) (w : World) : World :=
  mkWorld (nextId w) (turnIndex w) (activeKeystroke w) (activeTurn w) v
          (timers w) (nextHandle w) (clock w) (emitted w).
Definition set_timers (v : list Timer) (w : World) : World :=
  mkWorld (nextId w) (turnIndex w) (activeKeystroke w) (activeTurn w) (heap w)
          v (nextHandle w) (clock w) (emitted w).
Definition set_nextHandle (v : nat) (w : World) : World :=
  mkWorld (nextId w) (turnIndex w) (activeKeystroke w) (activeTurn w) (heap w)
          (timers w) v (clock w) (emitted w).
Definition set_clock (v : Z) (w : World) : World :=
  mkWorld (nextId w) (turnIndex w) (activeKeystroke w) (activeTurn w) (heap w)
          (timers w) (nextHandle w) v (emitted w).
Definition emit (e : Emission) (w : World) : World :=
  mkWorld (nextId w) (turnIndex w) (activeKeystroke w) (activeTurn w) (heap w)
          (timers w) (nextHandle w) (clock w) (emitted w ++ [e]).

Definition set_firstOutputAtMs (v : option Z) (it : ActiveInteraction) :=
  mkActive (ai_id it) (ai_kind it) (ai_t0Ms it) v (lastOutputAtMs it)
           (ai_inputBytes it) (ai_outputBytes it) (ai_turnIndex it)
           (idleTimer it) (noOutputTimeout it).
Definition set_lastOutputAtMs (v : option Z) (it : ActiveInteraction) :=
  mkActive (ai_id it) (ai_kind it) (ai_t0Ms it) (firstOutputAtMs it) v
           (ai_inputBytes it) (ai_outputBytes it) (ai_turnIndex it)
           (idleTimer it) (noOutputTimeout it).
Definition set_inputBytes (v : Z) (it : ActiveInteraction) :=
  mkActive (ai_id it) (ai_kind it) (ai_t0Ms it) (firstOutputAtMs it)
           (lastOutputAtMs it) v (ai_outputBytes it) (ai_turnIndex it)
           (idleTimer it) (noOutputTimeout it).
Definition set_outputBytes (v : Z) (it : ActiveInteraction) :=
  mkActive (ai_id it) (ai_kind it) (ai_t0Ms it) (firstOutputAtMs it)
           (lastOutputAtMs it) (ai_inputBytes it) v (ai_turnIndex it)
           (idleTimer it) (noOutputTimeout it).
Definition set_idleTimer (v : option nat) (it : ActiveInteraction) :=
  mkActive (ai_id it) (ai_kind it) (ai_t0Ms it) (firstOutputAtMs it)
           (lastOutputAtMs it) (ai_inputBytes it) (ai_outputBytes it)
           (ai_turnIndex it) v (noOutputTimeout it).
Definition set_noOutputTimeout (v : option nat) (it : ActiveInteraction) :=
  mkActive (ai_id it) (ai_kind it) (ai_t0Ms it) (firstOutputAtMs it)
           (lastOutputAtMs it) (ai_inputBytes it) (ai_outputBytes it)
           (ai_turnIndex it) (idleTimer it) v.

(** ** The host's timers *)

(** The queue is kept in firing order: by deadline, and among equal
    deadlines in order of creation. *)
Fixpoint insert_timer (t : Timer) (q : list Timer) : list Timer :=
  match q with
  | [] => [t]
  | x :: rest =>
      if deadline x <=? deadline t then x :: insert_timer t rest else t :: q
  end.

Definition remove_handle (h : nat) (q : list Timer) : list Timer :=
  List.filter (fun t => negb (Nat.eqb (handle t) h)) q.

Definition pending (h : nat) (q : list Timer) : bool :=
  existsb (fun t => Nat.eqb (handle t) h) q.

(** The delay of a timer: Node's [setTimeout] takes a delay from 1 ms to
    [TIMEOUT_MAX] and sets any other to 1 ms. *)
Definition TIMEOUT_MAX : Z := 2147483647.

Definition timerDelay (ms : Z) : Z :=
  if (1 <=? ms) && (ms <=? TIMEOUT_MAX) then ms else 1.

(** [setTimeout(cb, ms)]: a fresh handle, due [timerDelay ms] after the
    current time. *)
Definition setTimeout (a : TimerAction) (ms : Z) (w : World) : nat * World :=
  let h := nextHandle w in
  (h, set_nextHandle (S h)
        (set_timers (insert_timer (mkTimer h (clock w + timerDelay ms) a) (timers w)) w)).

(** [if (t) clearTimeout(t)] *)
Definition clear_opt (t : option nat) (q : list Timer) : list Timer :=
  match t with
  | Some h => remove_handle h q
  | None => q
  end.

Definition clearTimeout (t : option nat) (w : World) : World :=
  set_timers (clear_opt t (timers w)) w.

(** [if (slot?.id === i) slot = undefined] *)
Definition clearIf (i : Z) (slot : option Z) : option Z :=
  if decide (slot = Some i) then None else slot.

(** The record that [finalize] hands to [onInteraction]. *)
Definition toInteraction (it : ActiveInteraction) (reason : EndReason) : Interaction :=
  {| id := ai_id it;
     kind := ai_kind it;
     t0Ms := ai_t0Ms it;
     t1Ms := match firstOutputAtMs it with
             | None => None
             | Some f => Some (f - ai_t0Ms it)
             end;
     t2Ms := match lastOutputAtMs it with
             | None => None
             | Some l => Some (l - ai_t0Ms it)
             end;
     inputBytes := ai_inputBytes it;
     outputBytes := ai_outputBytes it;
     Schema.turnIndex := ai_turnIndex it;
     endReason := reason |}.

(** ** private finalize(it, reason) *)
Definition finalize (r : Z) (reason : EndReason) (w : World) : World :=
  match heap w !! r with
  | None => w
  | Some it =>
      let w1 := clearTimeout (idleTimer it) w in
      let w2 := clearTimeout (noOutputTimeout it) w1 in
      let interaction := toInteraction it reason in
      let w3 := set_activeKeystroke (clearIf (ai_id it) (activeKeystroke w2)) w2 in
      let w4 := set_activeTurn (clearIf (ai_id it) (activeTurn w3)) w3 in
      emit (OnInteraction interaction) w4
  end.

(** What [observeOutput] writes into the object before it re-arms the idle
    timer: the first-output stamp (once), the last-output stamp, the bytes. *)
Definition noteOutput (now bytes : Z) (it : ActiveInteraction) : ActiveInteraction :=
  let it1 :=
    match firstOutputAtMs it with
    | None => set_noOutputTimeout None (set_firstOutputAtMs (Some now) it)
    | Some _ => it
    end in
  set_outputBytes (ai_outputBytes it1 + bytes) (set_lastOutputAtMs (Some now) it1).

Section WithOptions.
Context (opts : InteractionTrackerOptions).

(** ** private startInteraction(kind, t0Ms, extra) *)
Definition startInteraction (k : InteractionKind) (t0 : Z)
    (extra : option Z) (w : World) : Z * World :=
  let i := nextId w in
  let w1 := set_nextId (i + 1) w in
  let it := mkActive i k t0 None None 0 0 extra None None in
  let '(h, w2) := setTimeout (NoOutputFire i) (interactionTimeoutMs opts) w1 in
  (i, set_heap (<[i := set_noOutputTimeout (Some h) it]> (heap w2)) w2).

(** ** private observeOutput(it, nowMs, bytes) *)
Definition observeOutput (r : Z) (now bytes : Z) (w : World) : World :=
  match heap w !! r with
  | None => w
  | Some it =>
      let w1 :=
        match firstOutputAtMs it with
        | None => clearTimeout (noOutputTimeout it) w
        | Some _ => w
        end in
      let it2 := noteOutput now bytes it in
      let w2 := clearTimeout (idleTimer it2) w1 in
      let '(h, w3) := setTimeout (IdleFire r) (burstIdleMs opts) w2 in
      set_heap (<[r := set_idleTimer (Some h) it2]> (heap w3)) w3
  end.

(** ** private beginTurn(source, now) *)
Definition beginTurn (src : TurnDetectionMode) (now : Z) (w : World) : World :=
  let w1 := set_turnIndex (turnIndex w + 1) w in
  let w2 := emit (OnTurn (mkTurnEvent (turnIndex w1) now src)) w1 in
  let w3 :=
    match activeTurn w2 with
    | Some t => set_activeTurn None (finalize t overlap w2)
    | None => w2
    end in
  let '(i, w4) := startInteraction turn now (Some (turnIndex w3)) w3 in
  set_activeTurn (Some i) w4.

(** [it.inputBytes += byteLen] *)
Definition addInput (r : Z) (byteLen : Z) (w : World) : World :=
  match heap w !! r with
  | None => w
  | Some it =>
      set_heap (<[r := set_inputBytes (ai_inputBytes it + byteLen) it]> (heap w)) w
  end.

(** ** handleInput(data, byteLen), with [now] the value of [this.nowMs()] *)
Definition handleInput (data : string) (byteLen now : Z) (w : World) : World :=
  let '(k, w1) :=
    match activeKeystroke w with
    | Some k => (k, w)
    | None =>
        let '(i, w') := startInteraction keystroke now None w in
        (i, set_activeKeystroke (Some i) w')
    end in
  let w2 := addInput k byteLen w1 in
  if mode_eqb (turnDetection opts) enter && bufferContainsEnter data then
    let w3 := beginTurn enter now w2 in
    match activeTurn w3 with
    | Some t => addInput t byteLen w3
    | None => w3
    end
  else
    match activeTurn w2 with
    | Some t => addInput t byteLen w2
    | None => w2
    end.

(** ** handleOutput(byteLen) *)
Definition handleOutput (byteLen now : Z) (w : World) : World :=
  let w1 := match activeKeystroke w with
            | Some k => observeOutput k now byteLen w
            | None => w
            end in
  match activeTurn w1 with
  | Some t => observeOutput t now byteLen w1
  | None => w1
  end.

(** ** endSession() *)
Definition endSession (w : World) : World :=
  let w1 := match activeKeystroke w with
            | Some k => finalize k sessionEnd w
            | None => w
            end in
  let w2 := match activeTurn w1 with
            | Some t => finalize t sessionEnd w1
            | None => w1
            end in
  set_activeTurn None (set_activeKeystroke None w2).

(** ** markTurn(source) *)
Definition markTurn (src : TurnDetectionMode) (now : Z) (w : World) : World :=
  beginTurn src now w.

(** ** The timer callbacks *)
Definition fire (a : TimerAction) (w : World) : World :=
  match a with
  | NoOutputFire r =>
      match heap w !! r with
      | Some it =>
          match firstOutputAtMs it with
          | None => finalize r timeout w
          | Some _ => w
          end
      | None => w
      end
  | IdleFire r => finalize r burstIdle w
  end.

(** One due timer: it runs unless a callback that ran before it in the same
    batch cleared it. *)
Definition runTimer (w : World) (t : Timer) : World :=
  if pending (handle t) (timers w)
  then fire (action t) (set_timers (remove_handle (handle t) (timers w)) w)
  else w.

(** The host lets [d] milliseconds pass: every timer that has become due
    fires, in firing order.  (No callback of the tracker schedules a timer,
    so the batch is fixed when it starts.) *)
Definition advance (d : nat) (w : World) : World :=
  let w1 := set_clock (clock w + Z.of_nat d) w in
  fold_left runTimer
    (List.filter (fun t => deadline t <=? clock w1) (timers w1)) w1.

(** ** Traces *)

Inductive Event :=
| Input (data : string) (byteLen : Z) (now : Z)
| Output (byteLen : Z) (now : Z)
| MarkTurn (src : TurnDetectionMode) (now : Z)
| EndSession
| Advance (d : nat).

Definition step (w : World) (e : Event) : World :=
  match e with
  | Input data byteLen now => handleInput data byteLen now w
  | Output byteLen now => handleOutput byteLen now w
  | MarkTurn src now => markTurn src now w
  | EndSession => endSession w
  | Advance d => advance d w
  end.

Definition run (evs : list Event) : World := fold_left step evs init.

Definition turnsOf (l : list Emission) : list TurnEvent :=
  omap (fun e => match e with OnTurn t => Some t | _ => None end) l.

Definition interactionsOf (l : list Emission) : list Interaction :=
  omap (fun e => match e with OnInteraction i => Some i | _ => None end) l.

End WithOptions.

End Tracker.

(* ===================================================================== *)
(** * JavaScript values the other modules rely on                         *)
(* ===================================================================== *)

Module Js.

(** A value for which [typeof x === "number"] holds: finite
    ([Number.isFinite]) or not (NaN, the infinities). *)
Inductive number := Num (z : Z) | NonFinite.

Definition finite (v : option number) : option Z :=
  match v with
  | Some (Num z) => Some z
  | _ => None
  end.

(** ** Strings

    A JavaScript string is a sequence of UTF-16 code units.  It is held here
    as the bytes of its UTF-8 form, a surrogate without partner as the three
    bytes of its code point: the form that the files and the hashes have and
    that [Buffer.byteLength] counts.  [codeUnits] gives the code units back;
    [length], [slice] and the order of [sort] are those of the code units. *)
Definition byte (c : ascii) : Z := Z.of_nat (nat_of_ascii c).
Definition char (z : Z) : ascii := ascii_of_nat (Z.to_nat z).

(** The white space that [trim] removes: WhiteSpace and LineTerminator of
    ECMAScript.  U+0009 to U+000D and U+0020 are one byte, *)
Definition isSpace (c : ascii) : bool :=
  let n := nat_of_ascii c in
  ((9 <=? n) && (n <=? 13))%nat || (n =? 32)%nat.

(** U+00A0 is two bytes, *)
Definition isSpace2 (a b : ascii) : bool :=
  (byte a =? 194) && (byte b =? 160).

(** and U+1680, U+2000 to U+200A, U+2028, U+2029, U+202F, U+205F, U+3000
    and U+FEFF are three. *)
Definition isSpace3 (a b c : ascii) : bool :=
  let '(x, y, z) := (byte a, byte b, byte c) in
  ((x =? 225) && (y =? 154) && (z =? 128)) ||
  ((x =? 226) && (y =? 128) &&
     (((128 <=? z) && (z <=? 138)) || (z =? 168) || (z =? 169) || (z =? 175))) ||
  ((x =? 226) && (y =? 129) && (z =? 159)) ||
  ((x =? 227) && (y =? 128) && (z =? 128)) ||
  ((x =? 239) && (y =? 187) && (z =? 191)).

(** Removes the white space at the start; [sp2] and [sp3] read the bytes of
    a character in the order in which they come. *)
Fixpoint stripSpaces (sp2 : ascii → ascii → bool) (sp3 : ascii → ascii → ascii → bool)
    (s : string) : string :=
  match s with
  | EmptyString => EmptyString
  | String a r1 =>
      if isSpace a then stripSpaces sp2 sp3 r1 else
      match r1 with
      | EmptyString => s
      | String b r2 =>
          if sp2 a b then stripSpaces sp2 sp3 r2 else
          match r2 with
          | EmptyString => s
          | String c r3 => if sp3 a b c then stripSpaces sp2 sp3 r3 else s
          end
      end
  end.

Definition trimStart (s : string) : string := stripSpaces isSpace2 isSpace3 s.

Definition reverse (s : string) : string :=
  string_of_list_ascii (List.rev (list_ascii_of_string s)).

Definition trimEnd (s : string) : string :=
  reverse (stripSpaces (fun b a => isSpace2 a b) (fun c b a => isSpace3 a b c) (reverse s)).

Definition trim (s : string) : string := trimEnd (trimStart s).

(** The number of bytes of the character that starts with the byte [c]. *)
Definition charBytes (c : ascii) : nat :=
  if byte c <? 192 then 1 else if byte c <? 224 then 2 else if byte c <? 240 then 3 else 4.

Definition unit2 (a b : ascii) : Z := byte a mod 32 * 64 + byte b mod 64.
Definition unit3 (a b c : ascii) : Z :=
  byte a mod 16 * 4096 + byte b mod 64 * 64 + byte c mod 64.
Definition codePoint4 (a b c d : ascii) : Z :=
  byte a mod 8 * 262144 + byte b mod 64 * 4096 + byte c mod 64 * 64 + byte d mod 64.
Definition highSurrogate (p : Z) : Z := 55296 + (p - 65536) / 1024.
Definition lowSurrogate (p : Z) : Z := 56320 + (p - 65536) mod 1024.

(** The code units of a string; a character of four bytes is a pair of
    surrogates, and bytes that end before their character does are U+FFFD. *)
Fixpoint codeUnits (s : string) : list Z :=
  match s with
  | EmptyString => []
  | String a r1 =>
      match charBytes a, r1 with
      | 1%nat, _ => byte a :: codeUnits r1
      | 2%nat, String b r2 => unit2 a b :: codeUnits r2
      | 3%nat, String b (String c r3) => unit3 a b c :: codeUnits r3
      | S (S (S (S _))), String b (String c (String d r4)) =>
          highSurrogate (codePoint4 a b c d) :: lowSurrogate (codePoint4 a b c d)
            :: codeUnits r4
      | _, _ => [65533]
      end
  end.

(** [s.length] *)
Definition length (s : string) : nat := List.length (codeUnits s).

(** The three bytes of a surrogate that stands alone. *)
Definition surrogateBytes (u : Z) : string :=
  String (char 237) (String (char (128 + u / 64 mod 64))
    (String (char (128 + u mod 64)) EmptyString)).

(** [s.slice(0, n)]: the first [n] code units; a cut between the two
    surrogates of a character leaves the first of them. *)
Fixpoint slice (n : nat) (s : string) {struct s} : string :=
  match n, s with
  | O, _ => EmptyString
  | _, EmptyString => EmptyString
  | S n', String a r1 =>
      match charBytes a, r1 with
      | 1%nat, _ => String a (slice n' r1)
      | 2%nat, String b r2 => String a (String b (slice n' r2))
      | 3%nat, String b (String c r3) => String a (String b (String c (slice n' r3)))
      | S (S (S (S _))), String b (String c (String d r4)) =>
          match n' with
          | O => surrogateBytes (highSurrogate (codePoint4 a b c d))
          | S n'' => String a (String b (String c (String d (slice n'' r4))))
          end
      | _, _ => s
      end
  end.

(** [a <= b] for strings: the order of the code units, which [sort] uses. *)
Fixpoint unitsLeb (x y : list Z) : bool :=
  match x, y with
  | [], _ => true
  | _ :: _, [] => false
  | a :: x', b :: y' => (a <? b) || ((a =? b) && unitsLeb x' y')
  end.

Definition leb (s t : string) : bool := unitsLeb (codeUnits s) (codeUnits t).

(** Characters outside ASCII: U+00A0 and U+2003 are white space, U+00E9 is
    a letter of two bytes, U+E000 has three bytes and one code unit, U+1F600
    four bytes and two code units. *)
Definition noBreakSpace : string := String (char 194) (String (char 160) EmptyString).
Definition emSpace : string :=
  String (char 226) (String (char 128) (String (char 131) EmptyString)).
Definition eAcute : string := String (char 195) (String (char 169) EmptyString).
Definition privateUse : string :=
  String (char 238) (String (char 128) (String (char 128) EmptyString)).
Definition grinningFace : string :=
  String (char 240) (String (char 159) (String (char 152) (String (char 128) EmptyString))).

Fixpoint repeat (n : nat) (s : string) : string :=
  match n with
  | O => EmptyString
  | S n' => (s ++ repeat n' s)%string
  end.

(** [toLowerCase] on the letters of ASCII.  The code compares its result
    with [user] and [assistant] and searches it for [tool]; no character
    outside ASCII has a lower case made of these letters alone. *)
Definition lowerChar (c : ascii) : ascii :=
  let n := nat_of_ascii c in
  if ((65 <=? n) && (n <=? 90))%nat then ascii_of_nat (n + 32) else c.

Fixpoint toLowerCase (s : string) : string :=
  match s with
  | EmptyString => EmptyString
  | String c rest => String (lowerChar c) (toLowerCase rest)
  end.

(** [hay.includes(needle)] *)
Definition includes (needle hay : string) : bool :=
  match String.index 0 needle hay with
  | Some _ => true
  | None => false
  end.

(** [Buffer.byteLength(s, "utf8")] *)
Definition byteLength (s : string) : Z := Z.of_nat (String.length s).

(** [s.length > n ? s.slice(0, n) : s] *)
Definition truncate (n : nat) (s : string) : string :=
  if (n <? length s)%nat then slice n s else s.

(** A string is truthy iff it is not empty: [s.length > 0]. *)
Definition nonEmpty (s : string) : bool :=
  match s with
  | EmptyString => false
  | String _ _ => true
  end.

End Js.

(* ===================================================================== *)
(** * Markers: src/session/markers.ts and the watcher's line handling     *)
(* ===================================================================== *)

Module Markers.
Import Schema.

Record AppendMarkerOptions := mkAppendMarkerOptions {
  markersPath : string;
  tMs : option Js.number;
  o_label : option string;
  storePlaintextLabel : bool }.

(** One line of [markers.jsonl], as an object. *)
Record MarkerLine := mkMarkerLine {
  tIso : string;
  l_tMs : option Z;
  l_label : option string;
  l_labelSha256 : option string }.

Section WithHash.
(** [sha256Hex] of src/util/hash. *)
Variable sha256Hex : string → string.

(** The [record] that [appendMarker] serializes; [now] is
    [new Date().toISOString()]. *)
Definition markerRecord (now : string) (opts : AppendMarkerOptions) : MarkerLine :=
  let label := option_map Js.trim (o_label opts) in
  let t := Js.finite (tMs opts) in
  match label with
  | Some l =>
      if Js.nonEmpty l then
        {| tIso := now; l_tMs := t;
           l_label := if storePlaintextLabel opts then Some l else None;
           l_labelSha256 := Some (sha256Hex l) |}
      else {| tIso := now; l_tMs := t; l_label := None; l_labelSha256 := None |}
  | None => {| tIso := now; l_tMs := t; l_label := None; l_labelSha256 := None |}
  end.

(** [appendMarker]: the file grows by one line. *)
Definition appendMarker (now : string) (opts : AppendMarkerOptions)
    (file : list MarkerLine) : list MarkerLine :=
  file ++ [markerRecord now opts].

End WithHash.

Definition markerLineToEvent (line : MarkerLine) (t : Z) : MarkerEvent :=
  {| m_tMs := t; label := l_label line; labelSha256 := l_labelSha256 line |}.

Section Watcher.
(** [Date.parse]: [None] stands for NaN. *)
Variable Date_parse : string → option Z.

(** What the marker watcher does with one parsed line. *)
Definition watchLine (startedAtMsEpoch : Z) (line : MarkerLine) : option MarkerEvent :=
  let t := match l_tMs line with
           | Some t => Some t
           | None => option_map (fun ms => ms - startedAtMsEpoch) (Date_parse (tIso line))
           end in
  match t with
  | Some t => if t <? 0 then None else Some (markerLineToEvent line t)
  | None => None
  end.

End Watcher.

(** The two label forms of a line, and of an event. *)
Definition lineForms (l : MarkerLine) : bool * bool :=
  (bool_decide (is_Some (l_label l)), bool_decide (is_Some (l_labelSha256 l))).
Definition eventForms (m : MarkerEvent) : bool * bool :=
  (bool_decide (is_Some (label m)), bool_decide (is_Some (labelSha256 m))).

(** "Carries an annotation" and "exactly one of the two forms". *)
Definition annotated (f : bool * bool) : bool := fst f || snd f.
Definition exactlyOne (f : bool * bool) : bool := xorb (fst f) (snd f).

End Markers.

(* ===================================================================== *)
(** * External-log selection: src/session/jsonlTracker.ts                 *)
(* ===================================================================== *)

Module JsonlSelect.

Record JsonlCandidate := mkCandidate {
  p : string;
  mtimeMs : Z;
  sizeBytes : Z }.

(** The body of the [for] loop of [pickLargestCandidate]. *)
Definition better (best : option JsonlCandidate) (c : JsonlCandidate)
    : option JsonlCandidate :=
  match best with
  | None => Some c
  | Some b =>
      if sizeBytes b <? sizeBytes c then Some c
      else if (sizeBytes c =? sizeBytes b) && (mtimeMs b <? mtimeMs c) then Some c
      else Some b
  end.

Definition pickLargestCandidate (candidates : list JsonlCandidate)
    : option JsonlCandidate :=
  fold_left better candidates None.

Definition isAlnum (c : ascii) : bool :=
  let n := nat_of_ascii c in
  (((48 <=? n) && (n <=? 57)) || ((65 <=? n) && (n <=? 90)) ||
   ((97 <=? n) && (n <=? 122)))%nat.

Fixpoint replaceNonAlnum (s : string) : string :=
  match s with
  | EmptyString => EmptyString
  | String c rest => String (if isAlnum c then c else "-"%char) (replaceNonAlnum rest)
  end.

Record JsonlSizeSample := mkSample {
  s_turnIndex : Z;
  s_tMs : Z;
  s_sizeBytes : Z }.

(** The fields of a [JsonlTracker]. *)
Record JsonlTracker := mkTracker {
  startedAtMsEpoch : Z;
  overridePath : option string;
  cwd : option string;
  allowReadForSelection : bool;
  projectsDirOverride : option string;
  activePath : option string;
  activePathSha256 : option string;
  samples : list JsonlSizeSample }.

Definition select (path : string) (hash : string) (t : JsonlTracker) : JsonlTracker :=
  mkTracker (startedAtMsEpoch t) (overridePath t) (cwd t) (allowReadForSelection t)
            (projectsDirOverride t) (Some path) (Some hash) (samples t).

Section WithFileSystem.
(** The file system and the path library, as the tracker sees them. *)
Variable sha256Hex : string → string.
Variable pathExists : string → bool.
Variable isDirectory : string → bool.
Variable path_resolve : string → string.
Variable path_join : string → string → string.
Variable defaultProjectsDir : string.   (* <home>/.claude/projects *)
(** The bounded breadth-first scan: root, since, max depth. *)
Variable findRecentJsonlCandidates : string → Z → nat → list JsonlCandidate.
(** The content-aware scoring, which reads the candidates. *)
Variable pickBestCandidateForConversation :
  list JsonlCandidate → Z → option JsonlCandidate.

Definition encodeClaudeProjectDirName (dir : string) : string :=
  replaceNonAlnum (path_resolve dir).

(** [for (const root of roots) { candidates = ...; if (candidates.length > 0) break; }] *)
Fixpoint scanRoots (since : Z) (roots : list (string * nat)) : list JsonlCandidate :=
  match roots with
  | [] => []
  | (dir, maxDepth) :: rest =>
      match findRecentJsonlCandidates dir since maxDepth with
      | [] => scanRoots since rest
      | cs => cs
      end
  end.

Definition truthy (s : option string) : option string :=
  match s with
  | Some x => if Js.nonEmpty x then Some x else None
  | None => None
  end.

(** The selection that [ensureActivePath] runs when no selected file is
    still there. *)
Definition selectFresh (t : JsonlTracker) : option string * JsonlTracker :=
  match truthy (overridePath t) with
  | Some o =>
      let resolved := path_resolve o in
      if pathExists resolved
      then (Some resolved, select resolved (sha256Hex resolved) t)
      else (None, t)
  | None =>
      let projectsDir := default defaultProjectsDir (projectsDirOverride t) in
      if negb (pathExists projectsDir) then (None, t) else
      let since := startedAtMsEpoch t - 10000 in
      let projectRoot :=
        match truthy (cwd t) with
        | Some c =>
            let d := path_join projectsDir (encodeClaudeProjectDirName c) in
            if isDirectory d then [(d, 2%nat)] else []
        | None => []
        end in
      let candidates := scanRoots since (projectRoot ++ [(projectsDir, 6%nat)]) in
      match candidates with
      | [] => (None, t)
      | _ =>
          let best := if allowReadForSelection t
                      then pickBestCandidateForConversation candidates (startedAtMsEpoch t)
                      else pickLargestCandidate candidates in
          match best with
          | None => (None, t)
          | Some b => (Some (p b), select (p b) (sha256Hex (p b)) t)
          end
      end
  end.

(** The candidates the scan hands to the selection policy. *)
Definition scanned (t : JsonlTracker) : list JsonlCandidate :=
  let projectsDir := default defaultProjectsDir (projectsDirOverride t) in
  let projectRoot :=
    match truthy (cwd t) with
    | Some c =>
        let d := path_join projectsDir (encodeClaudeProjectDirName c) in
        if isDirectory d then [(d, 2%nat)] else []
    | None => []
    end in
  scanRoots (startedAtMsEpoch t - 10000) (projectRoot ++ [(projectsDir, 6%nat)]).

(** ** private ensureActivePath() *)
Definition ensureActivePath (t : JsonlTracker) : option string * JsonlTracker :=
  match truthy (activePath t) with
  | Some a => if pathExists a then (Some a, t) else selectFresh t
  | None => selectFresh t
  end.

End WithFileSystem.

End JsonlSelect.

(* ===================================================================== *)
(** * Parsed JSON                                                         *)
(* ===================================================================== *)

Module Json.

Inductive json :=
| JNull
| JBool (b : bool)
| JNum (n : Js.number)
| JStr (s : string)
| JArr (items : list json)
| JObj (fields : list (string * json)).

Fixpoint assoc (k : string) (fields : list (string * json)) : option json :=
  match fields with
  | [] => None
  | (k', v) :: rest => if String.eqb k' k then Some v else assoc k rest
  end.

(** [isObject(value)]; [None] is [undefined]. *)
Definition isObject (v : option json) : bool :=
  match v with
  | Some (JObj _) => true
  | _ => false
  end.

(** [v[k]] for a value that passed [isObject]. *)
Definition get (k : string) (v : option json) : option json :=
  match v with
  | Some (JObj fields) => assoc k fields
  | _ => None
  end.

(** [a ?? b] *)
Definition nullish (a b : option json) : option json :=
  match a with
  | None | Some JNull => b
  | Some _ => a
  end.

(** [typeof v === "string"] *)
Definition asString (v : option json) : option string :=
  match v with
  | Some (JStr s) => Some s
  | _ => None
  end.

(** [typeof v === "number" && Number.isFinite(v)] *)
Definition asFinite (v : option json) : option Z :=
  match v with
  | Some (JNum (Js.Num n)) => Some n
  | _ => None
  end.

End Json.

(* ===================================================================== *)
(** * The external-log correlator: src/session/jsonlCorrelate.ts          *)
(* ===================================================================== *)

Module Correlate.
Import Schema Json.

Inductive Role := user | assistant.

#[global] Instance Role_eq_dec : EqDecision Role.
Proof. solve_decision. Defined.

Record CorrelateJsonlOptions := mkCorrelateOptions {
  jsonlPath : string;
  startedAtMsEpoch : Z;
  endedAtMsEpoch : option Z;
  turns : list TurnEvent }.

(** One element of the [perTurn] array while the file is read. *)
Record Bucket := mkBucket {
  b_turnIndex : Z;
  recordCount : Z;
  recordBytes : Z;
  toolUseCount : Z;
  toolUseNames : list string;      (* a Set<string>, in insertion order *)
  inputTokenCount : Z;
  outputTokenCount : Z }.

(** The [let] variables of [correlateJsonlToTurns]. *)
Record LoopState := mkLoopState {
  parsedLines : Z;
  parsedBytes : Z;
  parseErrors : Z;
  usedTimestamps : Z;
  seenAnyTimestamp : Z;
  usedSequential : bool;
  turnPtr : nat;
  seqTurnPtr : Z;
  perTurn : list Bucket }.

Inductive Mode := timestamps | sequential | none.

(** [JsonlCorrelation] of the schema. *)
Record PerTurn := mkPerTurn {
  r_turnIndex : Z;
  r_recordCount : Z;
  r_recordBytes : Z;
  r_toolUseCount : Z;
  r_toolUseNames : list string;
  r_inputTokenCount : option Z;
  r_outputTokenCount : option Z }.

Record JsonlCorrelation := mkCorrelation {
  enabled : bool;
  mode : Mode;
  c_parsedLines : Z;
  c_parsedBytes : Z;
  c_parseErrors : Z;
  c_perTurn : list PerTurn;
  notes : list string }.

(** [Set.prototype.add] *)
Definition setAdd (name : string) (names : list string) : list string :=
  if existsb (String.eqb name) names then names else names ++ [name].

(** [[...names].sort()] *)
Fixpoint insertSorted (s : string) (l : list string) : list string :=
  match l with
  | [] => [s]
  | x :: rest => if Js.leb s x then s :: l else x :: insertSorted s rest
  end.
Definition sortNames (l : list string) : list string :=
  fold_right insertSorted [] l.

Definition optList {A} (o : option A) : list A :=
  match o with
  | Some x => [x]
  | None => []
  end.

Section WithRuntime.
(** [JSON.parse] ([None]: it throws) and [Date.parse] ([None]: NaN). *)
Variable JSON_parse : string → option json.
Variable Date_parse : string → option Z.

(** One round of the [for (const c of candidates)] loop: [Some] returns. *)
Definition epochOf (c : option json) : option Z :=
  match c with
  | Some (JNum (Js.Num n)) =>
      if 1000000000000 <? n then Some n
      else if 1000000000 <? n then Some (n * 1000)
      else None
  | Some (JStr s) => Date_parse s
  | _ => None
  end.

Fixpoint firstEpoch (candidates : list (option json)) : option Z :=
  match candidates with
  | [] => None
  | c :: rest =>
      match epochOf c with
      | Some ms => Some ms
      | None => firstEpoch rest
      end
  end.

Definition extractEpochMs (rec : json) : option Z :=
  let r := Some rec in
  if negb (isObject r) then None else
  firstEpoch
    [ get "timestamp" r; get "time" r; get "created_at" r; get "createdAt" r;
      get "ts" r;
      if isObject (get "meta" r) then get "timestamp" (get "meta" r) else None ].

Definition roleOf (s : string) : option Role :=
  let r := Js.toLowerCase s in
  if String.eqb r "user" then Some user
  else if String.eqb r "assistant" then Some assistant
  else None.

Definition extractRole (rec : json) : option Role :=
  let r := Some rec in
  if negb (isObject r) then None else
  match asString (get "role" r) ≫= roleOf with
  | Some role => Some role
  | None =>
      let msg := get "message" r in
      if isObject msg then asString (get "role" msg) ≫= roleOf else None
  end.

Definition toolItemName (item : json) : option string :=
  let i := Some item in
  if negb (isObject i) then None else
  let type := match asString (get "type" i) with
              | Some s => Js.toLowerCase s
              | None => EmptyString
              end in
  if Js.includes "tool" type then asString (get "name" i) else None.

Definition contentNames (content : option json) : list string :=
  match content with
  | Some (JArr items) => omap toolItemName items
  | _ => []
  end.

Definition extractToolNames (rec : json) : list string :=
  let r := Some rec in
  if negb (isObject r) then [] else
  let tool := get "tool" r in
  let message := get "message" r in
  let names :=
    optList (asString (get "tool_name" r)) ++
    optList (asString (get "toolName" r)) ++
    (if isObject tool then optList (asString (get "name" tool)) else []) ++
    contentNames (get "content" r) ++
    (if isObject message then contentNames (get "content" message) else []) in
  List.map (Js.truncate 120) (List.filter Js.nonEmpty (List.map Js.trim names)).

Definition extractTokenUsage (rec : json) : option (option Z * option Z) :=
  let r := Some rec in
  if negb (isObject r) then None else
  let usage := nullish (nullish (get "usage" r) (get "token_usage" r)) (get "tokenUsage" r) in
  if negb (isObject usage) then None else
  let input := nullish (nullish (get "input_tokens" usage) (get "inputTokens" usage))
                       (get "prompt_tokens" usage) in
  let output := nullish (nullish (get "output_tokens" usage) (get "outputTokens" usage))
                        (get "completion_tokens" usage) in
  match asFinite input, asFinite output with
  | None, None => None
  | i, o => Some (i, o)
  end.

(** ** applyRecord(bucket, line, rec), for a bucket that exists *)
Definition applyRecord (line : string) (rec : json) (b : Bucket) : Bucket :=
  let toolNames := extractToolNames rec in
  let usage := extractTokenUsage rec in
  {| b_turnIndex := b_turnIndex b;
     recordCount := recordCount b + 1;
     recordBytes := recordBytes b + Js.byteLength line;
     toolUseCount := toolUseCount b + Z.of_nat (length toolNames);
     toolUseNames := fold_left (fun s n => setAdd n s) toolNames (toolUseNames b);
     inputTokenCount :=
       match usage with
       | Some (Some i, _) => inputTokenCount b + i
       | _ => inputTokenCount b
       end;
     outputTokenCount :=
       match usage with
       | Some (_, Some o) => outputTokenCount b + o
       | _ => outputTokenCount b
       end |}.

Context (opts : CorrelateJsonlOptions).

Definition initBuckets : list Bucket :=
  List.map (fun t => mkBucket (index t) 0 0 0 [] 0 0) (turns opts).

(** [perTurnByIndex.get(i)]: the map was filled in array order, so a later
    bucket with the same turn index replaces an earlier one; the map holds
    the array's own objects, here their positions. *)
Fixpoint lastWithIndex (i : Z) (l : list Bucket) (pos : nat) (found : option nat)
    : option nat :=
  match l with
  | [] => found
  | b :: rest =>
      lastWithIndex i rest (S pos) (if b_turnIndex b =? i then Some pos else found)
  end.

Definition perTurnByIndex (i : Z) (buckets : list Bucket) : option nat :=
  lastWithIndex i buckets 0%nat None.

(** [const t = opts.turns[ptr]; if (t) applyRecord(perTurnByIndex.get(t.index), line, rec)] *)
Definition applyToTurn (ptr : nat) (line : string) (rec : json)
    (buckets : list Bucket) : list Bucket :=
  match turns opts !! ptr with
  | Some t =>
      match perTurnByIndex (index t) buckets with
      | Some pos => alter (applyRecord line rec) pos buckets
      | None => buckets
      end
  | None => buckets
  end.

Definition turnEpochMs : list Z :=
  List.map (fun t => startedAtMsEpoch opts + tMs t) (turns opts).

(** [while (turnPtr + 1 < turnEpochMs.length && epochMs >= turnEpochMs[turnPtr + 1]) turnPtr += 1] *)
Fixpoint advanceOver (epochMs : Z) (next : list Z) (ptr : nat) : nat :=
  match next with
  | [] => ptr
  | e :: rest => if e <=? epochMs then advanceOver epochMs rest (S ptr) else ptr
  end.

Definition advanceTurnPtr (epochMs : Z) (ptr : nat) : nat :=
  advanceOver epochMs (drop (S ptr) turnEpochMs) ptr.

Definition startWindowMs : Z := startedAtMsEpoch opts - 10000.
Definition endWindowMs : option Z :=
  option_map (fun e => e + 60000) (endedAtMsEpoch opts).

Definition initState : LoopState :=
  mkLoopState 0 0 0 0 0 false 0%nat (-1) initBuckets.

Definition numTurns : Z := Z.of_nat (length (turns opts)).

(** The body of [for await (const line of rl)]; the flag is [break]. *)
Definition processLine (st : LoopState) (line : string) : LoopState * bool :=
  let trimmed := Js.trim line in
  if negb (Js.nonEmpty trimmed) then (st, false) else
  let lines := parsedLines st + 1 in
  let bytes := parsedBytes st + Js.byteLength line in
  match JSON_parse trimmed with
  | None =>
      (mkLoopState lines bytes (parseErrors st + 1) (usedTimestamps st)
         (seenAnyTimestamp st) (usedSequential st) (turnPtr st) (seqTurnPtr st)
         (perTurn st), false)
  | Some rec =>
      match extractEpochMs rec with
      | Some epochMs =>
          let seen := seenAnyTimestamp st + 1 in
          let skipped :=
            mkLoopState lines bytes (parseErrors st) (usedTimestamps st) seen
              (usedSequential st) (turnPtr st) (seqTurnPtr st) (perTurn st) in
          if epochMs <? startWindowMs then (skipped, false)
          else if match endWindowMs with
                  | Some e => (e <? epochMs) && (0 <? usedTimestamps st)
                  | None => false
                  end
          then (skipped, true)
          else
            let ptr := advanceTurnPtr epochMs (turnPtr st) in
            (mkLoopState lines bytes (parseErrors st) (usedTimestamps st + 1) seen
               (usedSequential st) ptr (seqTurnPtr st)
               (applyToTurn ptr line rec (perTurn st)), false)
      | None =>
          let isUser := bool_decide (extractRole rec = Some user) in
          let seq := if isUser then seqTurnPtr st + 1 else seqTurnPtr st in
          let used := if isUser then true else usedSequential st in
          let buckets :=
            if (0 <=? seq) && (seq <? numTurns)
            then applyToTurn (Z.to_nat seq) line rec (perTurn st)
            else perTurn st in
          (mkLoopState lines bytes (parseErrors st) (usedTimestamps st)
             (seenAnyTimestamp st) used (turnPtr st) seq buckets, false)
      end
  end.

Fixpoint readLines (lines : list string) (st : LoopState) : LoopState :=
  match lines with
  | [] => st
  | line :: rest =>
      let '(st', stop) := processLine st line in
      if stop then st' else readLines rest st'
  end.

Definition nonZero (n : Z) : option Z := if n =? 0 then None else Some n.

(** ** correlateJsonlToTurns(opts), on the lines of the file *)
Definition correlateJsonlToTurns (lines : list string) : JsonlCorrelation :=
  match turns opts with
  | [] => mkCorrelation true none 0 0 0 []
            ["No turns recorded; cannot correlate JSONL."]
  | _ =>
      let st := readLines lines initState in
      let m := if 0 <? usedTimestamps st then timestamps
               else if usedSequential st then sequential else none in
      mkCorrelation true m (parsedLines st) (parsedBytes st) (parseErrors st)
        (List.map (fun pt =>
           mkPerTurn (b_turnIndex pt) (recordCount pt) (recordBytes pt)
             (toolUseCount pt) (sortNames (toolUseNames pt))
             (nonZero (inputTokenCount pt)) (nonZero (outputTokenCount pt)))
           (perTurn st))
        ((match m with
          | none => ["No usable timestamps or user-message markers found in JSONL; correlation may be incomplete."]
          | _ => []
          end) ++
         (if (0 <? seenAnyTimestamp st) && (usedTimestamps st =? 0)
          then ["JSONL timestamps were present but all fell outside the session time window."]
          else []))
  end.

(** A line that the loop treats in sequential mode: not blank, parsed, and
    without an extractable timestamp. *)
Definition sequentialRecord (line : string) : option json :=
  if Js.nonEmpty (Js.trim line) then
    match JSON_parse (Js.trim line) with
    | Some rec =>
        match extractEpochMs rec with
        | None => Some rec
        | Some _ => None
        end
    | None => None
    end
  else None.

Definition isUserRecord (rec : json) : bool :=
  bool_decide (extractRole rec = Some user).

Definition isUserLine (line : string) : bool :=
  match sequentialRecord line with
  | Some rec => isUserRecord rec
  | None => false
  end.

End WithRuntime.

End Correlate.

(* ===================================================================== *)
(** * The session runtime's finalize: src/session/runSession.ts           *)
(* ===================================================================== *)

Module Session.
Import Schema.

(** The object that the command line's [runAction] passes to [runSession]
    (src/cli/program.ts). *)
Record RunActionArguments := mkRunActionArguments {
  a_command : list string;
  a_cwd : string;
  a_outputDir : option string;
  a_jsonlPath : option string;
  a_durationMs : option Z;
  a_burstIdleMs : Z;
  a_sampleIntervalMs : Z;
  a_interactionTimeoutMs : Z;
  a_turnHotkeyOff : bool;
  a_disableMcps : bool;
  a_correlateJsonl : bool;
  a_unsafeStorePaths : bool;
  a_unsafeStoreCommand : bool;
  a_unsafeStoreErrors : bool }.

(** [RunSessionOptions]: the fields [runSession] declares and reads. *)
Record RunSessionOptions := mkRunSessionOptions {
  command : list string;
  cwd : string;
  outputDir : option string;
  jsonlPath : option string;
  burstIdleMs : Z;
  interactionTimeoutMs : Z;
  sampleIntervalMs : Z;
  turnHotkeyOff : bool;
  durationMs : option Z;
  disableMcps : bool;
  unsafeStorePaths : bool;
  unsafeStoreCommand : bool;
  unsafeStoreErrors : bool }.

(** What [runSession] sees of the object it is called with. *)
Definition received (a : RunActionArguments) : RunSessionOptions :=
  {| command := a_command a; cwd := a_cwd a; outputDir := a_outputDir a;
     jsonlPath := a_jsonlPath a; burstIdleMs := a_burstIdleMs a;
     interactionTimeoutMs := a_interactionTimeoutMs a;
     sampleIntervalMs := a_sampleIntervalMs a;
     turnHotkeyOff := a_turnHotkeyOff a; durationMs := a_durationMs a;
     disableMcps := a_disableMcps a;
     unsafeStorePaths := a_unsafeStorePaths a;
     unsafeStoreCommand := a_unsafeStoreCommand a;
     unsafeStoreErrors := a_unsafeStoreErrors a |}.

(** [JsonlTracking] and the part of [SessionData] that finalize touches. *)
Record JsonlTracking := mkJsonlTracking {
  t_activePathSha256 : option string;
  t_samples : list JsonlSelect.JsonlSizeSample;
  correlation : option Correlate.JsonlCorrelation }.

Record SessionData := mkSessionData {
  endedAtIso : option string;
  jsonl : option JsonlTracking;
  turns : list TurnEvent;
  interactions : list Interaction;
  markers : list MarkerEvent;
  warnings : list string }.

(** A thrown value, as [warn] looks at it. *)
Record Thrown := mkThrown {
  e_name : option string;
  e_code : option string;
  e_text : string }.

(** The variables that the [finalize] closure captures. *)
Record Runtime := mkRuntime {
  finalized : bool;
  session : option SessionData;
  jsonlTracker : option JsonlSelect.JsonlTracker;
  tracker : option Tracker.World;
  hasMonitor : bool;
  hasMarkerWatcher : bool;
  hasCleanupTty : bool;
  hasStdinHandler : bool;
  hasSigintHandler : bool;
  hasChild : bool;
  hasOverlay : bool }.

(** What finalize does to the outside, in order. *)
Inductive Effect :=
| TrackerEndSession
| MonitorStop
| MarkerWatcherStop
| CleanupTty
| StdinOff
| SigintOff
| ChildKill
| ClearActiveSession
| OverlayCleanup
| GenerateReport
| WriteData (doc : SessionData)
| WriteReport (html : string).

Definition when (b : bool) (e : Effect) : list Effect := if b then [e] else [].

(** [warn(message, err)] with an error: the line pushed to [warnings]. *)
Definition warning (opts : RunSessionOptions) (message : string) (err : Thrown) : string :=
  if unsafeStoreErrors opts then message ++ ": " ++ e_text err
  else
    let name := default "Error" (e_name err) in
    match e_code err with
    | Some code => message ++ " (" ++ name ++ ":" ++ code ++ ")"
    | None => message ++ " (" ++ name ++ ")"
    end.

(** [onTurn] and [onInteraction] push what the tracker emits. *)
Definition pushEmissions (l : list Tracker.Emission) (s : SessionData) : SessionData :=
  mkSessionData (endedAtIso s) (jsonl s)
    (turns s ++ Tracker.turnsOf l)
    (interactions s ++ Tracker.interactionsOf l)
    (markers s) (warnings s).

(** ** finalize()

    [now] is [new Date().toISOString()]; [report] is the outcome of
    [generateReportHtml]: the page, or what it threw. *)
Definition finalize (opts : RunSessionOptions) (now : string)
    (report : string + Thrown) (r : Runtime) : Runtime * list Effect :=
  if finalized r then (r, []) else
  let tracker' := option_map Tracker.endSession (tracker r) in
  let emitted :=
    match tracker r with
    | Some w => drop (length (Tracker.emitted w)) (Tracker.emitted (Tracker.endSession w))
    | None => []
    end in
  let teardown :=
    when (bool_decide (is_Some (tracker r))) TrackerEndSession ++
    when (hasMonitor r) MonitorStop ++
    when (hasMarkerWatcher r) MarkerWatcherStop ++
    when (hasCleanupTty r) CleanupTty ++
    when (hasStdinHandler r) StdinOff ++
    when (hasSigintHandler r) SigintOff ++
    when (hasChild r) ChildKill ++
    [ClearActiveSession] ++
    when (hasOverlay r) OverlayCleanup in
  let done s :=
    mkRuntime true s (jsonlTracker r) tracker' (hasMonitor r)
      (hasMarkerWatcher r) (hasCleanupTty r) (hasStdinHandler r)
      (hasSigintHandler r) (hasChild r) (hasOverlay r) in
  match session r with
  | None => (done None, teardown)
  | Some s0 =>
      let s := pushEmissions emitted s0 in
      let s1 := mkSessionData (Some now) (jsonl s) (turns s) (interactions s)
                  (markers s) (warnings s) in
      let s2 :=
        match jsonlTracker r with
        | Some t =>
            mkSessionData (endedAtIso s1)
              (Some (mkJsonlTracking (JsonlSelect.activePathSha256 t)
                       (JsonlSelect.samples t) None))
              (turns s1) (interactions s1) (markers s1) (warnings s1)
        | None => s1
        end in
      let s3 :=
        match report with
        | inl _ => s2
        | inr err =>
            mkSessionData (endedAtIso s2) (jsonl s2) (turns s2) (interactions s2)
              (markers s2)
              (warnings s2 ++ [warning opts "Failed to generate HTML report" err])
        end in
      (done (Some s3),
       teardown ++ [GenerateReport; WriteData s3] ++
       match report with
       | inl html => when (Js.nonEmpty html) (WriteReport html)
       | inr _ => []
       end)
  end.

(** The correlations found in the documents that were written. *)
Definition writtenCorrelations (effects : list Effect)
    : list (option Correlate.JsonlCorrelation) :=
  omap (fun e => match e with
                 | WriteData doc => Some (jsonl doc ≫= correlation)
                 | _ => None
                 end) effects.

End Session.

(* ===================================================================== *)
(** * JSON.stringify of the tracker's records                             *)
(* ===================================================================== *)

Module Stringify.
Import Schema.
Local Open Scope string_scope.

Definition quote : string := String (ascii_of_nat 34) EmptyString.

(** A key or an enumeration literal: nothing in it needs an escape. *)
Definition str (s : string) : string := quote ++ s ++ quote.

Definition num (z : Z) : string := NilZero.string_of_int (Z.to_int z).

Fixpoint join (sep : string) (l : list string) : string :=
  match l with
  | [] => ""
  | [x] => x
  | x :: rest => x ++ sep ++ join sep rest
  end.

Definition field (k v : string) : string := str k ++ ":" ++ v.

(** A property whose value is [undefined] is left out. *)
Definition optField (k : string) (v : option Z) : list string :=
  match v with
  | Some z => [field k (num z)]
  | None => []
  end.

Definition object (fields : list string) : string := "{" ++ join "," fields ++ "}".
Definition array (items : list string) : string := "[" ++ join "," items ++ "]".

Definition sourceName (m : TurnDetectionMode) : string :=
  match m with
  | enter => "enter"
  | hotkey => "hotkey"
  end.

Definition kindName (k : InteractionKind) : string :=
  match k with
  | keystroke => "keystroke"
  | turn => "turn"
  end.

Definition reasonName (r : EndReason) : string :=
  match r with
  | burstIdle => "burstIdle"
  | timeout => "timeout"
  | sessionEnd => "sessionEnd"
  | overlap => "overlap"
  end.

Definition turnEvent (t : TurnEvent) : string :=
  object [ field "index" (num (index t)); field "tMs" (num (tMs t));
           field "source" (str (sourceName (source t))) ].

Definition interaction (i : Interaction) : string :=
  object ([ field "id" (num (id i)); field "kind" (str (kindName (kind i)));
            field "t0Ms" (num (t0Ms i)) ] ++
          optField "t1Ms" (t1Ms i) ++ optField "t2Ms" (t2Ms i) ++
          [ field "inputBytes" (num (inputBytes i));
            field "outputBytes" (num (outputBytes i)) ] ++
          optField "turnIndex" (turnIndex i) ++
          [ field "endReason" (str (reasonName (endReason i))) ]).

(** [JSON.stringify(turns)] and [JSON.stringify(interactions)] *)
Definition turnEvents (l : list TurnEvent) : string := array (List.map turnEvent l).
Definition interactions (l : list Interaction) : string := array (List.map interaction l).

End Stringify.

(* ===================================================================== *)
(** * The runtime's wiring of the two byte streams (runSession.ts)        *)
(* ===================================================================== *)

Module Wiring.
Import Schema Tracker.

(** What reaches the runtime: a chunk from the host's stdin, a chunk from the
    child's terminal, time passing, the child's exit. *)
Inductive HostEvent :=
| StdinData (str : string) (now : Z)
| PtyData (data : string) (now : Z)
| Elapse (d : nat)
| ChildExit.

Definition ESC : ascii := ascii_of_nat 27.

(** [str === "\u001bt" || str === "\u001bT"] *)
Definition isHotkey (str : string) : bool :=
  String.eqb str (String ESC "t") || String.eqb str (String ESC "T").

(** [onStdinData], [onData] and the exit handler, as calls on the tracker. *)
Definition dispatch (hotkeyOn : bool) (e : HostEvent) : Event :=
  match e with
  | StdinData str now =>
      if hotkeyOn && isHotkey str then MarkTurn hotkey now
      else Input str (Js.byteLength str) now
  | PtyData data now => Output (Js.byteLength data) now
  | Elapse d => Advance d
  | ChildExit => EndSession
  end.

(** What two chunks must share to be the same to the runtime. *)
Inductive HostShape :=
| HStdin (isKey hasEnter : bool) (len : nat) (now : Z)
| HPty (len : nat) (now : Z)
| HElapse (d : nat)
| HExit.

Definition hostShape (e : HostEvent) : HostShape :=
  match e with
  | StdinData str now =>
      HStdin (isHotkey str) (bufferContainsEnter str) (String.length str) now
  | PtyData data now => HPty (String.length data) now
  | Elapse d => HElapse d
  | ChildExit => HExit
  end.

End Wiring.

(* ===================================================================== *)
(** * Statements about the tracker, and the invariants behind them        *)
(* ===================================================================== *)

Module TrackerSpec.
Import Schema Tracker.

(** ** Traces *)

(** The reading of [nowMs()] that a call makes, if it makes one. *)
Definition ev_now (e : Event) : option Z :=
  match e with
  | Input _ _ t | Output _ t | MarkTurn _ t => Some t
  | EndSession | Advance _ => None
  end.

Definition nows (evs : list Event) : list Z := omap ev_now evs.

(** The supplied clock never runs backwards. *)
Fixpoint nondecreasing (l : list Z) : bool :=
  match l with
  | a :: (b :: _) as rest => (a <=? b) && nondecreasing rest
  | _ => true
  end.

(** Every output chunk has at least one byte. *)
Definition outputs_nonempty (evs : list Event) : bool :=
  forallb (fun e => match e with Output n _ => 0 <? n | _ => true end) evs.

(** What the tracker may learn of an event: everything but the bytes of an
    input chunk, of which only the presence of a line terminator counts. *)
Inductive Shape :=
| SInput (hasEnter : bool) (byteLen now : Z)
| SOutput (byteLen now : Z)
| SMarkTurn (src : TurnDetectionMode) (now : Z)
| SEndSession
| SAdvance (d : nat).

Definition shape (e : Event) : Shape :=
  match e with
  | Input data n t => SInput (bufferContainsEnter data) n t
  | Output n t => SOutput n t
  | MarkTurn src t => SMarkTurn src t
  | EndSession => SEndSession
  | Advance d => SAdvance d
  end.

(** Neither output nor the end of the session. *)
Definition quiet_event (e : Event) : bool :=
  match e with
  | Output _ _ | EndSession => false
  | _ => true
  end.

(** Milliseconds that pass during a trace. *)
Definition elapsed (evs : list Event) : Z :=
  fold_right (fun e acc => match e with Advance d => Z.of_nat d + acc | _ => acc end) 0 evs.

(** ** Scenarios *)

(** The command line's defaults, and the options of the overlap test. *)
Definition cliDefaults : InteractionTrackerOptions := mkOptions 30 2000 enter.
Definition shortTimeout : InteractionTrackerOptions := mkOptions 30 50 enter.

Definition CR : string := String (ascii_of_nat 13) EmptyString.

(** S1 to S3 of the specification, a twin of S1 with other bytes, and a
    chunk of output with no byte in it. *)
Definition scenarioS1 : list Event := [Input "SECRET" 6 0; Output 6 5; Advance 31].
Definition scenarioS1' : list Event := [Input "public" 6 0; Output 6 5; Advance 31].
Definition scenarioS2 : list Event :=
  [Input ("hi" ++ CR) 3 0; Output 10 12; Advance 31].
Definition scenarioS3 : list Event := [Input CR 1 0; Input CR 1 10; Advance 200].
Definition zeroByteOutput : list Event := [Input "a" 1 0; Output 0 5; Advance 31].

(** An input chunk with its bytes erased: what is kept is whether it held a
    line terminator. *)
Definition erase (e : Event) : Event :=
  match e with
  | Input data n t => Input (if bufferContainsEnter data then CR else EmptyString) n t
  | _ => e
  end.

(** The user types a word, the child echoes it; the user types a key and
    the child exits a second later without a byte of output. *)
Definition typedWord : list Event := [Input "keystroke" 9 0; Output 9 5; Advance 31].
Definition quitKey : list Event := [Advance 1000; EndSession].

(** A timeout that [setTimeout] does not take: fifty days. *)
Definition fiftyDays : InteractionTrackerOptions := mkOptions 30 4320000000 enter.

(** No output at all. *)
Definition no_output (evs : list Event) : bool :=
  forallb (fun e => match e with Output _ _ => false | _ => true end) evs.

(** ** Statements *)

(** "The serialized records contain no occurrence of any input substring". *)
Definition no_occurrence_as_stated (opts : InteractionTrackerOptions)
    (evs : list Event) : Prop :=
  ∀ data n t S, In (Input data n t) evs → S ≠ EmptyString → Js.includes S data = true →
    Js.includes S (Stringify.turnEvents (turnsOf (emitted (run opts evs)))) = false ∧
    Js.includes S (Stringify.interactions (interactionsOf (emitted (run opts evs)))) = false.

(** "A keystroke interaction that sees no output within the timeout is
    finalized with the reason timeout": the interaction is the one that the
    input after [evs0] starts, [evs] and [d] more milliseconds follow. *)
Definition timeout_as_stated (opts : InteractionTrackerOptions) (evs0 : list Event)
    (data : string) (n t : Z) (evs : list Event) (d : nat) : Prop :=
  activeKeystroke (run opts evs0) = None →
  no_output evs = true →
  interactionTimeoutMs opts ≤ elapsed evs + Z.of_nat d →
  Exists (fun i => id i = nextId (run opts evs0) ∧ kind i = keystroke ∧
                   endReason i = timeout)
    (interactionsOf
       (emitted (run opts (evs0 ++ Input data n t :: evs ++ [Advance d])))).

(** "If the first output arrives before [interaction_timeout_ms], the
    interaction never finalizes with timeout": the interaction [k] starts
    during [evs], which take less than [interactionTimeoutMs], the first
    output arrives after them, and [evs2] follows. *)
Definition stale_as_stated (opts : InteractionTrackerOptions) (evs0 evs : list Event)
    (n t : Z) (evs2 : list Event) (k : Z) : Prop :=
  nextId (run opts evs0) ≤ k < nextId (run opts (evs0 ++ evs)) →
  no_output evs = true →
  elapsed evs < interactionTimeoutMs opts →
  Forall (λ i, id i = k → endReason i ≠ timeout)
    (interactionsOf (emitted (run opts (evs0 ++ evs ++ Output n t :: evs2)))).

(** Latency ordering of one finalized record: [0 <= t1 <= t2], and the two
    are present exactly when output bytes were counted. *)
Definition latency_ok (i : Interaction) : Prop :=
  (∀ a b, t1Ms i = Some a → t2Ms i = Some b → 0 ≤ a ∧ a ≤ b) ∧
  (is_Some (t1Ms i) ↔ is_Some (t2Ms i)) ∧
  (is_Some (t1Ms i) ↔ 0 < outputBytes i).

(** The part of it that does not count bytes: the order, the two stamps
    together, and stamps whenever bytes were counted. *)
Definition latency_order (i : Interaction) : Prop :=
  (∀ a b, t1Ms i = Some a → t2Ms i = Some b → 0 ≤ a ∧ a ≤ b) ∧
  (is_Some (t1Ms i) ↔ is_Some (t2Ms i)) ∧
  (0 < outputBytes i → is_Some (t1Ms i)).

(** [pos] tells whether every output chunk is known to hold a byte. *)
Definition latency_at (pos : bool) (i : Interaction) : Prop :=
  latency_order i ∧ (pos = true → latency_ok i).

(** An output event was observed during interaction [k]: it arrived while
    [k] was in one of the tracker's two slots. *)
Definition Observed (opts : InteractionTrackerOptions) (evs : list Event) (k : Z) : Prop :=
  ∃ evs1 n t evs2, evs = evs1 ++ Output n t :: evs2 ∧
    (activeKeystroke (run opts evs1) = Some k ∨ activeTurn (run opts evs1) = Some k).

(** The latency claim with the monotone clock as its only assumption. *)
Definition latency_as_stated (opts : InteractionTrackerOptions) (evs : list Event) : Prop :=
  nondecreasing (nows evs) = true →
  Forall latency_ok (interactionsOf (emitted (run opts evs))).

(** Every [overlap] record is emitted right after the turn event of the turn
    that displaced it. *)
Definition OverlapAfterTurn (l : list Emission) : Prop :=
  ∀ l1 i l2, l = l1 ++ OnInteraction i :: l2 → endReason i = overlap →
    ∃ l0 t, l1 = l0 ++ [OnTurn t] ∧ kind i = turn ∧
            Schema.turnIndex i = Some (index t - 1).

(** The keystroke interaction [k] was finalized with reason [timeout]. *)
Definition TimedOut (k : Z) (w : World) : Prop :=
  ∃ i, i ∈ interactionsOf (emitted w) ∧
       id i = k ∧ kind i = keystroke ∧ endReason i = timeout.

(** ** Invariants *)

Definition timer_ref (a : TimerAction) : Z :=
  match a with NoOutputFire r | IdleFire r => r end.

(** Shape of every reachable world: keys are ids and below [nextId], timer
    handles are below [nextHandle], slots point into the store at objects of
    their kind, and a finalized id is in no slot. *)
Record WF (w : World) : Prop := mkWF {
  wf_heap_id : ∀ k it, heap w !! k = Some it → ai_id it = k ∧ k < nextId w;
  wf_heap_out : ∀ k it, heap w !! k = Some it →
      (firstOutputAtMs it = None ↔ lastOutputAtMs it = None);
  wf_heap_handles : ∀ k it h, heap w !! k = Some it →
      idleTimer it = Some h ∨ noOutputTimeout it = Some h → (h < nextHandle w)%nat;
  wf_timers : ∀ t, t ∈ timers w →
      (handle t < nextHandle w)%nat ∧ timer_ref (action t) < nextId w;
  wf_keystroke : ∀ k, activeKeystroke w = Some k →
      ∃ it, heap w !! k = Some it ∧ ai_kind it = keystroke;
  wf_turn : ∀ k, activeTurn w = Some k →
      ∃ it, heap w !! k = Some it ∧ ai_kind it = turn;
  wf_emitted : ∀ i, i ∈ interactionsOf (emitted w) →
      id i < nextId w ∧ activeKeystroke w ≠ Some (id i) ∧ activeTurn w ≠ Some (id i) }.

(** An invariant [φ] of every object and [ψ] of every emitted record, with
    [lo] a lower bound of the ids still to be given out. *)
Definition Obj (φ : ActiveInteraction → Prop) (ψ : Interaction → Prop) (lo : Z)
    (w : World) : Prop :=
  lo ≤ nextId w ∧
  (∀ k it, heap w !! k = Some it → φ it) ∧
  (∀ i, i ∈ interactionsOf (emitted w) → ψ i).

(** [φ] holds of an object that starts at [t0] ... *)
Definition New (φ : ActiveInteraction → Prop) (lo : Z) (t0 : Z) : Prop :=
  ∀ i k extra h, lo ≤ i → φ (mkActive i k t0 None None 0 0 extra None (Some h)).

(** ... and survives the observation of [n] bytes at [now]. *)
Definition Obs (φ : ActiveInteraction → Prop) (now n : Z) : Prop :=
  ∀ it h, φ it → φ (set_idleTimer (Some h) (noteOutput now n it)).

Definition ev_ok (φ : ActiveInteraction → Prop) (lo : Z) (e : Event) : Prop :=
  match e with
  | Input _ _ now | MarkTurn _ now => New φ lo now
  | Output n now => Obs φ now n
  | EndSession | Advance _ => True
  end.

(** The time stamps of an object, bounded by the latest clock reading [b];
    with [pos], an object that saw output has counted a byte. *)
Definition timed (pos : bool) (b : Z) (it : ActiveInteraction) : Prop :=
  ai_t0Ms it ≤ b ∧
  (firstOutputAtMs it = None ↔ lastOutputAtMs it = None) ∧
  (∀ f l, firstOutputAtMs it = Some f → lastOutputAtMs it = Some l →
          ai_t0Ms it ≤ f ∧ f ≤ l ∧ l ≤ b) ∧
  (firstOutputAtMs it = None → ai_outputBytes it = 0) ∧
  (pos = true → firstOutputAtMs it ≠ None → 0 < ai_outputBytes it).

(** Turn counter, turn log and turn slot agree. *)
Record TL (w : World) : Prop := mkTL {
  tl_len : Tracker.turnIndex w = Z.of_nat (length (turnsOf (emitted w)));
  tl_seq : List.map index (turnsOf (emitted w)) =
           List.map Z.of_nat (seq 1 (length (turnsOf (emitted w))));
  tl_slot : ∀ k it, activeTurn w = Some k → heap w !! k = Some it →
            ai_turnIndex it = Some (Tracker.turnIndex w);
  tl_adj : OverlapAfterTurn (emitted w) }.

(** The no-output timer [h] of the keystroke interaction [k], due at [D], is
    still pending at time [c], and [k] has seen no output. *)
Definition ours (k : Z) (h : nat) (D : Z) : Timer := mkTimer h D (NoOutputFire k).

Record Armed (k : Z) (h : nat) (D c : Z) (w : World) : Prop := mkArmed {
  ar_slot : activeKeystroke w = Some k;
  ar_obj : ∃ it, heap w !! k = Some it ∧ ai_kind it = keystroke ∧
                 firstOutputAtMs it = None ∧ noOutputTimeout it = Some h;
  ar_timer : ours k h D ∈ timers w;
  ar_uniq : ∀ t, t ∈ timers w → handle t = h → t = ours k h D;
  ar_noidle : ∀ t, t ∈ timers w → action t ≠ IdleFire k;
  ar_fresh : (h < nextHandle w)%nat;
  ar_others : ∀ j it, heap w !! j = Some it → j ≠ k →
                idleTimer it ≠ Some h ∧ noOutputTimeout it ≠ Some h;
  ar_clock : clock w = c }.

(** At time [c] no record says that [k] timed out, and no no-output timer
    of [k] is due before [D]. *)
Record NotYet (k D c : Z) (w : World) : Prop := mkNotYet {
  ny_records : ∀ i, i ∈ interactionsOf (emitted w) → id i = k → endReason i ≠ timeout;
  ny_timers : ∀ t, t ∈ timers w → action t = NoOutputFire k → D ≤ deadline t;
  ny_clock : clock w = c }.

(** Every pending timer is the one its object remembers, handles name one
    timer each, no timer is left for a finalized interaction, and no id was
    finalized twice. *)
Definition owned (t : Timer) (it : ActiveInteraction) : Prop :=
  match action t with
  | NoOutputFire _ => noOutputTimeout it = Some (handle t)
  | IdleFire _ => idleTimer it = Some (handle t)
  end.

Record Once (w : World) : Prop := mkOnce {
  on_owner : ∀ t, t ∈ timers w →
      ∃ it, heap w !! timer_ref (action t) = Some it ∧ owned t it;
  on_uniq : ∀ t1 t2, t1 ∈ timers w → t2 ∈ timers w → handle t1 = handle t2 → t1 = t2;
  on_dead : ∀ t i, t ∈ timers w → i ∈ interactionsOf (emitted w) →
      timer_ref (action t) ≠ id i;
  on_nodup : NoDup (List.map id (interactionsOf (emitted w))) }.

(** Interaction [k] is in one of the two slots; a record of it was emitted;
    every id given out so far is one or the other. *)
Definition active (w : World) (k : Z) : Prop :=
  activeKeystroke w = Some k ∨ activeTurn w = Some k.

Definition finalized (w : World) (k : Z) : Prop :=
  ∃ i, i ∈ interactionsOf (emitted w) ∧ id i = k.

Definition Started (w : World) : Prop :=
  ∀ k, 1 ≤ k < nextId w → active w k ∨ finalized w k.

End TrackerSpec.

(* ===================================================================== *)
(** * Statements about markers, selection, correlation and finalize       *)
(* ===================================================================== *)

Module MarkersSpec.
Import Markers.

(** The label survives [trim] as a non-empty string. *)
Definition hasLabel (opts : AppendMarkerOptions) : bool :=
  match o_label opts with
  | Some l => Js.nonEmpty (Js.trim l)
  | None => false
  end.

Definition trimmedLabel (opts : AppendMarkerOptions) : string :=
  match o_label opts with
  | Some l => Js.trim l
  | None => EmptyString
  end.

(** "A line that carries an annotation has exactly one of the two forms". *)
Definition one_form_as_stated (sha256Hex : string → string) (now : string)
    (opts : AppendMarkerOptions) : Prop :=
  annotated (lineForms (markerRecord sha256Hex now opts)) = true →
  exactlyOne (lineForms (markerRecord sha256Hex now opts)) = true.

(** [cc-profiler mark " deploy " --unsafe-plaintext-label] *)
Definition plaintextMark : AppendMarkerOptions :=
  mkAppendMarkerOptions "markers.jsonl" (Some (Js.Num 1200)) (Some " deploy ") true.

(** A label of white space outside ASCII, and one with such white space
    around a word. *)
Definition blankMark : AppendMarkerOptions :=
  mkAppendMarkerOptions "markers.jsonl" None
    (Some (Js.noBreakSpace ++ " " ++ Js.emSpace)%string) true.
Definition paddedMark : AppendMarkerOptions :=
  mkAppendMarkerOptions "markers.jsonl" None
    (Some (Js.noBreakSpace ++ "deploy" ++ Js.emSpace)%string) false.

End MarkersSpec.

Module JsonlSelectSpec.
Import JsonlSelect.

(** [best] is in the list, no candidate is larger, and none of the same size
    was modified later. *)
Definition maximal (best : JsonlCandidate) (cs : list JsonlCandidate) : Prop :=
  In best cs ∧
  ∀ c, In c cs →
    sizeBytes c ≤ sizeBytes best ∧
    (sizeBytes c = sizeBytes best → mtimeMs c ≤ mtimeMs best).

(** S4 of the specification: a small, newer snapshot beside a large, older
    conversation log, both under the project directory. *)
Definition snapshot : JsonlCandidate := mkCandidate "/p/-w/snapshot.jsonl" 5000 40.
Definition conversation : JsonlCandidate := mkCandidate "/p/-w/conversation.jsonl" 1000 4000.

Definition s4Scan (dir : string) (since : Z) (depth : nat) : list JsonlCandidate :=
  [snapshot; conversation].

Definition s4Join (a b : string) : string := (a ++ "/" ++ b)%string.

Definition s4Tracker : JsonlTracker :=
  mkTracker 0 None (Some "/w") false (Some "/p") None None [].

End JsonlSelectSpec.

Module CorrelateSpec.
Import Json Correlate.

(** A log of two lines without time stamps, [u] from the user and [a] from
    the assistant, and a session of one turn. *)
Definition demoParse (line : string) : option json :=
  if String.eqb line "u" then Some (JObj [("role", JStr "User")])
  else if String.eqb line "a" then Some (JObj [("message", JObj [("role", JStr "assistant")])])
  else None.

Definition demoDate (s : string) : option Z := None.

Definition demoOptions : CorrelateJsonlOptions :=
  mkCorrelateOptions "log.jsonl" 0 (Some 10000) [Schema.mkTurnEvent 1 900 Schema.enter].

(** The same log against a session of two turns. *)
Definition twoTurns : CorrelateJsonlOptions :=
  mkCorrelateOptions "log.jsonl" 0 (Some 10000)
    [Schema.mkTurnEvent 1 900 Schema.enter; Schema.mkTurnEvent 2 1900 Schema.enter].

End CorrelateSpec.

Module SessionSpec.
Import Session.

(** [cc-profiler --correlate-jsonl --jsonl-path /tmp/log.jsonl claude] *)
Definition correlateRequested : RunActionArguments :=
  mkRunActionArguments ["claude"] "/w" None (Some "/tmp/log.jsonl") None
    30 100 2000 false false true false false false.

(** At the child's exit: one turn was taken, the log was selected and
    sampled. *)
Definition logSelected : JsonlSelect.JsonlTracker :=
  JsonlSelect.mkTracker 0 (Some "/tmp/log.jsonl") None false None
    (Some "/tmp/log.jsonl") (Some "5f2a") [JsonlSelect.mkSample 1 900 4000].

Definition atExit : Runtime :=
  mkRuntime false
    (Some (mkSessionData None None [Schema.mkTurnEvent 1 900 Schema.enter] [] [] []))
    (Some logSelected) (Some Tracker.init) true true true true true true false.

End SessionSpec.

(* ===================================================================== *)
(** * The tracker over a whole session                                    *)
(* ===================================================================== *)

Module TrackerSession.
Import Schema Tracker TrackerSpec.

(** [getCurrentTurnIndex()] *)
Definition getCurrentTurnIndex (w : World) : Z := turnIndex w.

(** What an event does to the turn log: an input chunk with a line
    terminator (when turns are detected on Enter) and a marked turn start a
    turn, at the time and from the source given. *)
Definition trigger (opts : InteractionTrackerOptions) (e : Event)
    : option (Z * TurnDetectionMode) :=
  match e with
  | Input data _ now =>
      if mode_eqb (turnDetection opts) enter && bufferContainsEnter data
      then Some (now, enter) else None
  | MarkTurn src now => Some (now, src)
  | _ => None
  end.

Definition numbered (from : nat) (l : list (Z * TurnDetectionMode)) : list TurnEvent :=
  imap (fun i p => mkTurnEvent (Z.of_nat (from + i)) p.1 p.2) l.

(** The bytes the caller reports for its input chunks. *)
Definition inputTotal (evs : list Event) : Z :=
  fold_right (fun e acc => match e with Input _ n _ => n + acc | _ => acc end) 0 evs.

Definition sumZ (l : list Z) : Z := fold_right Z.add 0 l.

Definition ofKind (k : InteractionKind) (l : list Interaction) : list Interaction :=
  List.filter (fun i => bool_decide (kind i = k)) l.

(** The input bytes of the keystroke interaction in the slot. *)
Definition pendingInput (w : World) : Z :=
  match activeKeystroke w with
  | Some k => match heap w !! k with
              | Some it => ai_inputBytes it
              | None => 0
              end
  | None => 0
  end.

(** The turn index of the turn interaction in the slot. *)
Definition pendingTurn (w : World) : list (option Z) :=
  match activeTurn w with
  | Some t => match heap w !! t with
              | Some it => [ai_turnIndex it]
              | None => []
              end
  | None => []
  end.

(** The turn log and the turn counter. *)
Definition turnState (w : World) : list TurnEvent * Z :=
  (turnsOf (emitted w), turnIndex w).

(** The input bytes counted in keystroke interactions, reported or not. *)
Definition keystrokeInput (w : World) : Z :=
  sumZ (List.map inputBytes (ofKind keystroke (interactionsOf (emitted w)))) +
  pendingInput w.

(** The turn indices of the turn interactions, reported or not. *)
Definition turnsCovered (w : World) : list (option Z) :=
  List.map Schema.turnIndex (ofKind turn (interactionsOf (emitted w))) ++ pendingTurn w.

(** Time passes or output arrives, and nothing else. *)
Definition passive (e : Event) : bool :=
  match e with
  | Advance _ | Output _ _ => true
  | _ => false
  end.

(** ** Invariants *)

(** An object's fields agree: ids start at 1, an idle timer is armed only
    after output, and before output nothing is stamped or counted. *)
Definition sound (it : ActiveInteraction) : Prop :=
  1 ≤ ai_id it ∧
  (idleTimer it ≠ None → firstOutputAtMs it ≠ None) ∧
  (firstOutputAtMs it = None → lastOutputAtMs it = None ∧ ai_outputBytes it = 0).

Record Good (w : World) : Prop := mkGood {
  good_wf : WF w;
  good_once : Once w;
  good_started : Started w;
  good_heap : Obj sound (fun i => 1 ≤ id i) 1 w }.

(** How a timer callback finalizes: with [timeout] an interaction that saw
    no output, with [burstIdle] one that did; the session's end and an
    overlapping turn finalize whatever is active. *)
Definition by_timer (reason : EndReason) (it : ActiveInteraction) : Prop :=
  (reason = timeout ∧ firstOutputAtMs it = None) ∨
  (reason = burstIdle ∧ firstOutputAtMs it ≠ None).

(** The record of an interaction agrees with its end reason. *)
Definition reason_ok (i : Interaction) : Prop :=
  (endReason i = timeout → t1Ms i = None ∧ t2Ms i = None ∧ outputBytes i = 0) ∧
  (endReason i = burstIdle → is_Some (t1Ms i) ∧ is_Some (t2Ms i)) ∧
  (endReason i = overlap → kind i = turn) ∧
  (kind i = turn ↔ is_Some (Schema.turnIndex i)).

(** An object of kind [turn] carries a turn index, a keystroke object
    none. *)
Definition kinded (it : ActiveInteraction) : Prop :=
  ai_kind it = turn ↔ is_Some (ai_turnIndex it).

(** The idle timer [h] of the keystroke interaction [k], due at [D], is
    pending at time [c], and the last output of [k] was at [l]. *)
Definition idleTimerOf (k : Z) (h : nat) (D : Z) : Timer := mkTimer h D (IdleFire k).

Record Idle (k : Z) (h : nat) (D c l : Z) (w : World) : Prop := mkIdle {
  id_slot : activeKeystroke w = Some k;
  id_obj : ∃ it, heap w !! k = Some it ∧ ai_kind it = keystroke ∧
                 lastOutputAtMs it = Some l ∧ firstOutputAtMs it ≠ None ∧
                 idleTimer it = Some h;
  id_timer : idleTimerOf k h D ∈ timers w;
  id_uniq : ∀ t, t ∈ timers w → handle t = h → t = idleTimerOf k h D;
  id_fresh : (h < nextHandle w)%nat;
  id_others : ∀ j it, heap w !! j = Some it → j ≠ k →
                idleTimer it ≠ Some h ∧ noOutputTimeout it ≠ Some h;
  id_clock : clock w = c }.

(** The keystroke interaction [k] was finalized with reason [burstIdle],
    its last output being at [l]. *)
Definition BurstEnded (k l : Z) (w : World) : Prop :=
  ∃ i, i ∈ interactionsOf (emitted w) ∧
       id i = k ∧ kind i = keystroke ∧ endReason i = burstIdle ∧
       t2Ms i = Some (l - t0Ms i).

Definition Covered (w : World) : Prop :=
  0 ≤ turnIndex w ∧
  turnsCovered w =
  List.map (fun n => Some (Z.of_nat n)) (seq 1 (Z.to_nat (turnIndex w))).

Definition Reasons (w : World) : Prop :=
  (∀ k it, heap w !! k = Some it → kinded it) ∧
  Forall reason_ok (interactionsOf (emitted w)).

End TrackerSession.

(* ===================================================================== *)
(** * The correlation over a whole log                                    *)
(* ===================================================================== *)

Module CorrelateResult.
Import Schema Json Correlate.

Definition total {A} (f : A → Z) (l : list A) : Z :=
  fold_right (fun x acc => f x + acc) 0 l.

(** [line.trim()] is truthy *)
Definition nonBlank (line : string) : bool := Js.nonEmpty (Js.trim line).

(** A tool name as the result holds it: not empty, at most 120 long. *)
Definition toolNameOk (s : string) : Prop :=
  s ≠ EmptyString ∧ (Js.length s ≤ 120)%nat.

Definition bucketOk (b : Bucket) : Prop :=
  0 ≤ recordCount b ∧ 0 ≤ recordBytes b ∧
  Z.of_nat (length (toolUseNames b)) ≤ toolUseCount b ∧
  NoDup (toolUseNames b) ∧ Forall toolNameOk (toolUseNames b).

(** The [perTurn.map(...)] of the result. *)
Definition toPerTurn (pt : Bucket) : PerTurn :=
  mkPerTurn (b_turnIndex pt) (recordCount pt) (recordBytes pt)
    (toolUseCount pt) (sortNames (toolUseNames pt))
    (nonZero (inputTokenCount pt)) (nonZero (outputTokenCount pt)).

(** What the loop keeps true of its variables. *)
Record Inv (opts : CorrelateJsonlOptions) (st : LoopState) : Prop := mkInv {
  inv_aligned : List.map b_turnIndex (perTurn st) = List.map index (turns opts);
  inv_errors : 0 ≤ parseErrors st;
  inv_used : 0 ≤ usedTimestamps st;
  inv_lines : total recordCount (perTurn st) + parseErrors st ≤ parsedLines st;
  inv_bytes : total recordBytes (perTurn st) ≤ parsedBytes st;
  inv_buckets : Forall bucketOk (perTurn st);
  inv_seq : -1 ≤ seqTurnPtr st ∧ (usedSequential st = false → seqTurnPtr st = -1);
  inv_ptr : (turnPtr st < length (turns opts))%nat;
  inv_attributed :
    if (0 <? usedTimestamps st) || usedSequential st
    then 1 ≤ total recordCount (perTurn st)
    else perTurn st = initBuckets opts }.

(** An entry of the result to which nothing was attributed. *)
Definition emptyEntry (p : PerTurn) : Prop :=
  r_recordCount p = 0 ∧ r_recordBytes p = 0 ∧ r_toolUseCount p = 0 ∧
  r_toolUseNames p = [] ∧ r_inputTokenCount p = None ∧ r_outputTokenCount p = None.

Definition sortedNames (l : list string) : Prop :=
  Sorted (fun a b => Js.leb a b = true) l.

Section View.
Variable JSON_parse : string → option json.
Variable Date_parse : string → option Z.

(** What the correlator takes from a parsed record. *)
Record RecordView := mkRecordView {
  v_epochMs : option Z;
  v_isUser : bool;
  v_toolNames : list string;
  v_usage : option (option Z * option Z) }.

(** What the correlator takes from a line: nothing of a blank one; the
    byte length of every other, and of those that parse the time stamp, the
    role being [user], the tool names and the token counts. *)
Definition view (line : string) : option (Z * option RecordView) :=
  if nonBlank line then
    Some (Js.byteLength line,
          option_map (fun rec =>
                        mkRecordView (extractEpochMs Date_parse rec)
                          (bool_decide (extractRole rec = Some user))
                          (extractToolNames rec) (extractTokenUsage rec))
            (JSON_parse (Js.trim line)))
  else None.

End View.

(** Turn times that do not decrease, as a monotonic clock gives them. *)
Fixpoint ascending (l : list Z) : bool :=
  match l with
  | a :: rest =>
      match rest with
      | b :: _ => (a <=? b) && ascending rest
      | [] => true
      end
  | [] => true
  end.

(** A log in which every line is a user record that carries the line as its
    text. *)
Definition textParse (line : string) : option json :=
  Some (JObj [("role", JStr "user"); ("text", JStr line)]).

(** Three turns, at 1 s, 2 s and 3 s of a session started at 5000000. *)
Definition threeTurns : CorrelateJsonlOptions :=
  mkCorrelateOptions "log.jsonl" 5000000 None
    [mkTurnEvent 1 1000 enter; mkTurnEvent 2 2000 enter; mkTurnEvent 3 3000 enter].

End CorrelateResult.

(* ===================================================================== *)
(** * External-log selection by content, and the size samples             *)
(* ===================================================================== *)

Module JsonlSamples.
Import Schema JsonlSelect.

(** [new JsonlTracker(opts)] *)
Definition newJsonlTracker (startedAt : Z) (override cwd : option string)
    (allowRead : bool) (projectsDirOverride : option string) : JsonlTracker :=
  mkTracker startedAt override cwd allowRead projectsDirOverride None None [].

(** The stored hash is that of the selected path. *)
Definition hashMatches (sha256Hex : string → string) (t : JsonlTracker) : Prop :=
  activePathSha256 t = option_map sha256Hex (activePath t).

(** Nothing but the selection differs. *)
Definition sameOptions (t t' : JsonlTracker) : Prop :=
  startedAtMsEpoch t' = startedAtMsEpoch t ∧ overridePath t' = overridePath t ∧
  cwd t' = cwd t ∧ allowReadForSelection t' = allowReadForSelection t ∧
  projectsDirOverride t' = projectsDirOverride t.

(** ** pickBestCandidateForConversation *)

(** [[...candidates].sort((a, b) => b.mtimeMs - a.mtimeMs)]: the sort is
    stable, so among candidates of one modification time the order of the
    scan is kept. *)
Fixpoint insertByMtime (c : JsonlCandidate) (l : list JsonlCandidate)
    : list JsonlCandidate :=
  match l with
  | [] => [c]
  | x :: rest => if mtimeMs x <=? mtimeMs c then c :: l else x :: insertByMtime c rest
  end.

Definition sortByMtime (l : list JsonlCandidate) : list JsonlCandidate :=
  fold_right insertByMtime [] l.

(** [sorted.slice(0, 25)] *)
Definition toScore (candidates : list JsonlCandidate) : list JsonlCandidate :=
  take 25 (sortByMtime candidates).

Section Scoring.
(** [scoreJsonlCandidateForConversation(c, startedAtMsEpoch)], which reads
    the tail of the file. *)
Variable score : JsonlCandidate → Z.

(** The body of the loop over [toScore]. *)
Definition betterScored (best : option (JsonlCandidate * Z)) (c : JsonlCandidate)
    : option (JsonlCandidate * Z) :=
  let s := score c in
  match best with
  | None => Some (c, s)
  | Some (b, bs) =>
      if (bs <? s) || ((s =? bs) && (sizeBytes b <? sizeBytes c))
      then Some (c, s) else best
  end.

Definition pickBestCandidateForConversation (candidates : list JsonlCandidate)
    : option JsonlCandidate :=
  match fold_left betterScored (toScore candidates) None with
  | Some (c, _) => Some c
  | None => pickLargestCandidate candidates
  end.

(** [b], whose score is [s], is the best of [seen]: none scores higher, and
    none of the same score is larger. *)
Definition bestOf (b : JsonlCandidate) (s : Z) (seen : list JsonlCandidate) : Prop :=
  s = score b ∧ b ∈ seen ∧
  ∀ c, c ∈ seen → score c ≤ s ∧ (score c = s → sizeBytes c ≤ sizeBytes b).

End Scoring.

(** ** recordOnTurn *)

Section WithFileSystem.
Variable sha256Hex : string → string.
Variable pathExists : string → bool.
Variable isDirectory : string → bool.
Variable path_resolve : string → string.
Variable path_join : string → string → string.
Variable defaultProjectsDir : string.
Variable findRecentJsonlCandidates : string → Z → nat → list JsonlCandidate.
Variable pickBest : list JsonlCandidate → Z → option JsonlCandidate.
(** [Number((await stat(p)).size)]; [None]: [stat] throws. *)
Variable fileSize : string → option Z.

Definition addSample (s : JsonlSizeSample) (t : JsonlTracker) : JsonlTracker :=
  mkTracker (startedAtMsEpoch t) (overridePath t) (cwd t) (allowReadForSelection t)
            (projectsDirOverride t) (activePath t) (activePathSha256 t)
            (samples t ++ [s]).

Definition recordOnTurn (turn : TurnEvent) (t : JsonlTracker) : JsonlTracker :=
  let '(p, t') := ensureActivePath sha256Hex pathExists isDirectory path_resolve
                    path_join defaultProjectsDir findRecentJsonlCandidates pickBest t in
  match truthy p with
  | Some path =>
      match fileSize path with
      | Some size => addSample (mkSample (index turn) (tMs turn) size) t'
      | None => t'
      end
  | None => t'
  end.

End WithFileSystem.

(** Three candidates of one second, scored 5, 9 and 9. *)
Definition scoredDemo : list JsonlCandidate :=
  [mkCandidate "/p/a.jsonl" 1000 10; mkCandidate "/p/b.jsonl" 1000 20;
   mkCandidate "/p/c.jsonl" 1000 30].

Definition demoScore (c : JsonlCandidate) : Z :=
  if sizeBytes c =? 10 then 5 else 9.

End JsonlSamples.

(* ===================================================================== *)
(** * The scan for external logs: findRecentJsonlCandidates               *)
(* ===================================================================== *)

Module JsonlScan.
Import JsonlSelect.

(** A [Dirent] of [readdir(dir, { withFileTypes: true })]. *)
Record Dirent := mkDirent {
  d_name : string;
  d_isDirectory : bool;
  d_isFile : bool }.

(** The [let] and [const] variables of the scan. *)
Record Scan := mkScan {
  seen : nat;
  candidates : list JsonlCandidate;
  queue : list (string * nat) }.

Definition maxEntries : nat := Z.to_nat 15000.
Arguments maxEntries : simpl never.

(** [s.endsWith(suffix)] *)
Definition endsWith (suffix s : string) : bool :=
  (String.length suffix <=? String.length s)%nat &&
  String.eqb (String.substring (String.length s - String.length suffix)
                (String.length suffix) s) suffix.

Section WithFileSystem.
(** [readdir] ([None]: it throws), [stat] ([None]: it throws; otherwise
    [mtimeMs] and [size] as [Number(...)] gives them) and [path.join]. *)
Variable readdir : string → option (list Dirent).
Variable stat : string → option (Js.number * Js.number).
Variable path_join : string → string → string.

(** The [for (const entry of entries)] loop; it ends early when more than
    [maxEntries] entries have been seen. *)
Fixpoint scanEntries (dir : string) (depth : nat) (since : Z)
    (entries : list Dirent) (st : Scan) : Scan :=
  match entries with
  | [] => st
  | entry :: rest =>
      let st1 := mkScan (S (seen st)) (candidates st) (queue st) in
      if (maxEntries <? seen st1)%nat then st1 else
      let full := path_join dir (d_name entry) in
      if d_isDirectory entry then
        scanEntries dir depth since rest
          (mkScan (seen st1) (candidates st1) (queue st1 ++ [(full, S depth)]))
      else if negb (d_isFile entry) then scanEntries dir depth since rest st1
      else if negb (endsWith ".jsonl" (d_name entry)) then
        scanEntries dir depth since rest st1
      else
        match stat full with
        | Some (Js.Num mtimeMs, size) =>
            if mtimeMs <? since then scanEntries dir depth since rest st1
            else
              let sizeBytes := match size with Js.Num s => s | Js.NonFinite => 0 end in
              scanEntries dir depth since rest
                (mkScan (seen st1)
                   (candidates st1 ++ [mkCandidate full mtimeMs sizeBytes]) (queue st1))
        | _ => scanEntries dir depth since rest st1
        end
  end.

(** The [while (queue.length)] loop, for at most [fuel] rounds; [None]: the
    rounds did not suffice. *)
Fixpoint scanQueue (fuel : nat) (since : Z) (maxDepth : nat) (st : Scan)
    : option (list JsonlCandidate) :=
  match fuel with
  | O => None
  | S fuel' =>
      match queue st with
      | [] => Some (candidates st)
      | (dir, depth) :: rest =>
          let st0 := mkScan (seen st) (candidates st) rest in
          if (maxDepth <? depth)%nat then scanQueue fuel' since maxDepth st0
          else if (maxEntries <? seen st)%nat then Some (candidates st)
          else
            match readdir dir with
            | None => scanQueue fuel' since maxDepth st0
            | Some entries =>
                scanQueue fuel' since maxDepth (scanEntries dir depth since entries st0)
            end
      end
  end.

Definition scanStart (rootDir : string) : Scan := mkScan 0 [] [(rootDir, 0%nat)].

(** Every directory that is read was pushed for an entry counted below the
    bound, so [maxEntries + 2] rounds always suffice. *)
Definition findRecentJsonlCandidates (rootDir : string) (sinceMsEpoch : Z)
    (maxDepth : nat) : list JsonlCandidate :=
  default [] (scanQueue (maxEntries + 2) sinceMsEpoch maxDepth (scanStart rootDir)).

(** A candidate as the scan lists it: a [.jsonl] entry of some directory,
    with the modification time that [stat] gives, not before [since]. *)
Definition listed (since : Z) (c : JsonlCandidate) : Prop :=
  since ≤ mtimeMs c ∧
  ∃ dir name size, p c = path_join dir name ∧ endsWith ".jsonl" name = true ∧
                   stat (p c) = Some (Js.Num (mtimeMs c), size).

(** What bounds the rounds still to come. *)
Definition potential (st : Scan) : nat :=
  (length (queue st) + (maxEntries - seen st))%nat.

End WithFileSystem.

(** A directory that holds itself, over and over, and one log. *)
Definition loopDir (dir : string) : option (list Dirent) :=
  Some [mkDirent "again" true false; mkDirent "log.jsonl" false true].

Definition loopStat (path : string) : option (Js.number * Js.number) :=
  Some (Js.Num 5000, Js.Num 10).

Definition loopJoin (dir name : string) : string :=
  if String.eqb name "again" then dir else "/p/log.jsonl".

End JsonlScan.

(* ===================================================================== *)
(** * The marker watcher: src/session/markerWatcher.ts                    *)
(* ===================================================================== *)

Module MarkerWatcher.
Import Schema Markers.

Definition newline : ascii := ascii_of_nat 10.

(** [text.split("\n")] *)
Fixpoint splitNewline (s : string) : list string :=
  match s with
  | EmptyString => [EmptyString]
  | String c rest =>
      if Ascii.eqb c newline then EmptyString :: splitNewline rest
      else match splitNewline rest with
           | h :: t => String c h :: t
           | [] => [String c EmptyString]
           end
  end.

(** The outcome of [JSON.parse(trimmed) as MarkerLine]: it throws, or gives
    [null], whose fields cannot be read, or a value whose fields the watcher
    reads. *)
Inductive Parsed :=
| PThrows
| PNull
| PLine (line : MarkerLine).

(** What one line of the chunk does to the loop: nothing, the end of the
    loop (an exception that the outer [catch] swallows), or a marker. *)
Inductive Outcome :=
| Skip
| Aborts
| Emit (m : MarkerEvent).

(** [tick] is asynchronous: it runs up to an [await], and goes on when the
    awaited call of the file system has come back.  [NoTick] is
    [inFlight = false]; otherwise the tick in flight awaits [stat], [open],
    [read] or [close], and from [open] on it holds the size that [stat]
    gave. *)
Inductive Phase :=
| NoTick
| AwaitStat
| AwaitOpen (size : nat)
| AwaitRead (size : nat)
| AwaitClose.

(** The variables of [startMarkerWatcher]. *)
Record Watcher := mkWatcher {
  stopped : bool;
  lastSize : nat;
  phase : Phase }.

Definition set_phase (p : Phase) (w : Watcher) : Watcher :=
  mkWatcher (stopped w) (lastSize w) p.

Definition inFlight (w : Watcher) : bool :=
  match phase w with
  | NoTick => false
  | _ => true
  end.

(** [if (stopped || inFlight) return; inFlight = true], up to [await fs.stat]. *)
Definition tickBegin (w : Watcher) : Watcher :=
  if stopped w || inFlight w then w else set_phase AwaitStat w.

(** [startMarkerWatcher] calls [tick] once when it has set the interval. *)
Definition start : Watcher := tickBegin (mkWatcher false 0 NoTick).

(** [stop()] *)
Definition stop (w : Watcher) : Watcher := mkWatcher true (lastSize w) (phase w).

Section WithRuntime.
Variable JSON_parse : string → Parsed.
Variable Date_parse : string → option Z.
Variable startedAtMsEpoch : Z.

(** The body of [for (const line of text.split("\n"))]. *)
Definition handleLine (line : string) : Outcome :=
  let trimmed := Js.trim line in
  if negb (Js.nonEmpty trimmed) then Skip else
  match JSON_parse trimmed with
  | PThrows => Skip
  | PNull => Aborts
  | PLine parsed =>
      match watchLine Date_parse startedAtMsEpoch parsed with
      | Some m => Emit m
      | None => Skip
      end
  end.

Fixpoint watchLines (lines : list string) : list MarkerEvent :=
  match lines with
  | [] => []
  | line :: rest =>
      match handleLine line with
      | Skip => watchLines rest
      | Aborts => []
      | Emit m => m :: watchLines rest
      end
  end.

(** The awaited call has come back, and the tick in flight runs up to its
    next [await], or to its end; [content] is the marker file at that time.
    The markers are reported when [read] has come back, whether or not the
    watcher has been stopped since the tick began. *)
Definition resume (content : string) (w : Watcher) : Watcher * list MarkerEvent :=
  match phase w with
  | NoTick => (w, [])
  | AwaitStat =>
      let size := String.length content in
      if (size <=? lastSize w)%nat then (set_phase NoTick w, [])
      else (set_phase (AwaitOpen size) w, [])
  | AwaitOpen size => (set_phase (AwaitRead size) w, [])
  | AwaitRead size =>
      let toRead := (size - lastSize w)%nat in
      let text := String.substring (lastSize w) toRead content in
      let bytesRead := String.length text in
      (mkWatcher (stopped w) (lastSize w + bytesRead) AwaitClose,
       watchLines (splitNewline text))
  | AwaitClose => (set_phase NoTick w, [])
  end.

(** The awaited call has failed: [catch {}], after [finally] has closed the
    file if it was open. *)
Definition reject (w : Watcher) : Watcher :=
  match phase w with
  | NoTick => w
  | AwaitRead _ => set_phase AwaitClose w
  | _ => set_phase NoTick w
  end.

(** The marker that a line stands for, if any. *)
Definition eventOf (line : string) : option MarkerEvent :=
  match handleLine line with
  | Emit m => Some m
  | _ => None
  end.

(** A line as [appendMarker] writes it: without a line feed inside, and not
    the text [null]. *)
Definition wholeLine (line : string) : Prop :=
  (∀ c, In c (list_ascii_of_string line) → c ≠ newline) ∧ handleLine line ≠ Aborts.

(** ** The marker file and its watcher during a session *)

Inductive Action :=
| Append (line : string)     (* appendFile(markersPath, line + "\n") *)
| Tick                       (* the interval fires *)
| Resume                     (* the call that the tick awaits comes back *)
| Reject                     (* the call that the tick awaits fails *)
| Stop.

Record Watching := mkWatching {
  content : string;
  watcher : Watcher;
  reported : list MarkerEvent }.

(** [runSession] writes an empty marker file, then starts the watcher. *)
Definition watching0 : Watching := mkWatching EmptyString start [].

Definition act (s : Watching) (a : Action) : Watching :=
  match a with
  | Append line =>
      mkWatching (content s ++ (line ++ String newline EmptyString))%string
        (watcher s) (reported s)
  | Tick => mkWatching (content s) (tickBegin (watcher s)) (reported s)
  | Resume =>
      let '(w, ms) := resume (content s) (watcher s) in
      mkWatching (content s) w (reported s ++ ms)
  | Reject => mkWatching (content s) (reject (watcher s)) (reported s)
  | Stop => mkWatching (content s) (stop (watcher s)) (reported s)
  end.

Definition watch (sched : list Action) : Watching := fold_left act sched watching0.

(** The tick in flight runs to its end: [stat], [open], [read] and [close]
    come back. *)
Definition tickEnds : list Action := [Resume; Resume; Resume; Resume].

(** The interval fires, and the tick runs to its end. *)
Definition wholeTick : list Action := Tick :: tickEnds.

Definition appended (sched : list Action) : list string :=
  omap (fun a => match a with Append line => Some line | _ => None end) sched.

Definition isStop (a : Action) : bool :=
  match a with
  | Stop => true
  | _ => false
  end.

(** The lines of the file up to [lastSize] are [done], those after it
    [pending]; the size that the tick in flight holds is the size of the
    file at the end of one of its lines. *)
Definition concatLines (lines : list string) : string :=
  fold_right (fun l acc => l ++ String newline acc)%string EmptyString lines.

Record Seen (sched : list Action) (s : Watching) : Prop := mkSeen {
  seen_content : content s = concatLines (appended sched);
  seen_split : ∃ done pending,
    appended sched = done ++ pending ∧
    lastSize (watcher s) = String.length (concatLines done) ∧
    reported s = omap eventOf done ∧
    (stopped (watcher s) = false → existsb isStop sched = false) ∧
    (existsb isStop sched = false → stopped (watcher s) = false) ∧
    ∀ size, phase (watcher s) = AwaitOpen size ∨ phase (watcher s) = AwaitRead size →
      ∃ mid rest, pending = mid ++ rest ∧
                  size = String.length (concatLines (done ++ mid)) }.

End WithRuntime.

(** A parser that knows one line, [m]. *)
Definition demoMarker : MarkerLine :=
  mkMarkerLine "2026-01-01T00:00:01.200Z" (Some 1200) None (Some "5f2a").

Definition markerParse (s : string) : Parsed :=
  if String.eqb s "m" then PLine demoMarker else PThrows.

End MarkerWatcher.

(* ===================================================================== *)
(** * Escaping in the report: src/report/generate.ts                      *)
(* ===================================================================== *)

Module Report.
Local Open Scope string_scope.

Definition quoteChar : ascii := ascii_of_nat 34.
Definition apostrophe : ascii := ascii_of_nat 39.
Definition backslash : ascii := ascii_of_nat 92.

(** [s.replaceAll(c, by)] for a pattern of one character and a replacement
    without [$]. *)
Fixpoint replaceAll (c : ascii) (by_ : string) (s : string) : string :=
  match s with
  | EmptyString => EmptyString
  | String x rest =>
      if Ascii.eqb x c then by_ ++ replaceAll c by_ rest
      else String x (replaceAll c by_ rest)
  end.

Definition escapeHtml (input : string) : string :=
  replaceAll apostrophe "&#039;"
    (replaceAll quoteChar "&quot;"
       (replaceAll ">" "&gt;"
          (replaceAll "<" "&lt;"
             (replaceAll "&" "&amp;" input)))).

(** [safeJsonForHtml(value)], on the text that [JSON.stringify(value)]
    gives. *)
Definition safeJsonForHtml (json : string) : string :=
  replaceAll "<" (String backslash "u003c") json.

(** The entity that stands for a character in HTML text. *)
Definition escapeChar (x : ascii) : string :=
  if Ascii.eqb x "&" then "&amp;"
  else if Ascii.eqb x "<" then "&lt;"
  else if Ascii.eqb x ">" then "&gt;"
  else if Ascii.eqb x quoteChar then "&quot;"
  else if Ascii.eqb x apostrophe then "&#039;"
  else String x EmptyString.

(** Each character replaced by its image, in one pass. *)
Fixpoint expand (f : ascii → string) (s : string) : string :=
  match s with
  | EmptyString => EmptyString
  | String x rest => f x ++ expand f rest
  end.

(** A character that can open or close a tag or an attribute value. *)
Definition markup (c : ascii) : bool :=
  Ascii.eqb c "<" || Ascii.eqb c ">" || Ascii.eqb c quoteChar || Ascii.eqb c apostrophe.

Definition chars (s : string) : list ascii := list_ascii_of_string s.

End Report.

(* ===================================================================== *)
(** * The session, from the tracker's start to the written document       *)
(* ===================================================================== *)

Module SessionRun.
Import Schema Session.

(** [new InteractionTracker({ burstIdleMs, interactionTimeoutMs,
    turnDetection: "enter", ... })] *)
Definition trackerOptions (opts : RunSessionOptions) : Tracker.InteractionTrackerOptions :=
  Tracker.mkOptions (burstIdleMs opts) (interactionTimeoutMs opts) enter.

(** [opts.turnHotkey === "alt+t"] *)
Definition hotkeyOn (opts : RunSessionOptions) : bool := negb (turnHotkeyOff opts).

(** What the handlers of a live session are called with: a chunk from the
    host's stdin, a chunk from the child's terminal, or time for the timers;
    the child's exit is handled by [finalize]. *)
Inductive LiveEvent :=
| Stdin (str : string) (now : Z)
| Pty (data : string) (now : Z)
| Timers (d : nat).

Definition toHost (e : LiveEvent) : Wiring.HostEvent :=
  match e with
  | Stdin str now => Wiring.StdinData str now
  | Pty data now => Wiring.PtyData data now
  | Timers d => Wiring.Elapse d
  end.

Section Live.
Variable opts : RunSessionOptions.
(** The external-log tracker after the [recordOnTurn] calls for these
    turns, as far as they have run: they are not awaited. *)
Variable recordTurns : list TurnEvent → JsonlSelect.JsonlTracker → JsonlSelect.JsonlTracker.

(** What the tracker is called with. *)
Definition trackerEvent (e : LiveEvent) : Tracker.Event :=
  Wiring.dispatch (hotkeyOn opts) (toHost e).

(** The tracker handles the event, and its callbacks push what it emits to
    the session data. *)
Definition deliver (r : Runtime) (e : LiveEvent) : Runtime :=
  match tracker r with
  | Some w =>
      let w' := Tracker.step (trackerOptions opts) w (trackerEvent e) in
      let new := drop (length (Tracker.emitted w)) (Tracker.emitted w') in
      mkRuntime (finalized r) (option_map (pushEmissions new) (session r))
        (option_map (recordTurns (Tracker.turnsOf new)) (jsonlTracker r)) (Some w')
        (hasMonitor r) (hasMarkerWatcher r) (hasCleanupTty r) (hasStdinHandler r)
        (hasSigintHandler r) (hasChild r) (hasOverlay r)
  | None => r
  end.

Definition live (hs : list LiveEvent) (r : Runtime) : Runtime :=
  fold_left deliver hs r.

End Live.

(** The runtime when the tracker has just been made: the session data holds
    no turn and no interaction yet. *)
Definition justStarted (r : Runtime) : Prop :=
  finalized r = false ∧ tracker r = Some Tracker.init ∧
  ∃ s, session r = Some s ∧ turns s = [] ∧ interactions s = [].

Definition writes (effects : list Effect) : list SessionData :=
  omap (fun e => match e with WriteData doc => Some doc | _ => None end) effects.

(** The defaults of the command line. *)
Definition defaultOptions : RunSessionOptions :=
  mkRunSessionOptions ["claude"] "/w" None None 30 2000 100 false None false
    false false false.

Definition startedRuntime : Runtime :=
  mkRuntime false (Some (mkSessionData None None [] [] [] []))
    None (Some Tracker.init) true true true true true true false.

End SessionRun.

(* ===================================================================== *)
(** * Properties of the interaction tracker                               *)
(* ===================================================================== *)

Module TrackerFacts.
Import Schema Tracker TrackerSpec.

(** ** Timers, slots and logs *)

Lemma elem_of_insert_timer (t x : Timer) q :
  x ∈ insert_timer t q ↔ x = t ∨ x ∈ q.
Proof.
  induction q as [|y q IH]; simpl.
  - rewrite list_elem_of_singleton. set_solver.
  - destruct (deadline y <=? deadline t); rewrite !elem_of_cons; [rewrite IH|]; naive_solver.
Qed.

Lemma elem_of_remove_handle h (x : Timer) q :
  x ∈ remove_handle h q ↔ x ∈ q ∧ handle x ≠ h.
Proof.
  unfold remove_handle. rewrite !list_elem_of_In, filter_In, negb_true_iff, Nat.eqb_neq.
  tauto.
Qed.

Lemma elem_of_clear_opt o (x : Timer) q :
  x ∈ clear_opt o q ↔ x ∈ q ∧ o ≠ Some (handle x).
Proof.
  destruct o as [h|]; simpl; [rewrite elem_of_remove_handle|]; naive_solver.
Qed.

Lemma pending_true h q : pending h q = true ↔ ∃ t, t ∈ q ∧ handle t = h.
Proof.
  unfold pending. rewrite existsb_exists.
  split; intros (t & Ht & E); exists t; rewrite ?list_elem_of_In in *; rewrite ?Nat.eqb_eq in *; auto.
Qed.

Lemma clearIf_Some i s k : clearIf i s = Some k ↔ s = Some k ∧ k ≠ i.
Proof. unfold clearIf. case_decide; naive_solver. Qed.

Lemma clearIf_self i s : clearIf i s ≠ Some i.
Proof. unfold clearIf. case_decide; naive_solver. Qed.

Lemma interactionsOf_snoc l e :
  interactionsOf (l ++ [e]) =
  interactionsOf l ++ match e with OnInteraction i => [i] | _ => [] end.
Proof. unfold interactionsOf. rewrite omap_app. by destruct e. Qed.

Lemma elem_interactionsOf_snoc i l : i ∈ interactionsOf (l ++ [OnInteraction i]).
Proof. rewrite interactionsOf_snoc, elem_of_app. right. set_solver. Qed.

Lemma turnsOf_snoc l e :
  turnsOf (l ++ [e]) =
  turnsOf l ++ match e with OnTurn t => [t] | _ => [] end.
Proof. unfold turnsOf. rewrite omap_app. by destruct e. Qed.

Lemma WF_init : WF init.
Proof. split; simpl; intros; try done; set_solver. Qed.

Lemma WF_finalize r reason w : WF w → WF (finalize r reason w).
Proof.
  intros [H1 H2 H3 H4 H5 H6 H7]. unfold finalize.
  destruct (heap w !! r) as [it|] eqn:Hr; [|by split].
  destruct (H1 _ _ Hr) as [Hid Hlt].
  split; simpl; eauto.
  - intros t Ht. rewrite !elem_of_clear_opt in Ht. naive_solver.
  - intros k Hk. apply clearIf_Some in Hk. naive_solver.
  - intros k Hk. apply clearIf_Some in Hk. naive_solver.
  - intros i Hi. rewrite interactionsOf_snoc, elem_of_app, list_elem_of_singleton in Hi.
    destruct Hi as [Hi| ->].
    + destruct (H7 _ Hi) as (?&?&?). split_and!; [done|..]; intros E%clearIf_Some; naive_solver.
    + simpl. split_and!; [lia|..]; apply clearIf_self.
Qed.

Lemma WF_set_turnIndex v w : WF w → WF (set_turnIndex v w).
Proof. by intros []. Qed.

Lemma WF_set_clock v w : WF w → WF (set_clock v w).
Proof. by intros []. Qed.

Lemma WF_emit_turn t w : WF w → WF (emit (OnTurn t) w).
Proof.
  intros []; split; simpl; try done.
  intros i. rewrite interactionsOf_snoc, app_nil_r. eauto.
Qed.

Lemma WF_clear_keystroke w : WF w → WF (set_activeKeystroke None w).
Proof. intros []; split; simpl; try done. naive_solver. Qed.

Lemma WF_clear_turn w : WF w → WF (set_activeTurn None w).
Proof. intros []; split; simpl; try done. naive_solver. Qed.

Lemma WF_remove_timer h w : WF w → WF (set_timers (remove_handle h (timers w)) w).
Proof.
  intros []; split; simpl; try done.
  intros t [Ht _]%elem_of_remove_handle. eauto.
Qed.

Lemma WF_addInput r n w : WF w → WF (addInput r n w).
Proof.
  intros [H1 H2 H3 H4 H5 H6 H7]. unfold addInput.
  destruct (heap w !! r) as [it|] eqn:Hr; [|by split].
  split; simpl; eauto.
  - intros k it'. rewrite lookup_insert. case_decide; [|by eauto].
    intros [= <-]; subst. simpl. eauto.
  - intros k it'. rewrite lookup_insert. case_decide; [|by eauto].
    intros [= <-]; subst. simpl. eauto.
  - intros k it' h. rewrite lookup_insert. case_decide; [|by eauto].
    intros [= <-]; subst. simpl. eauto.
  - intros k Hk. destruct (H5 _ Hk) as (it' & ? & ?).
    destruct (decide (r = k)) as [->|]; simplify_map_eq; eauto.
  - intros k Hk. destruct (H6 _ Hk) as (it' & ? & ?).
    destruct (decide (r = k)) as [->|]; simplify_map_eq; eauto.
Qed.

Section WellFormed.
Context (opts : InteractionTrackerOptions).

Lemma WF_startInteraction k t0 extra w i w' :
  startInteraction opts k t0 extra w = (i, w') → WF w →
  WF w' ∧ i = nextId w ∧ nextId w' = i + 1 ∧
  (∃ it, heap w' !! i = Some it ∧ ai_kind it = k) ∧
  emitted w' = emitted w ∧ activeKeystroke w' = activeKeystroke w ∧
  activeTurn w' = activeTurn w.
Proof.
  unfold startInteraction. simpl. intros [= <- <-] [H1 H2 H3 H4 H5 H6 H7].
  simpl. split_and!; try done; [|by eexists; rewrite lookup_insert_eq].
  split; simpl.
  - intros j it'. rewrite lookup_insert. case_decide.
    + intros [= <-]. simpl. lia.
    + intros Hj. destruct (H1 _ _ Hj). lia.
  - intros j it'. rewrite lookup_insert. case_decide; [|by eauto].
    by intros [= <-].
  - intros j it' h. rewrite lookup_insert. case_decide.
    + intros [= <-]. simpl. intros [|[= <-]]; [done|lia].
    + intros Hj Hh. specialize (H3 _ _ _ Hj Hh). lia.
  - intros t [->|Ht]%elem_of_insert_timer; simpl; [lia|].
    destruct (H4 _ Ht). lia.
  - intros j Hj. destruct (H5 _ Hj) as (it' & Hit & ?).
    destruct (H1 _ _ Hit). exists it'. rewrite lookup_insert_ne by lia. done.
  - intros j Hj. destruct (H6 _ Hj) as (it' & Hit & ?).
    destruct (H1 _ _ Hit). exists it'. rewrite lookup_insert_ne by lia. done.
  - intros j Hj. destruct (H7 _ Hj) as (?&?&?). split_and!; [lia|done..].
Qed.

Lemma WF_set_keystroke i w :
  WF w → (∃ it, heap w !! i = Some it ∧ ai_kind it = keystroke) →
  (∀ j, j ∈ interactionsOf (emitted w) → id j ≠ i) →
  WF (set_activeKeystroke (Some i) w).
Proof.
  intros [] ? ?; split; simpl; try done; [naive_solver|].
  intros j Hj. naive_solver.
Qed.

Lemma WF_set_turn i w :
  WF w → (∃ it, heap w !! i = Some it ∧ ai_kind it = turn) →
  (∀ j, j ∈ interactionsOf (emitted w) → id j ≠ i) →
  WF (set_activeTurn (Some i) w).
Proof.
  intros [] ? ?; split; simpl; try done; [naive_solver|].
  intros j Hj. naive_solver.
Qed.

Lemma WF_observeOutput r now n w : WF w → WF (observeOutput opts r now n w).
Proof.
  intros [H1 H2 H3 H4 H5 H6 H7]. unfold observeOutput, noteOutput.
  destruct (heap w !! r) as [it|] eqn:Hr; [|by split].
  destruct (H1 _ _ Hr) as [Hid Hlt].
  destruct (firstOutputAtMs it) eqn:Hf; (split; simpl; eauto).
  all: try (intros k it'; rewrite lookup_insert; case_decide; [|by eauto];
            intros [= <-]; subst; simpl; by eauto).
  all: try (intros k it' h; rewrite lookup_insert; case_decide;
            [ intros [= <-]; subst; simpl; intros [[= <-]|Hh]; [lia|];
              try done; specialize (H3 _ _ _ Hr (or_intror Hh)); lia
            | intros Hk Hh; specialize (H3 _ _ _ Hk Hh); lia ]).
  all: try (intros t [->|Ht]%elem_of_insert_timer; simpl; [lia|];
            rewrite ?elem_of_clear_opt in Ht; destruct (H4 t) as [??]; [tauto|]; lia).
  all: try (intros k Hk; first [destruct (H5 _ Hk) as (it' & ? & ?)|destruct (H6 _ Hk) as (it' & ? & ?)];
            rewrite lookup_insert; case_decide; [subst|]; simplify_eq; eauto).
  intros k it'; rewrite lookup_insert; case_decide; [|by eauto].
  intros [= <-]; simpl. rewrite Hf. done.
Qed.

Lemma WF_fire a w : WF w → WF (fire a w).
Proof.
  intros Hw. destruct a as [r|r]; simpl; [|by apply WF_finalize].
  repeat case_match; auto using WF_finalize.
Qed.

Lemma WF_runTimer w t : WF w → WF (runTimer w t).
Proof.
  intros Hw. unfold runTimer. case_match; [|done].
  by apply WF_fire, WF_remove_timer.
Qed.

Lemma fold_runTimer_ind (P : World → Prop) :
  (∀ w t, P w → P (runTimer w t)) →
  ∀ l w, P w → P (fold_left runTimer l w).
Proof. intros HP l. induction l; simpl; eauto. Qed.

Lemma WF_advance d w : WF w → WF (advance d w).
Proof.
  intros Hw. unfold advance. apply fold_runTimer_ind; [apply WF_runTimer|].
  by apply WF_set_clock.
Qed.

Lemma WF_beginTurn src now w : WF w → WF (beginTurn opts src now w).
Proof.
  intros Hw. unfold beginTurn.
  set (w2 := emit _ _).
  assert (WF w2) as Hw2 by (by apply WF_emit_turn, WF_set_turnIndex).
  set (w3 := match activeTurn w2 with Some t => _ | None => _ end).
  assert (WF w3) as Hw3.
  { subst w3. destruct (activeTurn w2); [|done]. by apply WF_clear_turn, WF_finalize. }
  destruct (startInteraction _ _ _ _ _) as [i w4] eqn:Hs.
  destruct (WF_startInteraction _ _ _ _ _ _ Hs Hw3) as (Hw4 & -> & Hn & Hit & He & _ & _).
  apply WF_set_turn; [done..|].
  intros j Hj. rewrite He in Hj. destruct (wf_emitted _ Hw3 _ Hj). lia.
Qed.

Lemma WF_handleInput data n now w : WF w → WF (handleInput opts data n now w).
Proof.
  intros Hw. unfold handleInput.
  set (p := match activeKeystroke w with Some k => _ | None => _ end).
  assert (WF (snd p)) as Hp.
  { subst p. destruct (activeKeystroke w); [done|].
    destruct (startInteraction _ _ _ _ _) as [i w'] eqn:Hs.
    destruct (WF_startInteraction _ _ _ _ _ _ Hs Hw) as (Hw' & -> & Hn & Hit & He & _ & _).
    simpl. apply WF_set_keystroke; [done..|].
    intros j Hj. rewrite He in Hj. destruct (wf_emitted _ Hw _ Hj). lia. }
  destruct p as [k w1]. simpl in Hp.
  case_match; repeat case_match; auto using WF_addInput, WF_beginTurn.
Qed.

Lemma WF_handleOutput n now w : WF w → WF (handleOutput opts n now w).
Proof.
  intros Hw. unfold handleOutput.
  repeat case_match; auto using WF_observeOutput.
Qed.

Lemma WF_endSession w : WF w → WF (endSession w).
Proof.
  intros Hw. unfold endSession.
  apply WF_clear_turn, WF_clear_keystroke.
  repeat case_match; auto using WF_finalize.
Qed.

Lemma WF_step w e : WF w → WF (step opts w e).
Proof.
  destruct e; simpl; auto using WF_handleInput, WF_handleOutput, WF_beginTurn,
    WF_endSession, WF_advance.
Qed.

Lemma run_snoc evs e : run opts (evs ++ [e]) = step opts (run opts evs) e.
Proof. unfold run. by rewrite fold_left_app. Qed.

Lemma run_app evs1 evs2 :
  run opts (evs1 ++ evs2) = fold_left (step opts) evs2 (run opts evs1).
Proof. unfold run. by rewrite fold_left_app. Qed.

Lemma fold_step_ind (P : World → Prop) :
  (∀ w e, P w → P (step opts w e)) →
  ∀ l w, P w → P (fold_left (step opts) l w).
Proof. intros HP l. induction l; simpl; eauto. Qed.

Lemma WF_run evs : WF (run opts evs).
Proof. unfold run. apply fold_step_ind; [apply WF_step | apply WF_init]. Qed.



End WellFormed.

(** ** Invariants of the objects and of the emitted records *)

Section ObjInv.
Variable φ : ActiveInteraction → Prop.
Variable ψ : Interaction → Prop.
Variable lo : Z.

Local Abbreviation Obj := (TrackerSpec.Obj φ ψ lo).
Local Abbreviation New := (TrackerSpec.New φ lo).
Local Abbreviation Obs := (TrackerSpec.Obs φ).
Local Abbreviation ev_ok := (TrackerSpec.ev_ok φ lo).

Hypothesis φ_input : ∀ it n, φ it → φ (set_inputBytes n it).
Hypothesis φψ : ∀ it r, r ≠ timeout → φ it → ψ (toInteraction it r).
Hypothesis φψ_timeout :
  ∀ it, firstOutputAtMs it = None → φ it → ψ (toInteraction it timeout).

Lemma Obj_finalize_gen r reason w :
  (reason = timeout → ∀ it, heap w !! r = Some it → firstOutputAtMs it = None) →
  Obj w → Obj (finalize r reason w).
Proof.
  intros Hto (Hlo & Hh & He). unfold finalize.
  destruct (heap w !! r) as [it|] eqn:Hr; [|done].
  split_and!; simpl; try done.
  intros i. rewrite interactionsOf_snoc, elem_of_app, list_elem_of_singleton.
  intros [Hi| ->]; [by eauto|].
  destruct (decide (reason = timeout)) as [->|]; eauto.
Qed.

Lemma Obj_finalize r reason w : reason ≠ timeout → Obj w → Obj (finalize r reason w).
Proof. intros ?. by apply Obj_finalize_gen. Qed.

Lemma Obj_frame w w' :
  nextId w' = nextId w → heap w' = heap w → emitted w' = emitted w →
  Obj w → Obj w'.
Proof. unfold Obj. by intros -> -> ->. Qed.

Lemma Obj_fire a w : Obj w → Obj (fire a w).
Proof.
  intros Hw. destruct a as [r|r]; simpl; [|by apply Obj_finalize].
  destruct (heap w !! r) as [it|] eqn:Hr; [|done].
  destruct (firstOutputAtMs it) eqn:Hf; [done|].
  apply Obj_finalize_gen; [|done]. intros _ it' ?. by simplify_eq.
Qed.

Lemma Obj_runTimer w t : Obj w → Obj (runTimer w t).
Proof.
  intros Hw. unfold runTimer. case_match; [|done].
  apply Obj_fire. by eapply Obj_frame.
Qed.

Lemma Obj_advance d w : Obj w → Obj (advance d w).
Proof.
  intros Hw. unfold advance. apply fold_runTimer_ind; [apply Obj_runTimer|].
  by eapply Obj_frame.
Qed.

Lemma Obj_addInput r n w : Obj w → Obj (addInput r n w).
Proof.
  intros (Hlo & Hh & He). unfold addInput.
  destruct (heap w !! r) as [it|] eqn:Hr; [|done].
  split_and!; simpl; try done.
  intros k it'. rewrite lookup_insert. case_decide; [|by eauto].
  intros [= <-]. eauto.
Qed.

Lemma Obj_endSession w : Obj w → Obj (endSession w).
Proof.
  intros Hw. unfold endSession.
  eapply Obj_frame; [done..|]. eapply Obj_frame; [done..|].
  repeat case_match; repeat (apply Obj_finalize; [done|]); done.
Qed.

Context (opts : InteractionTrackerOptions).

Lemma Obj_startInteraction k t0 extra w :
  New t0 → Obj w → Obj (startInteraction opts k t0 extra w).2.
Proof.
  intros Hnew (Hlo & Hh & He). unfold startInteraction. simpl.
  split_and!; simpl; [lia| |done].
  intros j it'. rewrite lookup_insert. case_decide; [|by eauto].
  intros [= <-]. by apply Hnew.
Qed.

Lemma Obj_observeOutput r now n w :
  Obs now n → Obj w → Obj (observeOutput opts r now n w).
Proof.
  intros Hobs (Hlo & Hh & He). unfold observeOutput.
  destruct (heap w !! r) as [it|] eqn:Hr; [|done].
  split_and!; simpl.
  - by destruct (firstOutputAtMs it).
  - intros j it'. rewrite lookup_insert. case_decide.
    + intros [= <-]. apply Hobs. eauto.
    + destruct (firstOutputAtMs it); simpl; eauto.
  - by destruct (firstOutputAtMs it).
Qed.

Lemma Obj_beginTurn src now w :
  New now → Obj w → Obj (beginTurn opts src now w).
Proof.
  intros Hnew Hw. unfold beginTurn.
  set (w2 := emit _ _).
  assert (Obj w2) as Hw2.
  { destruct Hw as (?&?&He). split_and!; simpl; try done.
    intros i. rewrite interactionsOf_snoc, app_nil_r. eauto. }
  set (w3 := match activeTurn w2 with Some t => _ | None => _ end).
  assert (Obj w3) as Hw3.
  { subst w3. destruct (activeTurn w2); [|done].
    eapply Obj_frame; [done..|]. by apply Obj_finalize. }
  pose proof (Obj_startInteraction turn now (Some (Tracker.turnIndex w3)) w3 Hnew Hw3) as Hs.
  destruct (startInteraction _ _ _ _ _) as [i w4]. by eapply Obj_frame.
Qed.

Lemma Obj_handleInput data n now w :
  New now → Obj w → Obj (handleInput opts data n now w).
Proof.
  intros Hnew Hw. unfold handleInput.
  set (p := match activeKeystroke w with Some k => _ | None => _ end).
  assert (Obj (snd p)) as Hp.
  { subst p. destruct (activeKeystroke w); [done|].
    pose proof (Obj_startInteraction keystroke now None w Hnew Hw) as Hs.
    destruct (startInteraction _ _ _ _ _) as [i w']. by eapply Obj_frame. }
  destruct p as [k w1]. simpl in Hp.
  case_match; repeat case_match; auto using Obj_addInput, Obj_beginTurn.
Qed.

Lemma Obj_handleOutput n now w :
  Obs now n → Obj w → Obj (handleOutput opts n now w).
Proof.
  intros Hobs Hw. unfold handleOutput.
  repeat case_match; auto using Obj_observeOutput.
Qed.

Lemma Obj_step w e : ev_ok e → Obj w → Obj (step opts w e).
Proof.
  destruct e; simpl; auto using Obj_handleInput, Obj_handleOutput, Obj_beginTurn,
    Obj_endSession, Obj_advance.
Qed.

End ObjInv.

Lemma Obj_weaken (φ φ' : ActiveInteraction → Prop) (ψ ψ' : Interaction → Prop) lo w :
  (∀ it, φ it → φ' it) → (∀ i, ψ i → ψ' i) → Obj φ ψ lo w → Obj φ' ψ' lo w.
Proof. intros ?? (?&?&?). split_and!; eauto. Qed.

(** ** Output and the no-output timer *)

Lemma nondecreasing_snoc l x :
  nondecreasing (l ++ [x]) = true →
  nondecreasing l = true ∧ ∀ y, y ∈ l → y ≤ x.
Proof.
  induction l as [|a l IH]; simpl; [set_solver|].
  destruct l as [|b l]; simpl in *.
  - rewrite andb_true_r. intros H%Z.leb_le. split; [done|]. set_solver.
  - intros [Hab Hr]%andb_true_iff. destruct (IH Hr) as [IH1 IH2].
    apply Z.leb_le in Hab. split; [by rewrite IH1, andb_true_r; apply Z.leb_le|].
    intros y [->|Hy]%elem_of_cons; [|by eauto].
    assert (b ≤ x) by (apply IH2; set_solver). lia.
Qed.

Section Properties.
Context (opts : InteractionTrackerOptions).

Lemma observeOutput_lookup r now n w j it' :
  heap (observeOutput opts r now n w) !! j = Some it' →
  (∃ it h, j = r ∧ heap w !! r = Some it ∧
           it' = set_idleTimer (Some h) (noteOutput now n it)) ∨
  (j ≠ r ∨ heap w !! r = None) ∧ heap w !! j = Some it'.
Proof.
  unfold observeOutput. destruct (heap w !! r) as [it|] eqn:Hr; [|by eauto].
  simpl. rewrite lookup_insert. case_decide.
  - intros [= <-]. left. subst. eauto.
  - destruct (firstOutputAtMs it); simpl; eauto.
Qed.

Lemma noteOutput_first now n it : firstOutputAtMs (noteOutput now n it) ≠ None.
Proof. unfold noteOutput. by destruct (firstOutputAtMs it) eqn:E; simpl; rewrite ?E. Qed.

Lemma noteOutput_id now n it : ai_id (noteOutput now n it) = ai_id it.
Proof. unfold noteOutput. by destruct (firstOutputAtMs it). Qed.

Lemma observeOutput_frame r now n w :
  let w' := observeOutput opts r now n w in
  nextId w' = nextId w ∧ emitted w' = emitted w ∧
  activeKeystroke w' = activeKeystroke w ∧ activeTurn w' = activeTurn w.
Proof.
  unfold observeOutput. destruct (heap w !! r) as [it|] eqn:Hr; [|done].
  simpl. by destruct (firstOutputAtMs it).
Qed.

Lemma observe_opt_frame (o : option Z) now n w :
  let w' := match o with Some r => observeOutput opts r now n w | None => w end in
  nextId w' = nextId w ∧ emitted w' = emitted w ∧
  activeKeystroke w' = activeKeystroke w ∧ activeTurn w' = activeTurn w.
Proof. destruct o; [apply observeOutput_frame|done]. Qed.

Lemma observeOutput_self r now n w it :
  heap w !! r = Some it →
  ∃ it', heap (observeOutput opts r now n w) !! r = Some it' ∧
         firstOutputAtMs it' ≠ None.
Proof.
  intros Hr. unfold observeOutput. rewrite Hr. simpl.
  rewrite lookup_insert_eq. eexists; split; [done|]. apply noteOutput_first.
Qed.

Lemma observeOutput_keeps r now n w j it :
  heap w !! j = Some it →
  ∃ it', heap (observeOutput opts r now n w) !! j = Some it' ∧
         (firstOutputAtMs it ≠ None → firstOutputAtMs it' ≠ None).
Proof.
  intros Hj. destruct (decide (j = r)) as [->|Hne].
  - destruct (observeOutput_self _ now n _ _ Hj) as (it' & ? & ?). eauto.
  - unfold observeOutput. destruct (heap w !! r) as [it0|] eqn:Hr; [|by eauto].
    simpl. rewrite lookup_insert_ne by done.
    exists it. by destruct (firstOutputAtMs it0).
Qed.

Lemma stale_after_output (X : Interaction → Prop) n t k w :
  WF w → activeKeystroke w = Some k ∨ activeTurn w = Some k →
  Obj (λ it, ai_id it = k → firstOutputAtMs it ≠ None)
      (λ i, id i = k → X i) (k + 1) (handleOutput opts n t w).
Proof.
  intros Hw Hk.
  assert (∃ it, heap w !! k = Some it) as [it0 Hit0].
  { destruct Hk as [Hk|Hk]; [apply (wf_keystroke _ Hw) in Hk|apply (wf_turn _ Hw) in Hk];
      naive_solver. }
  pose proof (WF_handleOutput opts n t w Hw) as Hw'.
  unfold handleOutput in *.
  set (w1 := match activeKeystroke w with Some k0 => _ | None => w end) in *.
  destruct (observe_opt_frame (activeKeystroke w) t n w) as (Hn1 & He1 & Hk1 & Ht1).
  fold w1 in Hn1, He1, Hk1, Ht1.
  set (w2 := match activeTurn w1 with Some t0 => _ | None => w1 end) in *.
  destruct (observe_opt_frame (activeTurn w1) t n w1) as (Hn2 & He2 & Hk2 & Ht2).
  fold w2 in Hn2, He2, Hk2, Ht2.
  assert (∃ it1, heap w1 !! k = Some it1 ∧
            (activeKeystroke w = Some k → firstOutputAtMs it1 ≠ None))
    as (it1 & Hit1 & Hf1).
  { subst w1. destruct (activeKeystroke w) as [k0|] eqn:HK.
    - destruct (decide (k0 = k)) as [->|].
      + destruct (observeOutput_self _ t n _ _ Hit0) as (it' & ? & ?). eauto.
      + destruct (observeOutput_keeps k0 t n _ _ _ Hit0) as (it' & ? & ?).
        exists it'. split; [done|]. congruence.
    - exists it0. done. }
  assert (∃ it2, heap w2 !! k = Some it2 ∧ firstOutputAtMs it2 ≠ None)
    as (it2 & Hit2 & Hf2).
  { subst w2. rewrite Ht1. destruct (activeTurn w) as [t0|] eqn:HT.
    - destruct (decide (t0 = k)) as [->|].
      + apply (observeOutput_self _ t n _ _ Hit1).
      + destruct (observeOutput_keeps t0 t n _ _ _ Hit1) as (it' & ? & ?).
        exists it'. split; [done|]. destruct Hk; [auto|congruence].
    - exists it1. split; [done|]. destruct Hk; [auto|congruence]. }
  split_and!.
  - rewrite Hn2, Hn1. destruct (wf_heap_id _ Hw _ _ Hit0). lia.
  - intros j it Hj Hid. destruct (wf_heap_id _ Hw' _ _ Hj) as [Hidj _].
    assert (j = k) as -> by congruence. congruence.
  - rewrite He2, He1. intros i Hi Hid. destruct (wf_emitted _ Hw _ Hi) as (_&?&?).
    rewrite Hid in *. tauto.
Qed.

(** ** Latency ordering *)

Lemma timed_mono pos b b' it : b ≤ b' → timed pos b it → timed pos b' it.
Proof.
  intros Hb (H1 & H2 & H3 & H4 & H5). split_and!; try done; [lia|].
  intros f l Hf Hl. destruct (H3 _ _ Hf Hl) as (?&?&?). lia.
Qed.

Lemma timed_latency pos b it r : timed pos b it → latency_at pos (toInteraction it r).
Proof.
  intros (H1 & H2 & H3 & H4 & H5). unfold latency_at, latency_order, latency_ok; simpl.
  destruct (firstOutputAtMs it) as [f|] eqn:Hf, (lastOutputAtMs it) as [l|] eqn:Hl.
  - destruct (H3 f l) as (?&?&?); [done..|].
    assert (∀ a b : Z, Some (f - ai_t0Ms it) = Some a → Some (l - ai_t0Ms it) = Some b →
                       0 ≤ a ∧ a ≤ b) as Hord by (intros ?? [= <-] [= <-]; lia).
    split.
    + split_and!; [exact Hord|split; eauto|eauto].
    + intros Hpos. split_and!; [exact Hord|split; eauto|].
      split; [intros _; by apply H5|eauto].
  - destruct H2 as [_ H2]. by specialize (H2 eq_refl).
  - destruct H2 as [H2 _]. by specialize (H2 eq_refl).
  - assert (¬ is_Some (@None Z)) as Hnone by (intros [? [=]]).
    rewrite H4 by done. split.
    + split_and!; [done|split; intros []%Hnone|lia].
    + intros _. split_and!; [done|split; intros []%Hnone|].
      split; [intros []%Hnone|lia].
Qed.

Lemma timed_step pos b w e :
  (∀ t, ev_now e = Some t → b ≤ t) →
  (pos = true → ∀ n t, e = Output n t → 0 < n) →
  Obj (timed pos b) (latency_at pos) 1 w →
  Obj (timed pos (default b (ev_now e))) (latency_at pos) 1 (step opts w e).
Proof.
  intros Hb Hn Hw.
  set (b' := default b (ev_now e)).
  assert (b ≤ b') as Hbb'.
  { subst b'. destruct (ev_now e) as [t|] eqn:E; simpl; [by apply Hb|lia]. }
  apply (Obj_weaken _ (timed pos b') _ (latency_at pos)) in Hw;
    [|by intros; eapply timed_mono|done].
  apply Obj_step; try done.
  - intros it r _. apply timed_latency.
  - intros it _. apply timed_latency.
  - destruct e as [d n t|n t|src t| |]; simpl in *; try done.
    intros it h (H1 & H2 & H3 & H4 & H5). unfold timed, noteOutput.
    destruct (firstOutputAtMs it) as [f|] eqn:Hf; simpl.
    + rewrite Hf. split_and!; try done.
      * intros ?? [= <-] [= <-].
        destruct (lastOutputAtMs it) as [l|] eqn:Hl.
        -- destruct (H3 f l) as (?&?&?); [done..|]. lia.
        -- destruct H2 as [_ H2]. by specialize (H2 eq_refl).
      * intros Hpos _. specialize (Hn Hpos _ _ eq_refl).
        assert (0 < ai_outputBytes it) by (by apply H5). lia.
    + split_and!; try done.
      * intros ?? [= <-] [= <-]. lia.
      * intros Hpos _. specialize (Hn Hpos _ _ eq_refl). rewrite H4 by done. lia.
Qed.

Lemma foldr_max_ub (l : list Z) t : t ∈ l → t ≤ foldr Z.max 0 l.
Proof.
  induction l as [|a l IH]; simpl; [set_solver|].
  intros [->|Ht]%elem_of_cons; [lia|]. specialize (IH Ht). lia.
Qed.

Lemma timed_run pos evs :
  nondecreasing (nows evs) = true →
  (pos = true → outputs_nonempty evs = true) →
  Forall (latency_at pos) (interactionsOf (emitted (run opts evs))).
Proof.
  intros Hmono Hpos.
  cut (∀ b, (∀ t, t ∈ nows evs → t ≤ b) →
            Obj (timed pos b) (latency_at pos) 1 (run opts evs)).
  { intros H. destruct (H (foldr Z.max 0 (nows evs))) as (_ & _ & Hl).
    - apply foldr_max_ub.
    - by apply Forall_forall. }
  induction evs as [|e evs IH] using rev_ind.
  - intros b _. split_and!; simpl; [done|intros ?? H; by rewrite lookup_empty in H|set_solver].
  - unfold nows, outputs_nonempty in *. rewrite omap_app in Hmono.
    assert (pos = true → forallb (λ e, match e with Output n _ => 0 <? n | _ => true end) evs = true
                         ∧ match e with Output n _ => 0 <? n | _ => true end = true)
      as Hpos'.
    { intros Hp. specialize (Hpos Hp). rewrite forallb_app in Hpos.
      apply andb_true_iff in Hpos as [Hpos He].
      simpl in He. rewrite andb_true_r in He. done. }
    intros b Hb. rewrite run_snoc.
    destruct (ev_now e) as [t|] eqn:Et.
    + simpl in Hmono. rewrite Et in Hmono. simpl in Hmono.
      apply nondecreasing_snoc in Hmono as [Hmono Hle].
      assert (t ≤ b) as Htb.
      { apply Hb. rewrite omap_app, elem_of_app. right. simpl. rewrite Et. set_solver. }
      assert (Obj (timed pos (default t (ev_now e))) (latency_at pos) 1
                  (step opts (run opts evs) e)) as Hs.
      { apply timed_step.
        - intros t' ?. assert (t' = t) as -> by congruence. lia.
        - intros Hp n t' ->. destruct (Hpos' Hp) as [_ He]. by apply Z.ltb_lt.
        - apply IH; try done. intros Hp. by destruct (Hpos' Hp). }
      rewrite Et in Hs. simpl in Hs.
      revert Hs. apply Obj_weaken; [|done]. intros it. by apply timed_mono.
    + simpl in Hmono. rewrite Et in Hmono. simpl in Hmono. rewrite app_nil_r in Hmono.
      assert (Obj (timed pos (default b (ev_now e))) (latency_at pos) 1
                  (step opts (run opts evs) e)) as Hs.
      { apply timed_step.
        - intros t' ?. congruence.
        - intros Hp n t' ->. done.
        - apply IH; try done.
          + intros Hp. by destruct (Hpos' Hp).
          + intros t' Ht'. apply Hb. rewrite omap_app, elem_of_app. by left. }
      by rewrite Et in Hs.
Qed.

(** *** Stamps and observed output *)

Lemma Observed_snoc evs e k : Observed opts evs k → Observed opts (evs ++ [e]) k.
Proof.
  intros (evs1 & n & t & evs2 & -> & Hk).
  exists evs1, n, t, (evs2 ++ [e]). split; [|done].
  by rewrite <- app_assoc.
Qed.

Lemma Observed_now evs n t k :
  activeKeystroke (run opts evs) = Some k ∨ activeTurn (run opts evs) = Some k →
  Observed opts (evs ++ [Output n t]) k.
Proof. intros Hk. by exists evs, n, t, []. Qed.

Lemma t1Ms_toInteraction it r :
  is_Some (t1Ms (toInteraction it r)) ↔ firstOutputAtMs it ≠ None.
Proof.
  simpl. destruct (firstOutputAtMs it); split.
  - done.
  - by eauto.
  - intros [? [=]].
  - done.
Qed.

(** A stamped object, and a stamped record, saw an output event. *)
Lemma observed_run evs :
  Obj (λ it, firstOutputAtMs it ≠ None → Observed opts evs (ai_id it))
      (λ i, is_Some (t1Ms i) → Observed opts evs (id i)) 1 (run opts evs).
Proof.
  induction evs as [|e evs IH] using rev_ind.
  - split_and!; simpl; [done|intros ?? H; by rewrite lookup_empty in H|set_solver].
  - rewrite run_snoc.
    apply (Obj_weaken _ (λ it, firstOutputAtMs it ≠ None → Observed opts (evs ++ [e]) (ai_id it))
             _ (λ i, is_Some (t1Ms i) → Observed opts (evs ++ [e]) (id i))) in IH;
      [|intros it H ?; by apply Observed_snoc, H|intros i H ?; by apply Observed_snoc, H].
    assert ((∃ n t, e = Output n t) ∨ ¬ ∃ n t, e = Output n t) as [(n & t & ->)|Hne]
      by (destruct e; eauto; right; intros (? & ? & [=])).
    + simpl. pose proof (WF_handleOutput opts n t _ (WF_run opts evs)) as Hwf'.
      destruct IH as (Hlo & Hheap & Hem).
      unfold handleOutput in *.
      set (w := run opts evs) in *.
      destruct (observe_opt_frame (activeKeystroke w) t n w) as (Hn1 & He1 & Hk1 & Ht1).
      set (w1 := match activeKeystroke w with Some k0 => _ | None => w end) in *.
      destruct (observe_opt_frame (activeTurn w1) t n w1) as (Hn2 & He2 & Hk2 & Ht2).
      set (w2 := match activeTurn w1 with Some t0 => _ | None => w1 end) in *.
      assert (∀ j it, heap w1 !! j = Some it → ai_id it = j →
                firstOutputAtMs it ≠ None → Observed opts (evs ++ [Output n t]) j) as H1.
      { intros j it Hj Hid Hf. subst w1.
        destruct (activeKeystroke w) as [k0|] eqn:HK.
        - apply observeOutput_lookup in Hj as [(it0 & h & -> & _)|[_ Hj]].
          + apply Observed_now. left. fold w. congruence.
          + rewrite <- Hid. by apply (Hheap j).
        - rewrite <- Hid. by apply (Hheap j). }
      split_and!.
      * by rewrite Hn2, Hn1.
      * intros j it Hj Hf. destruct (wf_heap_id _ Hwf' _ _ Hj) as [Hid _]. rewrite Hid.
        subst w2. destruct (activeTurn w1) as [t0|] eqn:HT.
        -- apply observeOutput_lookup in Hj as [(it0 & h & -> & _)|[_ Hj]].
           ++ apply Observed_now. right. fold w. congruence.
           ++ by apply (H1 j it).
        -- by apply (H1 j it).
      * by rewrite He2, He1.
    + apply Obj_step; try done.
      * intros it r _ H Hs. apply t1Ms_toInteraction in Hs. by apply H.
      * intros it _ H Hs. apply t1Ms_toInteraction in Hs. by apply H.
      * destruct e; simpl; try done.
        -- by intros i k extra h _ Hf.
        -- destruct Hne. eauto.
        -- by intros i k extra h _ Hf.
Qed.

(** Output observed during an interaction stamps its record. *)
Lemma observed_stamps evs k i :
  Observed opts evs k → i ∈ interactionsOf (emitted (run opts evs)) →
  id i = k → is_Some (t1Ms i).
Proof.
  intros (evs1 & n & t & evs2 & -> & Hk) Hi. revert i Hi.
  rewrite run_app. simpl.
  cut (Obj (λ it, ai_id it = k → firstOutputAtMs it ≠ None)
           (λ i, id i = k → is_Some (t1Ms i)) (k + 1)
           (fold_left (step opts) evs2 (handleOutput opts n t (run opts evs1)))).
  { intros (_ & _ & H). done. }
  apply fold_step_ind; [|apply stale_after_output; [apply WF_run|done]].
  intros w e. apply Obj_step.
  - by intros it ? ?.
  - intros it r _ Hit Hid. apply t1Ms_toInteraction. by apply Hit.
  - intros it Hf Hit Hid. simpl in Hid. by destruct (Hit Hid).
  - destruct e; simpl; try done.
    + intros i ???? ?; simpl in *; lia.
    + intros it h Hit Hid. unfold noteOutput in *.
      destruct (firstOutputAtMs it) eqn:E; simpl in *; [|done].
      rewrite E. done.
    + intros i ???? ?; simpl in *; lia.
Qed.

(** Claim C6 (latency ordering), as amended.  When the supplied clock never
    runs backwards, every finalized record satisfies [0 <= t1Ms <= t2Ms] when
    both are present, has [t1Ms] exactly when it has [t2Ms], has them exactly
    when an output event was observed during the interaction, and has them
    whenever output bytes were counted; and when every output chunk has at
    least one byte, it has them exactly when output bytes were counted. *)
Theorem latency_ordering evs :
  nondecreasing (nows evs) = true →
  Forall (λ i, latency_order i ∧
               (is_Some (t1Ms i) ↔ Observed opts evs (id i)) ∧
               (outputs_nonempty evs = true → latency_ok i))
         (interactionsOf (emitted (run opts evs))).
Proof.
  intros Hmono. apply Forall_forall. intros i Hi.
  pose proof (timed_run false evs Hmono) as Hord.
  rewrite Forall_forall in Hord. destruct (Hord ltac:(done) i Hi) as [Ho _].
  split_and!; [done|split|].
  - destruct (observed_run evs) as (_ & _ & H). by apply H.
  - intros Hobs. by apply (observed_stamps evs (id i) i).
  - intros Hpos. pose proof (timed_run true evs Hmono (λ _, Hpos)) as Hok.
    rewrite Forall_forall in Hok. destruct (Hok i Hi) as [_ H]. by apply H.
Qed.


(** ** Turn indices and emission order *)

Lemma OverlapAfterTurn_snoc l e :
  OverlapAfterTurn l →
  match e with
  | OnInteraction i => endReason i = overlap →
      ∃ l0 t, l = l0 ++ [OnTurn t] ∧ kind i = turn ∧
              Schema.turnIndex i = Some (index t - 1)
  | OnTurn _ => True
  end →
  OverlapAfterTurn (l ++ [e]).
Proof.
  intros Hl He l1 i l2 Heq Hov.
  destruct l2 as [|x l2 _] using rev_ind.
  - apply app_inj_tail in Heq as [-> ->]. by apply He.
  - rewrite app_comm_cons, app_assoc in Heq.
    apply app_inj_tail in Heq as [-> _]. by eapply Hl.
Qed.

Lemma TL_init : TL init.
Proof.
  split; simpl; try done. intros l1 i l2 H. by destruct l1.
Qed.

Lemma TL_frame w w' :
  Tracker.turnIndex w' = Tracker.turnIndex w → emitted w' = emitted w →
  (∀ k, activeTurn w' = Some k → activeTurn w = Some k) →
  (∀ k it', activeTurn w = Some k → heap w' !! k = Some it' →
     ∃ it, heap w !! k = Some it ∧ ai_turnIndex it' = ai_turnIndex it) →
  TL w → TL w'.
Proof.
  intros Hi He Ht Hh [H1 H2 H3 H4]. split; rewrite ?Hi, ?He; try done.
  intros k it' Hk Hit'. apply Ht in Hk. destruct (Hh _ _ Hk Hit') as (it & ? & ->).
  eauto.
Qed.

Lemma TL_emit_interaction i w :
  endReason i ≠ overlap → TL w → TL (emit (OnInteraction i) w).
Proof.
  intros Hi [H1 H2 H3 H4]. split; simpl; rewrite ?turnsOf_snoc, ?app_nil_r; try done.
  by apply OverlapAfterTurn_snoc.
Qed.

Lemma TL_finalize r reason w : reason ≠ overlap → TL w → TL (finalize r reason w).
Proof.
  intros Hr Hw. unfold finalize. destruct (heap w !! r) as [it|] eqn:Hit; [|done].
  apply TL_emit_interaction; [done|].
  eapply TL_frame; [..|exact Hw]; simpl; eauto.
  by intros k [? _]%clearIf_Some.
Qed.

Lemma TL_fire a w : TL w → TL (fire a w).
Proof.
  intros Hw. destruct a as [r|r]; simpl; [|by apply TL_finalize].
  repeat case_match; try done. by apply TL_finalize.
Qed.

Lemma TL_runTimer w t : TL w → TL (runTimer w t).
Proof.
  intros Hw. unfold runTimer. case_match; [|done].
  apply TL_fire. eapply TL_frame; [..|exact Hw]; simpl; eauto.
Qed.

Lemma TL_advance d w : TL w → TL (advance d w).
Proof.
  intros Hw. unfold advance. apply fold_runTimer_ind; [apply TL_runTimer|].
  eapply TL_frame; [..|exact Hw]; simpl; eauto.
Qed.

Lemma TL_addInput r n w : TL w → TL (addInput r n w).
Proof.
  intros Hw. unfold addInput. destruct (heap w !! r) as [it|] eqn:Hit; [|done].
  eapply TL_frame; [..|exact Hw]; simpl; eauto.
  intros k it' _. rewrite lookup_insert. case_decide; [|by eauto].
  intros [= <-]. subst. eauto.
Qed.

Lemma TL_endSession w : TL w → TL (endSession w).
Proof.
  intros Hw. unfold endSession.
  set (w1 := match activeKeystroke w with Some k => _ | None => w end).
  assert (TL w1) as Hw1 by (subst w1; case_match; [by apply TL_finalize|done]).
  set (w2 := match activeTurn w1 with Some k => _ | None => w1 end).
  assert (TL w2) as Hw2 by (subst w2; case_match; [by apply TL_finalize|done]).
  eapply TL_frame; [..|exact Hw2]; simpl; eauto. done.
Qed.

Lemma TL_observeOutput r now n w : TL w → TL (observeOutput opts r now n w).
Proof.
  intros Hw. unfold observeOutput. destruct (heap w !! r) as [it|] eqn:Hit; [|done].
  eapply TL_frame; [..|exact Hw]; simpl.
  1-3: by destruct (firstOutputAtMs it).
  intros k it' _. rewrite lookup_insert. case_decide.
  - intros [= <-]. subst. exists it. split; [done|].
    unfold noteOutput. by destruct (firstOutputAtMs it).
  - destruct (firstOutputAtMs it); simpl; eauto.
Qed.

Lemma TL_handleOutput n now w : TL w → TL (handleOutput opts n now w).
Proof.
  intros Hw. unfold handleOutput. repeat case_match; auto using TL_observeOutput.
Qed.

Lemma TL_startInteraction k t0 extra w :
  WF w → TL w → TL (startInteraction opts k t0 extra w).2.
Proof.
  intros Hwf Hw. unfold startInteraction. simpl.
  eapply TL_frame; [..|exact Hw]; simpl; eauto.
  intros j it' Hj. destruct (wf_turn _ Hwf _ Hj) as (it & Hit & _).
  destruct (wf_heap_id _ Hwf _ _ Hit).
  rewrite lookup_insert_ne by lia. eauto.
Qed.

Lemma TL_beginTurn src now w : WF w → TL w → TL (beginTurn opts src now w).
Proof.
  intros Hwf Hw. unfold beginTurn.
  set (w2 := emit _ _).
  set (w3 := match activeTurn w2 with Some t => _ | None => _ end).
  assert (WF w3) as Hwf3.
  { subst w3. assert (WF w2) by (by apply WF_emit_turn, WF_set_turnIndex).
    destruct (activeTurn w2); [|done]. by apply WF_clear_turn, WF_finalize. }
  assert (TL w3 ∧ activeTurn w3 = None) as [Hw3 Hnone].
  { destruct Hw as [H1 H2 H3 H4].
    assert (TL (set_activeTurn None w2)) as Hbase.
    { split; simpl; rewrite ?turnsOf_snoc, ?length_app, ?map_app, ?seq_app; simpl.
      - lia.
      - rewrite map_app, <- H2. simpl. f_equal. f_equal. lia.
      - done.
      - by apply OverlapAfterTurn_snoc. }
    subst w3. simpl.
    destruct (activeTurn w) as [t|] eqn:Ht; [|split; [|done]].
    - split; [|done]. unfold finalize. simpl.
      destruct (heap w !! t) as [it|] eqn:Hit;
        [|eapply TL_frame; [..|exact Hbase]; simpl; eauto].
      simpl. destruct Hbase as [B1 B2 B3 B4]. simpl in *.
      split; simpl;
        [by rewrite (turnsOf_snoc _ (OnInteraction _)), app_nil_r
        |by rewrite (turnsOf_snoc _ (OnInteraction _)), app_nil_r
        |done|].
      apply OverlapAfterTurn_snoc; [done|].
      intros _. eexists _, _. split; [done|]. simpl.
      destruct (wf_turn _ Hwf _ Ht) as (it' & ? & ?). simplify_eq.
      split; [done|]. rewrite (H3 _ _ eq_refl Hit). f_equal. lia.
    - eapply TL_frame; [..|exact Hbase]; simpl; eauto. by rewrite Ht. }
  pose proof (TL_startInteraction turn now (Some (Tracker.turnIndex w3)) w3 Hwf3 Hw3) as Hs.
  destruct (startInteraction _ _ _ _ _) as [i w4] eqn:Hst.
  destruct (WF_startInteraction _ _ _ _ _ _ _ Hst Hwf3) as (_ & -> & _ & _ & _ & _ & _).
  simpl in Hs. destruct Hs as [S1 S2 S3 S4]. split; simpl; try done.
  intros k it [= <-].
  unfold startInteraction in Hst. simpl in Hst. injection Hst as <-. simpl.
  rewrite lookup_insert_eq. by intros [= <-].
Qed.

Lemma TL_handleInput data n now w : WF w → TL w → TL (handleInput opts data n now w).
Proof.
  intros Hwf Hw. unfold handleInput.
  set (p := match activeKeystroke w with Some k => _ | None => _ end).
  assert (WF (snd p) ∧ TL (snd p)) as [Hwfp Hp].
  { subst p. destruct (activeKeystroke w); [done|].
    pose proof (TL_startInteraction keystroke now None w Hwf Hw) as Hs.
    destruct (startInteraction _ _ _ _ _) as [i w'] eqn:Hst.
    destruct (WF_startInteraction _ _ _ _ _ _ _ Hst Hwf) as (Hw' & -> & Hn & Hit & He & _ & _).
    simpl. split.
    - apply WF_set_keystroke; [done..|].
      intros j Hj. rewrite He in Hj. destruct (wf_emitted _ Hwf _ Hj). lia.
    - eapply TL_frame; [..|exact Hs]; simpl; eauto. }
  destruct p as [k w1]. simpl in *.
  assert (WF (addInput k n w1)) by (by apply WF_addInput).
  assert (TL (addInput k n w1)) by (by apply TL_addInput).
  case_match; repeat case_match; auto using TL_addInput, TL_beginTurn.
Qed.

Lemma TL_step w e : WF w → TL w → TL (step opts w e).
Proof.
  destruct e; simpl; auto using TL_handleInput, TL_handleOutput, TL_beginTurn,
    TL_endSession, TL_advance.
Qed.

Lemma TL_run evs : TL (run opts evs).
Proof.
  induction evs as [|e evs IH] using rev_ind; [apply TL_init|].
  rewrite run_snoc. apply TL_step; [apply WF_run|done].
Qed.

(** The turn events of a session have pairwise distinct indices. *)
Lemma session_turns_distinct evs :
  NoDup (map index (turnsOf (emitted (run opts evs)))).
Proof.
  rewrite (tl_seq _ (TL_run evs)).
  change (NoDup (Z.of_nat <$> seq 1 (length (turnsOf (emitted (run opts evs)))))).
  apply (NoDup_fmap_2 _). apply NoDup_seq.
Qed.

(** Claim C7 (turn-index density).  For every trace, the indices of the
    emitted turn events are [1, 2, ..., n] in emission order. *)
Theorem turn_index_density evs :
  map index (turnsOf (emitted (run opts evs))) =
  map Z.of_nat (seq 1 (length (turnsOf (emitted (run opts evs))))).
Proof. apply tl_seq, TL_run. Qed.

Lemma beginTurn_emits_turn_first src now w t it :
  activeTurn w = Some t → heap w !! t = Some it →
  emitted (beginTurn opts src now w) =
  emitted w ++ [ OnTurn (mkTurnEvent (Tracker.turnIndex w + 1) now src);
                 OnInteraction (toInteraction it overlap) ].
Proof.
  intros Ht Hit. unfold beginTurn. simpl. rewrite Ht.
  unfold finalize. simpl. rewrite Hit. simpl. by rewrite <- app_assoc.
Qed.

(** Claim C4 (emission order of begin-turn).  In every run, an [overlap]
    record is emitted directly after a turn event, the one of the turn that
    displaced it: the record is of kind [turn] and its turn index is the
    index of that turn event minus one.  And a begin-turn that finds a turn
    interaction still active calls [onTurn] for the new turn first and
    [onInteraction] for the displaced interaction, with reason [overlap],
    second, and nothing else. *)
Theorem on_turn_before_overlap evs :
  OverlapAfterTurn (emitted (run opts evs)) ∧
  ∀ src now t, activeTurn (run opts evs) = Some t →
    ∃ it, heap (run opts evs) !! t = Some it ∧
          emitted (beginTurn opts src now (run opts evs)) =
          emitted (run opts evs) ++
          [ OnTurn (mkTurnEvent (Tracker.turnIndex (run opts evs) + 1) now src);
            OnInteraction (toInteraction it overlap) ].
Proof.
  split; [apply tl_adj, TL_run|].
  intros src now t Ht.
  destruct (wf_turn _ (WF_run opts evs) _ Ht) as (it & Hit & _).
  exists it. split; [done|]. by apply beginTurn_emits_turn_first with t.
Qed.


(** ** Noninterference *)

Lemma step_shape w e1 e2 : shape e1 = shape e2 → step opts w e1 = step opts w e2.
Proof.
  destruct e1, e2; simpl; intros [=]; subst; try done.
  unfold handleInput. by rewrite H0.
Qed.

Lemma run_shape evs1 evs2 :
  map shape evs1 = map shape evs2 → run opts evs1 = run opts evs2.
Proof.
  unfold run. generalize init.
  revert evs2. induction evs1 as [|e1 evs1 IH]; intros [|e2 evs2] w; simpl; try done.
  intros [= He Hr]. rewrite (step_shape w e1 e2 He). by apply IH.
Qed.


(** ** The no-output timer of keystroke interactions *)

Section NoOutputTimer.
Context (k : Z) (h : nat) (D : Z).

Lemma TimedOut_prefix w w' :
  emitted w `prefix_of` emitted w' → TimedOut k w → TimedOut k w'.
Proof.
  intros [l Hl] (i & Hi & ?). exists i. split; [|done].
  rewrite Hl. unfold interactionsOf. rewrite omap_app, elem_of_app. by left.
Qed.

Lemma prefix_finalize r reason w : emitted w `prefix_of` emitted (finalize r reason w).
Proof.
  unfold finalize. destruct (heap w !! r); [|done]. simpl. by eexists.
Qed.

Lemma prefix_fire a w : emitted w `prefix_of` emitted (fire a w).
Proof.
  destruct a; simpl; repeat case_match; try done; apply prefix_finalize.
Qed.

Lemma prefix_runTimer w t : emitted w `prefix_of` emitted (runTimer w t).
Proof.
  unfold runTimer. case_match; [|done].
  etrans; [|apply prefix_fire]. done.
Qed.

Lemma prefix_fold_runTimer l w : emitted w `prefix_of` emitted (fold_left runTimer l w).
Proof.
  revert w. induction l as [|t l IH]; intros w; simpl; [done|].
  etrans; [apply (prefix_runTimer w t)|apply IH].
Qed.

Lemma Armed_frame c w w' :
  activeKeystroke w' = activeKeystroke w → heap w' = heap w →
  timers w' = timers w → nextHandle w' = nextHandle w → clock w' = clock w →
  Armed k h D c w → Armed k h D c w'.
Proof. intros E1 E2 E3 E4 E5 []. split; rewrite ?E1, ?E2, ?E3, ?E4, ?E5; done. Qed.

Lemma Armed_addInput c r n w : Armed k h D c w → Armed k h D c (addInput r n w).
Proof.
  intros [A1 A2 A3 A4 A5 A6 A7 A8]. unfold addInput.
  destruct (heap w !! r) as [it|] eqn:Hr; [|done].
  split; simpl; try done.
  - destruct A2 as (it' & ? & ? & ? & ?).
    rewrite lookup_insert. case_decide; simplify_eq; eauto.
  - intros j it'. rewrite lookup_insert. case_decide; [|by eauto].
    intros [= <-] ?. subst. simpl. eauto.
Qed.

Lemma Armed_startInteraction c kd t0 extra w :
  WF w → Armed k h D c w → Armed k h D c (startInteraction opts kd t0 extra w).2.
Proof.
  intros Hwf [A1 A2 A3 A4 A5 A6 A7 A8]. unfold startInteraction. simpl.
  destruct A2 as (it & Hit & ? & ? & ?).
  destruct (wf_heap_id _ Hwf _ _ Hit) as [_ Hlt].
  split; simpl; try done.
  - exists it. rewrite lookup_insert_ne by lia. done.
  - apply elem_of_insert_timer. by right.
  - intros t [->|Ht]%elem_of_insert_timer; simpl; [lia|by eauto].
  - intros t [->|Ht]%elem_of_insert_timer; simpl; [done|by eauto].
  - lia.
  - intros j it'. rewrite lookup_insert. case_decide; [|by eauto].
    intros [= <-] _. simpl. split; [done|]. intros [=]. lia.
Qed.

Lemma Armed_finalize_other c r reason w :
  r ≠ k → WF w → Armed k h D c w → Armed k h D c (finalize r reason w).
Proof.
  intros Hne Hwf [A1 A2 A3 A4 A5 A6 A7 A8]. unfold finalize.
  destruct (heap w !! r) as [it|] eqn:Hr; [|done].
  destruct (wf_heap_id _ Hwf _ _ Hr) as [Hid _].
  destruct (A7 _ _ Hr Hne) as [? ?].
  split; simpl; try done.
  - unfold clearIf. case_decide; [congruence|done].
  - rewrite !elem_of_clear_opt. simpl. done.
  - intros t Ht. rewrite !elem_of_clear_opt in Ht. naive_solver.
  - intros t Ht. rewrite !elem_of_clear_opt in Ht. naive_solver.
Qed.

Lemma TimedOut_finalize_self c w :
  WF w → Armed k h D c w → TimedOut k (finalize k timeout w).
Proof.
  intros Hwf [A1 A2 A3 A4 A5 A6 A7 A8]. unfold finalize.
  destruct A2 as (it & Hit & ? & ? & ?). rewrite Hit. simpl.
  destruct (wf_heap_id _ Hwf _ _ Hit) as [Hid _].
  exists (toInteraction it timeout). split; [|done].
  apply elem_interactionsOf_snoc.
Qed.

Lemma Armed_not_turn c w t :
  WF w → Armed k h D c w → activeTurn w = Some t → t ≠ k.
Proof.
  intros Hwf [_ (it & Hit & Hk & _) _ _ _ _ _ _] Ht ->.
  destruct (wf_turn _ Hwf _ Ht) as (it' & ? & ?). simplify_eq. congruence.
Qed.

Lemma Armed_beginTurn c src now w :
  WF w → Armed k h D c w → Armed k h D c (beginTurn opts src now w).
Proof.
  intros Hwf Ha. unfold beginTurn.
  set (w2 := emit _ _).
  assert (WF w2) as Hwf2 by (by apply WF_emit_turn, WF_set_turnIndex).
  assert (Armed k h D c w2) as Ha2 by (by eapply Armed_frame; [..|exact Ha]).
  set (w3 := match activeTurn w2 with Some t => _ | None => _ end).
  assert (WF w3 ∧ Armed k h D c w3) as [Hwf3 Ha3].
  { subst w3. destruct (activeTurn w2) as [t|] eqn:Ht; [|done].
    split; [by apply WF_clear_turn, WF_finalize|].
    eapply Armed_frame; [..|apply Armed_finalize_other]; try done.
    by eapply Armed_not_turn. }
  pose proof (Armed_startInteraction c turn now (Some (Tracker.turnIndex w3)) w3 Hwf3 Ha3) as Hs.
  destruct (startInteraction _ _ _ _ _) as [i w4]. by eapply Armed_frame; [..|exact Hs].
Qed.

Lemma Armed_handleInput c data n now w :
  WF w → Armed k h D c w → Armed k h D c (handleInput opts data n now w).
Proof.
  intros Hwf Ha. unfold handleInput. rewrite (ar_slot _ _ _ _ _ Ha).
  assert (WF (addInput k n w)) by (by apply WF_addInput).
  assert (Armed k h D c (addInput k n w)) by (by apply Armed_addInput).
  case_match; repeat case_match; auto using Armed_addInput, Armed_beginTurn.
Qed.

Lemma Armed_runTimer c w t :
  WF w → (handle t = h → t = ours k h D) → action t ≠ IdleFire k →
  Armed k h D c w →
  (TimedOut k (runTimer w t) ∨ Armed k h D c (runTimer w t)) ∧
  (t = ours k h D → TimedOut k (runTimer w t)).
Proof.
  intros Hwf Hu Hni Ha. unfold runTimer.
  destruct (pending (handle t) (timers w)) eqn:Hp.
  2:{ split; [by right|]. intros ->. simpl in Hp.
      assert (pending h (timers w) = true) as Hp'; [|congruence].
      apply pending_true. exists (ours k h D). split; [apply Ha|done]. }
  set (w1 := set_timers _ w).
  assert (WF w1) as Hwf1 by (by apply WF_remove_timer).
  assert (∀ it, heap w !! k = Some it → firstOutputAtMs it = None) as Hfirst.
  { intros it Hit. destruct Ha as [_ (it' & ? & _ & ? & _) _ _ _ _ _ _]. congruence. }
  assert (TimedOut k (finalize k timeout w1)) as Hself.
  { destruct Ha as [A1 (it & Hit & ? & ? & ?) A3 A4 A5 A6 A7 A8]. unfold finalize.
    subst w1. simpl. rewrite Hit. simpl.
    destruct (wf_heap_id _ Hwf _ _ Hit) as [Hid _].
    exists (toInteraction it timeout). split; [|done].
    apply elem_interactionsOf_snoc. }
  destruct (decide (handle t = h)) as [Hh|Hh].
  - rewrite (Hu Hh). simpl.
    destruct Ha as [A1 (it & Hit & ? & Hf & ?) A3 A4 A5 A6 A7 A8].
    subst w1. simpl. rewrite Hit, Hf. split; [by left|done].
  - assert (Armed k h D c w1) as Ha1.
    { destruct Ha as [A1 A2 A3 A4 A5 A6 A7 A8]. split; simpl; try done.
      + apply elem_of_remove_handle. split; [done|]. simpl. congruence.
      + intros t' [? ?]%elem_of_remove_handle. eauto.
      + intros t' [? ?]%elem_of_remove_handle. eauto. }
    split; [|intros ->; by simpl in Hh].
    destruct (action t) as [r|r] eqn:Hact; simpl.
    + destruct (heap w !! r) as [it|] eqn:Hr; [|by right].
      destruct (firstOutputAtMs it) eqn:Hf; [by right|].
      destruct (decide (r = k)) as [->|]; [by left|].
      right. by apply Armed_finalize_other.
    + right. apply Armed_finalize_other; [congruence|done..].
Qed.

Lemma J_fold_runTimer c l w :
  WF w → (∀ t, t ∈ l → handle t = h → t = ours k h D) →
  (∀ t, t ∈ l → action t ≠ IdleFire k) →
  Armed k h D c w →
  let w' := fold_left runTimer l w in
  (TimedOut k w' ∨ Armed k h D c w') ∧ (ours k h D ∈ l → TimedOut k w').
Proof.
  revert w. induction l as [|t l IH]; intros w Hwf Hu Hni Ha; simpl.
  { split; [by right|]. set_solver. }
  destruct (Armed_runTimer c w t Hwf) as [[Hto|Ha'] Hself]; [set_solver..|done| |].
  - assert (TimedOut k (fold_left runTimer l (runTimer w t))) as H
      by (eapply TimedOut_prefix; [apply prefix_fold_runTimer|done]).
    split; [by left|done].
  - destruct (IH (runTimer w t)) as [IH1 IH2]; [by apply WF_runTimer|set_solver..|done|].
    split; [done|]. intros [<-|?]%elem_of_cons; [|by auto].
    eapply TimedOut_prefix; [apply prefix_fold_runTimer|by apply Hself].
Qed.

Lemma Armed_advance c d w :
  WF w → Armed k h D c w →
  let w' := advance d w in
  (TimedOut k w' ∨ Armed k h D (c + Z.of_nat d) w') ∧
  (D ≤ c + Z.of_nat d → TimedOut k w').
Proof.
  intros Hwf Ha. unfold advance.
  set (w1 := set_clock _ w).
  assert (WF w1) as Hwf1 by (by apply WF_set_clock).
  assert (Armed k h D (c + Z.of_nat d) w1) as Ha1.
  { destruct Ha as [A1 A2 A3 A4 A5 A6 A7 A8]. split; simpl; try done. by rewrite A8. }
  destruct (J_fold_runTimer (c + Z.of_nat d)
              (List.filter (λ t, deadline t <=? clock w1) (timers w1)) w1)
    as [H1 H2]; try done.
  - intros t Ht%list_elem_of_In%filter_In. destruct Ht as [Ht%list_elem_of_In _].
    by apply Ha1.
  - intros t Ht%list_elem_of_In%filter_In. destruct Ht as [Ht%list_elem_of_In _].
    by apply Ha1.
  - split; [done|]. intros HD. apply H2.
    apply list_elem_of_In, filter_In. split; [apply list_elem_of_In, Ha1|].
    simpl. apply Z.leb_le. destruct Ha as [_ _ _ _ _ _ _ ->]. lia.
Qed.

Lemma prefix_beginTurn src now w :
  emitted w `prefix_of` emitted (beginTurn opts src now w).
Proof.
  unfold beginTurn. set (w2 := emit _ _).
  assert (emitted w `prefix_of` emitted w2) as H2 by (by eexists).
  set (w3 := match activeTurn w2 with Some t => _ | None => _ end).
  assert (emitted w2 `prefix_of` emitted w3) as H3.
  { subst w3. destruct (activeTurn w2); [|done]. simpl. apply prefix_finalize. }
  unfold startInteraction. simpl. by etrans.
Qed.

Lemma emitted_addInput r n w : emitted (addInput r n w) = emitted w.
Proof. unfold addInput. by destruct (heap w !! r). Qed.

Lemma prefix_handleInput data n now w :
  emitted w `prefix_of` emitted (handleInput opts data n now w).
Proof.
  unfold handleInput.
  set (p := match activeKeystroke w with Some k0 => _ | None => _ end).
  assert (emitted p.2 = emitted w) as Hp by (subst p; by destruct (activeKeystroke w)).
  destruct p as [k0 w1]. simpl in Hp. rewrite <- Hp.
  assert (emitted w1 `prefix_of` emitted (beginTurn opts enter now (addInput k0 n w1))).
  { etrans; [|apply prefix_beginTurn]. by rewrite emitted_addInput. }
  repeat case_match; rewrite ?emitted_addInput; done.
Qed.

Lemma prefix_step_quiet w e :
  quiet_event e = true → emitted w `prefix_of` emitted (step opts w e).
Proof.
  destruct e; simpl; try done; intros _.
  - apply prefix_handleInput.
  - apply prefix_beginTurn.
  - unfold advance. etrans; [|apply prefix_fold_runTimer]. done.
Qed.

Lemma TimedOut_fold_quiet evs : ∀ w,
  forallb quiet_event evs = true → TimedOut k w →
  TimedOut k (fold_left (step opts) evs w).
Proof.
  induction evs as [|e evs IH]; intros w Hq Hto; simpl; [done|].
  simpl in Hq. apply andb_true_iff in Hq as [He Hq].
  apply IH; [done|]. eapply TimedOut_prefix; [by apply prefix_step_quiet|done].
Qed.

Lemma quiet_segment evs : ∀ c w,
  WF w → forallb quiet_event evs = true →
  TimedOut k w ∨ Armed k h D c w →
  TimedOut k (fold_left (step opts) evs w) ∨
  Armed k h D (c + elapsed evs) (fold_left (step opts) evs w).
Proof.
  induction evs as [|e evs IH]; intros c w Hwf Hq HJ; simpl.
  { by rewrite Z.add_0_r. }
  simpl in Hq. apply andb_true_iff in Hq as [He Hq].
  assert (WF (step opts w e)) as Hwf' by (by apply WF_step).
  destruct HJ as [Hto|Ha].
  { left. apply TimedOut_fold_quiet; [done|].
    eapply TimedOut_prefix; [by apply prefix_step_quiet|done]. }
  destruct e as [data n t|n t|src t| |d]; simpl in *; try done.
  - apply IH; [done..|]. right. by apply Armed_handleInput.
  - apply IH; [done..|]. right. by apply Armed_beginTurn.
  - rewrite Z.add_assoc. apply IH; [done..|]. by apply Armed_advance.
Qed.

End NoOutputTimer.

Lemma Armed_start data n now w :
  WF w → activeKeystroke w = None →
  Armed (nextId w) (nextHandle w) (clock w + timerDelay (interactionTimeoutMs opts)) (clock w)
        (handleInput opts data n now w) ∧
  activeKeystroke (handleInput opts data n now w) = Some (nextId w).
Proof.
  intros Hwf HK.
  cut (Armed (nextId w) (nextHandle w) (clock w + timerDelay (interactionTimeoutMs opts)) (clock w)
        (handleInput opts data n now w)).
  { intros Ha. split; [done|apply Ha]. }
  unfold handleInput. rewrite HK.
  destruct (startInteraction opts keystroke now None w) as [i w'] eqn:Hst.
  destruct (WF_startInteraction _ _ _ _ _ _ _ Hst Hwf) as (Hw' & -> & Hn & Hit & He & _ & _).
  set (w1 := set_activeKeystroke _ w').
  assert (WF w1) as Hwf1.
  { apply WF_set_keystroke; [done..|].
    intros j Hj. rewrite He in Hj. destruct (wf_emitted _ Hwf _ Hj). lia. }
  assert (Armed (nextId w) (nextHandle w) (clock w + timerDelay (interactionTimeoutMs opts))
                (clock w) w1) as Ha1.
  { unfold startInteraction in Hst. simpl in Hst. injection Hst as <-.
    subst w1. split; simpl; try done.
    - eexists. rewrite lookup_insert_eq. done.
    - apply elem_of_insert_timer. by left.
    - intros t [->|Ht]%elem_of_insert_timer Hh; [done|].
      destruct (wf_timers _ Hwf _ Ht). lia.
    - intros t [->|Ht]%elem_of_insert_timer; [by simpl|].
      destruct (wf_timers _ Hwf _ Ht) as [_ Hr]. intros E. rewrite E in Hr. simpl in Hr. lia.
    - lia.
    - intros j it Hj Hne. rewrite lookup_insert_ne in Hj by done.
      split; intros E;
        [pose proof (wf_heap_handles _ Hwf _ _ _ Hj (or_introl E))
        |pose proof (wf_heap_handles _ Hwf _ _ _ Hj (or_intror E))]; lia. }
  assert (WF (addInput (nextId w) n w1)) by (by apply WF_addInput).
  assert (Armed (nextId w) (nextHandle w) (clock w + timerDelay (interactionTimeoutMs opts))
                (clock w) (addInput (nextId w) n w1)) by (by apply Armed_addInput).
  case_match; repeat case_match; auto using Armed_addInput, Armed_beginTurn.
Qed.

(** Claim C10, as amended (keystroke interactions have a no-output timer).
    An input
    that finds no keystroke interaction active starts one, with the next id;
    if then neither output nor the end of the session is seen while at least
    the delay of its timer passes, that interaction is finalized with the
    end reason [timeout].  The delay is [interactionTimeoutMs], and 1 ms
    where [setTimeout] does not take that delay ([timerDelay]). *)
Theorem keystroke_no_output_timeout evs0 data n t evs d :
  activeKeystroke (run opts evs0) = None →
  forallb quiet_event evs = true →
  timerDelay (interactionTimeoutMs opts) ≤ elapsed evs + Z.of_nat d →
  activeKeystroke (run opts (evs0 ++ [Input data n t])) = Some (nextId (run opts evs0)) ∧
  Exists (λ i, id i = nextId (run opts evs0) ∧ kind i = keystroke ∧
               endReason i = timeout)
    (interactionsOf
       (emitted (run opts (evs0 ++ Input data n t :: evs ++ [Advance d])))).
Proof.
  intros HK Hq Hd. set (w0 := run opts evs0) in *.
  assert (WF w0) as Hwf0 by apply WF_run.
  destruct (Armed_start data n t w0 Hwf0 HK) as [Ha Hs].
  split; [by rewrite run_snoc|].
  rewrite run_app. simpl. rewrite fold_left_app. simpl. fold w0.
  set (w1 := handleInput opts data n t w0) in *.
  assert (WF w1) as Hwf1 by (by apply WF_handleInput).
  cut (TimedOut (nextId w0) (advance d (fold_left (step opts) evs w1))).
  { intros (i & Hi & ?). apply Exists_exists. eauto. }
  destruct (quiet_segment _ _ _ evs (clock w0) w1 Hwf1 Hq (or_intror Ha)) as [Hto|Ha2].
  - eapply TimedOut_prefix; [|done]. unfold advance.
    etrans; [|apply prefix_fold_runTimer]. done.
  - eapply Armed_advance; [..|exact Ha2|].
    + apply fold_step_ind; [apply WF_step|done].
    + lia.
Qed.



Lemma shape_erase e : shape (erase e) = shape e.
Proof.
  destruct e as [data n t| | | |]; simpl; try done.
  by destruct (bufferContainsEnter data).
Qed.

Lemma run_erase evs : run opts (List.map erase evs) = run opts evs.
Proof.
  apply run_shape. rewrite List.map_map. apply List.map_ext. apply shape_erase.
Qed.

(** Claim C1, as amended (the tracker does not depend on the bytes).  Two
    traces with the same shape (the same calls, byte lengths, clock readings
    and timer advances, and input chunks that agree on whether they hold a
    carriage return or line feed) lead to the same emitted turn events and
    interactions, hence to the same serialized records.  The records of a
    trace are those of the trace with every input's bytes erased, so a
    string occurs in the serialized records exactly when it occurs in the
    records of the erased trace: never because it was typed. *)
Theorem tracker_noninterference evs1 evs2 :
  List.map shape evs1 = List.map shape evs2 →
  emitted (run opts evs1) = emitted (run opts evs2) ∧
  Stringify.turnEvents (turnsOf (emitted (run opts evs1))) =
    Stringify.turnEvents (turnsOf (emitted (run opts evs2))) ∧
  Stringify.interactions (interactionsOf (emitted (run opts evs1))) =
    Stringify.interactions (interactionsOf (emitted (run opts evs2))) ∧
  emitted (run opts evs1) = emitted (run opts (List.map erase evs1)) ∧
  ∀ S,
    Js.includes S (Stringify.turnEvents (turnsOf (emitted (run opts evs1)))) =
    Js.includes S
      (Stringify.turnEvents (turnsOf (emitted (run opts (List.map erase evs1))))) ∧
    Js.includes S (Stringify.interactions (interactionsOf (emitted (run opts evs1)))) =
    Js.includes S
      (Stringify.interactions
         (interactionsOf (emitted (run opts (List.map erase evs1))))).
Proof.
  intros H. rewrite (run_shape _ _ H), run_erase.
  rewrite <- (run_shape _ _ H). done.
Qed.

(** The same at the runtime's two byte streams: chunks of equal length that
    agree on line terminators and on being the hotkey are interchangeable. *)
Lemma host_noninterference hotkeyOn hs1 hs2 :
  List.map Wiring.hostShape hs1 = List.map Wiring.hostShape hs2 →
  emitted (run opts (List.map (Wiring.dispatch hotkeyOn) hs1)) =
  emitted (run opts (List.map (Wiring.dispatch hotkeyOn) hs2)).
Proof.
  intros H. f_equal. apply run_shape.
  revert hs2 H. induction hs1 as [|h1 hs1 IH]; intros [|h2 hs2]; simpl; try done.
  intros [= Hh Hr]. f_equal; [|by apply IH].
  destruct h1 as [s1 t1|d1 t1|n1|], h2 as [s2 t2|d2 t2|n2|]; simpl in *; try done.
  - injection Hh as Hk He Hl Hn. rewrite Hk.
    destruct (hotkeyOn && Wiring.isHotkey s2); simpl; unfold Js.byteLength;
      by rewrite ?He, ?Hl, ?Hn.
  - injection Hh as Hl Hn. unfold Js.byteLength. by rewrite Hl, Hn.
  - by injection Hh as ->.
Qed.

End Properties.


(** ** Every interaction is finalized at most once *)

Section SingleFinalization.
Context (opts : InteractionTrackerOptions).

Lemma Once_init : Once init.
Proof. split; simpl; intros; try set_solver. constructor. Qed.

Lemma Once_frame w w' :
  heap w' = heap w → timers w' = timers w →
  interactionsOf (emitted w') = interactionsOf (emitted w) →
  Once w → Once w'.
Proof. intros Hh Ht He [H1 H2 H3 H4]. split; rewrite ?Hh, ?Ht, ?He; done. Qed.

Lemma Once_fewer_timers q w :
  (∀ t, t ∈ q → t ∈ timers w) → Once w → Once (set_timers q w).
Proof. intros Hq [H1 H2 H3 H4]. split; simpl; eauto. Qed.

Lemma Once_finalize r reason w :
  WF w → (∀ i, i ∈ interactionsOf (emitted w) → id i ≠ r) →
  Once w → Once (finalize r reason w).
Proof.
  intros Hwf Hr [H1 H2 H3 H4]. unfold finalize.
  destruct (heap w !! r) as [it|] eqn:Hit; [|by split].
  destruct (wf_heap_id _ Hwf _ _ Hit) as [Hid _].
  split; simpl.
  - intros t Ht. rewrite !elem_of_clear_opt in Ht. apply H1. tauto.
  - intros t1 t2 Ht1 Ht2. rewrite !elem_of_clear_opt in Ht1, Ht2. apply H2; tauto.
  - intros t i Ht Hi. rewrite !elem_of_clear_opt in Ht. destruct Ht as [[Ht Hidle] Hno].
    rewrite interactionsOf_snoc, elem_of_app, list_elem_of_singleton in Hi.
    destruct Hi as [Hi| ->]; [by apply H3|]. simpl. rewrite Hid. intros E.
    destruct (H1 _ Ht) as (it' & Hit' & Hown). rewrite E, Hit in Hit'.
    injection Hit' as <-. unfold owned in Hown. destruct (action t); congruence.
  - rewrite interactionsOf_snoc, map_app. simpl. apply NoDup_app. split_and!; [done| |].
    + intros x Hx Hx'. apply list_elem_of_singleton in Hx'. subst x.
      apply list_elem_of_fmap in Hx as (i & Hi & Hin). rewrite Hid in Hi.
      by apply (Hr i).
    + apply NoDup_singleton.
Qed.

Lemma Once_addInput r n w : Once w → Once (addInput r n w).
Proof.
  intros [H1 H2 H3 H4]. unfold addInput.
  destruct (heap w !! r) as [it|] eqn:Hit; [|by split].
  split; simpl; try done.
  intros t Ht. destruct (H1 _ Ht) as (it' & Hit' & Hown).
  rewrite lookup_insert. case_decide as E; [|by eauto].
  rewrite <- E in Hit'. simplify_eq. eexists. split; [done|]. done.
Qed.

Lemma Once_startInteraction k t0 extra w :
  WF w → Once w → Once (startInteraction opts k t0 extra w).2.
Proof.
  intros Hwf [H1 H2 H3 H4]. unfold startInteraction. simpl.
  split; simpl.
  - intros t [->|Ht]%elem_of_insert_timer; simpl.
    + rewrite lookup_insert_eq. eexists. split; [done|]. done.
    + destruct (H1 _ Ht) as (it' & Hit' & Hown).
      destruct (wf_timers _ Hwf _ Ht) as [_ Hlt].
      rewrite lookup_insert_ne by lia. eauto.
  - intros t1 t2 [->|Ht1]%elem_of_insert_timer [->|Ht2]%elem_of_insert_timer; simpl;
      [done|..|by apply H2].
    + destruct (wf_timers _ Hwf _ Ht2). lia.
    + destruct (wf_timers _ Hwf _ Ht1). lia.
  - intros t i [->|Ht]%elem_of_insert_timer Hi; simpl; [|by apply H3].
    destruct (wf_emitted _ Hwf _ Hi). lia.
  - done.
Qed.

Lemma Once_observeOutput r now n w :
  WF w → (∀ i, i ∈ interactionsOf (emitted w) → id i ≠ r) →
  Once w → Once (observeOutput opts r now n w).
Proof.
  intros Hwf Hr [H1 H2 H3 H4]. unfold observeOutput.
  destruct (heap w !! r) as [it|] eqn:Hit; [|by split].
  set (w1 := match firstOutputAtMs it with None => _ | Some _ => _ end).
  assert (heap w1 = heap w ∧ nextHandle w1 = nextHandle w ∧ emitted w1 = emitted w ∧
          (∀ t, t ∈ timers w1 → t ∈ timers w ∧
                (firstOutputAtMs it = None → noOutputTimeout it ≠ Some (handle t))))
    as (Hh1 & Hn1 & He1 & Ht1).
  { subst w1. destruct (firstOutputAtMs it); simpl; split_and!; try done.
    intros t Ht. apply elem_of_clear_opt in Ht. tauto. }
  assert (idleTimer (noteOutput now n it) = idleTimer it) as Hidle
    by (unfold noteOutput; by destruct (firstOutputAtMs it)).
  assert (firstOutputAtMs it ≠ None →
          noOutputTimeout (noteOutput now n it) = noOutputTimeout it) as Hnote
    by (unfold noteOutput; by destruct (firstOutputAtMs it)).
  split; simpl; rewrite ?Hh1, ?Hn1, ?He1, ?Hidle.
  - intros t [->|Ht]%elem_of_insert_timer; simpl.
    + rewrite lookup_insert_eq. eexists. split; [done|]. done.
    + apply elem_of_clear_opt in Ht as [Ht Hc]. apply Ht1 in Ht as [Ht Hno].
      destruct (H1 _ Ht) as (it' & Hit' & Hown).
      rewrite lookup_insert. case_decide as E; [|by eauto].
      rewrite <- E in Hit'. simplify_eq. eexists. split; [done|].
      unfold owned in *. destruct (action t); simpl in *; [|congruence].
      destruct (firstOutputAtMs it) eqn:Hf; [|by destruct Hno].
      by rewrite ?Hnote.
  - intros t1 t2 [->|Ha]%elem_of_insert_timer [->|Hb]%elem_of_insert_timer; simpl; [done|..].
    + apply elem_of_clear_opt in Hb as [Hb _]. apply Ht1 in Hb as [Hb _].
      destruct (wf_timers _ Hwf _ Hb). lia.
    + apply elem_of_clear_opt in Ha as [Ha _]. apply Ht1 in Ha as [Ha _].
      destruct (wf_timers _ Hwf _ Ha). lia.
    + apply elem_of_clear_opt in Ha as [Ha _]. apply Ht1 in Ha as [Ha _].
      apply elem_of_clear_opt in Hb as [Hb _]. apply Ht1 in Hb as [Hb _].
      by apply H2.
  - intros t i [->|Ht]%elem_of_insert_timer Hi; simpl.
    + intros E. by apply (Hr i).
    + apply elem_of_clear_opt in Ht as [Ht _]. apply Ht1 in Ht as [Ht _]. by apply H3.
  - done.
Qed.

Lemma slot_not_emitted w k :
  WF w → activeKeystroke w = Some k ∨ activeTurn w = Some k →
  ∀ i, i ∈ interactionsOf (emitted w) → id i ≠ k.
Proof.
  intros Hwf Hk i Hi E. destruct (wf_emitted _ Hwf _ Hi) as (_ & HK & HT).
  rewrite E in *. by destruct Hk.
Qed.

Lemma Once_beginTurn src now w : WF w → Once w → Once (beginTurn opts src now w).
Proof.
  intros Hwf Hw. unfold beginTurn.
  set (w2 := emit _ _).
  assert (WF w2) as Hwf2 by (by apply WF_emit_turn, WF_set_turnIndex).
  assert (Once w2) as Hw2.
  { revert Hw. apply Once_frame; try done. simpl.
    by rewrite interactionsOf_snoc, app_nil_r. }
  set (w3 := match activeTurn w2 with Some t => _ | None => _ end).
  assert (WF w3 ∧ Once w3) as [Hwf3 Hw3].
  { subst w3. destruct (activeTurn w2) as [t|] eqn:Ht; [|done]. split.
    - by apply WF_clear_turn, WF_finalize.
    - apply (Once_frame (finalize t overlap w2)); try done.
      apply Once_finalize; [done| |done]. apply slot_not_emitted; auto. }
  pose proof (Once_startInteraction turn now (Some (Tracker.turnIndex w3)) w3 Hwf3 Hw3) as Hs.
  destruct (startInteraction _ _ _ _ _) as [i w4]. revert Hs. by apply Once_frame.
Qed.

Lemma Once_handleInput data n now w :
  WF w → Once w → Once (handleInput opts data n now w).
Proof.
  intros Hwf Hw. unfold handleInput.
  set (p := match activeKeystroke w with Some k => _ | None => _ end).
  assert (WF (snd p) ∧ Once (snd p)) as [Hwfp Hp].
  { subst p. destruct (activeKeystroke w) eqn:HK; [done|].
    pose proof (Once_startInteraction keystroke now None w Hwf Hw) as Hs.
    destruct (startInteraction _ _ _ _ _) as [i w'] eqn:Hst.
    destruct (WF_startInteraction _ _ _ _ _ _ _ Hst Hwf) as (Hw' & -> & Hn & Hit & He & _ & _).
    simpl. split.
    - apply WF_set_keystroke; [done..|].
      intros j Hj. rewrite He in Hj. destruct (wf_emitted _ Hwf _ Hj). lia.
    - revert Hs. by apply Once_frame. }
  destruct p as [k w1]. simpl in Hwfp, Hp.
  assert (WF (addInput k n w1)) by (by apply WF_addInput).
  case_match; repeat case_match;
    auto using Once_addInput, Once_beginTurn, WF_addInput.
Qed.

Lemma Once_handleOutput n now w :
  WF w → Once w → Once (handleOutput opts n now w).
Proof.
  intros Hwf Hw. unfold handleOutput.
  set (w1 := match activeKeystroke w with Some k => _ | None => _ end).
  assert (WF w1 ∧ Once w1) as [Hwf1 Hw1].
  { subst w1. destruct (activeKeystroke w) as [k|] eqn:HK; [|done]. split.
    - by apply WF_observeOutput.
    - apply Once_observeOutput; [done| |done]. apply slot_not_emitted; auto. }
  destruct (activeTurn w1) as [t|] eqn:HT; [|done].
  apply Once_observeOutput; [done| |done]. apply slot_not_emitted; auto.
Qed.

Lemma Once_endSession w : WF w → Once w → Once (endSession w).
Proof.
  intros Hwf Hw. unfold endSession.
  set (w1 := match activeKeystroke w with Some k => _ | None => _ end).
  assert (WF w1 ∧ Once w1) as [Hwf1 Hw1].
  { subst w1. destruct (activeKeystroke w) as [k|] eqn:HK; [|done]. split.
    - by apply WF_finalize.
    - apply Once_finalize; [done| |done]. apply slot_not_emitted; auto. }
  set (w2 := match activeTurn w1 with Some t => _ | None => _ end).
  assert (Once w2) as Hw2.
  { subst w2. destruct (activeTurn w1) as [t|] eqn:HT; [|done].
    apply Once_finalize; [done| |done]. apply slot_not_emitted; auto. }
  revert Hw2. by apply Once_frame.
Qed.

(** A due timer of the batch that is still pending is fired once, and what
    it finalizes was not finalized before. *)
Lemma Once_runTimer (batch : list Timer) w t :
  (∀ t1 t2, t1 ∈ batch → t2 ∈ batch → handle t1 = handle t2 → t1 = t2) →
  t ∈ batch → (∀ x, x ∈ timers w → x ∈ batch) →
  WF w → Once w →
  Once (runTimer w t) ∧ (∀ x, x ∈ timers (runTimer w t) → x ∈ batch).
Proof.
  intros Huniq Ht Hsub Hwf Hw. unfold runTimer.
  destruct (pending (handle t) (timers w)) eqn:Hp; [|done].
  apply pending_true in Hp as (t' & Ht' & Hh).
  assert (t' = t) as -> by (apply Huniq; auto).
  set (w' := set_timers _ w).
  assert (WF w') as Hwf' by (by apply WF_remove_timer).
  assert (Once w') as Hw'.
  { apply Once_fewer_timers; [|done]. intros x Hx. by apply elem_of_remove_handle in Hx as []. }
  assert (∀ i, i ∈ interactionsOf (emitted w') → id i ≠ timer_ref (action t)) as Hfresh.
  { intros i Hi E. by apply (on_dead _ Hw t i). }
  assert (∀ x, x ∈ timers w' → x ∈ batch) as Hsub'.
  { intros x Hx. apply elem_of_remove_handle in Hx as [Hx _]. auto. }
  assert (∀ r reason, ∀ x, x ∈ timers (finalize r reason w') → x ∈ batch) as Hfin.
  { intros r reason x. unfold finalize. destruct (heap w' !! r); [|by auto].
    simpl. rewrite !elem_of_clear_opt. intros [[Hx _] _]. auto. }
  destruct (action t) as [r|r] eqn:Ha; unfold fire; simpl in Hfresh.
  - destruct (heap w' !! r) as [it|]; [|by split].
    destruct (firstOutputAtMs it); [by split|].
    split; [by apply Once_finalize|apply Hfin].
  - split; [by apply Once_finalize|apply Hfin].
Qed.

Lemma Once_fold_runTimer (batch : list Timer) :
  (∀ t1 t2, t1 ∈ batch → t2 ∈ batch → handle t1 = handle t2 → t1 = t2) →
  ∀ l w, (∀ t, t ∈ l → t ∈ batch) → (∀ x, x ∈ timers w → x ∈ batch) →
  WF w → Once w → Once (fold_left runTimer l w).
Proof.
  intros Huniq l. induction l as [|t l IH]; intros w Hl Hsub Hwf Hw; simpl; [done|].
  destruct (Once_runTimer batch w t) as [Hw' Hsub']; try done; [apply Hl; set_solver|].
  apply IH; try done; [intros x Hx; apply Hl; set_solver|by apply WF_runTimer].
Qed.

Lemma Once_advance d w : WF w → Once w → Once (advance d w).
Proof.
  intros Hwf Hw. unfold advance.
  apply (Once_fold_runTimer (timers w)).
  - apply (on_uniq _ Hw).
  - intros t Ht. simpl in Ht. apply list_elem_of_In, filter_In in Ht as [Ht _].
    by apply list_elem_of_In.
  - done.
  - by apply WF_set_clock.
  - revert Hw. by apply Once_frame.
Qed.

Lemma Once_step w e : WF w → Once w → Once (step opts w e).
Proof.
  destruct e; simpl; auto using Once_handleInput, Once_handleOutput, Once_beginTurn,
    Once_endSession, Once_advance.
Qed.

Lemma Once_run evs : Once (run opts evs).
Proof.
  induction evs as [|e evs IH] using rev_ind; [apply Once_init|].
  rewrite run_snoc. apply Once_step; [apply WF_run|done].
Qed.

(** Single finalization.  In every run of the tracker the emitted
    interactions have pairwise distinct ids: no interaction is handed to
    [onInteraction] twice, whichever of its timers, an overlapping turn or
    the end of the session finalizes it, and however stale the timers that
    are still in the host's queue. *)
Theorem single_finalization evs :
  NoDup (List.map id (interactionsOf (emitted (run opts evs)))).
Proof. apply on_nodup, Once_run. Qed.

End SingleFinalization.

(** ** Stale-timer safety *)

Section StaleTimers.
Context (opts : InteractionTrackerOptions).

Lemma prefix_step w e : emitted w `prefix_of` emitted (step opts w e).
Proof.
  destruct e as [data n t|n t|src t| |d]; try (by apply prefix_step_quiet).
  - simpl. unfold handleOutput.
    destruct (observe_opt_frame opts (activeKeystroke w) t n w) as (_ & He1 & _ & _).
    set (w1 := match activeKeystroke w with Some k0 => _ | None => w end) in *.
    destruct (observe_opt_frame opts (activeTurn w1) t n w1) as (_ & He2 & _ & _).
    simpl in He2. rewrite He2, He1. done.
  - simpl. unfold endSession. simpl.
    set (w1 := match activeKeystroke w with Some k0 => _ | None => w end).
    assert (emitted w `prefix_of` emitted w1) as H1
      by (subst w1; destruct (activeKeystroke w); [apply prefix_finalize|done]).
    etrans; [exact H1|]. destruct (activeTurn w1); [apply prefix_finalize|done].
Qed.

Lemma prefix_run_app evs1 evs2 :
  emitted (run opts evs1) `prefix_of` emitted (run opts (evs1 ++ evs2)).
Proof.
  induction evs2 as [|e evs2 IH] using rev_ind; [by rewrite app_nil_r|].
  rewrite app_assoc, run_snoc. etrans; [exact IH|apply prefix_step].
Qed.

Lemma Started_weaken w w' :
  nextId w' = nextId w →
  (∀ k, active w k → active w' k ∨ finalized w' k) →
  (∀ k, finalized w k → finalized w' k) →
  Started w → Started w'.
Proof.
  intros Hn Ha Hf Hw k Hk. rewrite Hn in Hk. destruct (Hw k Hk); [auto|]. right. auto.
Qed.

Lemma finalized_snoc w w' e k :
  emitted w' = emitted w ++ [e] → finalized w k → finalized w' k.
Proof.
  intros He (i & Hi & Hid). exists i. split; [|done].
  rewrite He, interactionsOf_snoc, elem_of_app. by left.
Qed.

Lemma Started_finalize r reason w : Started w → Started (finalize r reason w).
Proof.
  unfold finalize. destruct (heap w !! r) as [it|] eqn:Hit; [|done].
  apply Started_weaken; [done| |].
  - intros k Hk. destruct (decide (k = ai_id it)) as [->|Hne].
    + right. eexists. split; [apply elem_interactionsOf_snoc|done].
    + left. destruct Hk as [Hk|Hk]; [left|right]; simpl; by apply clearIf_Some.
  - intros k. by eapply finalized_snoc.
Qed.

Lemma Started_frame w w' :
  nextId w' = nextId w → activeKeystroke w' = activeKeystroke w →
  activeTurn w' = activeTurn w →
  interactionsOf (emitted w') = interactionsOf (emitted w) →
  Started w → Started w'.
Proof.
  intros Hn HK HT He. apply Started_weaken; [done| |].
  - intros k Hk. left. unfold active. by rewrite HK, HT.
  - intros k. unfold finalized. by rewrite He.
Qed.

Lemma Started_addInput r n w : Started w → Started (addInput r n w).
Proof. unfold addInput. destruct (heap w !! r); [|done]. by apply Started_frame. Qed.

Lemma Started_observeOutput r now n w :
  Started w → Started (observeOutput opts r now n w).
Proof.
  destruct (observeOutput_frame opts r now n w) as (Hn & He & HK & HT).
  apply Started_frame; try done. by rewrite He.
Qed.

(** A fresh interaction goes into a slot that is empty. *)
Lemma Started_start k t0 extra w :
  Started w →
  let '(i, w') := startInteraction opts k t0 extra w in
  (activeKeystroke w = None → Started (set_activeKeystroke (Some i) w')) ∧
  (activeTurn w = None → Started (set_activeTurn (Some i) w')).
Proof.
  intros Hw. unfold startInteraction. simpl.
  split; intros Hnone j Hj; simpl in *.
  - destruct (decide (j = nextId w)) as [->|Hne]; [left; by left|].
    destruct (Hw j) as [[Hk|Ht]|Hf]; [lia|congruence| |].
    + left. by right.
    + by right.
  - destruct (decide (j = nextId w)) as [->|Hne]; [left; by right|].
    destruct (Hw j) as [[Hk|Ht]|Hf]; [lia| |congruence|].
    + left. by left.
    + by right.
Qed.

Lemma finalize_slot r reason w :
  WF w → active w r →
  activeKeystroke (finalize r reason w) = clearIf r (activeKeystroke w) ∧
  activeTurn (finalize r reason w) = clearIf r (activeTurn w).
Proof.
  intros Hwf Hr.
  assert (∃ it, heap w !! r = Some it) as [it Hit].
  { destruct Hr as [Hr|Hr]; [apply (wf_keystroke _ Hwf) in Hr|apply (wf_turn _ Hwf) in Hr];
      naive_solver. }
  destruct (wf_heap_id _ Hwf _ _ Hit) as [Hid _].
  unfold finalize. rewrite Hit. simpl. by rewrite Hid.
Qed.

Lemma Started_beginTurn src now w :
  WF w → Started w → Started (beginTurn opts src now w).
Proof.
  intros Hwf Hw. unfold beginTurn.
  set (w2 := emit _ _).
  assert (WF w2) as Hwf2 by (by apply WF_emit_turn, WF_set_turnIndex).
  assert (Started w2) as Hw2.
  { revert Hw. apply Started_frame; try done. simpl.
    by rewrite interactionsOf_snoc, app_nil_r. }
  set (w3 := match activeTurn w2 with Some t => _ | None => _ end).
  assert (Started w3 ∧ activeTurn w3 = None) as [Hw3 Hnone].
  { subst w3. destruct (activeTurn w2) as [t|] eqn:Ht; [|done]. split; [|done].
    apply (Started_weaken (finalize t overlap w2)); [done| |done|by apply Started_finalize].
    intros k [Hk|Hk]; [left; by left|].
    destruct (finalize_slot t overlap w2 Hwf2) as [_ E]; [by right|].
    rewrite E, Ht in Hk. apply clearIf_Some in Hk as [Hk Hne]. congruence. }
  pose proof (Started_start turn now (Some (Tracker.turnIndex w3)) w3 Hw3) as Hs.
  destruct (startInteraction _ _ _ _ _) as [i w4]. by apply Hs.
Qed.

Lemma Started_handleInput data n now w :
  WF w → Started w → Started (handleInput opts data n now w).
Proof.
  intros Hwf Hw. unfold handleInput.
  set (p := match activeKeystroke w with Some k => _ | None => _ end).
  assert (WF (snd p) ∧ Started (snd p)) as [Hwfp Hp].
  { subst p. destruct (activeKeystroke w) eqn:HK; [done|].
    pose proof (Started_start keystroke now None w Hw) as Hs.
    destruct (startInteraction _ _ _ _ _) as [i w'] eqn:Hst.
    destruct (WF_startInteraction _ _ _ _ _ _ _ Hst Hwf) as (Hw' & -> & Hn & Hit & He & _ & _).
    simpl. split; [|by apply Hs].
    apply WF_set_keystroke; [done..|].
    intros j Hj. rewrite He in Hj. destruct (wf_emitted _ Hwf _ Hj). lia. }
  destruct p as [k w1]. simpl in Hwfp, Hp.
  assert (WF (addInput k n w1)) by (by apply WF_addInput).
  case_match; repeat case_match;
    auto using Started_addInput, Started_beginTurn, WF_addInput.
Qed.

Lemma Started_handleOutput n now w : Started w → Started (handleOutput opts n now w).
Proof.
  intros Hw. unfold handleOutput. repeat case_match; auto using Started_observeOutput.
Qed.

Lemma Started_endSession w : WF w → Started w → Started (endSession w).
Proof.
  intros Hwf Hw. unfold endSession.
  set (w1 := match activeKeystroke w with Some k => _ | None => _ end).
  assert (WF w1 ∧ Started w1 ∧ activeKeystroke w1 = None) as (Hwf1 & Hw1 & HK1).
  { subst w1. destruct (activeKeystroke w) as [k|] eqn:HK; [|done].
    split_and!; [by apply WF_finalize|by apply Started_finalize|].
    destruct (finalize_slot k sessionEnd w Hwf) as [-> _]; [by left|].
    rewrite HK. unfold clearIf. by case_decide. }
  set (w2 := match activeTurn w1 with Some t => _ | None => _ end).
  assert (Started w2 ∧ activeKeystroke w2 = None ∧ activeTurn w2 = None)
    as (Hw2 & HK2 & HT2).
  { subst w2. destruct (activeTurn w1) as [t|] eqn:HT; [|done].
    split_and!; [by apply Started_finalize|..];
      destruct (finalize_slot t sessionEnd w1 Hwf1) as [E1 E2]; try (by right).
    - rewrite E1, HK1. unfold clearIf. by case_decide.
    - rewrite E2, HT. unfold clearIf. by case_decide. }
  revert Hw2. apply Started_frame; done.
Qed.

Lemma Started_fire a w : Started w → Started (fire a w).
Proof.
  intros Hw. destruct a as [r|r]; simpl; [|by apply Started_finalize].
  repeat case_match; auto using Started_finalize.
Qed.

Lemma Started_runTimer w t : Started w → Started (runTimer w t).
Proof.
  intros Hw. unfold runTimer. case_match; [|done].
  apply Started_fire. revert Hw. by apply Started_frame.
Qed.

Lemma Started_advance d w : Started w → Started (advance d w).
Proof.
  intros Hw. unfold advance. apply fold_runTimer_ind; [apply Started_runTimer|].
  revert Hw. by apply Started_frame.
Qed.

Lemma Started_step w e : WF w → Started w → Started (step opts w e).
Proof.
  destruct e; simpl; auto using Started_handleInput, Started_handleOutput,
    Started_beginTurn, Started_endSession, Started_advance.
Qed.

Lemma Started_run evs : Started (run opts evs).
Proof.
  induction evs as [|e evs IH] using rev_ind; [intros k Hk; simpl in Hk; lia|].
  rewrite run_snoc. apply Started_step; [apply WF_run|done].
Qed.

(** Stale timers.  Take an interaction [k] that has started and that its
    no-output timer has not finalized.  If an output event arrives then, no
    record of [k] that the tracker ever emits, whatever follows, has the end
    reason [timeout]: while [k] is active the output clears its timer, and a
    stale callback finds the first output set; and an interaction that was
    finalized before is not finalized again. *)
Lemma no_timeout_after_output evs1 n t evs2 k :
  1 ≤ k < nextId (run opts evs1) →
  Forall (λ i, id i = k → endReason i ≠ timeout)
         (interactionsOf (emitted (run opts evs1))) →
  Forall (λ i, id i = k → endReason i ≠ timeout)
         (interactionsOf (emitted (run opts (evs1 ++ Output n t :: evs2)))).
Proof.
  intros Hk Hnot.
  destruct (Started_run evs1 k Hk) as [Hact|(i0 & Hi0 & Hid0)].
  - rewrite run_app. simpl.
    cut (Obj (λ it, ai_id it = k → firstOutputAtMs it ≠ None)
             (λ i, id i = k → endReason i ≠ timeout) (k + 1)
             (fold_left (step opts) evs2 (handleOutput opts n t (run opts evs1)))).
    { intros (_ & _ & H). by apply Forall_forall. }
    apply fold_step_ind; [|apply stale_after_output; [apply WF_run|done]].
    intros w e. apply Obj_step.
    + by intros it ? ?.
    + by intros it r ? ? ?.
    + intros it Hf Hit Hid. simpl in Hid. by destruct (Hit Hid).
    + destruct e; simpl; try done.
      * intros i ???? ?; simpl in *; lia.
      * intros it h Hit Hid. unfold noteOutput in *.
        destruct (firstOutputAtMs it) eqn:E; simpl in *; [|done].
        rewrite E. done.
      * intros i ???? ?; simpl in *; lia.
  - destruct (prefix_run_app evs1 (Output n t :: evs2)) as [rest Hrest].
    pose proof (on_nodup _ (Once_run opts (evs1 ++ Output n t :: evs2))) as Hnd.
    rewrite Hrest in *. unfold interactionsOf in *. rewrite omap_app in *.
    rewrite map_app in Hnd. apply NoDup_app in Hnd as (_ & Hdisj & _).
    apply Forall_app. split; [done|].
    apply Forall_forall. intros i Hi Hid. exfalso.
    apply (Hdisj k).
    + apply list_elem_of_fmap. by exists i0.
    + apply list_elem_of_fmap. by exists i.
Qed.

End StaleTimers.

(** ** The properties on the specification's scenarios *)

(** S1 of the specification: the serialized records do not hold the input. *)
Example no_plaintext_trace :
  Js.includes "SECRET"
    (Stringify.interactions (interactionsOf (emitted (run cliDefaults scenarioS1)))) = false ∧
  turnsOf (emitted (run cliDefaults scenarioS1)) = [].
Proof. by vm_compute. Qed.

(** S3 of the specification: one [overlap], then one [timeout] per kind. *)
Example overlapping_turns :
  List.map (fun i => (kind i, endReason i))
    (interactionsOf (emitted (run shortTimeout scenarioS3))) =
  [(turn, overlap); (keystroke, timeout); (turn, timeout)].
Proof. by vm_compute. Qed.

Lemma tracker_noninterference_witness :
  List.map shape scenarioS1 = List.map shape scenarioS1' ∧
  emitted (run cliDefaults scenarioS1) = emitted (run cliDefaults scenarioS1') ∧
  Stringify.interactions (interactionsOf (emitted (run cliDefaults scenarioS1))) =
    Stringify.interactions (interactionsOf (emitted (run cliDefaults scenarioS1'))).
Proof.
  split; [reflexivity|].
  destruct (tracker_noninterference cliDefaults scenarioS1 scenarioS1' eq_refl)
    as (He & _ & Hi & _).
  by split.
Defined.

(** Claim C1 as stated fails on a word that the records hold anyway: the
    user types [keystroke], and the record of the interaction names its kind,
    [keystroke]. *)
Lemma typed_word_occurs : ¬ no_occurrence_as_stated cliDefaults typedWord.
Proof.
  intros H.
  destruct (H "keystroke" 9 0 "keystroke") as [_ Hi].
  - by left.
  - discriminate.
  - reflexivity.
  - vm_compute in Hi. discriminate.
Qed.

Lemma on_turn_before_overlap_witness :
  ∃ l0 t, [OnTurn (mkTurnEvent 1 0 enter); OnTurn (mkTurnEvent 2 10 enter)] = l0 ++ [OnTurn t] ∧
          kind (mkInteraction 2 turn 0 None None 1 0 (Some 1) overlap) = turn ∧
          Schema.turnIndex (mkInteraction 2 turn 0 None None 1 0 (Some 1) overlap)
            = Some (index t - 1).
Proof.
  apply (proj1 (on_turn_before_overlap shortTimeout scenarioS3)
           [OnTurn (mkTurnEvent 1 0 enter); OnTurn (mkTurnEvent 2 10 enter)]
           (mkInteraction 2 turn 0 None None 1 0 (Some 1) overlap)
           [OnInteraction (mkInteraction 1 keystroke 0 None None 2 0 None timeout);
            OnInteraction (mkInteraction 3 turn 10 None None 1 0 (Some 2) timeout)]).
  - vm_compute. reflexivity.
  - reflexivity.
Defined.

Lemma latency_ordering_witness :
  nondecreasing (nows scenarioS2) = true ∧
  Forall (fun i => latency_order i ∧
                   (is_Some (t1Ms i) ↔ Observed cliDefaults scenarioS2 (id i)) ∧
                   (outputs_nonempty scenarioS2 = true → latency_ok i))
         (interactionsOf (emitted (run cliDefaults scenarioS2))).
Proof.
  split; [reflexivity|].
  apply (latency_ordering cliDefaults scenarioS2). reflexivity.
Defined.

(** Claim C6 as stated fails on a chunk of no bytes: [handleOutput(0)] stamps
    the first output, so the record has [t1Ms] although no output byte was
    counted. *)
Lemma latency_zero_bytes : ¬ latency_as_stated cliDefaults zeroByteOutput.
Proof.
  intros H. specialize (H eq_refl).
  assert (interactionsOf (emitted (run cliDefaults zeroByteOutput)) =
          [mkInteraction 1 keystroke 0 (Some 5) (Some 5) 1 0 None burstIdle]) as E
    by (vm_compute; reflexivity).
  rewrite E in H. apply Forall_inv in H. destruct H as (_ & _ & [H _]).
  simpl in H. specialize (H (ltac:(eexists; reflexivity))). lia.
Qed.

Lemma keystroke_no_output_timeout_witness :
  activeKeystroke (run cliDefaults []) = None ∧
  forallb quiet_event [Advance 1000; Input "b" 1 5] = true ∧
  timerDelay (interactionTimeoutMs cliDefaults) ≤
    elapsed [Advance 1000; Input "b" 1 5] + Z.of_nat 1000 ∧
  activeKeystroke (run cliDefaults ([] ++ [Input "a" 1 0])) = Some (nextId (run cliDefaults [])) ∧
  Exists (fun i => id i = nextId (run cliDefaults []) ∧ kind i = keystroke ∧
                   endReason i = timeout)
    (interactionsOf
       (emitted (run cliDefaults
          ([] ++ Input "a" 1 0 :: [Advance 1000; Input "b" 1 5] ++ [Advance 1000])))).
Proof.
  split; [reflexivity|]. split; [reflexivity|]. split; [vm_compute; discriminate|].
  apply (keystroke_no_output_timeout cliDefaults [] "a" 1 0
           [Advance 1000; Input "b" 1 5] 1000).
  - reflexivity.
  - reflexivity.
  - vm_compute. discriminate.
Defined.

(** Claim C10 as stated fails when the session ends first: the key is
    typed, no output follows, the child exits after a second, and the
    interaction is finalized with the reason [sessionEnd]. *)
Lemma session_end_before_timeout :
  ¬ timeout_as_stated cliDefaults [] "q" 1 0 quitKey 1500.
Proof.
  intros H. specialize (H eq_refl eq_refl).
  assert (interactionsOf
            (emitted (run cliDefaults ([] ++ Input "q" 1 0 :: quitKey ++ [Advance 1500]))) =
          [mkInteraction 1 keystroke 0 None None 1 0 None sessionEnd]) as E
    by (vm_compute; reflexivity).
  rewrite E in H.
  assert (interactionTimeoutMs cliDefaults ≤ elapsed quitKey + Z.of_nat 1500) as Hd
    by (vm_compute; discriminate).
  apply H, Exists_exists in Hd as (i & Hi & _ & _ & Hr).
  apply list_elem_of_singleton in Hi. subst i. discriminate.
Qed.

(** Two sessions whose chunks differ in every byte but in nothing else. *)
Lemma host_noninterference_witness :
  let hs1 := [Wiring.StdinData "SECRET" 0; Wiring.PtyData "SECRET" 5; Wiring.Elapse 31] in
  let hs2 := [Wiring.StdinData "public" 0; Wiring.PtyData "hidden" 5; Wiring.Elapse 31] in
  List.map Wiring.hostShape hs1 = List.map Wiring.hostShape hs2 ∧
  emitted (run cliDefaults (List.map (Wiring.dispatch true) hs1)) =
  emitted (run cliDefaults (List.map (Wiring.dispatch true) hs2)).
Proof.
  split; [reflexivity|].
  apply (host_noninterference cliDefaults true
           [Wiring.StdinData "SECRET" 0; Wiring.PtyData "SECRET" 5; Wiring.Elapse 31]
           [Wiring.StdinData "public" 0; Wiring.PtyData "hidden" 5; Wiring.Elapse 31]).
  reflexivity.
Defined.

End TrackerFacts.

(* ===================================================================== *)
(** * Properties of the marker lines                                      *)
(* ===================================================================== *)

Module MarkersFacts.
Import Schema Markers MarkersSpec.

Lemma markerRecord_unlabelled sha256Hex now opts :
  hasLabel opts = false →
  markerRecord sha256Hex now opts =
  mkMarkerLine now (Js.finite (tMs opts)) None None.
Proof.
  unfold hasLabel, markerRecord. destruct (o_label opts) as [l|]; simpl; [|done].
  by intros ->.
Qed.

Lemma markerRecord_labelled sha256Hex now opts :
  hasLabel opts = true →
  markerRecord sha256Hex now opts =
  mkMarkerLine now (Js.finite (tMs opts))
    (if storePlaintextLabel opts then Some (trimmedLabel opts) else None)
    (Some (sha256Hex (trimmedLabel opts))).
Proof.
  unfold hasLabel, trimmedLabel, markerRecord.
  destruct (o_label opts) as [l|]; simpl; [|done]. by intros ->.
Qed.

(** Claim C3 as stated fails when plaintext-label storage is enabled: the
    line then carries the hash and the plaintext. *)
Lemma marker_with_both_forms :
  ¬ one_form_as_stated (fun s => s) "2026-01-01T00:00:00.000Z" plaintextMark.
Proof. intros H. specialize (H eq_refl). vm_compute in H. discriminate. Qed.

(** White space outside ASCII is trimmed as well: a label of such white
    space gives a line without annotation, and around a word it is not part
    of what is hashed. *)
Example unicode_space_is_trimmed :
  hasLabel blankMark = false ∧
  lineForms (markerRecord (fun s => s) "2026-01-01T00:00:00.000Z" blankMark) = (false, false) ∧
  trimmedLabel paddedMark = "deploy" ∧
  l_labelSha256 (markerRecord (fun s => s) "2026-01-01T00:00:00.000Z" paddedMark) =
    Some "deploy".
Proof. by vm_compute. Qed.

(** Claim C3, as amended.  A line written by [appendMarker] carries an
    annotation exactly when the trimmed label is not empty; it then always
    carries [labelSha256], the hash of the trimmed label, and carries the
    plaintext [label] in addition exactly when plaintext-label storage is
    enabled.  So the hash is the only form when plaintext storage is off, and
    both forms are present when it is on; [markerLineToEvent] hands both
    fields to the event unchanged. *)
Theorem marker_label_forms (sha256Hex : string → string) (now : string)
    (opts : AppendMarkerOptions) (file : list MarkerLine) (t : Z) :
  let line := markerRecord sha256Hex now opts in
  appendMarker sha256Hex now opts file = file ++ [line] ∧
  l_labelSha256 line =
    (if hasLabel opts then Some (sha256Hex (trimmedLabel opts)) else None) ∧
  l_label line =
    (if hasLabel opts && storePlaintextLabel opts
     then Some (trimmedLabel opts) else None) ∧
  annotated (lineForms line) = hasLabel opts ∧
  exactlyOne (lineForms line) = hasLabel opts && negb (storePlaintextLabel opts) ∧
  label (markerLineToEvent line t) = l_label line ∧
  labelSha256 (markerLineToEvent line t) = l_labelSha256 line ∧
  eventForms (markerLineToEvent line t) = lineForms line.
Proof.
  intros line. subst line. split; [done|].
  destruct (hasLabel opts) eqn:Hl.
  - rewrite (markerRecord_labelled _ _ _ Hl). simpl.
    by destruct (storePlaintextLabel opts).
  - by rewrite (markerRecord_unlabelled _ _ _ Hl).
Qed.

End MarkersFacts.

(* ===================================================================== *)
(** * Properties of the external-log selection                            *)
(* ===================================================================== *)

Module JsonlSelectFacts.
Import JsonlSelect JsonlSelectSpec.

Lemma better_keeps_maximal b seen c :
  maximal b seen →
  ∃ b', better (Some b) c = Some b' ∧ maximal b' (seen ++ [c]).
Proof.
  intros [Hin Hmax]. unfold better.
  destruct (sizeBytes b <? sizeBytes c) eqn:Hlt.
  - apply Z.ltb_lt in Hlt. exists c. split; [done|]. split.
    + apply in_or_app. right. by left.
    + intros x [Hx|[<-|[]]]%in_app_or; [|lia].
      destruct (Hmax x Hx). lia.
  - apply Z.ltb_ge in Hlt.
    destruct ((sizeBytes c =? sizeBytes b) && (mtimeMs b <? mtimeMs c)) eqn:Htie.
    + apply andb_true_iff in Htie as [Heq%Z.eqb_eq Hm%Z.ltb_lt].
      exists c. split; [done|]. split.
      * apply in_or_app. right. by left.
      * intros x [Hx|[<-|[]]]%in_app_or; [|lia].
        destruct (Hmax x Hx) as [H1 H2]. split; [lia|].
        intros E. assert (mtimeMs x ≤ mtimeMs b) by (apply H2; lia). lia.
    + exists b. split; [done|]. split.
      * apply in_or_app. by left.
      * intros x [Hx|[<-|[]]]%in_app_or; [by apply Hmax|].
        split; [done|]. intros E.
        apply andb_false_iff in Htie as [Hne%Z.eqb_neq|Hm%Z.ltb_ge]; [congruence|done].
Qed.

Lemma fold_better_maximal cs : ∀ b seen,
  maximal b seen →
  ∃ best, fold_left better cs (Some b) = Some best ∧ maximal best (seen ++ cs).
Proof.
  induction cs as [|c cs IH]; intros b seen Hb.
  - exists b. by rewrite app_nil_r.
  - destruct (better_keeps_maximal b seen c Hb) as (b' & Hstep & Hb').
    destruct (IH b' (seen ++ [c]) Hb') as (best & Hfold & Hbest).
    exists best. rewrite <- app_assoc in Hbest. split; [|done].
    change (fold_left better (c :: cs) (Some b))
      with (fold_left better cs (better (Some b) c)).
    by rewrite Hstep.
Qed.

Lemma pickLargestCandidate_maximal cs :
  cs ≠ [] → ∃ best, pickLargestCandidate cs = Some best ∧ maximal best cs.
Proof.
  destruct cs as [|c cs]; [done|]. intros _. unfold pickLargestCandidate. simpl.
  apply (fold_better_maximal cs c [c]). split; [by left|].
  intros x [<-|[]]. lia.
Qed.

Lemma pickLargestCandidate_pair a b :
  sizeBytes b < sizeBytes a →
  pickLargestCandidate [a; b] = Some a ∧ pickLargestCandidate [b; a] = Some a.
Proof.
  intros H. unfold pickLargestCandidate. simpl.
  assert ((sizeBytes a <? sizeBytes b) = false) as -> by (apply Z.ltb_ge; lia).
  assert ((sizeBytes b <? sizeBytes a) = true) as -> by (by apply Z.ltb_lt).
  assert ((sizeBytes b =? sizeBytes a) = false) as -> by (apply Z.eqb_neq; lia).
  done.
Qed.

Section WithFileSystem.
Variable sha256Hex : string → string.
Variable pathExists : string → bool.
Variable isDirectory : string → bool.
Variable path_resolve : string → string.
Variable path_join : string → string → string.
Variable defaultProjectsDir : string.
Variable findRecentJsonlCandidates : string → Z → nat → list JsonlCandidate.
Variable pickBestCandidateForConversation :
  list JsonlCandidate → Z → option JsonlCandidate.

Local Abbreviation ensure :=
  (ensureActivePath sha256Hex pathExists isDirectory path_resolve path_join
     defaultProjectsDir findRecentJsonlCandidates pickBestCandidateForConversation).
Local Abbreviation found :=
  (scanned isDirectory path_resolve path_join defaultProjectsDir
     findRecentJsonlCandidates).

(** Claim C8 (no-read selection policy).  When reading for selection is not
    allowed and the scan finds candidates (no override path is set, and no
    file selected earlier is still there), the tracker selects a candidate of
    the greatest size, and among those of that size one of the most recent
    modification time; of two candidates of different sizes the larger is
    picked, in whichever order the scan lists them. *)
Theorem no_read_selection (t : JsonlTracker) :
  allowReadForSelection t = false →
  (∀ a, truthy (activePath t) = Some a → pathExists a = false) →
  truthy (overridePath t) = None →
  pathExists (default defaultProjectsDir (projectsDirOverride t)) = true →
  found t ≠ [] →
  (∃ best, maximal best (found t) ∧
           ensure t = (Some (p best), select (p best) (sha256Hex (p best)) t)) ∧
  (∀ a b, sizeBytes b < sizeBytes a →
          pickLargestCandidate [a; b] = Some a ∧ pickLargestCandidate [b; a] = Some a).
Proof.
  intros Hread Hactive Hover Hdir Hfound.
  split; [|apply pickLargestCandidate_pair].
  destruct (pickLargestCandidate_maximal _ Hfound) as (best & Hpick & Hmax).
  exists best. split; [done|].
  assert (ensure t = selectFresh sha256Hex pathExists isDirectory path_resolve path_join
                       defaultProjectsDir findRecentJsonlCandidates
                       pickBestCandidateForConversation t) as ->.
  { unfold ensureActivePath. destruct (truthy (activePath t)) as [a|]; [|done].
    by rewrite (Hactive a eq_refl). }
  unfold selectFresh. rewrite Hover, Hdir, Hread. simpl.
  unfold scanned in *.
  destruct (scanRoots _ _ _) as [|c cs] eqn:Hscan; [done|].
  by rewrite Hpick.
Qed.

End WithFileSystem.

(** S4 of the specification. *)
Lemma no_read_selection_witness :
  allowReadForSelection s4Tracker = false ∧
  scanned (fun _ => true) (fun s => s) s4Join "/home/.claude/projects" s4Scan s4Tracker ≠ [] ∧
  ∃ best,
    maximal best
      (scanned (fun _ => true) (fun s => s) s4Join "/home/.claude/projects" s4Scan s4Tracker) ∧
    ensureActivePath (fun s => s) (fun _ => true) (fun _ => true) (fun s => s) s4Join
      "/home/.claude/projects" s4Scan (fun _ _ => None) s4Tracker =
    (Some (p best), select (p best) (p best) s4Tracker).
Proof.
  split; [reflexivity|]. split; [vm_compute; discriminate|].
  apply (no_read_selection (fun s => s) (fun _ => true) (fun _ => true) (fun s => s)
           s4Join "/home/.claude/projects" s4Scan (fun _ _ => None) s4Tracker).
  - reflexivity.
  - intros a [=].
  - reflexivity.
  - reflexivity.
  - vm_compute. discriminate.
Defined.

(** S4 picks the conversation log, although the snapshot is newer. *)
Example conversation_is_selected :
  pickLargestCandidate [snapshot; conversation] = Some conversation.
Proof. reflexivity. Qed.

End JsonlSelectFacts.

(* ===================================================================== *)
(** * Properties of the correlator's sequential mode                      *)
(* ===================================================================== *)

Module CorrelateFacts.
Import Json Correlate CorrelateSpec.

Section WithRuntime.
Variable JSON_parse : string → option json.
Variable Date_parse : string → option Z.
Variable opts : CorrelateJsonlOptions.

Local Abbreviation step := (processLine JSON_parse Date_parse opts).
Local Abbreviation read := (readLines JSON_parse Date_parse opts).
Local Abbreviation seqRecord := (sequentialRecord JSON_parse Date_parse).
Local Abbreviation apply := (applyToTurn opts).
Local Abbreviation n := (numTurns opts).

(** What the loop does with a record that has no time stamp. *)
Lemma processLine_sequential st line rec :
  seqRecord line = Some rec →
  let seq := if isUserRecord rec then seqTurnPtr st + 1 else seqTurnPtr st in
  step st line =
  (mkLoopState (parsedLines st + 1) (parsedBytes st + Js.byteLength line)
     (parseErrors st) (usedTimestamps st) (seenAnyTimestamp st)
     (if isUserRecord rec then true else usedSequential st)
     (turnPtr st) seq
     (if (0 <=? seq) && (seq <? n)
      then apply (Z.to_nat seq) line rec (perTurn st) else perTurn st),
   false).
Proof.
  unfold sequentialRecord, processLine, isUserRecord.
  destruct (Js.nonEmpty (Js.trim line)); [|done]. simpl.
  destruct (JSON_parse (Js.trim line)) as [r|]; [|done].
  destruct (extractEpochMs Date_parse r) eqn:He; [done|].
  by intros [= ->].
Qed.

(** Once the pointer is past the last turn it stays there, and records
    without a time stamp change no bucket. *)
Lemma past_the_last_turn lines : ∀ st,
  n ≤ seqTurnPtr st →
  Forall (fun l => is_Some (seqRecord l)) lines →
  perTurn (read lines st) = perTurn st ∧ n ≤ seqTurnPtr (read lines st).
Proof.
  induction lines as [|line lines IH]; intros st Hst Hall; [done|].
  apply Forall_cons in Hall as [[rec Hrec] Hall].
  simpl. rewrite (processLine_sequential st line rec Hrec). simpl.
  set (seq := if isUserRecord rec then seqTurnPtr st + 1 else seqTurnPtr st).
  assert (n ≤ seq) as Hseq by (subst seq; destruct (isUserRecord rec); lia).
  assert ((seq <? n) = false) as Hlt by (apply Z.ltb_ge; lia).
  rewrite Hlt, andb_false_r.
  set (st' := mkLoopState _ _ _ _ _ _ _ _ _).
  destruct (IH st') as [IH1 IH2]; [done..|]. by rewrite IH1.
Qed.

(** With turn indices that are pairwise distinct, as the tracker hands them
    out, the bucket found by turn index is the bucket at the turn's own
    position. *)
Lemma lastWithIndex_absent i l : ∀ pos found,
  i ∉ List.map b_turnIndex l → lastWithIndex i l pos found = found.
Proof.
  induction l as [|b l IH]; intros pos found Hi; [done|].
  simpl in *. apply not_elem_of_cons in Hi as [Hb Hi].
  rewrite IH by done.
  destruct (b_turnIndex b =? i) eqn:E; [|done]. apply Z.eqb_eq in E. congruence.
Qed.

Lemma lastWithIndex_position i l : ∀ pos found k b,
  NoDup (List.map b_turnIndex l) → l !! k = Some b → b_turnIndex b = i →
  lastWithIndex i l pos found = Some (pos + k)%nat.
Proof.
  induction l as [|b0 l IH]; intros pos found k b Hnd Hk Hb; [done|].
  simpl in Hnd. apply NoDup_cons in Hnd as [Hb0 Hnd].
  destruct k as [|k]; simpl in *.
  - simplify_eq. rewrite Z.eqb_refl, lastWithIndex_absent by done.
    f_equal. lia.
  - assert ((b_turnIndex b0 =? i) = false) as ->.
    { apply Z.eqb_neq. intros E. apply Hb0. rewrite E, <- Hb.
      apply list_elem_of_fmap. exists b. split; [done|].
      by apply list_elem_of_lookup_2 with k. }
    rewrite (IH (S pos) found k b) by done. f_equal. lia.
Qed.

(** The bucket at the position of a turn is the bucket of that turn. *)
Lemma bucket_of_turn ptr t buckets :
  List.map b_turnIndex buckets = List.map Schema.index (turns opts) →
  turns opts !! ptr = Some t →
  ∃ b, buckets !! ptr = Some b ∧ b_turnIndex b = Schema.index t.
Proof.
  intros Hal Ht.
  assert ((Schema.index <$> turns opts) !! ptr = Some (Schema.index t)) as H
    by (by rewrite list_lookup_fmap, Ht).
  change (Schema.index <$> turns opts) with (List.map Schema.index (turns opts)) in H.
  rewrite <- Hal in H.
  change (List.map b_turnIndex buckets) with (b_turnIndex <$> buckets) in H.
  rewrite list_lookup_fmap in H.
  destruct (buckets !! ptr) as [b|]; [|done]. exists b. by simplify_eq/=.
Qed.

Lemma applyToTurn_position ptr line rec buckets :
  List.map b_turnIndex buckets = List.map Schema.index (turns opts) →
  NoDup (List.map Schema.index (turns opts)) →
  apply ptr line rec buckets = alter (applyRecord line rec) ptr buckets.
Proof.
  intros Hal Hnd. unfold applyToTurn.
  destruct (turns opts !! ptr) as [t|] eqn:Ht.
  - destruct (bucket_of_turn ptr t buckets Hal Ht) as (b & Hb & Hi).
    unfold perTurnByIndex.
    rewrite (lastWithIndex_position (Schema.index t) buckets 0 None ptr b); try done.
    by rewrite <- Hal in Hnd.
  - apply lookup_ge_None in Ht.
    assert (length buckets = length (turns opts)) as Hlen
      by (by rewrite <- (length_map b_turnIndex), Hal, length_map).
    apply list_eq. intros j. rewrite list_lookup_alter.
    case_decide; [subst j|done].
    rewrite (lookup_ge_None_2 buckets ptr) by lia. done.
Qed.

End WithRuntime.

(** In a session of two turns, a record for the second turn changes the
    second bucket. *)
Lemma applyToTurn_position_witness :
  List.map b_turnIndex (initBuckets twoTurns) = List.map Schema.index (turns twoTurns) ∧
  applyToTurn twoTurns 1 "u" (JObj [("role", JStr "User")]) (initBuckets twoTurns) =
  alter (applyRecord "u" (JObj [("role", JStr "User")])) 1%nat (initBuckets twoTurns).
Proof.
  split; [reflexivity|].
  apply (applyToTurn_position twoTurns 1 "u" (JObj [("role", JStr "User")])
           (initBuckets twoTurns)); [reflexivity|].
  apply (bool_decide_unpack _). vm_compute. exact I.
Defined.

(** A log of two user records and an answer, against a session of one turn:
    the second user record moves the pointer past the end, and the answer
    that follows is dropped. *)
Example second_user_record_is_dropped :
  let st := readLines demoParse demoDate demoOptions ["a"; "u"; "a"; "u"; "a"]
              (initState demoOptions) in
  seqTurnPtr st = 1 ∧ List.map recordCount (perTurn st) = [2] ∧ parsedLines st = 5.
Proof. by vm_compute. Qed.

End CorrelateFacts.

(* ===================================================================== *)
(** * What finalize writes                                                *)
(* ===================================================================== *)

Module SessionFacts.
Import Session SessionSpec.

(** Claim C2, on the code.  [runSession] reads no [correlateJsonl] option,
    and its finalize never runs the correlator: whenever it writes the data
    document of a session that tracked an external log, the document's
    [jsonl] entry is the hash and the samples, with no correlation, whatever
    the command line asked for. *)
Theorem finalize_writes_no_correlation (args : RunActionArguments) (now : string)
    (report : string + Thrown) (r : Runtime) (s : SessionData)
    (t : JsonlSelect.JsonlTracker) :
  finalized r = false → session r = Some s → jsonlTracker r = Some t →
  writtenCorrelations (finalize (received args) now report r).2 = [None].
Proof.
  intros Hf Hs Ht. unfold finalize. rewrite Hf, Hs, Ht. simpl.
  unfold writtenCorrelations, when.
  rewrite !omap_app.
  repeat (match goal with |- context [if ?b then _ else _] => destruct b end; simpl);
    destruct report; simpl; unfold when;
    repeat (match goal with |- context [if ?b then _ else _] => destruct b end; simpl);
    done.
Qed.

(** With [--correlate-jsonl] and a selected log, the written document has no
    correlation. *)
Lemma finalize_writes_no_correlation_witness :
  a_correlateJsonl correlateRequested = true ∧
  JsonlSelect.activePath logSelected = Some "/tmp/log.jsonl" ∧
  writtenCorrelations
    (finalize (received correlateRequested) "2026-01-01T00:00:10.000Z"
       (inl "<html></html>") atExit).2 = [None].
Proof.
  split; [reflexivity|]. split; [reflexivity|].
  apply (finalize_writes_no_correlation correlateRequested "2026-01-01T00:00:10.000Z"
           (inl "<html></html>") atExit
           (mkSessionData None None [Schema.mkTurnEvent 1 900 Schema.enter] [] [] [])
           logSelected); reflexivity.
Defined.

(** Finalize runs once: a second call does nothing. *)
Lemma finalize_idempotent opts now report now' report' r :
  let r1 := (finalize opts now report r).1 in
  finalize opts now' report' r1 = (r1, []).
Proof.
  intros r1.
  assert (finalized r1 = true) as Hdone.
  { subst r1. unfold finalize. destruct (finalized r) eqn:Hf; [done|].
    by destruct (session r). }
  unfold finalize. by rewrite Hdone.
Qed.

End SessionFacts.

Module TrackerSessionFacts.
Import Schema Tracker TrackerSpec TrackerFacts TrackerSession.

(** ** Reachable worlds *)

Lemma sound_obs now n : Obs sound now n.
Proof.
  intros it h (H1 & H2 & H3). unfold sound, noteOutput.
  destruct (firstOutputAtMs it) eqn:Hf; simpl; rewrite ?Hf; split_and!; try done.
Qed.

Lemma sound_new t0 : New sound 1 t0.
Proof. intros i k extra h Hi. split_and!; simpl; [lia|done|done]. Qed.

Lemma sound_id it r : sound it → 1 ≤ id (toInteraction it r).
Proof. by intros (? & _). Qed.

Lemma Good_init : Good init.
Proof.
  split; [apply WF_init|apply Once_init|intros k Hk; simpl in Hk; lia|].
  split_and!; simpl; [done|intros ?? H; by rewrite lookup_empty in H|set_solver].
Qed.

Lemma Good_timers q w :
  (∀ t, t ∈ q → t ∈ timers w) → Good w → Good (set_timers q w).
Proof.
  intros Hq [H1 H2 H3 H4]. split.
  - destruct H1 as [A1 A2 A3 A4 A5 A6 A7]. split; simpl; eauto.
  - by apply Once_fewer_timers.
  - revert H3. by apply Started_frame.
  - revert H4. by apply Obj_frame.
Qed.

Lemma Good_clock v w : Good w → Good (set_clock v w).
Proof.
  intros [H1 H2 H3 H4]. split.
  - by apply WF_set_clock.
  - revert H2. by apply Once_frame.
  - revert H3. by apply Started_frame.
  - revert H4. by apply Obj_frame.
Qed.

Lemma active_heap w r : WF w → active w r → ∃ it, heap w !! r = Some it ∧ ai_id it = r.
Proof.
  intros Hwf [Hr|Hr];
    [destruct (wf_keystroke _ Hwf _ Hr) as (it & Hit & _)
    |destruct (wf_turn _ Hwf _ Hr) as (it & Hit & _)];
    exists it; split; try done; by destruct (wf_heap_id _ Hwf _ _ Hit).
Qed.

Lemma sound_finalize r reason w :
  Obj sound (λ i, 1 ≤ id i) 1 w → Obj sound (λ i, 1 ≤ id i) 1 (finalize r reason w).
Proof.
  intros (Hlo & Hh & He). unfold finalize.
  destruct (heap w !! r) as [it|] eqn:Hit; [|done].
  split_and!; simpl; try done.
  intros i. rewrite interactionsOf_snoc, elem_of_app, list_elem_of_singleton.
  intros [Hi| ->]; [by eauto|]. apply sound_id. eauto.
Qed.

Lemma Good_finalize r reason w : active w r → Good w → Good (finalize r reason w).
Proof.
  intros Hr [H1 H2 H3 H4]. split.
  - by apply WF_finalize.
  - apply Once_finalize; try done. by apply slot_not_emitted.
  - by apply Started_finalize.
  - by apply sound_finalize.
Qed.

Lemma Good_addInput r n w : Good w → Good (addInput r n w).
Proof.
  intros [H1 H2 H3 H4]. split.
  - by apply WF_addInput.
  - by apply Once_addInput.
  - by apply Started_addInput.
  - apply Obj_addInput; try done.
Qed.

Section Reachable.
Context (opts : InteractionTrackerOptions).

Lemma Good_observeOutput r now n w :
  active w r → Good w → Good (observeOutput opts r now n w).
Proof.
  intros Hr [H1 H2 H3 H4]. split.
  - by apply WF_observeOutput.
  - apply Once_observeOutput; try done. by apply slot_not_emitted.
  - by apply Started_observeOutput.
  - apply Obj_observeOutput; try done. apply sound_obs.
Qed.

Lemma Good_step w e : Good w → Good (step opts w e).
Proof.
  intros [H1 H2 H3 H4]. split.
  - by apply WF_step.
  - by apply Once_step.
  - by apply Started_step.
  - apply Obj_step; try done.
    + intros it r _. apply sound_id.
    + intros it _. apply sound_id.
    + destruct e; simpl; auto using sound_new, sound_obs.
Qed.

Lemma Good_run evs : Good (run opts evs).
Proof. unfold run. apply fold_step_ind; [apply Good_step|apply Good_init]. Qed.

(** A pending timer belongs to an interaction that is still in its slot. *)
Lemma timer_active w t :
  Good w → t ∈ timers w →
  ∃ it, active w (timer_ref (action t)) ∧
        heap w !! timer_ref (action t) = Some it ∧ owned t it ∧ sound it.
Proof.
  intros [H1 H2 H3 H4] Ht.
  destruct (on_owner _ H2 _ Ht) as (it & Hit & Hown).
  destruct H4 as (_ & Hs & _). pose proof (Hs _ _ Hit) as Hsound.
  destruct (wf_heap_id _ H1 _ _ Hit) as [Hid Hlt].
  exists it. split_and!; try done.
  destruct (H3 (timer_ref (action t))) as [Ha|(i & Hi & Hid')]; [|done|].
  - destruct Hsound as (? & _). lia.
  - exfalso. by apply (on_dead _ H2 t i).
Qed.

(** What a pending timer does when it fires. *)
Lemma fire_cases w t :
  Good w → t ∈ timers w →
  let w0 := set_timers (remove_handle (handle t) (timers w)) w in
  fire (action t) w0 = w0 ∨
  ∃ it reason, active w0 (timer_ref (action t)) ∧
    heap w0 !! timer_ref (action t) = Some it ∧ by_timer reason it ∧
    fire (action t) w0 = finalize (timer_ref (action t)) reason w0.
Proof.
  intros Hg Ht w0.
  destruct (timer_active w t Hg Ht) as (it & Ha & Hit & Hown & Hs).
  unfold owned in Hown. destruct (action t) as [r|r] eqn:Hact; simpl in *.
  - change (heap w0) with (heap w). rewrite Hit.
    destruct (firstOutputAtMs it) eqn:Hf; [by left|].
    right. exists it, timeout. split_and!; try done. left. done.
  - right. exists it, burstIdle. split_and!; try done. right. split; [done|].
    destruct Hs as (_ & Hidle & _). apply Hidle. by rewrite Hown.
Qed.

(** Induction on the timers that fire while time passes. *)
Lemma advance_ind (P : World → Prop) :
  (∀ w q, Good w → P w → (∀ t, t ∈ q → t ∈ timers w) → P (set_timers q w)) →
  (∀ w v, Good w → P w → P (set_clock v w)) →
  (∀ w r it reason, Good w → P w → active w r → heap w !! r = Some it →
     by_timer reason it → P (finalize r reason w)) →
  ∀ d w, Good w → P w → P (advance d w).
Proof.
  intros Htimers Hclock Hfin d w Hg Hp. unfold advance.
  set (w1 := set_clock _ w).
  assert (Good w1) as Hg1 by (by apply Good_clock).
  assert (P w1) as Hp1 by (by apply Hclock).
  set (batch := List.filter _ _).
  assert (∀ t, t ∈ batch → t ∈ timers w1) as Hbatch.
  { intros t Ht. apply list_elem_of_In, filter_In in Ht as [Ht _].
    by apply list_elem_of_In. }
  cut (∀ l w', (∀ t, t ∈ l → t ∈ timers w1) → (∀ x, x ∈ timers w' → x ∈ timers w1) →
               Good w' → P w' → P (fold_left runTimer l w')).
  { intros H. by apply H. }
  clear Hbatch. induction l as [|t l IH]; intros w' Hl Hsub Hg' Hp'; simpl; [done|].
  assert (Good (runTimer w' t) ∧ P (runTimer w' t) ∧
          ∀ x, x ∈ timers (runTimer w' t) → x ∈ timers w1) as (Hg2 & Hp2 & Hsub2).
  { unfold runTimer. destruct (pending (handle t) (timers w')) eqn:Hpend; [|done].
    apply pending_true in Hpend as (t' & Ht' & Hh).
    assert (t' = t) as ->.
    { apply (on_uniq _ (good_once _ Hg1)); [by apply Hsub|apply Hl; set_solver|done]. }
    set (w0 := set_timers _ w').
    assert (∀ x, x ∈ timers w0 → x ∈ timers w') as Hsub0
      by (intros x Hx; by apply elem_of_remove_handle in Hx as []).
    assert (Good w0) as Hg0 by (by apply Good_timers).
    assert (P w0) as Hp0 by (by apply Htimers).
    pose proof (fire_cases w' t Hg' Ht') as Hc. cbv zeta in Hc. fold w0 in Hc.
    destruct Hc as [->|(it & reason & Ha & Hit & Hby & ->)].
    - split_and!; [done|done|]. intros x Hx. auto.
    - split_and!; [by apply Good_finalize|by apply (Hfin w0 _ it)|].
      intros x. unfold finalize. rewrite Hit. simpl.
      rewrite !elem_of_clear_opt. intros [[Hx _] _]. auto. }
  apply IH; try done. intros x Hx. apply Hl. set_solver.
Qed.

Lemma output_ind (P : World → Prop) n now w :
  (∀ w r, Good w → P w → active w r → P (observeOutput opts r now n w)) →
  Good w → P w → P (handleOutput opts n now w).
Proof.
  intros Hobs Hg Hp. unfold handleOutput.
  set (w1 := match activeKeystroke w with Some k => _ | None => _ end).
  assert (Good w1 ∧ P w1) as [Hg1 Hp1].
  { subst w1. destruct (activeKeystroke w) as [k|] eqn:HK; [|done].
    split; [apply Good_observeOutput|apply Hobs]; try done; by left. }
  destruct (activeTurn w1) as [t|] eqn:HT; [|done].
  apply Hobs; try done. by right.
Qed.

Lemma endSession_slots w :
  activeKeystroke (endSession w) = None ∧ activeTurn (endSession w) = None.
Proof. done. Qed.

Lemma endSession_ind (P : World → Prop) w :
  (∀ w r it, Good w → P w → active w r → heap w !! r = Some it →
     P (finalize r sessionEnd w)) →
  (∀ w w', P w → nextId w' = nextId w → Tracker.turnIndex w' = Tracker.turnIndex w →
     heap w' = heap w → timers w' = timers w → clock w' = clock w →
     emitted w' = emitted w → activeKeystroke w = None → activeTurn w = None →
     activeKeystroke w' = None → activeTurn w' = None → P w') →
  Good w → P w → P (endSession w).
Proof.
  intros Hfin Hsame Hg Hp. unfold endSession.
  set (w1 := match activeKeystroke w with Some k => _ | None => _ end).
  assert (Good w1 ∧ P w1 ∧ activeKeystroke w1 = None) as (Hg1 & Hp1 & HK1).
  { subst w1. destruct (activeKeystroke w) as [k|] eqn:HK; [|done].
    assert (active w k) as Ha by (by left).
    destruct (active_heap w k (good_wf _ Hg) Ha) as (it & Hit & _).
    split_and!; [by apply Good_finalize|by apply (Hfin w k it)|].
    destruct (finalize_slot k sessionEnd w (good_wf _ Hg) Ha) as [-> _].
    rewrite HK. unfold clearIf. by case_decide. }
  set (w2 := match activeTurn w1 with Some t => _ | None => _ end).
  assert (P w2 ∧ activeKeystroke w2 = None ∧ activeTurn w2 = None) as (Hp2 & HK2 & HT2).
  { subst w2. destruct (activeTurn w1) as [t|] eqn:HT; [|done].
    assert (active w1 t) as Ha by (by right).
    destruct (active_heap w1 t (good_wf _ Hg1) Ha) as (it & Hit & _).
    destruct (finalize_slot t sessionEnd w1 (good_wf _ Hg1) Ha) as [E1 E2].
    split_and!; [by apply (Hfin w1 t it)|..].
    - rewrite E1, HK1. unfold clearIf. by case_decide.
    - rewrite E2, HT. unfold clearIf. by case_decide. }
  by apply (Hsame w2).
Qed.

(** The keystroke interaction that an input chunk is counted in. *)
Lemma input_key now w :
  Good w →
  let p := match activeKeystroke w with
           | Some k => (k, w)
           | None =>
               let '(i, w') := startInteraction opts keystroke now None w in
               (i, set_activeKeystroke (Some i) w')
           end in
  Good p.2 ∧ activeKeystroke p.2 = Some p.1.
Proof.
  intros Hg. cbv zeta. destruct (activeKeystroke w) as [k|] eqn:HK; [done|].
  destruct Hg as [H1 H2 H3 H4].
  pose proof (Once_startInteraction opts keystroke now None w H1 H2) as Ho.
  pose proof (Started_start opts keystroke now None w H3) as Hs.
  pose proof (Obj_startInteraction sound (λ i, 1 ≤ id i) 1 opts keystroke now None w
                (sound_new now) H4) as Hh.
  destruct (startInteraction opts keystroke now None w) as [i w'] eqn:Hst.
  destruct (WF_startInteraction _ _ _ _ _ _ _ Hst H1) as (Hw' & Hi & Hn & Hit & He & _ & _).
  split; [|done]. split.
  - apply WF_set_keystroke; [done..|].
    intros j Hj. rewrite He in Hj. destruct (wf_emitted _ H1 _ Hj). lia.
  - revert Ho. by apply Once_frame.
  - by apply Hs.
  - revert Hh. by apply Obj_frame.
Qed.

Lemma Good_beginTurn src now w : Good w → Good (beginTurn opts src now w).
Proof.
  intros [H1 H2 H3 H4]. split.
  - by apply WF_beginTurn.
  - by apply Once_beginTurn.
  - by apply Started_beginTurn.
  - apply Obj_beginTurn; try done.
    + intros it r _. apply sound_id.
    + intros it _. apply sound_id.
Qed.

Lemma beginTurn_slot src now w : is_Some (activeTurn (beginTurn opts src now w)).
Proof.
  unfold beginTurn. destruct (startInteraction _ _ _ _ _) as [i w4]. by eexists.
Qed.

Lemma input_ind (P : World → Prop) data n now w :
  (∀ w, Good w → P w → activeKeystroke w = None →
     P (set_activeKeystroke (Some (startInteraction opts keystroke now None w).1)
          (startInteraction opts keystroke now None w).2)) →
  (∀ w r, Good w → P w → active w r → P (addInput r n w)) →
  (∀ w, Good w → P w → P (beginTurn opts enter now w)) →
  Good w → P w → P (handleInput opts data n now w).
Proof.
  intros Hkey Hadd Hbegin Hg Hp. unfold handleInput.
  pose proof (input_key now w Hg) as Hk. cbv zeta in Hk.
  set (p := match activeKeystroke w with Some k => _ | None => _ end) in *.
  assert (P p.2) as Hp1.
  { subst p. destruct (activeKeystroke w) eqn:HK; [done|].
    specialize (Hkey w Hg Hp HK).
    by destruct (startInteraction opts keystroke now None w). }
  destruct p as [k w1]. destruct Hk as [Hg1 HK1].
  change ((k, w1).2) with w1 in *. change ((k, w1).1) with k in *.
  assert (Good (addInput k n w1) ∧ P (addInput k n w1)) as [Hg2 Hp2].
  { split; [by apply Good_addInput|apply Hadd; try done; by left]. }
  destruct (mode_eqb _ _ && _).
  - assert (Good (beginTurn opts enter now (addInput k n w1))) as Hg3
      by (by apply Good_beginTurn).
    destruct (activeTurn (beginTurn opts enter now (addInput k n w1))) as [t|] eqn:HT.
    + apply Hadd; [done|by apply Hbegin|by right].
    + by apply Hbegin.
  - destruct (activeTurn (addInput k n w1)) as [t|] eqn:HT; [|done].
    apply Hadd; try done. by right.
Qed.

(** The same with the keystroke slot's share of the chunk told apart: [P]
    holds until the chunk is counted for the keystroke interaction, [Q]
    from then on. *)
Lemma input_ind2 (P Q : World → Prop) data n now w :
  (∀ w, Good w → P w → activeKeystroke w = None →
     P (set_activeKeystroke (Some (startInteraction opts keystroke now None w).1)
          (startInteraction opts keystroke now None w).2)) →
  (∀ w r, Good w → P w → activeKeystroke w = Some r → Q (addInput r n w)) →
  (∀ w, Good w → Q w → Q (beginTurn opts enter now w)) →
  (∀ w r, Good w → Q w → activeTurn w = Some r → Q (addInput r n w)) →
  Good w → P w → Q (handleInput opts data n now w).
Proof.
  intros Hkey Hadd Hbegin Hturn Hg Hp. unfold handleInput.
  pose proof (input_key now w Hg) as Hk. cbv zeta in Hk.
  set (p := match activeKeystroke w with Some k => _ | None => _ end) in *.
  assert (P p.2) as Hp1.
  { subst p. destruct (activeKeystroke w) eqn:HK; [done|].
    specialize (Hkey w Hg Hp HK).
    by destruct (startInteraction opts keystroke now None w). }
  destruct p as [k w1]. destruct Hk as [Hg1 HK1].
  change ((k, w1).2) with w1 in *. change ((k, w1).1) with k in *.
  assert (Good (addInput k n w1) ∧ Q (addInput k n w1)) as [Hg2 Hp2].
  { split; [by apply Good_addInput|by apply Hadd]. }
  destruct (mode_eqb _ _ && _).
  - assert (Good (beginTurn opts enter now (addInput k n w1))) as Hg3
      by (by apply Good_beginTurn).
    destruct (activeTurn (beginTurn opts enter now (addInput k n w1))) as [t|] eqn:HT.
    + apply Hturn; [done|by apply Hbegin|done].
    + by apply Hbegin.
  - destruct (activeTurn (addInput k n w1)) as [t|] eqn:HT; [|done].
    by apply Hturn.
Qed.

End Reachable.

(** ** The first output and the no-output timer *)

Section FirstOutputInTime.
Context (opts : InteractionTrackerOptions).
Context (k D : Z).

Lemma NotYet_frame c w w' :
  (∀ t, t ∈ timers w' → t ∈ timers w) →
  interactionsOf (emitted w') = interactionsOf (emitted w) →
  clock w' = clock w →
  NotYet k D c w → NotYet k D c w'.
Proof.
  intros Ht He Hc [H1 H2 H3]. split.
  - rewrite He. done.
  - intros t Hin. apply H2. by apply Ht.
  - by rewrite Hc.
Qed.

Lemma NotYet_finalize c r reason w :
  (reason = timeout → ∀ it, heap w !! r = Some it → ai_id it ≠ k) →
  NotYet k D c w → NotYet k D c (finalize r reason w).
Proof.
  intros Hr [H1 H2 H3]. unfold finalize.
  destruct (heap w !! r) as [it|] eqn:Hit; [|done].
  split; simpl.
  - intros i. rewrite interactionsOf_snoc, elem_of_app.
    intros [Hi|Hi%list_elem_of_singleton]; [by apply H1|].
    subst i. simpl. intros Hid Hreason. by apply (Hr Hreason it).
  - intros t. rewrite !elem_of_clear_opt. intros [[Ht _] _]. by apply H2.
  - done.
Qed.

Lemma NotYet_start c kd t0 extra w :
  D ≤ c + timerDelay (interactionTimeoutMs opts) →
  NotYet k D c w → NotYet k D c (startInteraction opts kd t0 extra w).2.
Proof.
  intros HD [H1 H2 H3]. unfold startInteraction. simpl. split; simpl; [done| |done].
  intros t [->|Ht]%elem_of_insert_timer; [simpl; intros _; lia|by apply H2].
Qed.

Lemma NotYet_addInput c r n w : NotYet k D c w → NotYet k D c (addInput r n w).
Proof. unfold addInput. destruct (heap w !! r); [|done]. by apply NotYet_frame. Qed.

Lemma NotYet_observeOutput c r now n w :
  NotYet k D c w → NotYet k D c (observeOutput opts r now n w).
Proof.
  intros [H1 H2 H3]. unfold observeOutput.
  destruct (heap w !! r) as [it|]; [|done].
  split; simpl.
  - by destruct (firstOutputAtMs it).
  - intros t [->|Ht]%elem_of_insert_timer; [done|].
    apply elem_of_clear_opt in Ht as [Ht _].
    destruct (firstOutputAtMs it); [|apply elem_of_clear_opt in Ht as [Ht _]];
      by apply H2.
  - by destruct (firstOutputAtMs it).
Qed.

Lemma NotYet_beginTurn c src now w :
  D ≤ c + timerDelay (interactionTimeoutMs opts) →
  NotYet k D c w → NotYet k D c (beginTurn opts src now w).
Proof.
  intros HD Hw. unfold beginTurn.
  set (w2 := emit _ _).
  assert (NotYet k D c w2) as Hw2.
  { revert Hw. apply NotYet_frame; simpl; [done| |done].
    by rewrite interactionsOf_snoc, app_nil_r. }
  set (w3 := match activeTurn w2 with Some t => _ | None => _ end).
  assert (NotYet k D c w3) as Hw3.
  { subst w3. destruct (activeTurn w2) as [t|]; [|done].
    apply (NotYet_frame c (finalize t overlap w2)); [done..|].
    by apply NotYet_finalize. }
  pose proof (NotYet_start c turn now (Some (Tracker.turnIndex w3)) w3 HD Hw3) as Hs.
  destruct (startInteraction _ _ _ _ _) as [i w4]. simpl in Hs.
  revert Hs. by apply NotYet_frame.
Qed.

(** No timer of [k] is among those that fire before [D]. *)
Lemma NotYet_advance c d w :
  WF w → NotYet k D c w → c + Z.of_nat d < D →
  NotYet k D (c + Z.of_nat d) (advance d w).
Proof.
  intros Hwf Hw Hd. unfold advance.
  set (w1 := set_clock _ w). set (batch := List.filter _ _).
  assert (∀ t, t ∈ batch → action t ≠ NoOutputFire k) as Hb.
  { intros t Ht Ha. apply list_elem_of_In, filter_In in Ht as [Ht Hdue].
    apply list_elem_of_In in Ht. apply Z.leb_le in Hdue. simpl in Ht, Hdue.
    pose proof (ny_timers _ _ _ _ Hw t Ht Ha). rewrite (ny_clock _ _ _ _ Hw) in Hdue. lia. }
  assert (WF w1) as Hwf1 by (by apply WF_set_clock).
  assert (NotYet k D (c + Z.of_nat d) w1) as Hw1.
  { destruct Hw as [H1 H2 H3]. split; simpl; [done|done|by rewrite H3]. }
  clearbody batch w1. clear Hw Hwf.
  revert w1 Hwf1 Hw1. induction batch as [|t l IH]; intros w1 Hwf1 Hw1; simpl; [done|].
  apply IH; [intros x Hx; apply Hb; set_solver|by apply WF_runTimer|].
  unfold runTimer. destruct (pending (handle t) (timers w1)); [|done].
  set (w0 := set_timers _ w1).
  assert (WF w0) as Hwf0 by (by apply WF_remove_timer).
  assert (NotYet k D (c + Z.of_nat d) w0) as Hw0.
  { revert Hw1. apply NotYet_frame; [|done|done].
    intros x Hx. by apply elem_of_remove_handle in Hx as []. }
  assert (action t ≠ NoOutputFire k) as Hne by (apply Hb; set_solver).
  destruct (action t) as [r|r]; cbn [fire].
  - destruct (heap w0 !! r) as [it|] eqn:Hit; [|done].
    destruct (firstOutputAtMs it); [done|].
    apply NotYet_finalize; [|done].
    intros _ it' Hit'. destruct (wf_heap_id _ Hwf0 _ _ Hit') as [-> _]. congruence.
  - by apply NotYet_finalize.
Qed.

Lemma NotYet_step c w e :
  Good w → D ≤ c + timerDelay (interactionTimeoutMs opts) →
  NotYet k D c w → c + elapsed [e] < D →
  NotYet k D (c + elapsed [e]) (step opts w e).
Proof.
  intros Hg HD Hw Hd. destruct e as [data n t|n t|src t| |d]; simpl in *;
    rewrite ?Z.add_0_r in *.
  - apply input_ind; try done.
    + intros w' _ Hw' _.
      pose proof (NotYet_start c keystroke t None w' HD Hw') as Hs.
      revert Hs. by apply NotYet_frame.
    + intros w' r _ Hw' _. by apply NotYet_addInput.
    + intros w' _ Hw'. by apply NotYet_beginTurn.
  - apply output_ind; try done.
    intros w' r _ Hw' _. by apply NotYet_observeOutput.
  - by apply NotYet_beginTurn.
  - apply endSession_ind; try done.
    + intros w' r it _ Hw' _ _. by apply NotYet_finalize.
    + intros w' w'' Hw' _ _ _ Ht Hc He _ _ _ _. revert Hw'.
      apply NotYet_frame; [by rewrite Ht|by rewrite He|done].
  - apply NotYet_advance; [apply Hg|done|done].
Qed.

Lemma elapsed_nonneg evs : 0 ≤ elapsed evs.
Proof. induction evs as [|e evs IH]; simpl; [done|]. destruct e; lia. Qed.

Lemma elapsed_cons e evs : elapsed (e :: evs) = elapsed [e] + elapsed evs.
Proof. simpl. destruct e; lia. Qed.

(** While less time passes than the timer takes, no record says that [k]
    timed out. *)
Lemma early_segment evs : ∀ c w,
  Good w → D ≤ c + timerDelay (interactionTimeoutMs opts) →
  NotYet k D c w → c + elapsed evs < D →
  NotYet k D (c + elapsed evs) (fold_left (step opts) evs w).
Proof.
  induction evs as [|e evs IH]; intros c w Hg HD Hw Hd.
  { simpl. by rewrite Z.add_0_r. }
  rewrite elapsed_cons in *. pose proof (elapsed_nonneg evs). pose proof (elapsed_nonneg [e]).
  rewrite Z.add_assoc. simpl fold_left.
  apply IH; [by apply Good_step|lia| |lia].
  apply NotYet_step; [done|done|done|lia].
Qed.

End FirstOutputInTime.

Section StaleTimerSafety.
Context (opts : InteractionTrackerOptions).


End StaleTimerSafety.



(** ** The end of the session *)

Section SessionEnd.
Context (opts : InteractionTrackerOptions).

Lemma idle_no_timers w :
  Good w → activeKeystroke w = None → activeTurn w = None → timers w = [].
Proof.
  intros Hg HK HT. destruct (timers w) as [|t q] eqn:Hq; [done|]. exfalso.
  destruct (timer_active w t Hg) as (it & [Ha|Ha] & _); [rewrite Hq; by left|congruence..].
Qed.

Lemma passive_step w e :
  passive e = true → timers w = [] →
  activeKeystroke w = None → activeTurn w = None →
  emitted (step opts w e) = emitted w ∧ timers (step opts w e) = [] ∧
  activeKeystroke (step opts w e) = None ∧ activeTurn (step opts w e) = None.
Proof.
  intros He Hq HK HT. destruct e as [| n t | | | d]; try done; simpl.
  - unfold handleOutput. rewrite HK, HT. done.
  - unfold advance. simpl. rewrite Hq. done.
Qed.

Lemma passive_run later : ∀ w,
  forallb passive later = true → timers w = [] →
  activeKeystroke w = None → activeTurn w = None →
  emitted (fold_left (step opts) later w) = emitted w.
Proof.
  induction later as [|e later IH]; intros w Hp Hq HK HT; [done|].
  simpl in Hp. apply andb_true_iff in Hp as [He Hp]. simpl.
  destruct (passive_step w e He Hq HK HT) as (E & Hq' & HK' & HT').
  rewrite IH; done.
Qed.

(** After [endSession()] nothing is left of the session: both slots are
    empty and no timer is pending, so that neither time passing nor more
    output makes the tracker call back. *)
Theorem session_end_is_final evs later :
  forallb passive later = true →
  timers (run opts (evs ++ [EndSession])) = [] ∧
  activeKeystroke (run opts (evs ++ [EndSession])) = None ∧
  activeTurn (run opts (evs ++ [EndSession])) = None ∧
  emitted (run opts (evs ++ EndSession :: later)) =
  emitted (run opts (evs ++ [EndSession])).
Proof.
  intros Hp.
  assert (activeKeystroke (run opts (evs ++ [EndSession])) = None ∧
          activeTurn (run opts (evs ++ [EndSession])) = None) as [HK HT]
    by (rewrite run_snoc; apply endSession_slots).
  assert (timers (run opts (evs ++ [EndSession])) = []) as Hq
    by (apply idle_no_timers; [apply Good_run|done..]).
  split_and!; try done.
  replace (evs ++ EndSession :: later) with ((evs ++ [EndSession]) ++ later)
    by (by rewrite <- app_assoc).
  rewrite run_app. by apply passive_run.
Qed.

(** By the end of the session every interaction that was started has been
    reported, and reported once: the ids of the records are the numbers from
    1 to the last id given out, each exactly once. *)
Theorem interactions_reported_once evs :
  List.map id (interactionsOf (emitted (run opts (evs ++ [EndSession])))) ≡ₚ
  List.map Z.of_nat
    (seq 1 (Z.to_nat (nextId (run opts (evs ++ [EndSession])) - 1))).
Proof.
  set (w := run opts (evs ++ [EndSession])).
  pose proof (Good_run opts (evs ++ [EndSession])) as Hg. fold w in Hg.
  assert (activeKeystroke w = None ∧ activeTurn w = None) as [HK HT]
    by (subst w; rewrite run_snoc; apply endSession_slots).
  apply NoDup_Permutation.
  - apply (on_nodup _ (good_once _ Hg)).
  - apply (NoDup_fmap_2 Z.of_nat), NoDup_seq.
  - intros k. split.
    + intros Hk. apply list_elem_of_fmap in Hk as (i & -> & Hi).
      destruct (good_heap _ Hg) as (_ & _ & Hid). specialize (Hid i Hi). simpl in Hid.
      destruct (wf_emitted _ (good_wf _ Hg) i Hi) as (Hlt & _).
      apply list_elem_of_fmap. exists (Z.to_nat (id i)). split; [lia|].
      apply elem_of_seq. lia.
    + intros Hk. apply list_elem_of_fmap in Hk as (n & -> & Hn).
      apply elem_of_seq in Hn.
      destruct (good_started _ Hg (Z.of_nat n)) as [[Ha|Ha]|(i & Hi & Hid)];
        [lia|congruence..|].
      apply list_elem_of_fmap. by exists i.
Qed.

End SessionEnd.


(** ** The turn log *)

Section TurnLog.
Context (opts : InteractionTrackerOptions).

Lemma turnState_finalize r reason w : turnState (finalize r reason w) = turnState w.
Proof.
  unfold turnState, finalize. destruct (heap w !! r); [|done]. simpl.
  by rewrite turnsOf_snoc, app_nil_r.
Qed.

Lemma turnState_addInput r n w : turnState (addInput r n w) = turnState w.
Proof. unfold turnState, addInput. by destruct (heap w !! r). Qed.

Lemma turnState_observeOutput r now n w :
  turnState (observeOutput opts r now n w) = turnState w.
Proof.
  unfold turnState, observeOutput. destruct (heap w !! r) as [it|]; [|done].
  simpl. by destruct (firstOutputAtMs it).
Qed.

Lemma turnState_fire a w : turnState (fire a w) = turnState w.
Proof.
  destruct a as [r|r]; simpl; [|apply turnState_finalize].
  repeat case_match; try done. apply turnState_finalize.
Qed.

Lemma turnState_advance d w : turnState (advance d w) = turnState w.
Proof.
  unfold advance.
  apply (fold_runTimer_ind (λ w', turnState w' = turnState w)); [|done].
  intros w' t Hw'. unfold runTimer. case_match; [|done].
  by rewrite turnState_fire.
Qed.

Lemma turnState_beginTurn src now w :
  turnState (beginTurn opts src now w) =
  (turnsOf (emitted w) ++ [mkTurnEvent (Tracker.turnIndex w + 1) now src],
   Tracker.turnIndex w + 1).
Proof.
  unfold beginTurn.
  set (w2 := emit _ _).
  assert (turnState w2 =
          (turnsOf (emitted w) ++ [mkTurnEvent (Tracker.turnIndex w + 1) now src],
           Tracker.turnIndex w + 1)) as H2
    by (unfold turnState; simpl; by rewrite turnsOf_snoc).
  set (w3 := match activeTurn w2 with Some t => _ | None => _ end).
  assert (turnState w3 = turnState w2) as H3.
  { subst w3. destruct (activeTurn w2); [|done].
    by rewrite <- (turnState_finalize z overlap w2). }
  rewrite <- H2, <- H3. unfold startInteraction. done.
Qed.

Lemma turnState_step w e :
  turnState (step opts w e) =
  match trigger opts e with
  | Some (now, src) =>
      (turnsOf (emitted w) ++ [mkTurnEvent (Tracker.turnIndex w + 1) now src],
       Tracker.turnIndex w + 1)
  | None => turnState w
  end.
Proof.
  destruct e as [data n now|n now|src now| |d]; simpl.
  - unfold handleInput.
    set (p := match activeKeystroke w with Some k => _ | None => _ end).
    assert (turnState p.2 = turnState w) as Hp
      by (subst p; by destruct (activeKeystroke w)).
    destruct p as [k w1]. simpl in Hp.
    assert (turnState (addInput k n w1) = turnState w) as Hp2
      by (by rewrite turnState_addInput).
    destruct (mode_eqb _ _ && _).
    + assert (turnState (beginTurn opts enter now (addInput k n w1)) =
              (turnsOf (emitted w) ++ [mkTurnEvent (Tracker.turnIndex w + 1) now enter],
               Tracker.turnIndex w + 1)) as Hb.
      { rewrite turnState_beginTurn. by injection Hp2 as -> ->. }
      case_match; by rewrite ?turnState_addInput.
    + case_match; by rewrite ?turnState_addInput.
  - unfold handleOutput. repeat case_match; by rewrite ?turnState_observeOutput.
  - apply turnState_beginTurn.
  - unfold endSession.
    set (w1 := match activeKeystroke w with Some k => _ | None => _ end).
    assert (turnState w1 = turnState w) as H1
      by (subst w1; destruct (activeKeystroke w); [apply turnState_finalize|done]).
    set (w2 := match activeTurn w1 with Some t => _ | None => _ end).
    assert (turnState w2 = turnState w1) as H2
      by (subst w2; destruct (activeTurn w1); [apply turnState_finalize|done]).
    by rewrite <- H1, <- H2.
  - apply turnState_advance.
Qed.

(** The turn events of a run are its triggers, in order and numbered from
    1: one for each input chunk that holds a line terminator (when turns
    are detected on Enter) and one for each marked turn, with the time and
    the source of the trigger; and [getCurrentTurnIndex()] is their
    number. *)
Theorem turn_log evs :
  turnsOf (emitted (run opts evs)) = numbered 1 (omap (trigger opts) evs) ∧
  getCurrentTurnIndex (run opts evs) = Z.of_nat (length (omap (trigger opts) evs)).
Proof.
  cut (turnState (run opts evs) =
       (numbered 1 (omap (trigger opts) evs),
        Z.of_nat (length (omap (trigger opts) evs)))).
  { unfold turnState, getCurrentTurnIndex. by intros [= -> ->]. }
  induction evs as [|e evs IH] using rev_ind; [done|].
  rewrite run_snoc, turnState_step, omap_app. simpl.
  injection IH as IH1 IH2. rewrite IH1, IH2.
  destruct (trigger opts e) as [[now src]|]; simpl.
  - unfold numbered. rewrite imap_app, length_app. simpl.
    repeat f_equal; lia.
  - unfold turnState. by rewrite app_nil_r, IH1, IH2.
Qed.

End TurnLog.


(** ** End reasons *)

Section EndReasons.
Context (opts : InteractionTrackerOptions).

Lemma reason_ok_record it reason :
  sound it → kinded it →
  (firstOutputAtMs it = None ↔ lastOutputAtMs it = None) →
  (reason = timeout → firstOutputAtMs it = None) →
  (reason = burstIdle → firstOutputAtMs it ≠ None) →
  (reason = overlap → ai_kind it = turn) →
  reason_ok (toInteraction it reason).
Proof.
  intros (_ & _ & Hs) Hk Hout Hto Hidle Hov. unfold reason_ok. simpl.
  split_and!; try done.
  - intros E. destruct (Hs (Hto E)) as [Hl Hb]. by rewrite (Hto E), Hl.
  - intros E. specialize (Hidle E).
    destruct (firstOutputAtMs it) eqn:Hf; [|done].
    destruct (lastOutputAtMs it) eqn:Hl; [by split; eexists|].
    destruct Hout as [_ Hout]. by specialize (Hout eq_refl).
Qed.

Lemma Reasons_frame w w' :
  heap w' = heap w → interactionsOf (emitted w') = interactionsOf (emitted w) →
  Reasons w → Reasons w'.
Proof. unfold Reasons. by intros -> ->. Qed.

Lemma Reasons_finalize r reason it w :
  Good w → Reasons w → active w r → heap w !! r = Some it →
  (reason = timeout → firstOutputAtMs it = None) →
  (reason = burstIdle → firstOutputAtMs it ≠ None) →
  (reason = overlap → ai_kind it = turn) →
  Reasons (finalize r reason w).
Proof.
  intros Hg [Hh He] Ha Hit Hto Hidle Hov. unfold finalize. rewrite Hit.
  split; simpl; [done|].
  rewrite interactionsOf_snoc. apply Forall_app. split; [done|].
  apply Forall_singleton. apply reason_ok_record; try done.
  - destruct (good_heap _ Hg) as (_ & Hs & _). eauto.
  - eauto.
  - apply (wf_heap_out _ (good_wf _ Hg) _ _ Hit).
Qed.

Lemma Reasons_insert r it' w :
  kinded it' → Reasons w → Reasons (set_heap (<[r := it']> (heap w)) w).
Proof.
  intros Hk [Hh He]. split; [|done]. simpl.
  intros k it. rewrite lookup_insert. case_decide; [|by eauto]. by intros [= <-].
Qed.

Lemma Reasons_addInput r n w : Reasons w → Reasons (addInput r n w).
Proof.
  intros Hw. unfold addInput. destruct (heap w !! r) as [it|] eqn:Hit; [|done].
  apply Reasons_insert; [|done]. destruct Hw as [Hh _]. apply (Hh _ _ Hit).
Qed.

Lemma Reasons_observeOutput r now n w :
  Reasons w → Reasons (observeOutput opts r now n w).
Proof.
  intros Hw. unfold observeOutput. destruct (heap w !! r) as [it|] eqn:Hit; [|done].
  simpl.
  assert (kinded (set_idleTimer (Some (nextHandle w)) (noteOutput now n it))) as Hk.
  { destruct Hw as [Hh _]. specialize (Hh _ _ Hit). unfold kinded, noteOutput in *.
    by destruct (firstOutputAtMs it). }
  destruct Hw as [Hh He]. split; simpl.
  - intros k it'. rewrite lookup_insert. case_decide.
    + intros [= <-]. by destruct (firstOutputAtMs it).
    + destruct (firstOutputAtMs it); simpl; eauto.
  - by destruct (firstOutputAtMs it).
Qed.

Lemma Reasons_start k t0 extra w :
  (k = turn ↔ is_Some extra) → Reasons w →
  Reasons (startInteraction opts k t0 extra w).2.
Proof.
  intros Hk [Hh He]. unfold startInteraction. simpl. split; [|done]. simpl.
  intros j it. rewrite lookup_insert. case_decide; [|by eauto]. by intros [= <-].
Qed.

Lemma Reasons_beginTurn src now w :
  Good w → Reasons w → Reasons (beginTurn opts src now w).
Proof.
  intros Hg Hw. unfold beginTurn.
  set (w2 := emit _ _).
  assert (Good w2) as Hg2.
  { destruct Hg as [H1 H2 H3 H4]. split.
    - by apply WF_emit_turn, WF_set_turnIndex.
    - revert H2. apply Once_frame; try done. simpl.
      by rewrite interactionsOf_snoc, app_nil_r.
    - revert H3. apply Started_frame; try done. simpl.
      by rewrite interactionsOf_snoc, app_nil_r.
    - destruct H4 as (?&?&He). split_and!; simpl; try done.
      intros i. rewrite interactionsOf_snoc, app_nil_r. eauto. }
  assert (Reasons w2) as Hw2.
  { revert Hw. apply Reasons_frame; [done|]. simpl.
    by rewrite interactionsOf_snoc, app_nil_r. }
  set (w3 := match activeTurn w2 with Some t => _ | None => _ end).
  assert (Reasons w3) as Hw3.
  { subst w3. destruct (activeTurn w2) as [t|] eqn:Ht; [|done].
    destruct (wf_turn _ (good_wf _ Hg2) _ Ht) as (it & Hit & Hkind).
    apply (Reasons_frame (finalize t overlap w2)); [done..|].
    apply (Reasons_finalize t overlap it); try done. by right. }
  pose proof (Reasons_start turn now (Some (Tracker.turnIndex w3)) w3) as Hs.
  destruct (startInteraction _ _ _ _ _) as [i w4]. simpl in Hs.
  apply (Reasons_frame w4); [done..|]. apply Hs; [|done].
  split; [by eexists|done].
Qed.

Lemma Reasons_step w e : Good w → Reasons w → Reasons (step opts w e).
Proof.
  intros Hg Hw. destruct e as [data n now|n now|src now| |d]; simpl.
  - apply input_ind; try done.
    + intros w' Hg' Hw' _.
      pose proof (Reasons_start keystroke now None w') as Hs.
      destruct (startInteraction _ _ _ _ _) as [i w'']. simpl in *.
      apply (Reasons_frame w''); [done..|]. apply Hs; [|done].
      split; [done|intros [? [=]]].
    + intros w' r _ Hw' _. by apply Reasons_addInput.
    + intros w' Hg' Hw'. by apply Reasons_beginTurn.
  - apply output_ind; try done.
    intros w' r _ Hw' _. by apply Reasons_observeOutput.
  - by apply Reasons_beginTurn.
  - apply endSession_ind; try done.
    + intros w' r it Hg' Hw' Ha Hit. by apply (Reasons_finalize r sessionEnd it).
    + intros w' w'' Hw' _ _ Hh _ _ He _ _ _ _. revert Hw'.
      apply Reasons_frame; [done|by rewrite He].
  - apply advance_ind; [by intros w' q _ Hw' _|by intros w' v _ Hw'| |done|done].
    intros w' r it reason Hg' Hw' Ha Hit [[-> Hf]|[-> Hf]];
      by apply (Reasons_finalize r _ it).
Qed.

(** The record of an interaction agrees with the way it ended: one that
    timed out has no latency and no output byte, one that ended on a burst
    going idle has both latencies, only a turn interaction ends by overlap,
    and a record carries a turn index exactly when it is of kind [turn]. *)
Theorem end_reasons evs :
  Forall reason_ok (interactionsOf (emitted (run opts evs))).
Proof.
  cut (Reasons (run opts evs)); [by intros [_ H]|].
  induction evs as [|e evs IH] using rev_ind.
  - split; simpl; [intros ?? H; by rewrite lookup_empty in H|constructor].
  - rewrite run_snoc. apply Reasons_step; [apply Good_run|done].
Qed.

End EndReasons.


(** ** Turn interactions and input bytes *)

Section Accounting.
Context (opts : InteractionTrackerOptions).

Lemma ofKind_snoc k l i :
  ofKind k (l ++ [i]) = ofKind k l ++ (if bool_decide (kind i = k) then [i] else []).
Proof. unfold ofKind. rewrite List.filter_app. simpl. by case_bool_decide. Qed.

Lemma slots_distinct w k t :
  WF w → activeKeystroke w = Some k → activeTurn w = Some t → k ≠ t.
Proof.
  intros Hwf HK HT ->.
  destruct (wf_keystroke _ Hwf _ HK) as (it & Hit & Hk).
  destruct (wf_turn _ Hwf _ HT) as (it' & Hit' & Hk'). congruence.
Qed.

(** What finalizing the interaction of a slot does to the slots and to the
    records. *)
Lemma finalize_active r reason it w :
  WF w → active w r → heap w !! r = Some it →
  heap (finalize r reason w) = heap w ∧
  Tracker.turnIndex (finalize r reason w) = Tracker.turnIndex w ∧
  interactionsOf (emitted (finalize r reason w)) =
    interactionsOf (emitted w) ++ [toInteraction it reason] ∧
  ((activeKeystroke w = Some r ∧ ai_kind it = keystroke ∧
    activeKeystroke (finalize r reason w) = None ∧
    activeTurn (finalize r reason w) = activeTurn w) ∨
   (activeTurn w = Some r ∧ ai_kind it = turn ∧
    activeTurn (finalize r reason w) = None ∧
    activeKeystroke (finalize r reason w) = activeKeystroke w)).
Proof.
  intros Hwf Ha Hit.
  destruct (finalize_slot r reason w Hwf Ha) as [EK ET].
  assert (∀ s, s ≠ Some r → clearIf r s = s) as Hne
    by (intros s Hs; unfold clearIf; by case_decide).
  assert (clearIf r (Some r) = None) as Heq by (unfold clearIf; by case_decide).
  split_and!.
  - unfold finalize. by rewrite Hit.
  - unfold finalize. by rewrite Hit.
  - unfold finalize. rewrite Hit. simpl. by rewrite interactionsOf_snoc.
  - rewrite EK, ET. destruct Ha as [HK|HT].
    + left. destruct (wf_keystroke _ Hwf _ HK) as (it' & Hit' & Hk).
      assert (it' = it) as -> by congruence.
      split_and!; [done|done|by rewrite HK|].
      apply Hne. intros HT. by apply (slots_distinct w r r).
    + right. destruct (wf_turn _ Hwf _ HT) as (it' & Hit' & Hk).
      assert (it' = it) as -> by congruence.
      split_and!; [done|done|by rewrite HT|].
      apply Hne. intros HK. by apply (slots_distinct w r r).
Qed.

(** *** One turn interaction for each turn *)

Lemma pendingTurn_insert w r it it' :
  heap w !! r = Some it → ai_turnIndex it' = ai_turnIndex it →
  pendingTurn (set_heap (<[r := it']> (heap w)) w) = pendingTurn w.
Proof.
  intros Hit Hidx. unfold pendingTurn. simpl.
  destruct (activeTurn w) as [t|]; [|done].
  rewrite lookup_insert. case_decide; [subst; by rewrite Hit, Hidx|done].
Qed.

Lemma turnsCovered_frame w w' :
  heap w' = heap w → activeTurn w' = activeTurn w →
  interactionsOf (emitted w') = interactionsOf (emitted w) →
  turnsCovered w' = turnsCovered w.
Proof. unfold turnsCovered, pendingTurn. by intros -> -> ->. Qed.

Lemma turnsCovered_finalize r reason it w :
  WF w → active w r → heap w !! r = Some it →
  turnsCovered (finalize r reason w) = turnsCovered w.
Proof.
  intros Hwf Ha Hit.
  destruct (finalize_active r reason it w Hwf Ha Hit) as (Hh & _ & He & Hcases).
  unfold turnsCovered, pendingTurn. rewrite He, Hh, ofKind_snoc. simpl.
  destruct Hcases as [(HK & Hk & HK' & HT')|(HT & Hk & HT' & HK')].
  - rewrite HT', Hk. rewrite bool_decide_eq_false_2 by done. by rewrite app_nil_r.
  - rewrite HT', HT, Hit, Hk. rewrite bool_decide_eq_true_2 by done.
    by rewrite map_app, app_nil_r.
Qed.

Lemma turnsCovered_addInput r n w : turnsCovered (addInput r n w) = turnsCovered w.
Proof.
  unfold addInput. destruct (heap w !! r) as [it|] eqn:Hit; [|done].
  unfold turnsCovered. by rewrite (pendingTurn_insert w r it).
Qed.

Lemma turnsCovered_observeOutput r now n w :
  turnsCovered (observeOutput opts r now n w) = turnsCovered w.
Proof.
  unfold observeOutput. destruct (heap w !! r) as [it|] eqn:Hit; [|done].
  unfold turnsCovered, pendingTurn. simpl.
  assert (emitted (match firstOutputAtMs it with
                   | Some _ => w
                   | None => clearTimeout (noOutputTimeout it) w
                   end) = emitted w) as -> by (by destruct (firstOutputAtMs it)).
  assert (activeTurn (match firstOutputAtMs it with
                      | Some _ => w
                      | None => clearTimeout (noOutputTimeout it) w
                      end) = activeTurn w) as -> by (by destruct (firstOutputAtMs it)).
  assert (heap (match firstOutputAtMs it with
                | Some _ => w
                | None => clearTimeout (noOutputTimeout it) w
                end) = heap w) as -> by (by destruct (firstOutputAtMs it)).
  destruct (activeTurn w) as [t|]; [|done].
  rewrite lookup_insert. case_decide; [|done]. subst. rewrite Hit.
  unfold noteOutput. by destruct (firstOutputAtMs it).
Qed.

Lemma Covered_frame w w' :
  heap w' = heap w → activeTurn w' = activeTurn w →
  Tracker.turnIndex w' = Tracker.turnIndex w →
  interactionsOf (emitted w') = interactionsOf (emitted w) →
  Covered w → Covered w'.
Proof.
  intros Hh HT Hi He [H0 Hc]. unfold Covered.
  by rewrite Hi, (turnsCovered_frame w w').
Qed.

Lemma Covered_start_keystroke now w :
  WF w → Covered w →
  Covered (set_activeKeystroke (Some (startInteraction opts keystroke now None w).1)
             (startInteraction opts keystroke now None w).2).
Proof.
  intros Hwf [H0 Hc]. unfold startInteraction. simpl. split; [done|]. simpl.
  rewrite <- Hc. unfold turnsCovered, pendingTurn. simpl.
  destruct (activeTurn w) as [t|] eqn:HT; [|done].
  destruct (wf_turn _ Hwf _ HT) as (it & Hit & _).
  destruct (wf_heap_id _ Hwf _ _ Hit) as [_ Hlt].
  by rewrite lookup_insert_ne by lia.
Qed.

Lemma Covered_beginTurn src now w :
  Good w → Covered w → Covered (beginTurn opts src now w).
Proof.
  intros Hg [H0 Hc]. unfold beginTurn.
  set (w2 := emit _ _).
  assert (WF w2) as Hwf2 by (by apply WF_emit_turn, WF_set_turnIndex, good_wf).
  assert (turnsCovered w2 = turnsCovered w) as Hc2.
  { apply turnsCovered_frame; try done. simpl. by rewrite interactionsOf_snoc, app_nil_r. }
  set (w3 := match activeTurn w2 with Some t => _ | None => _ end).
  assert (activeTurn w3 = None ∧ Tracker.turnIndex w3 = Tracker.turnIndex w + 1 ∧
          List.map Schema.turnIndex (ofKind turn (interactionsOf (emitted w3))) =
          turnsCovered w) as (HT3 & Hi3 & Hr3).
  { subst w3. destruct (activeTurn w2) as [t|] eqn:Ht.
    - destruct (wf_turn _ Hwf2 _ Ht) as (it & Hit & Hk).
      assert (active w2 t) as Ha by (by right).
      pose proof (turnsCovered_finalize t overlap it w2 Hwf2 Ha Hit) as Hf.
      destruct (finalize_active t overlap it w2 Hwf2 Ha Hit) as (_ & Hi & _ & _).
      split_and!; [done|simpl; by rewrite Hi|].
      rewrite <- Hc2, <- Hf. simpl.
      destruct (finalize_slot t overlap w2 Hwf2 Ha) as [_ ET].
      unfold turnsCovered, pendingTurn. simpl. rewrite ET, Ht.
      unfold clearIf. case_decide; [|done]. by rewrite app_nil_r.
    - split_and!; [done|done|].
      rewrite <- Hc2. unfold turnsCovered, pendingTurn. by rewrite Ht, app_nil_r. }
  unfold startInteraction. simpl. split; simpl; [lia|].
  unfold turnsCovered, pendingTurn. simpl. rewrite lookup_insert_eq. simpl.
  rewrite Hr3, Hc, Hi3.
  replace (Z.to_nat (Tracker.turnIndex w + 1)) with (S (Z.to_nat (Tracker.turnIndex w)))
    by lia.
  rewrite seq_S, map_app. simpl. repeat f_equal. lia.
Qed.

Lemma Covered_step w e : Good w → Covered w → Covered (step opts w e).
Proof.
  intros Hg Hw. destruct e as [data n now|n now|src now| |d]; simpl.
  - apply input_ind; try done.
    + intros w' Hg' Hw' _. apply Covered_start_keystroke; [apply Hg'|done].
    + intros w' r _ [H0 Hc] _. split; [by unfold addInput; destruct (heap w' !! r)|].
      rewrite turnsCovered_addInput.
      by unfold addInput; destruct (heap w' !! r).
    + intros w' Hg' Hw'. by apply Covered_beginTurn.
  - apply output_ind; try done.
    intros w' r _ [H0 Hc] _.
    assert (Tracker.turnIndex (observeOutput opts r now n w') = Tracker.turnIndex w') as Hi.
    { pose proof (turnState_observeOutput opts r now n w') as E. by injection E. }
    split; [by rewrite Hi|]. by rewrite turnsCovered_observeOutput, Hi.
  - by apply Covered_beginTurn.
  - apply endSession_ind; try done.
    + intros w' r it Hg' [H0 Hc] Ha Hit.
      destruct (finalize_active r sessionEnd it w' (good_wf _ Hg') Ha Hit) as (_ & Hi & _).
      split; [by rewrite Hi|].
      by rewrite (turnsCovered_finalize r sessionEnd it), Hi; [|apply Hg'|..].
    + intros w' w'' Hw' _ Hi Hh _ _ He _ HT _ HT'. revert Hw'.
      apply Covered_frame; try done; [congruence|by rewrite He].
  - apply advance_ind; [by intros w' q _ Hw' _|by intros w' v _ Hw'| |done|done].
    intros w' r it reason Hg' [H0 Hc] Ha Hit _.
    destruct (finalize_active r reason it w' (good_wf _ Hg') Ha Hit) as (_ & Hi & _).
    split; [by rewrite Hi|].
    by rewrite (turnsCovered_finalize r reason it), Hi; [|apply Hg'|..].
Qed.

Lemma Covered_run evs : Covered (run opts evs).
Proof.
  induction evs as [|e evs IH] using rev_ind; [done|].
  rewrite run_snoc. apply Covered_step; [apply Good_run|done].
Qed.

(** There is one turn interaction for each turn event, in the order of the
    turns: the turn indices of the turn interactions reported so far,
    followed by that of the one still open, are the indices of the turn
    events; so after the end of the session the turn records are one for
    each turn, in order. *)
Theorem turn_interactions_cover_turns evs :
  turnsCovered (run opts evs) =
    List.map (fun t => Some (index t)) (turnsOf (emitted (run opts evs))) ∧
  List.map Schema.turnIndex
    (ofKind turn (interactionsOf (emitted (run opts (evs ++ [EndSession]))))) =
  List.map (fun t => Some (index t))
    (turnsOf (emitted (run opts (evs ++ [EndSession])))).
Proof.
  assert (∀ l, turnsCovered (run opts l) =
               List.map (fun t => Some (index t)) (turnsOf (emitted (run opts l)))) as H.
  { intros l. destruct (Covered_run l) as [_ ->].
    pose proof (TL_run opts l) as [Hlen Hseq _ _].
    rewrite Hlen, Nat2Z.id.
    rewrite <- (List.map_map index Some), Hseq, List.map_map. done. }
  split; [apply H|].
  rewrite <- H. unfold turnsCovered, pendingTurn.
  rewrite run_snoc. cbn [step].
  destruct (endSession_slots (run opts evs)) as [_ ->].
  by rewrite app_nil_r.
Qed.

End Accounting.


(** *** Every input byte is counted in one keystroke interaction *)

Section InputBytes.
Context (opts : InteractionTrackerOptions).

Lemma keystrokeInput_frame w w' :
  heap w' = heap w → activeKeystroke w' = activeKeystroke w →
  interactionsOf (emitted w') = interactionsOf (emitted w) →
  keystrokeInput w' = keystrokeInput w.
Proof. unfold keystrokeInput, pendingInput. by intros -> -> ->. Qed.

Lemma sumZ_app l1 l2 : sumZ (l1 ++ l2) = sumZ l1 + sumZ l2.
Proof. unfold sumZ. induction l1 as [|x l1 IH]; simpl; [done|]. rewrite IH. lia. Qed.

Lemma keystrokeInput_finalize r reason it w :
  WF w → active w r → heap w !! r = Some it →
  keystrokeInput (finalize r reason w) = keystrokeInput w.
Proof.
  intros Hwf Ha Hit.
  destruct (finalize_active r reason it w Hwf Ha Hit) as (Hh & _ & He & Hcases).
  unfold keystrokeInput, pendingInput. rewrite He, Hh, ofKind_snoc. simpl.
  destruct Hcases as [(HK & Hk & HK' & HT')|(HT & Hk & HT' & HK')].
  - rewrite HK', HK, Hit, Hk. rewrite bool_decide_eq_true_2 by done.
    rewrite map_app, sumZ_app. simpl. lia.
  - rewrite HK', Hk. rewrite bool_decide_eq_false_2 by done. by rewrite app_nil_r.
Qed.

Lemma keystrokeInput_addInput_key r n w :
  WF w → activeKeystroke w = Some r →
  keystrokeInput (addInput r n w) = keystrokeInput w + n.
Proof.
  intros Hwf HK. destruct (wf_keystroke _ Hwf _ HK) as (it & Hit & _).
  unfold addInput. rewrite Hit. unfold keystrokeInput, pendingInput. simpl.
  rewrite HK, Hit, lookup_insert_eq. simpl. lia.
Qed.

Lemma keystrokeInput_addInput_turn r n w :
  WF w → activeTurn w = Some r →
  keystrokeInput (addInput r n w) = keystrokeInput w.
Proof.
  intros Hwf HT. destruct (wf_turn _ Hwf _ HT) as (it & Hit & _).
  unfold addInput. rewrite Hit. unfold keystrokeInput, pendingInput. simpl.
  destruct (activeKeystroke w) as [k|] eqn:HK; [|done].
  by rewrite lookup_insert_ne by (intros ->; by apply (slots_distinct w k k)).
Qed.

Lemma keystrokeInput_observeOutput r now n w :
  keystrokeInput (observeOutput opts r now n w) = keystrokeInput w.
Proof.
  unfold observeOutput. destruct (heap w !! r) as [it|] eqn:Hit; [|done].
  unfold keystrokeInput, pendingInput. simpl.
  assert (emitted (match firstOutputAtMs it with
                   | Some _ => w
                   | None => clearTimeout (noOutputTimeout it) w
                   end) = emitted w) as -> by (by destruct (firstOutputAtMs it)).
  assert (activeKeystroke (match firstOutputAtMs it with
                      | Some _ => w
                      | None => clearTimeout (noOutputTimeout it) w
                      end) = activeKeystroke w) as -> by (by destruct (firstOutputAtMs it)).
  assert (heap (match firstOutputAtMs it with
                | Some _ => w
                | None => clearTimeout (noOutputTimeout it) w
                end) = heap w) as -> by (by destruct (firstOutputAtMs it)).
  destruct (activeKeystroke w) as [t|]; [|done].
  rewrite lookup_insert. case_decide; [|done]. subst. rewrite Hit.
  unfold noteOutput. by destruct (firstOutputAtMs it).
Qed.

Lemma keystrokeInput_start_keystroke now w :
  activeKeystroke w = None →
  keystrokeInput (set_activeKeystroke (Some (startInteraction opts keystroke now None w).1)
                    (startInteraction opts keystroke now None w).2) = keystrokeInput w.
Proof.
  intros HK. unfold startInteraction, keystrokeInput, pendingInput. simpl.
  by rewrite HK, lookup_insert_eq.
Qed.

Lemma keystrokeInput_beginTurn src now w :
  Good w → keystrokeInput (beginTurn opts src now w) = keystrokeInput w.
Proof.
  intros Hg. unfold beginTurn.
  set (w2 := emit _ _).
  assert (WF w2) as Hwf2 by (by apply WF_emit_turn, WF_set_turnIndex, good_wf).
  assert (keystrokeInput w2 = keystrokeInput w) as Hc2.
  { apply keystrokeInput_frame; try done. simpl. by rewrite interactionsOf_snoc, app_nil_r. }
  set (w3 := match activeTurn w2 with Some t => _ | None => _ end).
  assert (WF w3 ∧ keystrokeInput w3 = keystrokeInput w) as [Hwf3 Hc3].
  { subst w3. destruct (activeTurn w2) as [t|] eqn:Ht; [|done].
    destruct (wf_turn _ Hwf2 _ Ht) as (it & Hit & Hk).
    assert (active w2 t) as Ha by (by right).
    split.
    - apply WF_clear_turn. by apply WF_finalize.
    - rewrite <- Hc2, <- (keystrokeInput_finalize t overlap it w2 Hwf2 Ha Hit).
      by apply keystrokeInput_frame. }
  rewrite <- Hc3. unfold startInteraction, keystrokeInput, pendingInput. simpl.
  destruct (activeKeystroke w3) as [k|] eqn:HK; [|done].
  destruct (wf_keystroke _ Hwf3 _ HK) as (it & Hit & _).
  destruct (wf_heap_id _ Hwf3 _ _ Hit) as [_ Hlt].
  by rewrite lookup_insert_ne by lia.
Qed.

Lemma inputTotal_snoc evs e :
  inputTotal (evs ++ [e]) =
  inputTotal evs + match e with Input _ n _ => n | _ => 0 end.
Proof.
  unfold inputTotal. induction evs as [|x evs IH]; simpl.
  - destruct e; lia.
  - rewrite IH. destruct x; lia.
Qed.

Lemma keystrokeInput_step w e :
  Good w →
  keystrokeInput (step opts w e) =
  keystrokeInput w + match e with Input _ n _ => n | _ => 0 end.
Proof.
  intros Hg. destruct e as [data n now|n now|src now| |d]; simpl.
  - apply (input_ind2 opts (fun w' => keystrokeInput w' = keystrokeInput w)
             (fun w' => keystrokeInput w' = keystrokeInput w + n)); try done.
    + intros w' _ <- HK. by apply keystrokeInput_start_keystroke.
    + intros w' r Hg' <- HK. apply keystrokeInput_addInput_key; [apply Hg'|done].
    + intros w' Hg' <-. by apply keystrokeInput_beginTurn.
    + intros w' r Hg' <- HT. apply keystrokeInput_addInput_turn; [apply Hg'|done].
  - rewrite Z.add_0_r.
    apply (output_ind opts (fun w' => keystrokeInput w' = keystrokeInput w)); try done.
    intros w' r _ <- _. apply keystrokeInput_observeOutput.
  - rewrite Z.add_0_r. by apply keystrokeInput_beginTurn.
  - rewrite Z.add_0_r.
    apply (endSession_ind (fun w' => keystrokeInput w' = keystrokeInput w)); try done.
    + intros w' r it Hg' <- Ha Hit.
      apply (keystrokeInput_finalize r sessionEnd it); [apply Hg'|done..].
    + intros w' w'' <- _ _ Hh _ _ He HK _ HK' _.
      apply keystrokeInput_frame; [done|congruence|by rewrite He].
  - rewrite Z.add_0_r.
    apply (advance_ind (fun w' => keystrokeInput w' = keystrokeInput w));
      [by intros w' q _ Hw' _|by intros w' v _ Hw'| |done|done].
    intros w' r it reason Hg' <- Ha Hit _.
    apply (keystrokeInput_finalize r reason it); [apply Hg'|done..].
Qed.

(** Every byte of input is counted in exactly one keystroke interaction:
    the input bytes of the keystroke interactions reported so far and of the
    one still open add up to the bytes of the input chunks; so after the end
    of the session the keystroke records account for all the input. *)
Theorem keystroke_input_accounting evs :
  keystrokeInput (run opts evs) = inputTotal evs ∧
  sumZ (List.map inputBytes
          (ofKind keystroke (interactionsOf (emitted (run opts (evs ++ [EndSession]))))))
  = inputTotal evs.
Proof.
  assert (∀ l, keystrokeInput (run opts l) = inputTotal l) as H.
  { induction l as [|e l IH] using rev_ind; [done|].
    rewrite run_snoc, inputTotal_snoc, <- IH.
    apply keystrokeInput_step, Good_run. }
  split; [apply H|].
  specialize (H (evs ++ [EndSession])). rewrite inputTotal_snoc, Z.add_0_r in H.
  rewrite <- H. unfold keystrokeInput, pendingInput.
  rewrite run_snoc. cbn [step].
  destruct (endSession_slots (run opts evs)) as [-> _]. lia.
Qed.

End InputBytes.


(** ** The idle timer of keystroke interactions *)

Section IdleTimer.
Context (opts : InteractionTrackerOptions).
Context (k : Z) (h : nat) (D l : Z).

Lemma BurstEnded_prefix w w' :
  emitted w `prefix_of` emitted w' → BurstEnded k l w → BurstEnded k l w'.
Proof.
  intros [rest Hl] (i & Hi & ?). exists i. split; [|done].
  rewrite Hl. unfold interactionsOf. rewrite omap_app, elem_of_app. by left.
Qed.

Lemma Idle_frame c w w' :
  activeKeystroke w' = activeKeystroke w → heap w' = heap w →
  timers w' = timers w → nextHandle w' = nextHandle w → clock w' = clock w →
  Idle k h D c l w → Idle k h D c l w'.
Proof. intros E1 E2 E3 E4 E5 []. split; rewrite ?E1, ?E2, ?E3, ?E4, ?E5; done. Qed.

Lemma Idle_addInput c r n w : Idle k h D c l w → Idle k h D c l (addInput r n w).
Proof.
  intros [A1 A2 A3 A4 A6 A7 A8]. unfold addInput.
  destruct (heap w !! r) as [it|] eqn:Hr; [|done].
  split; simpl; try done.
  - destruct A2 as (it' & ? & ? & ? & ? & ?).
    rewrite lookup_insert. case_decide; simplify_eq; eauto 10.
  - intros j it'. rewrite lookup_insert. case_decide; [|by eauto].
    intros [= <-] ?. subst. simpl. eauto.
Qed.

Lemma Idle_startInteraction c kd t0 extra w :
  WF w → Idle k h D c l w → Idle k h D c l (startInteraction opts kd t0 extra w).2.
Proof.
  intros Hwf [A1 A2 A3 A4 A6 A7 A8]. unfold startInteraction. simpl.
  destruct A2 as (it & Hit & ? & ? & ? & ?).
  destruct (wf_heap_id _ Hwf _ _ Hit) as [_ Hlt].
  split; simpl; try done.
  - exists it. rewrite lookup_insert_ne by lia. done.
  - apply elem_of_insert_timer. by right.
  - intros t [->|Ht]%elem_of_insert_timer; simpl; [lia|by eauto].
  - lia.
  - intros j it'. rewrite lookup_insert. case_decide; [|by eauto].
    intros [= <-] _. simpl. split; [done|]. intros [=]. lia.
Qed.

Lemma Idle_finalize_other c r reason w :
  r ≠ k → WF w → Idle k h D c l w → Idle k h D c l (finalize r reason w).
Proof.
  intros Hne Hwf [A1 A2 A3 A4 A6 A7 A8]. unfold finalize.
  destruct (heap w !! r) as [it|] eqn:Hr; [|done].
  destruct (wf_heap_id _ Hwf _ _ Hr) as [Hid _].
  destruct (A7 _ _ Hr Hne) as [? ?].
  split; simpl; try done.
  - unfold clearIf. case_decide; [congruence|done].
  - rewrite !elem_of_clear_opt. simpl. done.
  - intros t Ht. rewrite !elem_of_clear_opt in Ht. naive_solver.
Qed.

Lemma BurstEnded_finalize_self c w :
  WF w → Idle k h D c l w → BurstEnded k l (finalize k burstIdle w).
Proof.
  intros Hwf [A1 A2 A3 A4 A6 A7 A8]. unfold finalize.
  destruct A2 as (it & Hit & Hk & Hl & ? & ?). rewrite Hit. simpl.
  destruct (wf_heap_id _ Hwf _ _ Hit) as [Hid _].
  exists (toInteraction it burstIdle). split; [apply elem_interactionsOf_snoc|].
  simpl. rewrite Hl. done.
Qed.

Lemma Idle_not_turn c w t :
  WF w → Idle k h D c l w → activeTurn w = Some t → t ≠ k.
Proof.
  intros Hwf [_ (it & Hit & Hk & _) _ _ _ _ _] Ht ->.
  destruct (wf_turn _ Hwf _ Ht) as (it' & ? & ?). simplify_eq. congruence.
Qed.

Lemma Idle_beginTurn c src now w :
  WF w → Idle k h D c l w → Idle k h D c l (beginTurn opts src now w).
Proof.
  intros Hwf Ha. unfold beginTurn.
  set (w2 := emit _ _).
  assert (WF w2) as Hwf2 by (by apply WF_emit_turn, WF_set_turnIndex).
  assert (Idle k h D c l w2) as Ha2 by (by eapply Idle_frame; [..|exact Ha]).
  set (w3 := match activeTurn w2 with Some t => _ | None => _ end).
  assert (WF w3 ∧ Idle k h D c l w3) as [Hwf3 Ha3].
  { subst w3. destruct (activeTurn w2) as [t|] eqn:Ht; [|done].
    split; [by apply WF_clear_turn, WF_finalize|].
    eapply Idle_frame; [..|apply Idle_finalize_other]; try done.
    by eapply Idle_not_turn. }
  pose proof (Idle_startInteraction c turn now (Some (Tracker.turnIndex w3)) w3 Hwf3 Ha3)
    as Hs.
  destruct (startInteraction _ _ _ _ _) as [i w4]. by eapply Idle_frame; [..|exact Hs].
Qed.

Lemma Idle_handleInput c data n now w :
  WF w → Idle k h D c l w → Idle k h D c l (handleInput opts data n now w).
Proof.
  intros Hwf Ha. unfold handleInput. rewrite (id_slot _ _ _ _ _ _ Ha).
  assert (WF (addInput k n w)) by (by apply WF_addInput).
  assert (Idle k h D c l (addInput k n w)) by (by apply Idle_addInput).
  case_match; repeat case_match; auto using Idle_addInput, Idle_beginTurn.
Qed.

Lemma Idle_runTimer c w t :
  WF w → (handle t = h → t = idleTimerOf k h D) →
  Idle k h D c l w →
  (BurstEnded k l (runTimer w t) ∨ Idle k h D c l (runTimer w t)) ∧
  (t = idleTimerOf k h D → BurstEnded k l (runTimer w t)).
Proof.
  intros Hwf Hu Ha. unfold runTimer.
  destruct (pending (handle t) (timers w)) eqn:Hp.
  2:{ split; [by right|]. intros ->. simpl in Hp.
      assert (pending h (timers w) = true) as Hp'; [|congruence].
      apply pending_true. exists (idleTimerOf k h D). split; [apply Ha|done]. }
  set (w1 := set_timers _ w).
  assert (WF w1) as Hwf1 by (by apply WF_remove_timer).
  assert (BurstEnded k l (finalize k burstIdle w1)) as Hself.
  { destruct Ha as [A1 (it & Hit & Hk & Hl & ? & ?) A3 A4 A6 A7 A8]. unfold finalize.
    subst w1. simpl. rewrite Hit. simpl.
    destruct (wf_heap_id _ Hwf _ _ Hit) as [Hid _].
    exists (toInteraction it burstIdle). split; [apply elem_interactionsOf_snoc|].
    simpl. rewrite Hl. done. }
  destruct (decide (handle t = h)) as [Hh|Hh].
  - rewrite (Hu Hh). simpl. split; [by left|done].
  - assert (Idle k h D c l w1) as Ha1.
    { destruct Ha as [A1 A2 A3 A4 A6 A7 A8]. split; simpl; try done.
      + apply elem_of_remove_handle. split; [done|]. simpl. congruence.
      + intros t' [? ?]%elem_of_remove_handle. eauto. }
    split; [|intros ->; by simpl in Hh].
    destruct (action t) as [r|r] eqn:Hact; simpl.
    + destruct (heap w !! r) as [it|] eqn:Hr; [|by right].
      destruct (firstOutputAtMs it) eqn:Hf; [by right|].
      destruct (decide (r = k)) as [->|]; [|right; by apply Idle_finalize_other].
      destruct Ha as [_ (it' & Hit' & _ & _ & Hfirst & _) _ _ _ _ _]. congruence.
    + destruct (decide (r = k)) as [->|]; [by left|].
      right. by apply Idle_finalize_other.
Qed.

Lemma Idle_fold_runTimer c batch w :
  WF w → (∀ t, t ∈ batch → handle t = h → t = idleTimerOf k h D) →
  Idle k h D c l w →
  let w' := fold_left runTimer batch w in
  (BurstEnded k l w' ∨ Idle k h D c l w') ∧
  (idleTimerOf k h D ∈ batch → BurstEnded k l w').
Proof.
  revert w. induction batch as [|t batch IH]; intros w Hwf Hu Ha; simpl.
  { split; [by right|]. set_solver. }
  destruct (Idle_runTimer c w t Hwf) as [[Hto|Ha'] Hself]; [set_solver|done| |].
  - assert (BurstEnded k l (fold_left runTimer batch (runTimer w t))) as H
      by (eapply BurstEnded_prefix; [apply prefix_fold_runTimer|done]).
    split; [by left|done].
  - destruct (IH (runTimer w t)) as [IH1 IH2]; [by apply WF_runTimer|set_solver|done|].
    split; [done|]. intros [<-|?]%elem_of_cons; [|by auto].
    eapply BurstEnded_prefix; [apply prefix_fold_runTimer|by apply Hself].
Qed.

Lemma Idle_advance c d w :
  WF w → Idle k h D c l w →
  let w' := advance d w in
  (BurstEnded k l w' ∨ Idle k h D (c + Z.of_nat d) l w') ∧
  (D ≤ c + Z.of_nat d → BurstEnded k l w').
Proof.
  intros Hwf Ha. unfold advance.
  set (w1 := set_clock _ w).
  assert (WF w1) as Hwf1 by (by apply WF_set_clock).
  assert (Idle k h D (c + Z.of_nat d) l w1) as Ha1.
  { destruct Ha as [A1 A2 A3 A4 A6 A7 A8]. split; simpl; try done. by rewrite A8. }
  destruct (Idle_fold_runTimer (c + Z.of_nat d)
              (List.filter (λ t, deadline t <=? clock w1) (timers w1)) w1)
    as [H1 H2]; try done.
  - intros t Ht%list_elem_of_In%filter_In. destruct Ht as [Ht%list_elem_of_In _].
    by apply Ha1.
  - split; [done|]. intros HD. apply H2.
    apply list_elem_of_In, filter_In. split; [apply list_elem_of_In, Ha1|].
    simpl. apply Z.leb_le. destruct Ha as [_ _ _ _ _ _ ->]. lia.
Qed.

Lemma BurstEnded_fold_quiet evs : ∀ w,
  forallb quiet_event evs = true → BurstEnded k l w →
  BurstEnded k l (fold_left (step opts) evs w).
Proof.
  induction evs as [|e evs IH]; intros w Hq Hto; simpl; [done|].
  simpl in Hq. apply andb_true_iff in Hq as [He Hq].
  apply IH; [done|]. eapply BurstEnded_prefix; [by apply prefix_step_quiet|done].
Qed.

Lemma idle_segment evs : ∀ c w,
  WF w → forallb quiet_event evs = true →
  BurstEnded k l w ∨ Idle k h D c l w →
  BurstEnded k l (fold_left (step opts) evs w) ∨
  Idle k h D (c + elapsed evs) l (fold_left (step opts) evs w).
Proof.
  induction evs as [|e evs IH]; intros c w Hwf Hq HJ; simpl.
  { by rewrite Z.add_0_r. }
  simpl in Hq. apply andb_true_iff in Hq as [He Hq].
  assert (WF (step opts w e)) as Hwf' by (by apply WF_step).
  destruct HJ as [Hto|Ha].
  { left. apply BurstEnded_fold_quiet; [done|].
    eapply BurstEnded_prefix; [by apply prefix_step_quiet|done]. }
  destruct e as [data n t|n t|src t| |d]; simpl in *; try done.
  - apply IH; [done..|]. right. by apply Idle_handleInput.
  - apply IH; [done..|]. right. by apply Idle_beginTurn.
  - rewrite Z.add_assoc. apply IH; [done..|]. by apply Idle_advance.
Qed.

End IdleTimer.

Section BurstIdle.
Context (opts : InteractionTrackerOptions).

(** Output for another interaction leaves the idle timer of [k] alone. *)
Lemma Idle_observe_other k h D c l r now n w :
  r ≠ k → WF w → Idle k h D c l w → Idle k h D c l (observeOutput opts r now n w).
Proof.
  intros Hne Hwf [A1 A2 A3 A4 A6 A7 A8]. unfold observeOutput.
  destruct (heap w !! r) as [it|] eqn:Hr; [|done].
  destruct (A7 _ _ Hr Hne) as [Hi Hn].
  assert (idleTimer match firstOutputAtMs it with
                    | Some _ => it
                    | None => set_noOutputTimeout None (set_firstOutputAtMs (Some now) it)
                    end = idleTimer it) as Hidle
    by (by destruct (firstOutputAtMs it)).
  set (w1 := match firstOutputAtMs it with Some _ => w | None => _ end).
  assert (heap w1 = heap w ∧ nextHandle w1 = nextHandle w ∧ clock w1 = clock w ∧
          activeKeystroke w1 = activeKeystroke w ∧
          ∀ t, t ∈ timers w1 ↔ t ∈ timers w ∧
                 (firstOutputAtMs it = None → noOutputTimeout it ≠ Some (handle t)))
    as (E1 & E2 & E3 & E4 & E5).
  { subst w1. destruct (firstOutputAtMs it); simpl.
    - split_and!; try done. naive_solver.
    - split_and!; try done. intros t. rewrite elem_of_clear_opt. naive_solver. }
  simpl. rewrite Hidle. split; simpl; try done.
  - by rewrite E4.
  - destruct A2 as (it' & Hit' & ?). exists it'.
    rewrite lookup_insert_ne by done. by rewrite E1.
  - apply elem_of_insert_timer. right. apply elem_of_clear_opt.
    split; [|simpl; congruence]. apply E5. split; [done|]. simpl. intros _. done.
  - intros t [->|Ht]%elem_of_insert_timer; simpl.
    + rewrite E2. lia.
    + apply elem_of_clear_opt in Ht as [Ht _]. apply E5 in Ht as [Ht _]. eauto.
  - rewrite E2. lia.
  - intros j it'. rewrite lookup_insert. case_decide.
    + intros [= <-] _. simpl. rewrite E2. split; [intros [=]; lia|].
      unfold noteOutput. destruct (firstOutputAtMs it); simpl; done.
    + rewrite E1. eauto.
  - by rewrite E3.
Qed.

(** Output arms the idle timer of the keystroke interaction in the slot. *)
Lemma Idle_start k n now w :
  WF w → activeKeystroke w = Some k →
  Idle k (nextHandle w) (clock w + timerDelay (burstIdleMs opts)) (clock w) now
       (handleOutput opts n now w).
Proof.
  intros Hwf HK. unfold handleOutput. rewrite HK.
  destruct (wf_keystroke _ Hwf _ HK) as (it & Hit & Hk).
  set (w1 := observeOutput opts k now n w).
  assert (WF w1) as Hwf1 by (by apply WF_observeOutput).
  assert (Idle k (nextHandle w) (clock w + timerDelay (burstIdleMs opts)) (clock w) now w1) as Ha1.
  { subst w1. unfold observeOutput. rewrite Hit.
    assert (idleTimer match firstOutputAtMs it with
                      | Some _ => it
                      | None =>
                          set_noOutputTimeout None (set_firstOutputAtMs (Some now) it)
                      end = idleTimer it) as Hidle
      by (by destruct (firstOutputAtMs it)).
    set (w0 := match firstOutputAtMs it with Some _ => w | None => _ end).
    assert (heap w0 = heap w ∧ nextHandle w0 = nextHandle w ∧ clock w0 = clock w ∧
            activeKeystroke w0 = activeKeystroke w ∧
            ∀ t, t ∈ timers w0 → t ∈ timers w) as (E1 & E2 & E3 & E4 & E5).
    { subst w0. destruct (firstOutputAtMs it); simpl; [done|].
      split_and!; try done. intros t. rewrite elem_of_clear_opt. naive_solver. }
    simpl. rewrite Hidle. split; simpl; try done.
    - by rewrite E4.
    - eexists. rewrite lookup_insert_eq. split; [done|]. rewrite E2.
      unfold noteOutput. destruct (firstOutputAtMs it) eqn:Hfirst; simpl;
        rewrite ?Hfirst; split_and!; done.
    - rewrite E2, E3. apply elem_of_insert_timer. by left.
    - rewrite E2, E3. intros t [->|Ht]%elem_of_insert_timer Hh; [done|].
      apply elem_of_clear_opt in Ht as [Ht _]. apply E5 in Ht.
      destruct (wf_timers _ Hwf _ Ht). lia.
    - rewrite E2. lia.
    - intros j it' Hj Hne. rewrite lookup_insert_ne in Hj by done. rewrite E1 in Hj.
      split; intros E;
        [pose proof (wf_heap_handles _ Hwf _ _ _ Hj (or_introl E))
        |pose proof (wf_heap_handles _ Hwf _ _ _ Hj (or_intror E))]; lia. }
  destruct (activeTurn w1) as [t|] eqn:HT; [|done].
  apply Idle_observe_other; [|done|done].
  by eapply Idle_not_turn.
Qed.

(** The burst of a keystroke interaction ends when the output pauses: when
    output arrives while a keystroke interaction is active and then, while
    at least the delay of the idle timer passes, neither more output nor the
    end of the session is seen, that interaction is finalized with the end
    reason [burstIdle], and its [t2Ms] is the time of that last output.  The
    delay is [burstIdleMs], and 1 ms where [setTimeout] does not take that
    delay ([timerDelay]). *)
Theorem keystroke_burst_idle evs0 k n t evs d :
  activeKeystroke (run opts evs0) = Some k →
  forallb quiet_event evs = true →
  timerDelay (burstIdleMs opts) ≤ elapsed evs + Z.of_nat d →
  Exists (λ i, id i = k ∧ kind i = keystroke ∧ endReason i = burstIdle ∧
               t2Ms i = Some (t - t0Ms i))
    (interactionsOf
       (emitted (run opts (evs0 ++ Output n t :: evs ++ [Advance d])))).
Proof.
  intros HK Hq Hd. set (w0 := run opts evs0) in *.
  assert (WF w0) as Hwf0 by apply WF_run.
  pose proof (Idle_start k n t w0 Hwf0 HK) as Ha.
  rewrite run_app. simpl. rewrite fold_left_app. simpl. fold w0.
  set (w1 := handleOutput opts n t w0) in *.
  assert (WF w1) as Hwf1 by (by apply WF_handleOutput).
  cut (BurstEnded k t (advance d (fold_left (step opts) evs w1))).
  { intros (i & Hi & ?). apply Exists_exists. eauto. }
  destruct (idle_segment opts _ _ _ _ evs (clock w0) w1 Hwf1 Hq (or_intror Ha))
    as [Hto|Ha2].
  - eapply BurstEnded_prefix; [|done]. unfold advance.
    etrans; [|apply prefix_fold_runTimer]. done.
  - eapply Idle_advance; [..|exact Ha2|].
    + apply fold_step_ind; [apply WF_step|done].
    + lia.
Qed.

End BurstIdle.


(** ** Witnesses *)



(** A timeout of zero takes a millisecond: no time has passed, and the
    interaction has not timed out. *)
Lemma zero_timeout_takes_a_millisecond :
  ¬ timeout_as_stated (mkOptions 30 0 enter) [] "q" 1 0 [] 0.
Proof.
  intros H. specialize (H eq_refl eq_refl).
  assert (interactionsOf
            (emitted (run (mkOptions 30 0 enter) ([] ++ Input "q" 1 0 :: [] ++ [Advance 0]))) =
          []) as E by (vm_compute; reflexivity).
  rewrite E in H. apply Exists_nil in H; [done|]. vm_compute. discriminate.
Qed.

(** Nor does an idle timer of zero fire before a millisecond has passed. *)
Example zero_burst_idle_takes_a_millisecond :
  interactionsOf
    (emitted (run (mkOptions 0 2000 enter) [Input "a" 1 0; Output 1 0; Advance 0])) = [] ∧
  List.map endReason
    (interactionsOf
       (emitted (run (mkOptions 0 2000 enter) [Input "a" 1 0; Output 1 0; Advance 1]))) =
  [burstIdle].
Proof. by vm_compute. Qed.

(** A key, its echo, the end of the session, and then five seconds and a
    late chunk of output. *)
Lemma session_end_is_final_witness :
  forallb passive [Advance 5000; Output 2 6000] = true ∧
  timers (run cliDefaults ([Input "a" 1 0; Output 3 5] ++ [EndSession])) = [] ∧
  activeKeystroke (run cliDefaults ([Input "a" 1 0; Output 3 5] ++ [EndSession])) = None ∧
  activeTurn (run cliDefaults ([Input "a" 1 0; Output 3 5] ++ [EndSession])) = None ∧
  emitted (run cliDefaults
             ([Input "a" 1 0; Output 3 5] ++ EndSession :: [Advance 5000; Output 2 6000])) =
  emitted (run cliDefaults ([Input "a" 1 0; Output 3 5] ++ [EndSession])).
Proof.
  split; [reflexivity|].
  apply (session_end_is_final cliDefaults [Input "a" 1 0; Output 3 5]
           [Advance 5000; Output 2 6000]).
  reflexivity.
Defined.

(** A key and its echo; another key, and 35 ms without output. *)
Lemma keystroke_burst_idle_witness :
  activeKeystroke (run cliDefaults [Input "a" 1 0]) = Some 1 ∧
  forallb quiet_event [Input "b" 1 10; Advance 10] = true ∧
  timerDelay (burstIdleMs cliDefaults) ≤
    elapsed [Input "b" 1 10; Advance 10] + Z.of_nat 25 ∧
  Exists (fun i => id i = 1 ∧ kind i = keystroke ∧ endReason i = burstIdle ∧
                   t2Ms i = Some (5 - t0Ms i))
    (interactionsOf
       (emitted (run cliDefaults
          ([Input "a" 1 0] ++ Output 1 5 :: [Input "b" 1 10; Advance 10] ++ [Advance 25])))).
Proof.
  split; [reflexivity|]. split; [reflexivity|]. split; [vm_compute; discriminate|].
  apply (keystroke_burst_idle cliDefaults [Input "a" 1 0] 1 1 5
           [Input "b" 1 10; Advance 10] 25).
  - reflexivity.
  - reflexivity.
  - vm_compute. discriminate.
Defined.

End TrackerSessionFacts.

(* ===================================================================== *)
(** * Properties of the correlation result                                *)
(* ===================================================================== *)

Module CorrelateResultFacts.
Import Schema Json Correlate CorrelateSpec CorrelateResult.

(** ** Sums over the buckets *)

Lemma total_alter {A} (f : A → Z) (g : A → A) pos l :
  total f (alter g pos l) =
  total f l + match l !! pos with Some b => f (g b) - f b | None => 0 end.
Proof.
  revert pos. induction l as [|x l IH]; intros [|pos]; simpl; try lia.
  change (list_alter g pos l) with (alter g pos l). rewrite IH.
  change (l !! pos) with (lookup pos l). lia.
Qed.

Lemma total_map {A B} (f : B → Z) (g : A → B) l :
  total f (List.map g l) = total (fun x => f (g x)) l.
Proof. induction l as [|x l IH]; simpl; [done|]. by rewrite IH. Qed.

Lemma total_zero {A} (f : A → Z) l : Forall (fun x => f x = 0) l → total f l = 0.
Proof. induction 1 as [|x l Hx _ IH]; simpl; [done|]. lia. Qed.

Lemma total_nonneg {A} (f : A → Z) l : Forall (fun x => 0 ≤ f x) l → 0 ≤ total f l.
Proof. induction 1 as [|x l Hx _ IH]; simpl; [done|]. lia. Qed.

Lemma byteLength_nonneg s : 0 ≤ Js.byteLength s.
Proof. unfold Js.byteLength. lia. Qed.

(** ** Tool names *)

Lemma charBytes_cases a :
  Js.charBytes a = 1%nat ∨ Js.charBytes a = 2%nat ∨
  Js.charBytes a = 3%nat ∨ Js.charBytes a = 4%nat.
Proof. unfold Js.charBytes. repeat case_match; auto. Qed.

(** [s.slice(0, n).length <= n] *)
Lemma slice_length m : ∀ s n,
  (String.length s ≤ m)%nat → (Js.length (Js.slice n s) ≤ n)%nat.
Proof.
  unfold Js.length.
  induction m as [|m IH]; intros s n Hm.
  { destruct s; [|simpl in Hm; lia]. destruct n; simpl; lia. }
  destruct n as [|n]; [destruct s; simpl; lia|].
  destruct s as [|a r1]; [simpl; lia|].
  cbn [String.length] in Hm. cbn [Js.slice].
  destruct (charBytes_cases a) as [E|[E|[E|E]]]; rewrite E.
  - cbn [Js.codeUnits]. rewrite E. cbn [List.length].
    specialize (IH r1 n). lia.
  - destruct r1 as [|b r2]; [cbn [Js.codeUnits]; rewrite E; simpl; lia|].
    cbn [Js.codeUnits]. rewrite E. cbn [List.length String.length] in *.
    specialize (IH r2 n). lia.
  - destruct r1 as [|b [|c r3]]; try (cbn [Js.codeUnits]; rewrite E; simpl; lia).
    cbn [Js.codeUnits]. rewrite E. cbn [List.length String.length] in *.
    specialize (IH r3 n). lia.
  - destruct r1 as [|b [|c [|d r4]]]; try (cbn [Js.codeUnits]; rewrite E; simpl; lia).
    destruct n as [|n]; [simpl; lia|].
    cbn [Js.codeUnits]. rewrite E. cbn [List.length String.length] in *.
    specialize (IH r4 n). lia.
Qed.

Lemma slice_nonEmpty n s :
  Js.nonEmpty s = true → Js.nonEmpty (Js.slice (S n) s) = true.
Proof.
  destruct s as [|a r1]; [done|]. intros _. cbn [Js.slice].
  destruct (charBytes_cases a) as [E|[E|[E|E]]]; rewrite E; [done|..].
  - by destruct r1.
  - by destruct r1 as [|b [|c r3]].
  - destruct r1 as [|b [|c [|d r4]]]; try done. by destruct n.
Qed.

Lemma truncate_ok s : Js.nonEmpty s = true → toolNameOk (Js.truncate 120 s).
Proof.
  intros Hs. unfold Js.truncate, toolNameOk.
  destruct (120 <? Js.length s)%nat eqn:E.
  - split; [|by apply (slice_length (String.length s))].
    intros Hn. pose proof (slice_nonEmpty 119 s Hs) as H. by rewrite Hn in H.
  - apply Nat.ltb_ge in E. split; [|done]. by destruct s.
Qed.

Lemma extractToolNames_ok rec : Forall toolNameOk (extractToolNames rec).
Proof.
  unfold extractToolNames. destruct (negb _); [done|].
  apply Forall_forall. intros x Hx.
  apply list_elem_of_In, in_map_iff in Hx as (y & <- & Hy).
  apply filter_In in Hy as [_ Hy]. by apply truncate_ok.
Qed.

Lemma existsb_eqb name names :
  existsb (String.eqb name) names = true ↔ name ∈ names.
Proof.
  rewrite existsb_exists. split.
  - intros (x & Hx & ->%String.eqb_eq). by apply list_elem_of_In.
  - intros H. exists name. split; [by apply list_elem_of_In|apply String.eqb_refl].
Qed.

Lemma setAdd_ok name names :
  toolNameOk name → NoDup names → Forall toolNameOk names →
  NoDup (setAdd name names) ∧ Forall toolNameOk (setAdd name names) ∧
  (length (setAdd name names) ≤ S (length names))%nat.
Proof.
  intros Hn Hnd Hall. unfold setAdd.
  destruct (existsb (String.eqb name) names) eqn:E.
  - split_and!; [done|done|lia].
  - split_and!.
    + apply NoDup_app. split_and!; [done| |apply NoDup_singleton].
      intros x Hx ->%list_elem_of_singleton.
      apply existsb_eqb in Hx. congruence.
    + apply Forall_app. split; [done|by apply Forall_singleton].
    + rewrite length_app. simpl. lia.
Qed.

Lemma fold_setAdd_ok new : ∀ names,
  Forall toolNameOk new → NoDup names → Forall toolNameOk names →
  NoDup (fold_left (fun s n => setAdd n s) new names) ∧
  Forall toolNameOk (fold_left (fun s n => setAdd n s) new names) ∧
  (length (fold_left (fun s n => setAdd n s) new names) ≤ length names + length new)%nat.
Proof.
  induction new as [|x new IH]; intros names Hnew Hnd Hall; simpl.
  - split_and!; [done|done|lia].
  - apply Forall_cons in Hnew as [Hx Hnew].
    destruct (setAdd_ok x names Hx Hnd Hall) as (H1 & H2 & H3).
    destruct (IH (setAdd x names) Hnew H1 H2) as (H4 & H5 & H6).
    split_and!; [done|done|lia].
Qed.

Lemma applyRecord_ok line rec b : bucketOk b → bucketOk (applyRecord line rec b).
Proof.
  intros (H1 & H2 & H3 & H4 & H5). unfold bucketOk, applyRecord. simpl.
  destruct (fold_setAdd_ok (extractToolNames rec) (toolUseNames b)
              (extractToolNames_ok rec) H4 H5) as (H6 & H7 & H8).
  pose proof (byteLength_nonneg line). split_and!; [lia|lia|lia|done|done].
Qed.

Lemma insertSorted_perm s l : insertSorted s l ≡ₚ s :: l.
Proof.
  induction l as [|x l IH]; simpl; [done|].
  destruct (Js.leb s x); [done|]. rewrite IH. apply Permutation_swap.
Qed.

Lemma sortNames_perm l : sortNames l ≡ₚ l.
Proof.
  induction l as [|x l IH]; simpl; [done|].
  rewrite insertSorted_perm. by rewrite IH.
Qed.

Lemma unitsLeb_total x : ∀ y, Js.unitsLeb x y = false → Js.unitsLeb y x = true.
Proof.
  induction x as [|a x IH]; intros [|b y]; simpl; try done.
  intros [H1 H2]%orb_false_iff. apply Z.ltb_ge in H1.
  destruct (Z.eq_dec a b) as [->|Hne].
  - rewrite Z.eqb_refl in *. simpl in H2. rewrite (IH y H2). apply orb_true_r.
  - assert ((b <? a) = true) as -> by (apply Z.ltb_lt; lia). done.
Qed.

Lemma leb_total s t : Js.leb s t = false → Js.leb t s = true.
Proof. apply unitsLeb_total. Qed.

Lemma insertSorted_sorted s l : sortedNames l → sortedNames (insertSorted s l).
Proof.
  unfold sortedNames. induction 1 as [|x l Hl IH Hx]; simpl.
  - by repeat constructor.
  - destruct (Js.leb s x) eqn:E.
    + constructor; [by constructor|by constructor].
    + constructor; [done|].
      assert (Js.leb x s = true) as Hxs by (by apply leb_total).
      destruct Hx as [|y l Hy]; simpl; [by constructor|].
      destruct (Js.leb s y); by constructor.
Qed.

Lemma sortNames_sorted l : sortedNames (sortNames l).
Proof.
  induction l as [|x l IH]; simpl; [constructor|]. by apply insertSorted_sorted.
Qed.

Section WithRuntime.
Variable JSON_parse : string → option json.
Variable Date_parse : string → option Z.
Variable opts : CorrelateJsonlOptions.

Local Abbreviation step := (processLine JSON_parse Date_parse opts).
Local Abbreviation read := (readLines JSON_parse Date_parse opts).
Local Abbreviation correlate := (correlateJsonlToTurns JSON_parse Date_parse opts).

(** ** Which bucket a record goes to *)

Lemma lastWithIndex_found i l : ∀ pos found,
  i ∈ List.map b_turnIndex l →
  ∃ k b, l !! k = Some b ∧ b_turnIndex b = i ∧
         lastWithIndex i l pos found = Some (pos + k)%nat.
Proof.
  induction l as [|b0 l IH]; intros pos found Hi; simpl in *.
  - by apply elem_of_nil in Hi.
  - destruct (decide (i ∈ List.map b_turnIndex l)) as [Hl|Hl].
    + destruct (IH (S pos) (if b_turnIndex b0 =? i then Some pos else found) Hl)
        as (k & b & Hk & Hb & E).
      exists (S k), b. split_and!; [done|done|]. rewrite E. f_equal. lia.
    + apply elem_of_cons in Hi as [Hi|Hi]; [|done].
      exists 0%nat, b0. split_and!; [done|done|].
      rewrite CorrelateFacts.lastWithIndex_absent by done.
      rewrite <- Hi, Z.eqb_refl. f_equal. lia.
Qed.

Lemma applyToTurn_cases ptr line rec buckets :
  applyToTurn opts ptr line rec buckets = buckets ∨
  ∃ pos b, buckets !! pos = Some b ∧
           applyToTurn opts ptr line rec buckets = alter (applyRecord line rec) pos buckets.
Proof.
  unfold applyToTurn. destruct (turns opts !! ptr) as [t|]; [|by left].
  destruct (perTurnByIndex (index t) buckets) as [pos|]; [|by left].
  destruct (buckets !! pos) as [b|] eqn:Hb; [right; by exists pos, b|].
  left. apply list_eq. intros j. rewrite list_lookup_alter.
  case_decide; [subst; by rewrite Hb|done].
Qed.

Lemma applyToTurn_hit ptr line rec buckets :
  List.map b_turnIndex buckets = List.map index (turns opts) →
  (ptr < length (turns opts))%nat →
  ∃ pos b, buckets !! pos = Some b ∧
           applyToTurn opts ptr line rec buckets = alter (applyRecord line rec) pos buckets.
Proof.
  intros Hal Hptr. unfold applyToTurn.
  destruct (lookup_lt_is_Some_2 (turns opts) ptr Hptr) as [t Ht]. rewrite Ht.
  assert (index t ∈ List.map b_turnIndex buckets) as Hin.
  { rewrite Hal. apply list_elem_of_fmap. exists t. split; [done|].
    by apply list_elem_of_lookup_2 with ptr. }
  destruct (lastWithIndex_found (index t) buckets 0 None Hin) as (k & b & Hk & _ & E).
  unfold perTurnByIndex. rewrite E. by exists k, b.
Qed.

Lemma alter_indices line rec pos buckets :
  List.map b_turnIndex (alter (applyRecord line rec) pos buckets) =
  List.map b_turnIndex buckets.
Proof.
  revert pos. induction buckets as [|b l IH]; intros [|pos]; simpl; try done.
  f_equal. apply IH.
Qed.

(** What applying a record to a turn does to the buckets. *)
Lemma applyToTurn_inv ptr line rec buckets :
  Forall bucketOk buckets →
  let buckets' := applyToTurn opts ptr line rec buckets in
  List.map b_turnIndex buckets' = List.map b_turnIndex buckets ∧
  Forall bucketOk buckets' ∧
  total recordCount buckets ≤ total recordCount buckets' ≤ total recordCount buckets + 1 ∧
  total recordBytes buckets' ≤ total recordBytes buckets + Js.byteLength line.
Proof.
  intros Hok. cbv zeta. pose proof (byteLength_nonneg line).
  destruct (applyToTurn_cases ptr line rec buckets) as [->|(pos & b & Hb & ->)].
  - split_and!; [done|done|lia|lia|lia].
  - rewrite alter_indices, !total_alter, Hb. simpl.
    split_and!; [done| |lia|lia|lia].
    apply Forall_alter; [done|]. intros x _ Hx. by apply applyRecord_ok.
Qed.

Lemma applyToTurn_counted ptr line rec buckets :
  List.map b_turnIndex buckets = List.map index (turns opts) →
  (ptr < length (turns opts))%nat →
  total recordCount (applyToTurn opts ptr line rec buckets) = total recordCount buckets + 1.
Proof.
  intros Hal Hptr.
  destruct (applyToTurn_hit ptr line rec buckets Hal Hptr) as (pos & b & Hb & ->).
  rewrite total_alter, Hb. simpl. lia.
Qed.

(** ** Records without a time stamp *)

Lemma aligned_init :
  List.map b_turnIndex (initBuckets opts) = List.map index (turns opts).
Proof. unfold initBuckets. rewrite map_map. done. Qed.

Lemma aligned_step st line :
  List.map b_turnIndex (perTurn (step st line).1) = List.map b_turnIndex (perTurn st).
Proof.
  assert (∀ ptr rec, List.map b_turnIndex (applyToTurn opts ptr line rec (perTurn st)) =
                     List.map b_turnIndex (perTurn st)) as Happly.
  { intros ptr rec.
    destruct (applyToTurn_cases ptr line rec (perTurn st)) as [->|(pos & b & _ & ->)];
      [done|apply alter_indices]. }
  unfold processLine.
  destruct (negb (Js.nonEmpty (Js.trim line))); [done|].
  destruct (JSON_parse (Js.trim line)) as [rec|]; [|done].
  destruct (extractEpochMs Date_parse rec) as [epochMs|].
  - destruct (epochMs <? startWindowMs opts); [done|].
    destruct (match endWindowMs opts with
              | Some e => (e <? epochMs) && (0 <? usedTimestamps st)
              | None => false
              end); [done|]. apply Happly.
  - cbn [fst perTurn]. destruct (_ && _); [apply Happly|done].
Qed.

(** The buckets stay those of the turns, in the order of the turns. *)
Lemma aligned_read lines : ∀ st,
  List.map b_turnIndex (perTurn (read lines st)) = List.map b_turnIndex (perTurn st).
Proof.
  induction lines as [|line lines IH]; intros st; [done|].
  pose proof (aligned_step st line) as Hstep. simpl.
  destruct (step st line) as [st' stop]. simpl in Hstep.
  destruct stop; [done|]. by rewrite IH.
Qed.

(** With turn indices that are pairwise distinct, a record for the turn at
    a position of the list changes the bucket at that position. *)
Lemma applyToTurn_in_range ptr line rec buckets :
  List.map b_turnIndex buckets = List.map index (turns opts) →
  NoDup (List.map index (turns opts)) →
  (ptr < length (turns opts))%nat →
  ∃ b, buckets !! ptr = Some b ∧
       applyToTurn opts ptr line rec buckets = <[ptr := applyRecord line rec b]> buckets.
Proof.
  intros Hal Hnd Hptr. unfold applyToTurn.
  destruct (lookup_lt_is_Some_2 (turns opts) ptr Hptr) as [t Ht]. rewrite Ht.
  destruct (CorrelateFacts.bucket_of_turn opts ptr t buckets Hal Ht) as (b & Hb & Hi).
  exists b. split; [done|]. unfold perTurnByIndex.
  rewrite (CorrelateFacts.lastWithIndex_position (index t) buckets 0 None ptr b);
    [|by rewrite Hal|done|done].
  simpl. apply list_eq. intros j. rewrite list_lookup_alter.
  destruct (decide (j = ptr)) as [->|Hne].
  - rewrite decide_True by done. rewrite Hb. simpl.
    by rewrite list_lookup_insert_eq by (by eapply lookup_lt_Some).
  - rewrite decide_False by done. by rewrite list_lookup_insert_ne.
Qed.


(** ** The pointer of the time stamp mode *)

Lemma advanceOver_spec epochMs next : ∀ ptr,
  let ptr' := advanceOver epochMs next ptr in
  (ptr ≤ ptr' ≤ ptr + length next)%nat ∧
  (∀ k e, (k < ptr' - ptr)%nat → next !! k = Some e → e ≤ epochMs) ∧
  (∀ e, next !! (ptr' - ptr)%nat = Some e → epochMs < e).
Proof.
  induction next as [|x next IH]; intros ptr; simpl.
  - split_and!; [lia|lia|intros; lia|]. intros e. by rewrite lookup_nil.
  - destruct (x <=? epochMs) eqn:E.
    + destruct (IH (S ptr)) as ((H1 & H2) & H3 & H4). split_and!; [lia|lia| |].
      * intros [|k] e Hk He; simpl in He.
        -- apply Z.leb_le in E. by simplify_eq.
        -- apply (H3 k); [lia|done].
      * intros e He.
        replace (advanceOver epochMs next (S ptr) - ptr)%nat
          with (S (advanceOver epochMs next (S ptr) - S ptr)) in He by lia.
        by apply H4.
    + apply Z.leb_gt in E. split_and!; [lia|lia|intros; lia|].
      intros e. rewrite Nat.sub_diag. simpl. intros [= <-]. done.
Qed.

Lemma advanceTurnPtr_bounds epochMs ptr :
  (ptr ≤ advanceTurnPtr opts epochMs ptr)%nat ∧
  ((ptr < length (turns opts))%nat →
   (advanceTurnPtr opts epochMs ptr < length (turns opts))%nat).
Proof.
  unfold advanceTurnPtr.
  destruct (advanceOver_spec epochMs (drop (S ptr) (turnEpochMs opts)) ptr)
    as ((H1 & H2) & _).
  split; [done|]. intros Hptr. rewrite length_drop in H2.
  unfold turnEpochMs in *. rewrite length_map in H2. lia.
Qed.

(** ** One line *)

Lemma initBuckets_empty : Forall (fun b => recordCount b = 0 ∧ recordBytes b = 0 ∧
    toolUseCount b = 0 ∧ toolUseNames b = [] ∧ inputTokenCount b = 0 ∧
    outputTokenCount b = 0) (initBuckets opts).
Proof.
  unfold initBuckets. apply Forall_forall. intros b Hb.
  by apply list_elem_of_In, in_map_iff in Hb as (t & <- & _).
Qed.

Lemma Inv_init : turns opts ≠ [] → Inv opts (initState opts).
Proof.
  intros Hturns. pose proof initBuckets_empty as Hempty.
  split; simpl; try done.
  - unfold initBuckets. rewrite List.map_map. done.
  - rewrite total_zero; [done|]. eapply Forall_impl; [exact Hempty|]. naive_solver.
  - rewrite total_zero; [done|]. eapply Forall_impl; [exact Hempty|]. naive_solver.
  - eapply Forall_impl; [exact Hempty|]. intros b (H1 & H2 & H3 & H4 & _).
    unfold bucketOk. rewrite H1, H2, H3, H4.
    split_and!; [done|done|done|apply NoDup_nil_2|done].
  - destruct (turns opts); [done|]. simpl. lia.
Qed.

Lemma Inv_step st line : Inv opts st → Inv opts (step st line).1.
Proof.
  intros [Hal He Hu Hl Hb Hok [Hs1 Hs2] Hp Hat]. unfold processLine.
  pose proof (byteLength_nonneg line) as Hlen.
  assert (0 ≤ total recordCount (perTurn st)) as Hnn.
  { apply total_nonneg. eapply Forall_impl; [exact Hok|]. by intros b (? & _). }
  destruct (negb (Js.nonEmpty (Js.trim line))); [by split|].
  destruct (JSON_parse (Js.trim line)) as [rec|]; simpl.
  2:{ split; simpl; try done; lia. }
  destruct (extractEpochMs Date_parse rec) as [epochMs|].
  - destruct (epochMs <? startWindowMs opts); [split; simpl; try done; lia|].
    destruct (match endWindowMs opts with
              | Some e => (e <? epochMs) && (0 <? usedTimestamps st)
              | None => false
              end); [split; simpl; try done; lia|].
    simpl.
    destruct (advanceTurnPtr_bounds epochMs (turnPtr st)) as [Hge Hlt].
    destruct (applyToTurn_inv (advanceTurnPtr opts epochMs (turnPtr st)) line rec
                (perTurn st) Hok) as (H1 & H2 & H3 & H4).
    pose proof (applyToTurn_counted (advanceTurnPtr opts epochMs (turnPtr st)) line rec
                  (perTurn st) Hal (Hlt Hp)) as H5.
    split; simpl; [congruence|lia|lia|lia|lia|done|done|auto|].
    assert ((0 <? usedTimestamps st + 1) = true) as -> by (apply Z.ltb_lt; lia).
    simpl. lia.
  - set (isUser := bool_decide (extractRole rec = Some user)).
    set (seq := if isUser then seqTurnPtr st + 1 else seqTurnPtr st).
    set (buckets := if (0 <=? seq) && (seq <? numTurns opts)
                    then applyToTurn opts (Z.to_nat seq) line rec (perTurn st)
                    else perTurn st).
    assert (List.map b_turnIndex buckets = List.map b_turnIndex (perTurn st) ∧
            Forall bucketOk buckets ∧
            total recordCount (perTurn st) ≤ total recordCount buckets
              ≤ total recordCount (perTurn st) + 1 ∧
            total recordBytes buckets ≤ total recordBytes (perTurn st) + Js.byteLength line)
      as (H1 & H2 & H3 & H4).
    { subst buckets. destruct ((0 <=? seq) && (seq <? numTurns opts)).
      - by apply applyToTurn_inv.
      - split_and!; [done|done|lia|lia|lia]. }
    split; simpl; [congruence|lia|lia|lia|lia|done| |done|].
    + subst seq. destruct isUser; split; try done; lia.
    + destruct ((0 <? usedTimestamps st) || usedSequential st) eqn:Hflag.
      * assert ((0 <? usedTimestamps st) || (if isUser then true else usedSequential st)
                = true) as ->; [|lia].
        apply orb_true_iff in Hflag as [->|Hflag]; [done|].
        rewrite Hflag. destruct isUser; apply orb_true_r.
      * apply orb_false_iff in Hflag as [Hts Hseq]. rewrite Hts, Hseq. simpl.
        specialize (Hs2 Hseq). subst buckets seq. rewrite Hs2.
        destruct isUser; simpl; [|done].
        assert ((-1 + 1 <? numTurns opts) = true) as ->
          by (apply Z.ltb_lt; unfold numTurns; lia).
        rewrite applyToTurn_counted; [lia|done|simpl; lia].
Qed.

Lemma Inv_read lines : ∀ st, Inv opts st → Inv opts (read lines st).
Proof.
  induction lines as [|line lines IH]; intros st Hst; [done|]. simpl.
  pose proof (Inv_step st line Hst) as Hst'.
  destruct (step st line) as [st' stop]. destruct stop; [done|by apply IH].
Qed.

Lemma read_lines_bound lines : ∀ st,
  parsedLines (read lines st) ≤ parsedLines st + Z.of_nat (length (List.filter nonBlank lines)) ∧
  parsedBytes (read lines st) ≤ parsedBytes st + total Js.byteLength lines.
Proof.
  induction lines as [|line lines IH]; intros st; simpl; [lia|].
  pose proof (byteLength_nonneg line) as Hlen.
  assert (0 ≤ total Js.byteLength lines) as Hrest
    by (apply total_nonneg, Forall_forall; intros; apply byteLength_nonneg).
  assert (parsedLines (step st line).1 ≤ parsedLines st + (if nonBlank line then 1 else 0) ∧
          parsedBytes (step st line).1 ≤ parsedBytes st + Js.byteLength line) as [H1 H2].
  { unfold processLine, nonBlank. destruct (Js.nonEmpty (Js.trim line)); simpl; [|lia].
    destruct (JSON_parse (Js.trim line)) as [rec|]; simpl; [|lia].
    destruct (extractEpochMs Date_parse rec) as [epochMs|]; [|simpl; lia].
    destruct (epochMs <? startWindowMs opts); [simpl; lia|].
    destruct (match endWindowMs opts with
              | Some e => (e <? epochMs) && (0 <? usedTimestamps st)
              | None => false
              end); simpl; lia. }
  destruct (step st line) as [st' stop]. simpl in *.
  assert (0 ≤ Z.of_nat (length (List.filter nonBlank lines))) by lia.
  destruct (IH st') as [IH1 IH2].
  destruct stop; destruct (nonBlank line); simpl; lia.
Qed.

(** ** The result *)

Lemma correlate_result lines :
  turns opts ≠ [] →
  let st := read lines (initState opts) in
  let m := if 0 <? usedTimestamps st then timestamps
           else if usedSequential st then sequential else none in
  enabled (correlate lines) = true ∧ mode (correlate lines) = m ∧
  c_parsedLines (correlate lines) = parsedLines st ∧
  c_parsedBytes (correlate lines) = parsedBytes st ∧
  c_parseErrors (correlate lines) = parseErrors st ∧
  c_perTurn (correlate lines) = List.map toPerTurn (perTurn st).
Proof. intros H. unfold correlateJsonlToTurns. by destruct (turns opts). Qed.

Lemma correlate_no_turns lines :
  turns opts = [] →
  correlate lines = mkCorrelation true none 0 0 0 []
                      ["No turns recorded; cannot correlate JSONL."].
Proof. intros H. unfold correlateJsonlToTurns. by rewrite H. Qed.

(** The result has one entry for each turn of the session, in the order of
    the turns and with their indices, whatever the log holds. *)
Theorem one_entry_per_turn lines :
  enabled (correlateJsonlToTurns JSON_parse Date_parse opts lines) = true ∧
  List.map r_turnIndex (c_perTurn (correlateJsonlToTurns JSON_parse Date_parse opts lines))
  = List.map index (turns opts).
Proof.
  destruct (decide (turns opts = [])) as [Hno|Hturns].
  - rewrite (correlate_no_turns lines Hno), Hno. done.
  - destruct (correlate_result lines Hturns) as (-> & _ & _ & _ & _ & ->).
    split; [done|]. rewrite List.map_map. simpl.
    apply (inv_aligned opts), Inv_read, Inv_init, Hturns.
Qed.

(** The counters of the result bound one another.  [lines] are the lines
    of the log as the reader hands them over, decoded.  The lines counted
    are among those that are not blank, those that did not parse are among
    the lines counted, and every line that parsed is attributed to at most
    one turn.  So the record counts of the turns add up to no more than the
    lines that parsed; their bytes add up to no more than [parsedBytes], and
    that to no more than [Buffer.byteLength] of the lines taken together,
    which is not the size of the file. *)
Theorem counters_are_consistent lines :
  let r := correlate lines in
  0 ≤ c_parseErrors r ≤ c_parsedLines r ∧
  c_parsedLines r ≤ Z.of_nat (length (List.filter nonBlank lines)) ∧
  c_parsedBytes r ≤ total Js.byteLength lines ∧
  total r_recordCount (c_perTurn r) ≤ c_parsedLines r - c_parseErrors r ∧
  total r_recordBytes (c_perTurn r) ≤ c_parsedBytes r ∧
  Forall (fun p => 0 ≤ r_recordCount p ∧ 0 ≤ r_recordBytes p) (c_perTurn r).
Proof.
  cbv zeta.
  assert (0 ≤ total Js.byteLength lines) as Hbytes
    by (apply total_nonneg, Forall_forall; intros; apply byteLength_nonneg).
  destruct (decide (turns opts = [])) as [Hno|Hturns].
  - rewrite (correlate_no_turns lines Hno). simpl. split_and!; try done; lia.
  - destruct (correlate_result lines Hturns) as (_ & _ & -> & -> & -> & ->).
    pose proof (Inv_read lines _ (Inv_init Hturns)) as [_ He _ Hl Hb Hok _ _ _].
    destruct (read_lines_bound lines (initState opts)) as [H1 H2]. simpl in H1, H2.
    assert (0 ≤ total recordCount (perTurn (read lines (initState opts)))) as Hnn.
    { apply total_nonneg. eapply Forall_impl; [exact Hok|]. by intros b (? & _). }
    rewrite !total_map. simpl.
    change (fun x => recordCount x) with recordCount.
    change (fun x => recordBytes x) with recordBytes.
    split_and!; [done|lia|lia|lia|lia|done|].
    apply Forall_forall. intros p Hp.
    apply list_elem_of_In, in_map_iff in Hp as (b & <- & Hb').
    apply list_elem_of_In in Hb'.
    destruct (proj1 (Forall_forall _ _) Hok b Hb') as (? & ? & _). done.
Qed.

(** The mode is [none] exactly when no record was attributed to a turn;
    then every entry of the result is empty, and a note says so. *)
Theorem mode_none_iff_nothing_attributed lines :
  let r := correlate lines in
  (mode r = none ↔ total r_recordCount (c_perTurn r) = 0) ∧
  (mode r = none → Forall emptyEntry (c_perTurn r) ∧ notes r ≠ []).
Proof.
  cbv zeta. destruct (decide (turns opts = [])) as [Hno|Hturns].
  - rewrite (correlate_no_turns lines Hno). simpl. done.
  - destruct (correlate_result lines Hturns) as (_ & Hm & _ & _ & _ & Hp).
    rewrite Hp, Hm, total_map. simpl.
    change (fun x => recordCount x) with recordCount.
    pose proof (Inv_read lines _ (Inv_init Hturns)) as [_ _ Hu _ _ _ _ _ Hat].
    set (st := read lines (initState opts)) in *.
    assert (mode (correlate lines) = none → notes (correlate lines) ≠ []) as Hnotes.
    { rewrite Hm. unfold correlateJsonlToTurns. fold st.
      destruct (turns opts); [done|].
      destruct (0 <? usedTimestamps st); [done|].
      destruct (usedSequential st); done. }
    destruct (0 <? usedTimestamps st); simpl in Hat.
    { split; [split; [done|lia]|done]. }
    destruct (usedSequential st); simpl in Hat.
    { split; [split; [done|lia]|done]. }
    rewrite Hat. pose proof initBuckets_empty as Hempty.
    split; [split; [intros _|done]|intros _; split].
    + apply total_zero. eapply Forall_impl; [exact Hempty|]. naive_solver.
    + apply Forall_forall. intros p Hin.
      apply list_elem_of_In, in_map_iff in Hin as (b & <- & Hb').
      apply list_elem_of_In in Hb'.
      destruct (proj1 (Forall_forall _ _) Hempty b Hb') as (H1 & H2 & H3 & H4 & H5 & H6).
      unfold emptyEntry, toPerTurn. simpl. rewrite H1, H2, H3, H4, H5, H6. done.
    + apply Hnotes. rewrite Hm. done.
Qed.

(** The tool names of an entry are sorted in the order of their UTF-16
    code units and pairwise distinct, none is empty or longer than 120 code
    units, and the tool use count of the entry is at least their number. *)
Theorem tool_names_of_the_result lines :
  Forall (fun p => sortedNames (r_toolUseNames p) ∧ NoDup (r_toolUseNames p) ∧
                   Forall toolNameOk (r_toolUseNames p) ∧
                   Z.of_nat (length (r_toolUseNames p)) ≤ r_toolUseCount p)
    (c_perTurn (correlate lines)).
Proof.
  destruct (decide (turns opts = [])) as [Hno|Hturns].
  - rewrite (correlate_no_turns lines Hno). simpl. done.
  - destruct (correlate_result lines Hturns) as (_ & _ & _ & _ & _ & ->).
    pose proof (Inv_read lines _ (Inv_init Hturns)) as [_ _ _ _ _ Hok _ _ _].
    apply Forall_forall. intros p Hin.
    apply list_elem_of_In, in_map_iff in Hin as (b & <- & Hb').
    apply list_elem_of_In in Hb'.
    destruct (proj1 (Forall_forall _ _) Hok b Hb') as (_ & _ & H3 & H4 & H5).
    unfold toPerTurn. simpl. split_and!.
    + apply sortNames_sorted.
    + by rewrite sortNames_perm.
    + by rewrite sortNames_perm.
    + by rewrite sortNames_perm.
Qed.

(** ** Time stamps *)

Lemma ascending_lookup l : ∀ i j a b,
  ascending l = true → (i ≤ j)%nat → l !! i = Some a → l !! j = Some b → a ≤ b.
Proof.
  induction l as [|x l IH]; intros i j a b Hasc Hij Hi Hj; [done|].
  assert (ascending l = true ∧ ∀ y, l !! 0%nat = Some y → x ≤ y) as [Hl Hx].
  { simpl in Hasc. destruct l as [|y l]; [done|].
    apply andb_true_iff in Hasc as [Hxy%Z.leb_le Hl]. split; [done|].
    intros z [= <-]. done. }
  destruct i as [|i], j as [|j]; simpl in *; simplify_eq; [lia| |lia|].
  - destruct l as [|y l]; [done|].
    specialize (Hx y eq_refl). specialize (IH 0%nat j y b Hl).
    etrans; [exact Hx|]. apply IH; [lia|done|done].
  - apply (IH i j); [done|lia|done|done].
Qed.

(** Where a record with a time stamp goes.  The pointer moves forward only
    and stays within the turns; every turn it passes started at or before
    the time stamp, and (the turn times not decreasing) every turn after
    the new pointer started later.  So when the turn that the pointer was at
    had started by the time stamp, the record goes to the latest turn that
    had started by then.  When it had not, as for a record stamped before
    the first turn or one that comes out of order, the pointer stays and the
    record goes to that turn, which had not started. *)
Theorem record_goes_to_latest_turn epochMs ptr :
  ascending (turnEpochMs opts) = true →
  (ptr < length (turns opts))%nat →
  (ptr ≤ advanceTurnPtr opts epochMs ptr < length (turns opts))%nat ∧
  (∀ j e, (ptr < j ≤ advanceTurnPtr opts epochMs ptr)%nat →
          turnEpochMs opts !! j = Some e → e ≤ epochMs) ∧
  (∀ j e, (advanceTurnPtr opts epochMs ptr < j)%nat →
          turnEpochMs opts !! j = Some e → epochMs < e) ∧
  (∀ e0, turnEpochMs opts !! ptr = Some e0 → e0 ≤ epochMs →
         ∃ e, turnEpochMs opts !! advanceTurnPtr opts epochMs ptr = Some e ∧ e ≤ epochMs) ∧
  (∀ e0, turnEpochMs opts !! ptr = Some e0 → epochMs < e0 →
         advanceTurnPtr opts epochMs ptr = ptr).
Proof.
  intros Hasc Hptr.
  destruct (advanceTurnPtr_bounds epochMs ptr) as [Hge Hlt]. specialize (Hlt Hptr).
  unfold advanceTurnPtr in *.
  destruct (advanceOver_spec epochMs (drop (S ptr) (turnEpochMs opts)) ptr)
    as (_ & Hpassed & Hnext).
  set (ptr' := advanceOver epochMs (drop (S ptr) (turnEpochMs opts)) ptr) in *.
  assert (∀ j e, (ptr < j ≤ ptr')%nat → turnEpochMs opts !! j = Some e → e ≤ epochMs)
    as Hpass.
  { intros j e [Hj1 Hj2] He. apply (Hpassed (j - S ptr)%nat); [lia|].
    rewrite lookup_drop. by replace (S ptr + (j - S ptr))%nat with j by lia. }
  assert (length (turnEpochMs opts) = length (turns opts)) as Hlen
    by (unfold turnEpochMs; apply length_map).
  split_and!; [done|done|done| | |].
  - intros j e Hj He.
    destruct (turnEpochMs opts !! S ptr') as [e0|] eqn:He0.
    + assert (epochMs < e0) as Hlt0.
      { apply Hnext. rewrite lookup_drop.
        by replace (S ptr + (ptr' - ptr))%nat with (S ptr') by lia. }
      assert (e0 ≤ e)
        by (apply (ascending_lookup (turnEpochMs opts) (S ptr') j); try done; lia).
      lia.
    + apply lookup_ge_None in He0. apply lookup_lt_Some in He. lia.
  - intros e0 He0 Hle. destruct (decide (ptr' = ptr)) as [->|Hne]; [by exists e0|].
    destruct (lookup_lt_is_Some_2 (turnEpochMs opts) ptr') as [e He]; [lia|].
    exists e. split; [done|]. apply (Hpass ptr'); [lia|done].
  - intros e0 He0 Hlt0. destruct (decide (ptr' = ptr)) as [|Hne]; [done|]. exfalso.
    destruct (lookup_lt_is_Some_2 (turnEpochMs opts) (S ptr)) as [e1 He1]; [lia|].
    assert (e1 ≤ epochMs) by (apply (Hpass (S ptr)); [lia|done]).
    assert (e0 ≤ e1)
      by (apply (ascending_lookup (turnEpochMs opts) ptr (S ptr)); try done; lia).
    lia.
Qed.

(** ** What the result depends on *)

Local Abbreviation viewOf := (view JSON_parse Date_parse).

Lemma alter_ext_buckets (f g : Bucket → Bucket) (pos : nat) (l : list Bucket) :
  (∀ b, f b = g b) → alter f pos l = alter g pos l.
Proof.
  intros H. revert pos. induction l as [|b l IH]; intros [|pos]; simpl; try done.
  - by rewrite H.
  - f_equal. apply IH.
Qed.

Lemma applyToTurn_view ptr line1 rec1 line2 rec2 buckets :
  Js.byteLength line1 = Js.byteLength line2 →
  extractToolNames rec1 = extractToolNames rec2 →
  extractTokenUsage rec1 = extractTokenUsage rec2 →
  applyToTurn opts ptr line1 rec1 buckets = applyToTurn opts ptr line2 rec2 buckets.
Proof.
  intros Hb Ht Hu. unfold applyToTurn.
  destruct (turns opts !! ptr) as [t|]; [|done].
  destruct (perTurnByIndex (index t) buckets) as [pos|]; [|done].
  apply alter_ext_buckets. intros b. unfold applyRecord. by rewrite Hb, Ht, Hu.
Qed.

Lemma processLine_blank st line : viewOf line = None → step st line = (st, false).
Proof.
  unfold view, nonBlank, processLine. by destruct (Js.nonEmpty (Js.trim line)).
Qed.

Lemma processLine_view st line1 line2 v :
  viewOf line1 = Some v → viewOf line2 = Some v → step st line1 = step st line2.
Proof.
  unfold view, nonBlank, processLine.
  destruct (Js.nonEmpty (Js.trim line1)); [|done].
  destruct (Js.nonEmpty (Js.trim line2)); [|done]. simpl.
  intros [= <-] [= Hb Hr]. rewrite Hb.
  destruct (JSON_parse (Js.trim line1)) as [rec1|],
           (JSON_parse (Js.trim line2)) as [rec2|]; try done.
  simpl in Hr. injection Hr as He Hu Ht Hus. rewrite He, Hu.
  destruct (extractEpochMs Date_parse rec1) as [epochMs|].
  - destruct (epochMs <? startWindowMs opts); [done|].
    destruct (match endWindowMs opts with
              | Some e => (e <? epochMs) && (0 <? usedTimestamps st)
              | None => false
              end); [done|].
    by rewrite (applyToTurn_view _ line2 rec2 line1 rec1).
  - set (seq := if bool_decide (extractRole rec1 = Some user)
                then seqTurnPtr st + 1 else seqTurnPtr st).
    destruct ((0 <=? seq) && (seq <? numTurns opts)); [|done].
    by rewrite (applyToTurn_view _ line2 rec2 line1 rec1).
Qed.

Lemma read_blank lines : ∀ st, omap viewOf lines = [] → read lines st = st.
Proof.
  induction lines as [|line lines IH]; intros st H; [done|]. simpl in *.
  destruct (viewOf line) eqn:Hv; [done|].
  rewrite (processLine_blank st line Hv). by apply IH.
Qed.

Lemma read_view lines1 : ∀ lines2 st,
  omap viewOf lines1 = omap viewOf lines2 → read lines1 st = read lines2 st.
Proof.
  induction lines1 as [|a lines1 IH]; intros lines2 st H.
  - symmetry. by apply read_blank.
  - simpl in H. destruct (viewOf a) as [v|] eqn:Ha.
    2:{ simpl. rewrite (processLine_blank st a Ha). by apply IH. }
    induction lines2 as [|b lines2 IH2]; [done|].
    simpl in H. destruct (viewOf b) as [v'|] eqn:Hb.
    2:{ simpl. rewrite (processLine_blank st b Hb).
        rewrite <- (IH2 H). done. }
    injection H as -> H. simpl.
    rewrite (processLine_view st a b v' Ha Hb).
    destruct (step st b) as [st' stop]. destruct stop; [done|by apply IH].
Qed.

(** The result depends on the log only through the byte length of its
    non-blank lines and, for those that parse, the time stamp, whether the
    role is [user], the tool names and the token counts: two logs that agree
    on these give the same result, whatever else their records hold. *)
Theorem correlation_noninterference lines1 lines2 :
  omap (view JSON_parse Date_parse) lines1 = omap (view JSON_parse Date_parse) lines2 →
  correlateJsonlToTurns JSON_parse Date_parse opts lines1 =
  correlateJsonlToTurns JSON_parse Date_parse opts lines2.
Proof.
  intros H. unfold correlateJsonlToTurns.
  by rewrite (read_view lines1 lines2 (initState opts) H).
Qed.

End WithRuntime.

(** ** Witnesses *)


(** A record stamped 2.5 s into a session of three turns, with the pointer
    at the first turn, goes to the second, which had started by then. *)
Lemma record_goes_to_latest_turn_witness :
  ascending (turnEpochMs threeTurns) = true ∧
  (0 < length (turns threeTurns))%nat ∧
  advanceTurnPtr threeTurns 5002500 0 = 1%nat ∧
  (∀ j e, (advanceTurnPtr threeTurns 5002500 0 < j)%nat →
          turnEpochMs threeTurns !! j = Some e → 5002500 < e) ∧
  (∃ e, turnEpochMs threeTurns !! advanceTurnPtr threeTurns 5002500 0 = Some e ∧
        e ≤ 5002500).
Proof.
  split; [reflexivity|]. split; [simpl; lia|]. split; [reflexivity|].
  destruct (record_goes_to_latest_turn threeTurns 5002500 0)
    as (_ & _ & Hlater & Hstarted & _); [reflexivity|simpl; lia|].
  split; [exact Hlater|]. apply (Hstarted 5001000); [reflexivity|lia].
Defined.

(** A record stamped before the first turn of the session, but within the
    ten seconds before the session, is counted for the first turn. *)
Example record_before_the_first_turn :
  advanceTurnPtr threeTurns 4995000 0 = 0%nat ∧
  startWindowMs threeTurns ≤ 4995000 < 5001000.
Proof. split; [reflexivity|]. vm_compute. split; [discriminate|reflexivity]. Qed.

(** A line of white space outside ASCII is blank; a tool name is measured
    and cut in code units, between the two surrogates of a character if the
    cut falls there; and the names are sorted by code units, a character of
    two surrogates before U+E000. *)
Example lines_and_names_outside_ascii :
  c_parsedLines (correlateJsonlToTurns textParse demoDate demoOptions [Js.noBreakSpace]) = 0 ∧
  extractToolNames (JObj [("tool_name", JStr (Js.repeat 70 Js.eAcute))]) =
    [Js.repeat 70 Js.eAcute] ∧
  List.map Js.length
    (extractToolNames (JObj [("tool_name", JStr ("a" ++ Js.repeat 60 Js.grinningFace))])) =
    [120%nat] ∧
  sortNames [Js.privateUse; Js.grinningFace; "b"] = ["b"; Js.grinningFace; Js.privateUse].
Proof. by vm_compute. Qed.

(** Two logs of one user record each, of the same length and with different
    text, one followed by a blank line. *)
Lemma correlation_noninterference_witness :
  omap (view textParse demoDate) ["abc"; " "] = omap (view textParse demoDate) ["xyz"] ∧
  correlateJsonlToTurns textParse demoDate demoOptions ["abc"; " "] =
  correlateJsonlToTurns textParse demoDate demoOptions ["xyz"].
Proof.
  split; [reflexivity|].
  apply (correlation_noninterference textParse demoDate demoOptions ["abc"; " "] ["xyz"]).
  reflexivity.
Defined.

End CorrelateResultFacts.

(* ===================================================================== *)
(** * Properties of the selection by content and of the samples           *)
(* ===================================================================== *)

Module JsonlSamplesFacts.
Import Schema JsonlSelect JsonlSelectSpec JsonlSamples.

(** ** The candidates that are scored *)

Lemma insertByMtime_perm c l : insertByMtime c l ≡ₚ c :: l.
Proof.
  induction l as [|x l IH]; simpl; [done|].
  destruct (mtimeMs x <=? mtimeMs c); [done|]. rewrite IH. apply Permutation_swap.
Qed.

Lemma sortByMtime_perm l : sortByMtime l ≡ₚ l.
Proof.
  induction l as [|x l IH]; simpl; [done|]. by rewrite insertByMtime_perm, IH.
Qed.

(** Every element is at least as recent as all that follow it. *)
Lemma insertByMtime_sorted c l :
  StronglySorted (fun a b => mtimeMs b ≤ mtimeMs a) l →
  StronglySorted (fun a b => mtimeMs b ≤ mtimeMs a) (insertByMtime c l).
Proof.
  induction 1 as [|x l Hl IH Hx]; simpl.
  - by repeat constructor.
  - destruct (mtimeMs x <=? mtimeMs c) eqn:E.
    + apply Z.leb_le in E. constructor; [by constructor|].
      constructor; [done|]. eapply Forall_impl; [exact Hx|]. simpl. lia.
    + apply Z.leb_gt in E. constructor; [done|].
      rewrite insertByMtime_perm. constructor; [lia|done].
Qed.

Lemma sortByMtime_sorted l :
  StronglySorted (fun a b => mtimeMs b ≤ mtimeMs a) (sortByMtime l).
Proof.
  induction l as [|x l IH]; simpl; [constructor|]. by apply insertByMtime_sorted.
Qed.

Lemma StronglySorted_split {A} (R : A → A → Prop) l1 l2 :
  StronglySorted R (l1 ++ l2) → ∀ a b, a ∈ l1 → b ∈ l2 → R a b.
Proof.
  induction l1 as [|x l1 IH]; intros Hs a b Ha Hb; [by apply elem_of_nil in Ha|].
  simpl in Hs. apply StronglySorted_inv in Hs as [Hs Hx].
  apply elem_of_cons in Ha as [->|Ha]; [|by apply IH].
  apply (proj1 (Forall_forall _ _) Hx). apply elem_of_app. by right.
Qed.

Section Scoring.
Variable score : JsonlCandidate → Z.

Local Abbreviation pick := (pickBestCandidateForConversation score).



Lemma betterScored_keeps b s seen c :
  bestOf score b s seen →
  ∃ b' s', betterScored score (Some (b, s)) c = Some (b', s') ∧
           bestOf score b' s' (seen ++ [c]).
Proof.
  intros (Hs & Hin & Hmax). unfold betterScored.
  destruct ((s <? score c) || ((score c =? s) && (sizeBytes b <? sizeBytes c))) eqn:E.
  - exists c, (score c). split; [done|]. split_and!; [done|set_solver|].
    intros x [Hx|Hx%list_elem_of_singleton]%elem_of_app; [|subst x; lia].
    destruct (Hmax x Hx) as [H1 H2].
    apply orb_true_iff in E as [E%Z.ltb_lt|[E1%Z.eqb_eq E2%Z.ltb_lt]%andb_true_iff]; [lia|].
    split; [lia|]. intros Hxs. assert (sizeBytes x ≤ sizeBytes b) by (apply H2; lia). lia.
  - exists b, s. split; [done|]. split_and!; [done|set_solver|].
    intros x [Hx|Hx%list_elem_of_singleton]%elem_of_app; [by apply Hmax|subst x].
    apply orb_false_iff in E as [E1%Z.ltb_ge E2].
    split; [lia|]. intros Hcs.
    apply andb_false_iff in E2 as [E2%Z.eqb_neq|E2%Z.ltb_ge]; [done|lia].
Qed.

Lemma fold_betterScored cs : ∀ b s seen,
  bestOf score b s seen →
  ∃ b' s', fold_left (betterScored score) cs (Some (b, s)) = Some (b', s') ∧
           bestOf score b' s' (seen ++ cs).
Proof.
  induction cs as [|c cs IH]; intros b s seen Hb.
  - exists b, s. by rewrite app_nil_r.
  - destruct (betterScored_keeps b s seen c Hb) as (b1 & s1 & E & Hb1).
    destruct (IH b1 s1 (seen ++ [c]) Hb1) as (b2 & s2 & E2 & Hb2).
    exists b2, s2. rewrite <- app_assoc in Hb2. split; [|done].
    change (fold_left (betterScored score) (c :: cs) (Some (b, s)))
      with (fold_left (betterScored score) cs (betterScored score (Some (b, s)) c)).
    by rewrite E.
Qed.

(** With read access allowed, the selection scores no more than the 25 most
    recently modified candidates and picks among them one of the highest
    score, and among those of that score one of the greatest size; it picks
    a candidate whenever there is one. *)
Theorem content_selection candidates :
  candidates ≠ [] →
  (length (toScore candidates) ≤ 25)%nat ∧
  (∃ rest, toScore candidates ++ rest ≡ₚ candidates ∧
           ∀ c d, c ∈ toScore candidates → d ∈ rest → mtimeMs d ≤ mtimeMs c) ∧
  ∃ best, pick candidates = Some best ∧ best ∈ candidates ∧
          bestOf score best (score best) (toScore candidates).
Proof.
  intros Hne. unfold toScore. split_and!.
  - rewrite length_take. lia.
  - exists (drop 25 (sortByMtime candidates)). rewrite take_drop.
    split; [apply sortByMtime_perm|]. intros c d Hc Hd.
    apply (StronglySorted_split (fun a b => mtimeMs b ≤ mtimeMs a)
             (take 25 (sortByMtime candidates)) (drop 25 (sortByMtime candidates)));
      [|done|done].
    rewrite take_drop. apply sortByMtime_sorted.
  - assert (∀ c, c ∈ take 25 (sortByMtime candidates) → c ∈ candidates) as Hsub.
    { intros c Hc. rewrite <- (sortByMtime_perm candidates).
      rewrite <- (take_drop 25 (sortByMtime candidates)). apply elem_of_app. by left. }
    unfold pickBestCandidateForConversation, toScore.
    destruct (take 25 (sortByMtime candidates)) as [|c cs] eqn:Ht.
    { exfalso. apply Hne. apply Permutation_nil_r.
      rewrite <- (sortByMtime_perm candidates).
      destruct (sortByMtime candidates); [done|]. done. }
    simpl.
    destruct (fold_betterScored cs c (score c) [c]) as (b & s & E & Hs & Hin & Hmax).
    { split_and!; [done|set_solver|].
      intros x ->%list_elem_of_singleton. done. }
    rewrite E. exists b. subst s. split_and!; [done|by apply Hsub|].
    by split_and!.
Qed.

End Scoring.

(** ** The selected path, its hash and the samples *)

Section WithFileSystem.
Variable sha256Hex : string → string.
Variable pathExists : string → bool.
Variable isDirectory : string → bool.
Variable path_resolve : string → string.
Variable path_join : string → string → string.
Variable defaultProjectsDir : string.
Variable findRecentJsonlCandidates : string → Z → nat → list JsonlCandidate.
Variable pickBest : list JsonlCandidate → Z → option JsonlCandidate.
Variable fileSize : string → option Z.

Local Abbreviation ensure :=
  (ensureActivePath sha256Hex pathExists isDirectory path_resolve path_join
     defaultProjectsDir findRecentJsonlCandidates pickBest).
Local Abbreviation fresh :=
  (selectFresh sha256Hex pathExists isDirectory path_resolve path_join
     defaultProjectsDir findRecentJsonlCandidates pickBest).
Local Abbreviation record :=
  (recordOnTurn sha256Hex pathExists isDirectory path_resolve path_join
     defaultProjectsDir findRecentJsonlCandidates pickBest fileSize).

Lemma selectFresh_cases t :
  fresh t = (None, t) ∨
  ∃ a, fresh t = (Some a, select a (sha256Hex a) t).
Proof.
  unfold selectFresh.
  destruct (truthy (overridePath t)) as [o|].
  { destruct (pathExists (path_resolve o)); [right; by eexists|by left]. }
  destruct (negb (pathExists _)); [by left|].
  destruct (scanRoots _ _ _) as [|c cs]; [by left|].
  destruct (if allowReadForSelection t then _ else _) as [b|]; [right; by eexists|by left].
Qed.

Lemma ensureActivePath_cases t :
  ensure t = (None, t) ∨
  (∃ a, ensure t = (Some a, t) ∧ activePath t = Some a) ∨
  ∃ a, ensure t = (Some a, select a (sha256Hex a) t).
Proof.
  unfold ensureActivePath.
  destruct (truthy (activePath t)) as [a|] eqn:Ha.
  - destruct (pathExists a).
    + right. left. exists a. split; [done|].
      unfold truthy in Ha. destruct (activePath t) as [x|]; [|done].
      destruct (Js.nonEmpty x); by simplify_eq.
    + destruct (selectFresh_cases t) as [->|[a' ->]]; [by left|right; right; by eexists].
  - destruct (selectFresh_cases t) as [->|[a' ->]]; [by left|right; right; by eexists].
Qed.

Lemma ensureActivePath_spec t :
  hashMatches sha256Hex t →
  hashMatches sha256Hex (ensure t).2 ∧
  ((ensure t).1 ≠ None → activePath (ensure t).2 = (ensure t).1) ∧
  ((ensure t).1 = None → (ensure t).2 = t) ∧
  sameOptions t (ensure t).2 ∧ samples (ensure t).2 = samples t.
Proof.
  intros Hh.
  destruct (ensureActivePath_cases t) as [->|[(a & -> & Ha)|(a & ->)]]; simpl.
  - done.
  - done.
  - split_and!; done.
Qed.

(** The path that [ensureActivePath] returns is the tracker's active path,
    and the stored hash is the hash of that path; a selection that fails
    changes nothing; no selection touches the options or the samples; and a
    new tracker has neither path nor hash. *)
Theorem selection_keeps_the_hash t :
  hashMatches sha256Hex t →
  hashMatches sha256Hex (ensure t).2 ∧
  ((ensure t).1 ≠ None → activePath (ensure t).2 = (ensure t).1) ∧
  ((ensure t).1 = None → (ensure t).2 = t) ∧
  sameOptions t (ensure t).2 ∧ samples (ensure t).2 = samples t ∧
  ∀ startedAt override cwd allowRead projects,
    hashMatches sha256Hex (newJsonlTracker startedAt override cwd allowRead projects).
Proof.
  intros Hh. destruct (ensureActivePath_spec t Hh) as (H1 & H2 & H3 & H4 & H5).
  split_and!; done.
Qed.


End WithFileSystem.

(** ** Witnesses *)

(** Of three candidates of one modification time, two share the highest
    score; the larger of them is picked. *)
Lemma content_selection_witness :
  scoredDemo ≠ [] ∧
  pickBestCandidateForConversation demoScore scoredDemo =
    Some (mkCandidate "/p/c.jsonl" 1000 30) ∧
  ∃ best, pickBestCandidateForConversation demoScore scoredDemo = Some best ∧
          best ∈ scoredDemo ∧
          bestOf demoScore best (demoScore best) (toScore scoredDemo).
Proof.
  split; [discriminate|]. split; [reflexivity|].
  apply (content_selection demoScore scoredDemo). discriminate.
Defined.

(** S4 of the specification: the tracker starts without a selection and
    selects the conversation log. *)
Lemma selection_keeps_the_hash_witness :
  hashMatches (fun s => s) s4Tracker ∧
  hashMatches (fun s => s)
    (ensureActivePath (fun s => s) (fun _ => true) (fun _ => true) (fun s => s) s4Join
       "/home/.claude/projects" s4Scan (fun _ _ => None) s4Tracker).2.
Proof.
  split; [reflexivity|].
  exact (proj1 (selection_keeps_the_hash (fun s => s) (fun _ => true) (fun _ => true)
                  (fun s => s) s4Join "/home/.claude/projects" s4Scan (fun _ _ => None)
                  s4Tracker eq_refl)).
Defined.


End JsonlSamplesFacts.

(* ===================================================================== *)
(** * Properties of the scan for external logs                            *)
(* ===================================================================== *)

Module JsonlScanFacts.
Import JsonlSelect JsonlScan.

Section WithFileSystem.
Variable readdir : string → option (list Dirent).
Variable stat : string → option (Js.number * Js.number).
Variable path_join : string → string → string.

Local Abbreviation entriesOf := (scanEntries stat path_join).
Local Abbreviation rounds := (scanQueue readdir stat path_join).
Local Abbreviation ok := (listed stat path_join).

(** The loop over the entries of a directory does not raise the potential,
    lists candidates only for entries counted below the bound, and lists
    only what it found. *)
Lemma scanEntries_inv dir depth since entries : ∀ st,
  let st' := entriesOf dir depth since entries st in
  (potential st' ≤ potential st)%nat ∧
  (length (candidates st') + (maxEntries - seen st') ≤
   length (candidates st) + (maxEntries - seen st))%nat ∧
  (Forall (ok since) (candidates st) → Forall (ok since) (candidates st')).
Proof.
  induction entries as [|entry rest IH]; intros st; simpl; [by split_and!|].
  destruct (maxEntries <? S (seen st))%nat eqn:E.
  { apply Nat.ltb_lt in E. unfold potential. cbn [seen candidates queue].
    split_and!; [lia|lia|done]. }
  apply Nat.ltb_ge in E.
  assert (∀ st1, seen st1 = S (seen st) →
            (length (queue st1) ≤ S (length (queue st)))%nat →
            (length (candidates st1) ≤ S (length (candidates st)))%nat →
            (Forall (ok since) (candidates st) → Forall (ok since) (candidates st1)) →
            let st' := entriesOf dir depth since rest st1 in
            (potential st' ≤ potential st)%nat ∧
            (length (candidates st') + (maxEntries - seen st') ≤
             length (candidates st) + (maxEntries - seen st))%nat ∧
            (Forall (ok since) (candidates st) → Forall (ok since) (candidates st')))
    as Hnext.
  { intros st1 Hs Hq Hc Hok. destruct (IH st1) as (H1 & H2 & H3).
    unfold potential in *. rewrite Hs in *. split_and!; [lia|lia|auto]. }
  destruct (d_isDirectory entry).
  { apply Hnext; simpl; [done| |lia|done]. rewrite length_app. simpl. lia. }
  destruct (negb (d_isFile entry)); [apply Hnext; simpl; [done|lia|lia|done]|].
  destruct (negb (endsWith ".jsonl" (d_name entry))) eqn:Hends;
    [apply Hnext; simpl; [done|lia|lia|done]|].
  apply negb_false_iff in Hends.
  destruct (stat (path_join dir (d_name entry))) as [[[mtimeMs|] size]|] eqn:Hstat;
    [|apply Hnext; simpl; [done|lia|lia|done]..].
  destruct (mtimeMs <? since) eqn:Hm; [apply Hnext; simpl; [done|lia|lia|done]|].
  apply Z.ltb_ge in Hm.
  apply Hnext; simpl; [done|lia| |].
  - rewrite length_app. simpl. lia.
  - intros Hall. apply Forall_app. split; [done|]. apply Forall_singleton.
    split; [done|]. simpl. exists dir, (d_name entry), size. by split_and!.
Qed.

(** Enough rounds give a result, the same for any number of rounds above
    the potential. *)
Lemma scanQueue_enough since maxDepth fuel : ∀ st,
  (potential st < fuel)%nat →
  (length (candidates st) + (maxEntries - seen st) ≤ maxEntries)%nat →
  Forall (ok since) (candidates st) →
  ∃ cs, rounds fuel since maxDepth st = Some cs ∧
        (∀ fuel', (potential st < fuel')%nat → rounds fuel' since maxDepth st = Some cs) ∧
        (length cs ≤ maxEntries)%nat ∧ Forall (ok since) cs.
Proof.
  induction fuel as [|fuel IH]; intros st Hpot Hlen Hok; [lia|].
  assert (length (candidates st) ≤ maxEntries)%nat as Hc by lia.
  simpl. destruct (queue st) as [|[dir depth] rest] eqn:Hq.
  { exists (candidates st). split_and!; [done| |done|done].
    intros [|fuel'] Hf; [lia|]. simpl. by rewrite Hq. }
  set (st0 := mkScan (seen st) (candidates st) rest).
  assert (potential st = S (potential st0)) as Hst0
    by (unfold potential; rewrite Hq; simpl; lia).
  assert (∀ st1, (potential st1 ≤ potential st0)%nat →
            (length (candidates st1) + (maxEntries - seen st1) ≤ maxEntries)%nat →
            Forall (ok since) (candidates st1) →
            (∀ fuel', (potential st < fuel')%nat →
               rounds fuel' since maxDepth st =
               rounds (pred fuel') since maxDepth st1) →
            ∃ cs, rounds fuel since maxDepth st1 = Some cs ∧
                  (∀ fuel', (potential st < fuel')%nat →
                     rounds fuel' since maxDepth st = Some cs) ∧
                  (length cs ≤ maxEntries)%nat ∧ Forall (ok since) cs) as Hnext.
  { intros st1 Hp1 Hl1 Hok1 Hstep.
    destruct (IH st1) as (cs & E & Hall & Hcs & Hokcs); [lia|done|done|].
    exists cs. split_and!; [done| |done|done].
    intros fuel' Hf. rewrite (Hstep fuel' Hf). apply Hall. lia. }
  destruct (maxDepth <? depth)%nat eqn:Hd.
  { apply Hnext; [done|done|done|].
    intros [|fuel'] Hf; [lia|]. simpl. by rewrite Hq, Hd. }
  destruct (maxEntries <? seen st)%nat eqn:Hs.
  { exists (candidates st). split_and!; [done| |done|done].
    intros [|fuel'] Hf; simpl; [lia|]. by rewrite Hq, Hd, Hs. }
  destruct (readdir dir) as [entries|] eqn:Hr.
  - destruct (scanEntries_inv dir depth since entries st0) as (H1 & H2 & H3).
    apply Hnext; [done|simpl in H2; lia|by apply H3|].
    intros [|fuel'] Hf; [lia|]. simpl. by rewrite Hq, Hd, Hs, Hr.
  - apply Hnext; [done|done|done|].
    intros [|fuel'] Hf; [lia|]. simpl. by rewrite Hq, Hd, Hs, Hr.
Qed.

(** The scan ends, whatever the file system holds (even a directory that
    contains itself): [maxEntries + 2] rounds of the loop suffice and more
    rounds change nothing.  It lists at most [maxEntries] candidates, each a
    [.jsonl] entry of a directory that it read, with the modification time
    that [stat] gave, which is not before [since]. *)
Theorem scan_is_bounded rootDir since maxDepth :
  (∀ fuel, (maxEntries + 2 ≤ fuel)%nat →
     scanQueue readdir stat path_join fuel since maxDepth (scanStart rootDir) =
     Some (findRecentJsonlCandidates readdir stat path_join rootDir since maxDepth)) ∧
  (length (findRecentJsonlCandidates readdir stat path_join rootDir since maxDepth)
   ≤ maxEntries)%nat ∧
  Forall (listed stat path_join since)
    (findRecentJsonlCandidates readdir stat path_join rootDir since maxDepth).
Proof.
  destruct (scanQueue_enough since maxDepth (maxEntries + 2) (scanStart rootDir))
    as (cs & E & Hall & Hlen & Hok).
  - unfold potential, scanStart. cbn [seen candidates queue length]. lia.
  - unfold scanStart. cbn [seen candidates queue length]. lia.
  - done.
  - unfold findRecentJsonlCandidates. rewrite E.
    change (default [] (Some cs)) with cs. split_and!; [|done|done].
    intros fuel Hf. apply Hall.
    unfold potential, scanStart. cbn [seen candidates queue length]. lia.
Qed.

End WithFileSystem.

(** In a directory that holds itself the scan still ends, and lists the log
    once for each time it reads the directory. *)
Example scan_of_a_loop :
  length (findRecentJsonlCandidates loopDir loopStat loopJoin "/p" 0 6) = 7%nat.
Proof. vm_compute. reflexivity. Qed.

End JsonlScanFacts.

(* ===================================================================== *)
(** * Properties of the marker watcher                                    *)
(* ===================================================================== *)

Module MarkerWatcherFacts.
Import Schema Markers MarkerWatcher.

(** ** Strings *)

Lemma append_cons c (a b : string) : (String c a ++ b)%string = String c (a ++ b)%string.
Proof. reflexivity. Qed.

Lemma append_length (a b : string) :
  String.length (a ++ b)%string = (String.length a + String.length b)%nat.
Proof.
  induction a as [|x a IH]; [done|]. rewrite append_cons. simpl. by rewrite IH.
Qed.

Lemma append_assoc_string (a b c : string) :
  ((a ++ b) ++ c)%string = (a ++ (b ++ c))%string.
Proof.
  induction a as [|x a IH]; [done|]. rewrite !append_cons. by rewrite IH.
Qed.

Lemma substring_prefix (b c : string) :
  String.substring 0 (String.length b) (b ++ c)%string = b.
Proof.
  induction b as [|x b IH]; [by destruct c|]. rewrite append_cons. simpl. by rewrite IH.
Qed.

Lemma substring_mid (a b c : string) :
  String.substring (String.length a) (String.length b) (a ++ (b ++ c))%string = b.
Proof.
  induction a as [|x a IH]; [exact (substring_prefix b c)|]. rewrite append_cons. simpl. done.
Qed.

Lemma concatLines_app l1 l2 :
  concatLines (l1 ++ l2) = (concatLines l1 ++ concatLines l2)%string.
Proof.
  induction l1 as [|x l1 IH]; [done|].
  change (concatLines ((x :: l1) ++ l2))
    with (x ++ String newline (concatLines (l1 ++ l2)))%string.
  change (concatLines (x :: l1)) with (x ++ String newline (concatLines l1))%string.
  by rewrite IH, append_assoc_string, append_cons.
Qed.

Lemma concatLines_length_app l1 l2 :
  String.length (concatLines (l1 ++ l2)) =
  (String.length (concatLines l1) + String.length (concatLines l2))%nat.
Proof. by rewrite concatLines_app, append_length. Qed.

Lemma concatLines_empty l : String.length (concatLines l) = 0%nat → l = [].
Proof.
  destruct l as [|line l]; [done|].
  change (concatLines (line :: l)) with (line ++ String newline (concatLines l))%string.
  rewrite append_length. simpl. lia.
Qed.

Lemma splitNewline_line line rest :
  (∀ c, In c (list_ascii_of_string line) → c ≠ newline) →
  splitNewline (line ++ String newline rest)%string = line :: splitNewline rest.
Proof.
  induction line as [|c line IH]; intros Hno.
  - change (splitNewline (String newline rest) = EmptyString :: splitNewline rest).
    reflexivity.
  - rewrite append_cons. simpl.
    assert (Ascii.eqb c newline = false) as ->.
    { apply Ascii.eqb_neq. apply Hno. by left. }
    rewrite IH; [done|]. intros x Hx. apply Hno. by right.
Qed.

Section WithRuntime.
Variable JSON_parse : string → Parsed.
Variable Date_parse : string → option Z.
Variable startedAtMsEpoch : Z.

Local Abbreviation handle := (handleLine JSON_parse Date_parse startedAtMsEpoch).
Local Abbreviation lines := (watchLines JSON_parse Date_parse startedAtMsEpoch).
Local Abbreviation event := (eventOf JSON_parse Date_parse startedAtMsEpoch).
Local Abbreviation whole := (wholeLine JSON_parse Date_parse startedAtMsEpoch).
Local Abbreviation resume1 := (resume JSON_parse Date_parse startedAtMsEpoch).
Local Abbreviation act1 := (act JSON_parse Date_parse startedAtMsEpoch).
Local Abbreviation watch1 := (watch JSON_parse Date_parse startedAtMsEpoch).
Local Abbreviation Seen1 := (Seen JSON_parse Date_parse startedAtMsEpoch).

Lemma splitNewline_lines pending :
  Forall whole pending →
  splitNewline (concatLines pending) = pending ++ [EmptyString].
Proof.
  induction 1 as [|line pending [Hno _] _ IH]; [done|].
  change (concatLines (line :: pending))
    with (line ++ String newline (concatLines pending))%string.
  by rewrite splitNewline_line, IH.
Qed.

Lemma watchLines_whole pending :
  Forall whole pending → lines (pending ++ [EmptyString]) = omap event pending.
Proof.
  induction 1 as [|line pending [_ Hab] _ IH]; simpl; [done|].
  unfold eventOf. destruct (handle line); [done|done|by rewrite IH].
Qed.

(** When [read] comes back, the tick has the lines between [lastSize] and
    the size that [stat] gave, and reports their markers. *)
Lemma read_reports done mid rest w :
  Forall whole mid →
  lastSize w = String.length (concatLines done) →
  phase w = AwaitRead (String.length (concatLines (done ++ mid))) →
  resume1 (concatLines (done ++ mid ++ rest)) w =
  (mkWatcher (stopped w) (String.length (concatLines (done ++ mid))) AwaitClose,
   omap event mid).
Proof.
  intros Hwhole Hsize Hphase. unfold resume. rewrite Hphase, Hsize.
  rewrite concatLines_length_app.
  replace (String.length (concatLines done) + String.length (concatLines mid) -
           String.length (concatLines done))%nat
    with (String.length (concatLines mid)) by lia.
  rewrite !concatLines_app, substring_mid, splitNewline_lines by done.
  by rewrite watchLines_whole.
Qed.

Lemma appended_snoc sched a :
  appended (sched ++ [a]) =
  appended sched ++ match a with Append line => [line] | _ => [] end.
Proof. unfold appended. rewrite omap_app. by destruct a. Qed.

Lemma tickBegin_cases w :
  tickBegin w = w ∨ (phase w = NoTick ∧ tickBegin w = set_phase AwaitStat w).
Proof.
  unfold tickBegin, inFlight. destruct (stopped w); [by left|].
  destruct (phase w); auto.
Qed.

Lemma Seen_init : Seen1 [] watching0.
Proof. split; [done|]. exists [], []. split_and!; try done. by intros size [|]. Qed.

Lemma Seen_act sched s a :
  Forall whole (appended (sched ++ [a])) →
  Seen1 sched s → Seen1 (sched ++ [a]) (act1 s a).
Proof.
  intros Hwhole [Hc (done & pending & Happ & Hsize & Hrep & Hs1 & Hs2 & Hph)].
  rewrite appended_snoc in Hwhole.
  destruct a as [line| | | |]; cbn [act].
  - split; cbn [content watcher reported].
    + rewrite appended_snoc, concatLines_app, Hc. done.
    + exists done, (pending ++ [line]). rewrite appended_snoc, Happ, existsb_app.
      cbn [existsb isStop]. rewrite orb_false_r.
      split_and!; [by rewrite app_assoc|done..|].
      intros size Hsz. destruct (Hph size Hsz) as (mid & rest & -> & ->).
      exists mid, (rest ++ [line]). by rewrite app_assoc.
  - split; cbn [content watcher reported]; [by rewrite appended_snoc, app_nil_r|].
    exists done, pending. rewrite appended_snoc, !app_nil_r, existsb_app.
    cbn [existsb isStop]. rewrite orb_false_r.
    destruct (tickBegin_cases (watcher s)) as [->|[_ ->]]; [by split_and!|].
    cbn [set_phase stopped lastSize phase]. split_and!; try done. by intros size [|].
  - rewrite app_nil_r in Hwhole.
    assert (appended (sched ++ [Resume]) = appended sched) as Hsame
      by (by rewrite appended_snoc, app_nil_r).
    assert (existsb isStop (sched ++ [Resume]) = existsb isStop sched) as Hstops
      by (rewrite existsb_app; cbn [existsb isStop]; by rewrite orb_false_r).
    destruct (phase (watcher s)) as [| |size|size|] eqn:Hp.
    + unfold resume. rewrite Hp.
      split; cbn [content watcher reported]; [by rewrite Hsame|].
      exists done, pending. rewrite Hsame, Hstops, app_nil_r, Hp.
      split_and!; try done.
    + unfold resume. rewrite Hp.
      destruct (String.length (content s) <=? lastSize (watcher s))%nat eqn:E.
      * split; cbn [content watcher reported]; [by rewrite Hsame|].
        exists done, pending. rewrite Hsame, Hstops, app_nil_r.
        cbn [set_phase stopped lastSize phase]. split_and!; try done. by intros size [|].
      * split; cbn [content watcher reported]; [by rewrite Hsame|].
        exists done, pending. rewrite Hsame, Hstops, app_nil_r.
        cbn [set_phase stopped lastSize phase]. split_and!; try done.
        intros size [[= <-]|]; [|done]. exists pending, [].
        by rewrite app_nil_r, Hc, Happ.
    + unfold resume. rewrite Hp.
      split; cbn [content watcher reported]; [by rewrite Hsame|].
      exists done, pending. rewrite Hsame, Hstops, app_nil_r.
      cbn [set_phase stopped lastSize phase]. split_and!; try done.
      intros size' [|[= <-]]; [done|]. apply Hph. by left.
    + destruct (Hph size (or_intror eq_refl)) as (mid & rest & -> & ->).
      assert (Forall whole mid) as Hmid.
      { rewrite Happ in Hwhole. apply Forall_app in Hwhole as [_ Hw].
        by apply Forall_app in Hw as [? _]. }
      rewrite Hc, Happ, (read_reports done mid rest (watcher s) Hmid Hsize Hp).
      split; cbn [content watcher reported]; [by rewrite Hsame, Happ|].
      exists (done ++ mid), rest. rewrite Hsame, Hstops, Happ, omap_app, Hrep.
      split_and!; try done; [by rewrite app_assoc|]. by intros size' [|].
    + unfold resume. rewrite Hp.
      split; cbn [content watcher reported]; [by rewrite Hsame|].
      exists done, pending. rewrite Hsame, Hstops, app_nil_r.
      cbn [set_phase stopped lastSize phase]. split_and!; try done. by intros size [|].
  - split; cbn [content watcher reported]; [by rewrite appended_snoc, app_nil_r|].
    exists done, pending. rewrite appended_snoc, !app_nil_r, existsb_app.
    cbn [existsb isStop]. rewrite orb_false_r. unfold reject.
    destruct (phase (watcher s)) eqn:Hp; cbn [set_phase stopped lastSize phase];
      rewrite ?Hp; split_and!; try done; by intros size' [|].
  - split; cbn [content watcher reported]; [by rewrite appended_snoc, app_nil_r|].
    exists done, pending. rewrite appended_snoc, app_nil_r, existsb_app.
    cbn [existsb isStop stop stopped lastSize phase]. rewrite orb_true_r.
    split_and!; done.
Qed.

Lemma watch_snoc sched a : watch1 (sched ++ [a]) = act1 (watch1 sched) a.
Proof. unfold watch. by rewrite fold_left_app. Qed.

Lemma watch_app sched1 sched2 :
  watch1 (sched1 ++ sched2) = fold_left act1 sched2 (watch1 sched1).
Proof. unfold watch. by rewrite fold_left_app. Qed.

Lemma Seen_watch sched : Forall whole (appended sched) → Seen1 sched (watch1 sched).
Proof.
  induction sched as [|a sched IH] using rev_ind; intros Hwhole; [apply Seen_init|].
  rewrite watch_snoc. apply Seen_act; [done|]. apply IH.
  rewrite appended_snoc in Hwhole. by apply Forall_app in Hwhole as [? _].
Qed.

(** A tick in flight has ended when four calls have come back. *)
Lemma tickEnds_phase s :
  phase (watcher (fold_left act1 tickEnds s)) = NoTick.
Proof.
  unfold tickEnds. cbn [fold_left act].
  destruct s as [c [st sz ph] rep]. cbn [content watcher reported].
  destruct ph as [| |size|size|]; unfold resume; cbn [phase set_phase stopped lastSize];
    repeat (try destruct (_ <=? _)%nat; cbn [phase set_phase stopped lastSize content
              watcher reported]; try done).
Qed.

Lemma tickEnds_appended sched : appended (sched ++ tickEnds) = appended sched.
Proof. unfold tickEnds, appended. rewrite omap_app. simpl. by rewrite app_nil_r. Qed.

Lemma tickEnds_stops sched : existsb isStop (sched ++ tickEnds) = existsb isStop sched.
Proof. rewrite existsb_app. simpl. by rewrite orb_false_r. Qed.

(** The steps of a tick. *)
Lemma act_tick c sz rep :
  act1 (mkWatching c (mkWatcher false sz NoTick) rep) Tick =
  mkWatching c (mkWatcher false sz AwaitStat) rep.
Proof. reflexivity. Qed.

Lemma act_stat c st sz rep :
  act1 (mkWatching c (mkWatcher st sz AwaitStat) rep) Resume =
  mkWatching c (mkWatcher st sz (if (String.length c <=? sz)%nat then NoTick
                                 else AwaitOpen (String.length c))) (rep ++ []).
Proof.
  cbn [act content watcher reported]. unfold resume. cbn [phase lastSize].
  by destruct (String.length c <=? sz)%nat.
Qed.

Lemma act_open c st sz size rep :
  act1 (mkWatching c (mkWatcher st sz (AwaitOpen size)) rep) Resume =
  mkWatching c (mkWatcher st sz (AwaitRead size)) (rep ++ []).
Proof. reflexivity. Qed.

Lemma act_read done mid rest st rep :
  Forall whole mid →
  act1 (mkWatching (concatLines (done ++ mid ++ rest))
          (mkWatcher st (String.length (concatLines done))
             (AwaitRead (String.length (concatLines (done ++ mid))))) rep) Resume =
  mkWatching (concatLines (done ++ mid ++ rest))
    (mkWatcher st (String.length (concatLines (done ++ mid))) AwaitClose)
    (rep ++ omap event mid).
Proof.
  intros Hwhole. cbn [act content watcher reported].
  by rewrite (read_reports done mid rest
                (mkWatcher st (String.length (concatLines done))
                   (AwaitRead (String.length (concatLines (done ++ mid)))))
                Hwhole eq_refl eq_refl).
Qed.

Lemma act_close c st sz rep :
  act1 (mkWatching c (mkWatcher st sz AwaitClose) rep) Resume =
  mkWatching c (mkWatcher st sz NoTick) (rep ++ []).
Proof. reflexivity. Qed.

Lemma act_no_tick c st sz rep :
  act1 (mkWatching c (mkWatcher st sz NoTick) rep) Resume =
  mkWatching c (mkWatcher st sz NoTick) (rep ++ []).
Proof. reflexivity. Qed.

(** A whole tick of a watcher that is not stopped and has no tick in flight
    reports all the pending lines. *)
Lemma wholeTick_reports sched :
  Forall whole (appended sched) →
  existsb isStop sched = false →
  phase (watcher (watch1 sched)) = NoTick →
  reported (watch1 (sched ++ wholeTick)) = omap event (appended sched).
Proof.
  intros Hwhole Hno Hidle.
  destruct (Seen_watch sched Hwhole)
    as [Hc (done & pending & Happ & Hsize & Hrep & _ & Hs2 & _)].
  specialize (Hs2 Hno).
  assert (Forall whole pending) as Hp
    by (rewrite Happ in Hwhole; by apply Forall_app in Hwhole as [_ ?]).
  rewrite watch_app. destruct (watch1 sched) as [c [st sz ph] rep].
  cbn [content watcher reported stopped lastSize phase] in *. subst st ph sz rep.
  unfold wholeTick, tickEnds. cbn [fold_left].
  rewrite act_tick, act_stat.
  destruct (String.length c <=? String.length (concatLines done))%nat eqn:E.
  - apply Nat.leb_le in E.
    assert (pending = []) as ->.
    { apply concatLines_empty. rewrite Hc, Happ, concatLines_length_app in E. lia. }
    rewrite !act_no_tick. cbn [reported].
    by rewrite !app_nil_r, Happ, app_nil_r.
  - rewrite act_open.
    assert (c = concatLines (done ++ pending ++ [])) as Hc'
      by (by rewrite app_nil_r, <- Happ).
    assert (String.length c = String.length (concatLines (done ++ pending))) as ->
      by (by rewrite Hc, Happ).
    rewrite Hc', (act_read done pending [] false _ Hp), act_close. cbn [reported].
    by rewrite !app_nil_r, Happ, omap_app.
Qed.

(** Every marker line appended to the file is reported once and in order:
    whatever the ticks and however the calls that they await come back, the
    markers reported so far are those of the first lines of the file, none
    twice and none out of order; and when the watcher was not stopped, the
    tick in flight has ended and one more tick has run, the report is up to
    the last line. *)
Theorem markers_reported_once sched :
  Forall whole (appended sched) →
  reported (watch1 sched) `prefix_of` omap event (appended sched) ∧
  (existsb isStop sched = false →
   reported (watch1 (sched ++ tickEnds ++ wholeTick)) = omap event (appended sched)).
Proof.
  intros Hwhole.
  destruct (Seen_watch sched Hwhole)
    as [Hc (done & pending & Happ & Hsize & Hrep & Hs1 & Hs2 & _)].
  split.
  - rewrite Hrep, Happ, omap_app. by apply prefix_app_r.
  - intros Hno. rewrite app_assoc, <- (tickEnds_appended sched).
    apply wholeTick_reports.
    + by rewrite tickEnds_appended.
    + by rewrite tickEnds_stops.
    + rewrite watch_app. apply tickEnds_phase.
Qed.

(** A watcher that is stopped and has no tick in flight stays so. *)
Lemma silent_act s a :
  stopped (watcher s) = true → phase (watcher s) = NoTick →
  stopped (watcher (act1 s a)) = true ∧ phase (watcher (act1 s a)) = NoTick ∧
  reported (act1 s a) = reported s.
Proof.
  intros Hstop Hidle. destruct a; cbn [act content watcher reported]; try done.
  - unfold tickBegin. by rewrite Hstop.
  - unfold resume. rewrite Hidle. cbn [content watcher reported].
    by rewrite app_nil_r.
  - unfold reject. by rewrite Hidle.
Qed.

(** After [stop()] no tick begins, and when no tick is in flight nothing
    more is reported, whatever is appended and whenever the interval fires;
    a tick that is in flight when the watcher is stopped runs on. *)
Theorem stopped_watcher_is_silent sched later :
  stopped (watcher (watch JSON_parse Date_parse startedAtMsEpoch sched)) = true →
  phase (watcher (watch JSON_parse Date_parse startedAtMsEpoch sched)) = NoTick →
  reported (watch JSON_parse Date_parse startedAtMsEpoch (sched ++ later)) =
  reported (watch JSON_parse Date_parse startedAtMsEpoch sched) ∧
  phase (watcher (watch JSON_parse Date_parse startedAtMsEpoch (sched ++ later))) = NoTick.
Proof.
  rewrite watch_app. generalize (watch1 sched).
  induction later as [|a later IH]; intros s Hstop Hidle; [done|].
  cbn [fold_left]. destruct (silent_act s a Hstop Hidle) as (H1 & H2 & H3).
  destruct (IH (act1 s a) H1 H2) as [-> ->]. done.
Qed.

End WithRuntime.

(** ** Witnesses *)

(** A marker, a tick from its start to its end, a marker and a line that is
    no JSON. *)
Lemma markers_reported_once_witness :
  Forall (wholeLine markerParse (fun _ => None) 0)
    (appended [Append "m"; Resume; Resume; Resume; Append "m"; Append "x"]) ∧
  reported (watch markerParse (fun _ => None) 0
              [Append "m"; Resume; Resume; Resume; Append "m"; Append "x"]) =
  [mkMarkerEvent 1200 None (Some "5f2a")] ∧
  reported (watch markerParse (fun _ => None) 0
              ([Append "m"; Resume; Resume; Resume; Append "m"; Append "x"] ++
               tickEnds ++ wholeTick)) =
  [mkMarkerEvent 1200 None (Some "5f2a"); mkMarkerEvent 1200 None (Some "5f2a")].
Proof.
  assert (Forall (wholeLine markerParse (fun _ => None) 0)
            (appended [Append "m"; Resume; Resume; Resume; Append "m"; Append "x"])) as H.
  { repeat constructor; simpl; try discriminate;
      intros c Hc; repeat destruct Hc as [<-|Hc]; try done. }
  split; [exact H|]. split; [reflexivity|].
  destruct (markers_reported_once markerParse (fun _ => None) 0
              [Append "m"; Resume; Resume; Resume; Append "m"; Append "x"] H) as [_ ->];
    reflexivity.
Defined.

(** The first tick ends, the watcher is stopped, and a marker is appended
    while the interval goes on firing. *)
Lemma stopped_watcher_is_silent_witness :
  stopped (watcher (watch markerParse (fun _ => None) 0 [Resume; Stop])) = true ∧
  phase (watcher (watch markerParse (fun _ => None) 0 [Resume; Stop])) = NoTick ∧
  reported (watch markerParse (fun _ => None) 0
              ([Resume; Stop] ++ [Append "m"; Tick; Resume; Resume; Resume])) = [].
Proof.
  split; [reflexivity|]. split; [reflexivity|].
  exact (proj1 (stopped_watcher_is_silent markerParse (fun _ => None) 0 [Resume; Stop]
                  [Append "m"; Tick; Resume; Resume; Resume] eq_refl eq_refl)).
Defined.

(** A tick that is in flight when the watcher is stopped reports what it
    reads: a marker is appended, [stat] comes back, the watcher is stopped,
    and [open] and [read] come back. *)
Example tick_in_flight_reports_after_stop :
  reported (watch markerParse (fun _ => None) 0 [Append "m"; Resume; Stop]) = [] ∧
  reported (watch markerParse (fun _ => None) 0 [Append "m"; Resume; Stop; Resume; Resume]) =
  [mkMarkerEvent 1200 None (Some "5f2a")].
Proof. split; reflexivity. Qed.

End MarkerWatcherFacts.

(* ===================================================================== *)
(** * Properties of the report's escaping                                 *)
(* ===================================================================== *)

Module ReportFacts.
Import Report.
Local Open Scope string_scope.

Lemma chars_append a b : chars (a ++ b) = (chars a ++ chars b)%list.
Proof.
  induction a as [|x a IH]; [done|].
  change (x :: chars (a ++ b) = x :: (chars a ++ chars b))%list.
  by rewrite IH.
Qed.

Lemma append_assoc a b c : (a ++ b) ++ c = a ++ (b ++ c).
Proof.
  induction a as [|x a IH]; [done|].
  change (String x ((a ++ b) ++ c) = String x (a ++ (b ++ c))). by rewrite IH.
Qed.

Lemma replaceAll_expand c r s :
  replaceAll c r s = expand (fun x => if Ascii.eqb x c then r else String x EmptyString) s.
Proof.
  induction s as [|x s IH]; [done|]. simpl. rewrite IH.
  by destruct (Ascii.eqb x c).
Qed.

Lemma expand_append f a b : expand f (a ++ b) = expand f a ++ expand f b.
Proof.
  induction a as [|x a IH]; [done|].
  change (f x ++ expand f (a ++ b) = (f x ++ expand f a) ++ expand f b).
  by rewrite IH, append_assoc.
Qed.

Lemma expand_expand f g s :
  expand g (expand f s) = expand (fun x => expand g (f x)) s.
Proof.
  induction s as [|x s IH]; [done|]. simpl. by rewrite expand_append, IH.
Qed.

Lemma expand_ext f g s : (∀ x, f x = g x) → expand f s = expand g s.
Proof. intros H. induction s as [|x s IH]; [done|]. simpl. by rewrite H, IH. Qed.

Lemma chars_expand f s c :
  In c (chars (expand f s)) → ∃ x, In x (chars s) ∧ In c (chars (f x)).
Proof.
  induction s as [|x s IH]; [done|]. simpl. rewrite chars_append.
  intros [H|H]%in_app_or.
  - exists x. split; [by left|done].
  - destruct (IH H) as (y & Hy & Hc). exists y. split; [by right|done].
Qed.

Lemma escapeChar_no_markup x :
  forallb (fun c => negb (markup c)) (chars (escapeChar x)) = true.
Proof. destruct x as [[] [] [] [] [] [] [] []]; reflexivity. Qed.

(** The five replacements of [escapeHtml], one after the other, come to one
    pass that replaces each of the five characters by its entity: the
    ampersands of the entities are not escaped again, and nothing else is
    changed.  So the result holds no angle bracket and no quote. *)
Theorem escapeHtml_is_one_pass input :
  escapeHtml input = expand escapeChar input ∧
  ∀ c, In c (chars (escapeHtml input)) → markup c = false.
Proof.
  assert (escapeHtml input = expand escapeChar input) as E.
  { unfold escapeHtml. rewrite !replaceAll_expand, !expand_expand.
    apply expand_ext. intros x. destruct x as [[] [] [] [] [] [] [] []]; reflexivity. }
  split; [done|]. rewrite E. intros c Hc.
  apply chars_expand in Hc as (x & _ & Hc).
  pose proof (escapeChar_no_markup x) as H.
  rewrite forallb_forall in H. specialize (H c Hc). by apply negb_true_iff in H.
Qed.

Lemma replaceAll_absent c r s :
  ¬ In c (chars r) → ¬ In c (chars (replaceAll c r s)).
Proof.
  intros Hr. induction s as [|x s IH]; [by intros []|]. simpl.
  destruct (Ascii.eqb x c) eqn:E.
  - rewrite chars_append. intros [H|H]%in_app_or; [by apply Hr|by apply IH].
  - apply Ascii.eqb_neq in E. intros [H|H]; [done|by apply IH].
Qed.

Lemma replaceAll_same c r s : ¬ In c (chars s) → replaceAll c r s = s.
Proof.
  induction s as [|x s IH]; [done|]. intros H. simpl.
  destruct (Ascii.eqb x c) eqn:E.
  - apply Ascii.eqb_eq in E. exfalso. apply H. by left.
  - rewrite IH; [done|]. intros Hs. apply H. by right.
Qed.

(** The session data embedded in the report's script element holds no
    opening angle bracket, so that no text of the session can close the
    element; a document without one is embedded as it is. *)
Theorem safeJsonForHtml_has_no_tag json :
  ¬ In "<"%char (chars (safeJsonForHtml json)) ∧
  (¬ In "<"%char (chars json) → safeJsonForHtml json = json).
Proof.
  split; [|apply replaceAll_same].
  apply replaceAll_absent. simpl. intros [H|[H|[H|[H|[H|[H|[]]]]]]]; discriminate.
Qed.

End ReportFacts.

(* ===================================================================== *)
(** * What the written document holds                                     *)
(* ===================================================================== *)

Module SessionRunFacts.
Import Schema Session SessionRun.

Section Live.
Variable opts : RunSessionOptions.
Variable recordTurns : list TurnEvent → JsonlSelect.JsonlTracker → JsonlSelect.JsonlTracker.

Local Abbreviation topts := (trackerOptions opts).
Local Abbreviation events := (List.map (trackerEvent opts)).

Lemma new_emissions w e :
  Tracker.emitted (Tracker.step topts w e) =
  Tracker.emitted w ++
  drop (length (Tracker.emitted w)) (Tracker.emitted (Tracker.step topts w e)).
Proof.
  destruct (TrackerFacts.prefix_step topts w e) as [rest Hrest].
  rewrite Hrest at 1. by rewrite Hrest, drop_app_length.
Qed.

Lemma deliver_tracker r w e :
  tracker r = Some w →
  finalized (deliver opts recordTurns r e) = finalized r ∧
  tracker (deliver opts recordTurns r e) =
    Some (Tracker.step topts w (trackerEvent opts e)) ∧
  session (deliver opts recordTurns r e) =
    option_map
      (pushEmissions
         (drop (length (Tracker.emitted w))
            (Tracker.emitted (Tracker.step topts w (trackerEvent opts e)))))
      (session r).
Proof. intros H. unfold deliver. by rewrite H. Qed.

(** While the session is live the session data holds what the tracker has
    emitted. *)
Lemma live_session hs : ∀ r,
  justStarted r →
  finalized (live opts recordTurns hs r) = false ∧
  tracker (live opts recordTurns hs r) = Some (Tracker.run topts (events hs)) ∧
  ∃ s, session (live opts recordTurns hs r) = Some s ∧
       turns s = Tracker.turnsOf (Tracker.emitted (Tracker.run topts (events hs))) ∧
       interactions s =
         Tracker.interactionsOf (Tracker.emitted (Tracker.run topts (events hs))).
Proof.
  induction hs as [|h hs IH] using rev_ind; intros r Hr.
  - destruct Hr as (Hf & Ht & s & Hs & H1 & H2). split_and!; [done|done|].
    exists s. by split_and!.
  - destruct (IH r Hr) as (Hf & Ht & s & Hs & H1 & H2).
    unfold live in *. rewrite fold_left_app. simpl.
    destruct (deliver_tracker _ _ h Ht) as (-> & -> & ->).
    rewrite List.map_app. simpl. rewrite TrackerFacts.run_snoc.
    split_and!; [done|done|]. rewrite Hs. simpl. eexists. split; [done|]. simpl.
    set (w := Tracker.run topts (events hs)) in *.
    set (e := trackerEvent opts h).
    pose proof (new_emissions w e) as Hnew.
    set (new := drop (length (Tracker.emitted w))
                  (Tracker.emitted (Tracker.step topts w e))) in *.
    rewrite Hnew. unfold Tracker.turnsOf, Tracker.interactionsOf in *.
    rewrite !omap_app, H1, H2. done.
Qed.

(** The document written when the child exits holds every turn event and
    every interaction that the tracker emitted during the session, in the
    order of their emission and followed by those that the end of the
    session finalizes; it is written once, also when the report cannot be
    generated. *)
Theorem document_holds_the_session hs r now report :
  justStarted r →
  ∃ doc,
    writes (finalize opts now report (live opts recordTurns hs r)).2 = [doc] ∧
    turns doc =
      Tracker.turnsOf
        (Tracker.emitted (Tracker.run topts (events hs ++ [Tracker.EndSession]))) ∧
    interactions doc =
      Tracker.interactionsOf
        (Tracker.emitted (Tracker.run topts (events hs ++ [Tracker.EndSession]))).
Proof.
  intros Hr. destruct (live_session hs r Hr) as (Hf & Ht & s & Hs & H1 & H2).
  rewrite TrackerFacts.run_snoc.
  set (w := Tracker.run topts (events hs)) in *.
  unfold finalize. rewrite Hf, Ht, Hs.
  pose proof (new_emissions w Tracker.EndSession) as Hnew.
  change (Tracker.step topts w Tracker.EndSession) with (Tracker.endSession w) in *.
  set (new := drop (length (Tracker.emitted w)) (Tracker.emitted (Tracker.endSession w)))
    in *.
  assert (Tracker.turnsOf (Tracker.emitted (Tracker.endSession w)) =
          turns s ++ Tracker.turnsOf new) as E1
    by (rewrite Hnew; unfold Tracker.turnsOf in *; by rewrite omap_app, H1).
  assert (Tracker.interactionsOf (Tracker.emitted (Tracker.endSession w)) =
          interactions s ++ Tracker.interactionsOf new) as E2
    by (rewrite Hnew; unfold Tracker.interactionsOf in *; by rewrite omap_app, H2).
  rewrite E1, E2.
  destruct report as [html|err]; [destruct (Js.nonEmpty html)|];
    destruct (jsonlTracker _);
    (eexists; split_and!;
     [unfold writes, when; simpl;
      destruct (hasMonitor _), (hasMarkerWatcher _), (hasCleanupTty _),
        (hasStdinHandler _), (hasSigintHandler _), (hasChild _), (hasOverlay _);
      reflexivity
     |reflexivity|reflexivity]).
Qed.

End Live.

(** ** Witness *)

(** A key and its echo, then the exit. *)
Lemma document_holds_the_session_witness :
  justStarted startedRuntime ∧
  ∃ doc,
    writes (finalize defaultOptions "2026-01-01T00:00:00.000Z" (inl "<html></html>")
              (live defaultOptions (fun _ t => t) [Stdin "a" 0; Pty "a" 5]
                 startedRuntime)).2 = [doc] ∧
    List.map id (interactions doc) = [1].
Proof.
  assert (justStarted startedRuntime) as H.
  { split_and!; [done|done|]. eexists. by split_and!. }
  split; [exact H|].
  destruct (document_holds_the_session defaultOptions (fun _ t => t)
              [Stdin "a" 0; Pty "a" 5] startedRuntime "2026-01-01T00:00:00.000Z"
              (inl "<html></html>") H) as (doc & Hw & _ & Hi).
  exists doc. split; [exact Hw|]. rewrite Hi. reflexivity.
Defined.

End SessionRunFacts.
